(** * analizador27: lexer, recursive-descent parser and schema validator

    A shallow embedding of [src/analizador27.py].

    - Text is a [string] of 8-bit characters, read as code points.  The
      character classes of the regular expression ([\d], [\w]) and of
      [str.strip] and [str.splitlines] are written out for the code points
      0..127, where they are those of Python.  Python has more letters,
      blanks and line boundaries above 127, so the statements about the
      characters of a text are made of ASCII text ([ascii_text]).
    - Python integers are unbounded: [Z].  [int_of_digits] is the number a
      digit string denotes; [int] is the conversion with the limit of the
      interpreter, which refuses a string of more than 4300 digits with
      [ValueError].  [Tokenizer_tokenize] is the tokenizer with that
      outcome; [tokenize] is the list of tokens it returns whenever it
      returns.
    - A float is kept as the literal text it was read from ([float(text)] is
      a function of that text); no claim depends on its numeric value.
    - A Python [dict] is an association list in insertion order.
    - An exception is a value of type [exception]; a computation that may
      raise returns an [outcome].
    - The parser is recursive.  [parse] gives its result whatever the depth
      of the calls; [Parser_parse] runs it in a given number of stack frames
      and raises [RecursionError] where the calls need more. *)

From Stdlib Require Import String Ascii List ZArith Bool Arith Lia.
Import ListNotations.
Open Scope string_scope.

Set Warnings "-register-all".

(* ================================================================= *)
(** ** Characters *)

Definition dquote : ascii := "034"%char.
Definition backslash : ascii := "092"%char.
Definition hash : ascii := "035"%char.
Definition dot : ascii := "046"%char.

Definition code (c : ascii) : nat := nat_of_ascii c.

(** [\d] *)
Definition is_digit (c : ascii) : bool :=
  (48 <=? code c)%nat && (code c <=? 57)%nat.

(** [\w] : letters, digits and the underscore *)
Definition is_word (c : ascii) : bool :=
  is_digit c
  || ((65 <=? code c)%nat && (code c <=? 90)%nat)
  || ((97 <=? code c)%nat && (code c <=? 122)%nat)
  || (code c =? 95)%nat.

(** [{|}|\[|\]|=|,|:] *)
Definition is_operator_char (c : ascii) : bool :=
  existsb (Ascii.eqb c) ["{"; "}"; "["; "]"; "="; ","; ":"]%char.

(** Whitespace removed by [str.strip()]. *)
Definition is_space (c : ascii) : bool :=
  ((9 <=? code c)%nat && (code c <=? 13)%nat)
  || ((28 <=? code c)%nat && (code c <=? 32)%nat).

(** Line boundaries of [str.splitlines()] (a CR LF pair is one boundary). *)
Definition is_linebreak (c : ascii) : bool :=
  ((10 <=? code c)%nat && (code c <=? 13)%nat)
  || ((28 <=? code c)%nat && (code c <=? 30)%nat).

Definition CR : ascii := "013"%char.
Definition LF : ascii := "010"%char.

(** [ch.isascii()]: the code points on which the classes above are those of
    Python. *)
Definition is_ascii (c : ascii) : bool := (code c <? 128)%nat.

(* ================================================================= *)
(** ** Tokens *)

(** The payload of a [('NUMBER', _)] token: [int(text)] or [float(text)]. *)
Inductive number : Type :=
| NInt (z : Z)
| NFloat (text : string).

(** The tagged tuples appended to [self.tokens]. *)
Inductive token : Type :=
| STRING (s : string)
| NUMBER (n : number)
| OPERATOR (s : string)
| IDENTIFIER (s : string).

(* ================================================================= *)
(** ** Tokenizer *)

(** [str.splitlines()] *)
Fixpoint splitlines (s : string) : list string :=
  match s with
  | EmptyString => []
  | String c rest =>
      if is_linebreak c then
        EmptyString ::
          match rest with
          | String c' rest' =>
              if Ascii.eqb c CR && Ascii.eqb c' LF then splitlines rest'
              else splitlines rest
          | EmptyString => []
          end
      else
        match splitlines rest with
        | [] => [String c EmptyString]
        | l :: ls => String c l :: ls
        end
  end.

Fixpoint lstrip (s : string) : string :=
  match s with
  | EmptyString => EmptyString
  | String c rest => if is_space c then lstrip rest else s
  end.

(** [s] without its longest suffix of characters satisfying [p]. *)
Fixpoint rstrip_by (p : ascii -> bool) (s : string) : string :=
  match s with
  | EmptyString => EmptyString
  | String c rest =>
      match rstrip_by p rest with
      | EmptyString => if p c then EmptyString else String c EmptyString
      | r => String c r
      end
  end.

Definition rstrip (s : string) : string := rstrip_by is_space s.

(** [str.strip()] *)
Definition strip (s : string) : string := rstrip (lstrip s).

(** [line.rstrip('\n')] *)
Definition rstrip_newline (line : string) : string :=
  rstrip_by (Ascii.eqb LF) line.

(** The [for ch in line] loop of [_strip_inline_comments]; the result is
    [''.join(out)]. *)
Fixpoint strip_loop (in_str esc : bool) (line : string) : string :=
  match line with
  | EmptyString => EmptyString
  | String ch rest =>
      if in_str then
        if esc then String ch (strip_loop true false rest)
        else if Ascii.eqb ch backslash then String ch (strip_loop true true rest)
        else if Ascii.eqb ch dquote then String ch (strip_loop false false rest)
        else String ch (strip_loop true false rest)
      else
        if Ascii.eqb ch dquote then String ch (strip_loop true false rest)
        else if Ascii.eqb ch hash then EmptyString
        else String ch (strip_loop false false rest)
  end.

Definition _strip_inline_comments (line : string) : string :=
  strip (strip_loop false false line).

(** The longest prefix of characters satisfying [p], and what follows. *)
Fixpoint span (p : ascii -> bool) (s : string) : string * string :=
  match s with
  | EmptyString => (EmptyString, EmptyString)
  | String c rest =>
      if p c then let (a, b) := span p rest in (String c a, b)
      else (EmptyString, s)
  end.

(** The rest of the first alternative, after its opening quote: the text up
    to the next double quote, and what follows that quote. *)
Fixpoint until_quote (s : string) : option (string * string) :=
  match s with
  | EmptyString => None
  | String c rest =>
      if Ascii.eqb c dquote then Some (EmptyString, rest)
      else match until_quote rest with
           | Some (a, b) => Some (String c a, b)
           | None => None
           end
  end.

(** The four capture groups of one match. *)
Definition groups : Type := (string * string * string * string)%type.

(** One match of the pattern of [tokenize] anchored at the start of [s].  Its
    four alternatives are tried in order: a quoted literal (group 1 is the
    text between the quotes, which has no quote in it), [\d+\.?\d*], one
    of the seven operator characters, [\w+]; every quantifier is greedy.
    The result is the groups and the text after the match. *)
Definition match_at (s : string) : option (groups * string) :=
  match s with
  | EmptyString => None
  | String c rest =>
      if Ascii.eqb c dquote then
        match until_quote rest with
        | Some (body, after) => Some ((body, "", "", ""), after)
        | None => None
        end
      else if is_digit c then
        let (d1, r1) := span is_digit s in
        match r1 with
        | String c1 r2 =>
            if Ascii.eqb c1 dot then
              let (d2, r3) := span is_digit r2 in
              Some (("", d1 ++ String dot d2, "", ""), r3)
            else Some (("", d1, "", ""), r1)
        | EmptyString => Some (("", d1, "", ""), r1)
        end
      else if is_operator_char c then
        Some (("", "", String c "", ""), rest)
      else if is_word c then
        let (w, r1) := span is_word s in Some (("", "", "", w), r1)
      else None
  end.

(** [re.findall]: scan left to right; where no alternative matches, move one
    character on.  [fuel] bounds the number of steps. *)
Fixpoint findall_fuel (fuel : nat) (s : string) : list groups :=
  match fuel with
  | O => []
  | S fuel' =>
      match s with
      | EmptyString => []
      | String _ rest =>
          match match_at s with
          | Some (g, after) => g :: findall_fuel fuel' after
          | None => findall_fuel fuel' rest
          end
      end
  end.

Definition findall (s : string) : list groups :=
  findall_fuel (String.length s) s.

(** Truthiness of a Python string. *)
Definition truthy (s : string) : bool :=
  match s with EmptyString => false | _ => true end.

(** ['.' in s] *)
Fixpoint has_dot (s : string) : bool :=
  match s with
  | EmptyString => false
  | String c rest => Ascii.eqb c dot || has_dot rest
  end.

(** The number that a string of decimal digits denotes: what [int(s)]
    returns, when it returns ([int], below, has its limit). *)
Fixpoint int_of_digits_acc (acc : Z) (s : string) : Z :=
  match s with
  | EmptyString => acc
  | String c rest =>
      int_of_digits_acc (10 * acc + (Z.of_nat (code c) - 48)) rest
  end.

Definition int_of_digits (s : string) : Z := int_of_digits_acc 0 s.

(** The body of [for group in regex_tokens]. *)
Definition token_of_group (g : groups) : list token :=
  let '(g0, g1, g2, g3) := g in
  if truthy g0 then [STRING g0]
  else if truthy g1 then
    if has_dot g1 then [NUMBER (NFloat g1)]
    else [NUMBER (NInt (int_of_digits g1))]
  else if truthy g2 then [OPERATOR g2]
  else if truthy g3 then [IDENTIFIER g3]
  else [].

(** The body of [for line in lines]: the tokens one line contributes. *)
Definition line_tokens (line : string) : list token :=
  let line := rstrip_newline line in
  let line := _strip_inline_comments line in
  let line := strip line in
  if truthy line then flat_map token_of_group (findall line) else [].

(** What [Tokenizer(source).tokenize()] returns, when it returns
    ([Tokenizer_tokenize], below, is the method with its outcome). *)
Definition tokenize (source : string) : list token :=
  flat_map line_tokens (splitlines source).

(** A double-quoted literal, for writing inputs. *)
Definition q (s : string) : string :=
  String dquote (s ++ String dquote EmptyString).

(* ================================================================= *)
(** ** Values, dictionaries, exceptions *)

(** What [parse_value] returns and what a block stores: [str], [int],
    [float], [bool], [list], [dict].  A section (a nested block) and a map
    are both a [dict]. *)
Inductive value : Type :=
| VStr (s : string)
| VInt (z : Z)
| VFloat (text : string)
| VBool (b : bool)
| VList (l : list value)
| VDict (d : list (string * value)).

Definition dict : Type := list (string * value).

(** The symbol table: entity name to root block. *)
Definition symbol_table : Type := list (string * dict).

Section Assoc.
Variable A : Type.

(** [k in d] *)
Definition mem (k : string) (d : list (string * A)) : bool :=
  existsb (fun kv => String.eqb k (fst kv)) d.

(** [d.get(k)]: [None] when the key is absent. *)
Fixpoint get (d : list (string * A)) (k : string) : option A :=
  match d with
  | [] => None
  | (k', v) :: d' => if String.eqb k k' then Some v else get d' k
  end.

(** [d[k] = v]: a present key keeps its place, a new key goes last. *)
Fixpoint set (d : list (string * A)) (k : string) (v : A)
  : list (string * A) :=
  match d with
  | [] => [(k, v)]
  | (k', v') :: d' =>
      if String.eqb k k' then (k', v) :: d' else (k', v') :: set d' k v
  end.

Definition keys (d : list (string * A)) : list string := map fst d.
End Assoc.

Arguments mem {A} k d.
Arguments get {A} d k.
Arguments set {A} d k v.
Arguments keys {A} d.

(** One constructor for each [raise SyntaxError] of the parser; [found] is
    the offending token, [None] at the end of the tokens. *)
Inductive syntax_error : Type :=
| ExpectedOperator (op_char : string) (found : option token)
| ExpectedKvSep (found : option token)
| ExpectedJuego (found : token)
| ExpectedGameName
| GameRedeclared (game_name : string)
| MissingCloseBlock
| ExpectedIdentInBlock (found : token)
| RedefinedKey (key : string)
| RedefinedSection (key : string)
| ExpectedAssignOrSection (key : string)
| ExpectedValue
| UnexpectedValue (found : token)
| MissingCloseList
| MissingCloseMap
| InvalidMapKey (found : token)
| DuplicateMapKey (key : string).

(** [ValueError] is what [int] raises on [literal]; [RecursionError] is
    what a call raises when no stack frame is left for it. *)
Inductive exception : Type :=
| SyntaxError (e : syntax_error)
| NameError (ref : string)
| AttributeError (receiver : value) (attr : string)
| KeyError (key : string)
| ValueError (literal : string)
| RecursionError.

Inductive outcome (A : Type) : Type :=
| Ok (a : A)
| Raise (e : exception)
| OutOfFuel.

Arguments Ok {A} a.
Arguments Raise {A} e.
Arguments OutOfFuel {A}.

Definition bind {A B : Type} (m : outcome A) (f : A -> outcome B)
  : outcome B :=
  match m with
  | Ok a => f a
  | Raise e => Raise e
  | OutOfFuel => OutOfFuel
  end.

Notation "x <- m ;; k" := (bind m (fun x => k))
  (at level 61, m at next level, right associativity).
Notation "' p <- m ;; k" := (bind m (fun x => let 'p := x in k))
  (at level 61, p pattern, m at next level, right associativity).

(* ================================================================= *)
(** ** The conversions of the tokenizer

    [int(group[1])] is the one operation of [tokenize] that can raise. *)

(** [sys.int_info.default_max_str_digits] *)
Definition int_max_str_digits : nat := 4300.

(** [int(s)] for a string of decimal digits: the number it denotes, unless
    [s] has more digits than the interpreter converts. *)
Definition int (s : string) : outcome Z :=
  if (int_max_str_digits <? String.length s)%nat then Raise (ValueError s)
  else Ok (int_of_digits s).

(** The body of [for group in regex_tokens], with the outcome of the
    conversion. *)
Definition Tokenizer_group (g : groups) : outcome (list token) :=
  let '(g0, g1, g2, g3) := g in
  if truthy g0 then Ok [STRING g0]
  else if truthy g1 then
    if has_dot g1 then Ok [NUMBER (NFloat g1)]
    else z <- int g1 ;; Ok [NUMBER (NInt z)]
  else if truthy g2 then Ok [OPERATOR g2]
  else if truthy g3 then Ok [IDENTIFIER g3]
  else Ok [].

(** The loop [for group in regex_tokens]: it stops at the first conversion
    that raises. *)
Fixpoint Tokenizer_groups (regex_tokens : list groups)
  : outcome (list token) :=
  match regex_tokens with
  | [] => Ok []
  | g :: gs =>
      ts <- Tokenizer_group g ;;
      ts' <- Tokenizer_groups gs ;;
      Ok (ts ++ ts')%list
  end.

(** The matches [re.findall] is run for on one line: none on a line that is
    empty once stripped. *)
Definition line_matches (line : string) : list groups :=
  let line := rstrip_newline line in
  let line := _strip_inline_comments line in
  let line := strip line in
  if truthy line then findall line else [].

(** The body of [for line in lines]. *)
Definition Tokenizer_line (line : string) : outcome (list token) :=
  Tokenizer_groups (line_matches line).

(** The loop [for line in lines]. *)
Fixpoint Tokenizer_lines (lines : list string) : outcome (list token) :=
  match lines with
  | [] => Ok []
  | line :: ls =>
      ts <- Tokenizer_line line ;;
      ts' <- Tokenizer_lines ls ;;
      Ok (ts ++ ts')%list
  end.

(** [Tokenizer(source).tokenize()] *)
Definition Tokenizer_tokenize (source : string) : outcome (list token) :=
  Tokenizer_lines (splitlines source).

(* ================================================================= *)
(** ** Parser

    The cursor [current_token_index] over [self.tokens] is the list of the
    tokens not yet read: [peek_token()] is its head ([None] when the list
    is empty) and [get_token()] takes the head off. *)

(** [t[0] == 'OPERATOR' and t[1] == op] *)
Definition is_op (t : token) (op : string) : bool :=
  match t with
  | OPERATOR s => String.eqb s op
  | _ => false
  end.

(** [tval in ('verdadero', 'falso')] *)
Definition is_bool_word (s : string) : bool :=
  String.eqb s "verdadero" || String.eqb s "falso".

Definition expect_operator (op_char : string) (ts : list token)
  : outcome (token * list token) :=
  match ts with
  | t :: ts' =>
      if is_op t op_char then Ok (t, ts')
      else Raise (SyntaxError (ExpectedOperator op_char (Some t)))
  | [] => Raise (SyntaxError (ExpectedOperator op_char None))
  end.

Definition expect_kv_sep (ts : list token) : outcome (token * list token) :=
  match ts with
  | t :: ts' =>
      if is_op t ":" || is_op t "=" then Ok (t, ts')
      else Raise (SyntaxError (ExpectedKvSep (Some t)))
  | [] => Raise (SyntaxError (ExpectedKvSep None))
  end.

(** The optional comma after a list element. *)
Definition skip_comma (ts : list token) : list token :=
  match ts with
  | t :: ts' => if is_op t "," then ts' else ts
  | [] => ts
  end.

(** [t[0] in ('IDENTIFIER', 'STRING')], and then [t[1]]. *)
Definition map_key (t : token) : option string :=
  match t with
  | IDENTIFIER s => Some s
  | STRING s => Some s
  | _ => None
  end.

(** [tok[0] == 'IDENTIFIER' and tok[1] not in ('verdadero', 'falso')], and
    then [tok[1]]. *)
Definition bare_identifier (tok : token) : option string :=
  match tok with
  | IDENTIFIER ref => if is_bool_word ref then None else Some ref
  | _ => None
  end.

(** [parse_value], [parse_list] and [parse_map] with the bodies of their
    [while True] loops; every call spends one unit of [fuel]. *)
Fixpoint parse_value (fuel : nat) (ts : list token) {struct fuel}
  : outcome (value * list token) :=
  match fuel with
  | O => OutOfFuel
  | S fuel =>
      match ts with
      | [] => Raise (SyntaxError ExpectedValue)
      | STRING tval :: rest => Ok (VStr tval, rest)
      | NUMBER (NInt z) :: rest => Ok (VInt z, rest)
      | NUMBER (NFloat x) :: rest => Ok (VFloat x, rest)
      | IDENTIFIER tval :: rest =>
          if is_bool_word tval
          then Ok (VBool (String.eqb tval "verdadero"), rest)
          else Raise (SyntaxError (UnexpectedValue (IDENTIFIER tval)))
      | OPERATOR tval :: _ =>
          if String.eqb tval "[" then
            '(lst, rest) <- parse_list fuel ts ;; Ok (VList lst, rest)
          else if String.eqb tval "{" then
            '(mp, rest) <- parse_map fuel ts ;; Ok (VDict mp, rest)
          else Raise (SyntaxError (UnexpectedValue (OPERATOR tval)))
      end
  end

with parse_list (fuel : nat) (ts : list token) {struct fuel}
  : outcome (list value * list token) :=
  match fuel with
  | O => OutOfFuel
  | S fuel =>
      '(_, ts1) <- expect_operator "[" ts ;;
      parse_list_loop fuel [] ts1
  end

with parse_list_loop (fuel : nat) (lst : list value) (ts : list token)
  {struct fuel} : outcome (list value * list token) :=
  match fuel with
  | O => OutOfFuel
  | S fuel =>
      match ts with
      | [] => Raise (SyntaxError MissingCloseList)
      | tok :: rest =>
          if is_op tok "]" then Ok (lst, rest)
          else
            match bare_identifier tok with
            | Some ref => Raise (NameError ref)
            | None =>
                '(v, ts1) <- parse_value fuel ts ;;
                parse_list_loop fuel (lst ++ [v]) (skip_comma ts1)
            end
      end
  end

with parse_map (fuel : nat) (ts : list token) {struct fuel}
  : outcome (dict * list token) :=
  match fuel with
  | O => OutOfFuel
  | S fuel =>
      '(_, ts1) <- expect_operator "{" ts ;;
      parse_map_loop fuel [] ts1
  end

with parse_map_loop (fuel : nat) (mp : dict) (ts : list token)
  {struct fuel} : outcome (dict * list token) :=
  match fuel with
  | O => OutOfFuel
  | S fuel =>
      match ts with
      | [] => Raise (SyntaxError MissingCloseMap)
      | t :: rest =>
          if is_op t "}" then Ok (mp, rest)
          else if is_op t "," then parse_map_loop fuel mp rest
          else
            match map_key t with
            | None => Raise (SyntaxError (InvalidMapKey t))
            | Some k =>
                '(_, ts1) <- expect_kv_sep rest ;;
                '(v, ts2) <- parse_value fuel ts1 ;;
                if mem k mp then Raise (SyntaxError (DuplicateMapKey k))
                else parse_map_loop fuel (set mp k v) ts2
            end
      end
  end.

(** [parse_block_section] and the body of its [while True] loop. *)
Fixpoint parse_block_section (fuel : nat) (ts : list token) {struct fuel}
  : outcome (dict * list token) :=
  match fuel with
  | O => OutOfFuel
  | S fuel =>
      '(_, ts1) <- expect_operator "{" ts ;;
      parse_block_loop fuel [] ts1
  end

with parse_block_loop (fuel : nat) (block_content : dict) (ts : list token)
  {struct fuel} : outcome (dict * list token) :=
  match fuel with
  | O => OutOfFuel
  | S fuel =>
      match ts with
      | [] => Raise (SyntaxError MissingCloseBlock)
      | tok :: rest =>
          if is_op tok "}" then Ok (block_content, rest)
          else
            match tok with
            | IDENTIFIER key =>
                match rest with
                | next_tok :: rest' =>
                    if is_op next_tok "=" then
                      '(v, ts2) <- parse_value fuel rest' ;;
                      if mem key block_content
                      then Raise (SyntaxError (RedefinedKey key))
                      else parse_block_loop fuel (set block_content key v) ts2
                    else if is_op next_tok "{" then
                      '(sub_block, ts2) <- parse_block_section fuel rest ;;
                      if mem key block_content
                      then Raise (SyntaxError (RedefinedSection key))
                      else parse_block_loop fuel
                             (set block_content key (VDict sub_block)) ts2
                    else Raise (SyntaxError (ExpectedAssignOrSection key))
                | [] => Raise (SyntaxError (ExpectedAssignOrSection key))
                end
            | _ => Raise (SyntaxError (ExpectedIdentInBlock tok))
            end
      end
  end.

(** The [while self.peek_token() is not None] loop of [parse]. *)
Fixpoint parse_loop (fuel : nat) (table : symbol_table) (ts : list token)
  {struct fuel} : outcome symbol_table :=
  match fuel with
  | O => OutOfFuel
  | S fuel =>
      match ts with
      | [] => Ok table
      | IDENTIFIER word :: ts1 =>
          if String.eqb word "juego" then
            match ts1 with
            | STRING game_name :: ts2 =>
                '(root_block, ts3) <- parse_block_section fuel ts2 ;;
                if mem game_name table
                then Raise (SyntaxError (GameRedeclared game_name))
                else parse_loop fuel (set table game_name root_block) ts3
            | _ => Raise (SyntaxError ExpectedGameName)
            end
          else Raise (SyntaxError (ExpectedJuego (IDENTIFIER word)))
      | ident :: _ => Raise (SyntaxError (ExpectedJuego ident))
      end
  end.

(** Every loop iteration reads a token and every call spends one unit, so
    three units for each token are enough (see [parse_returns]). *)
Definition parse_fuel (ts : list token) : nat := 3 * List.length ts + 3.

Definition parse (ts : list token) : outcome symbol_table :=
  parse_loop (parse_fuel ts) [] ts.

(* ================================================================= *)
(** ** The parser in a bounded stack

    Every call of a method takes a frame of the stack of the interpreter,
    and a call for which no frame is left raises [RecursionError].  The
    frames counted are those of the methods of [Parser]; the built-in
    functions they use ([len], the tests on a token) make no call of a
    Python function.  In the functions below [frames] is the number of
    frames left for the calls the method makes: a call of [peek_token] or
    [get_token] needs one, [expect_operator] and [expect_kv_sep], which call
    [get_token], need two, and a parsing method called where [S frames] are
    left runs with [frames].  The fuel is that of the functions above. *)

Definition Parser_expect_operator (frames : nat) (op_char : string)
    (ts : list token) : outcome (token * list token) :=
  match frames with
  | S (S _) => expect_operator op_char ts
  | _ => Raise RecursionError
  end.

Definition Parser_expect_kv_sep (frames : nat) (ts : list token)
  : outcome (token * list token) :=
  match frames with
  | S (S _) => expect_kv_sep ts
  | _ => Raise RecursionError
  end.

Fixpoint Parser_parse_value (fuel frames : nat) (ts : list token)
  {struct fuel} : outcome (value * list token) :=
  match fuel with
  | O => OutOfFuel
  | S fuel =>
      match frames with
      | O => Raise RecursionError
      | S below =>
          match ts with
          | [] => Raise (SyntaxError ExpectedValue)
          | STRING tval :: rest => Ok (VStr tval, rest)
          | NUMBER (NInt z) :: rest => Ok (VInt z, rest)
          | NUMBER (NFloat x) :: rest => Ok (VFloat x, rest)
          | IDENTIFIER tval :: rest =>
              if is_bool_word tval
              then Ok (VBool (String.eqb tval "verdadero"), rest)
              else Raise (SyntaxError (UnexpectedValue (IDENTIFIER tval)))
          | OPERATOR tval :: _ =>
              if String.eqb tval "[" then
                '(lst, rest) <- Parser_parse_list fuel below ts ;;
                Ok (VList lst, rest)
              else if String.eqb tval "{" then
                '(mp, rest) <- Parser_parse_map fuel below ts ;;
                Ok (VDict mp, rest)
              else Raise (SyntaxError (UnexpectedValue (OPERATOR tval)))
          end
      end
  end

with Parser_parse_list (fuel frames : nat) (ts : list token) {struct fuel}
  : outcome (list value * list token) :=
  match fuel with
  | O => OutOfFuel
  | S fuel =>
      '(_, ts1) <- Parser_expect_operator frames "[" ts ;;
      Parser_parse_list_loop fuel frames [] ts1
  end

with Parser_parse_list_loop (fuel frames : nat) (lst : list value)
       (ts : list token) {struct fuel} : outcome (list value * list token) :=
  match fuel with
  | O => OutOfFuel
  | S fuel =>
      match frames with
      | O => Raise RecursionError
      | S below =>
          match ts with
          | [] => Raise (SyntaxError MissingCloseList)
          | tok :: rest =>
              if is_op tok "]" then Ok (lst, rest)
              else
                match bare_identifier tok with
                | Some ref => Raise (NameError ref)
                | None =>
                    '(v, ts1) <- Parser_parse_value fuel below ts ;;
                    Parser_parse_list_loop fuel frames (lst ++ [v])
                      (skip_comma ts1)
                end
          end
      end
  end

with Parser_parse_map (fuel frames : nat) (ts : list token) {struct fuel}
  : outcome (dict * list token) :=
  match fuel with
  | O => OutOfFuel
  | S fuel =>
      '(_, ts1) <- Parser_expect_operator frames "{" ts ;;
      Parser_parse_map_loop fuel frames [] ts1
  end

with Parser_parse_map_loop (fuel frames : nat) (mp : dict) (ts : list token)
  {struct fuel} : outcome (dict * list token) :=
  match fuel with
  | O => OutOfFuel
  | S fuel =>
      match frames with
      | O => Raise RecursionError
      | S below =>
          match ts with
          | [] => Raise (SyntaxError MissingCloseMap)
          | t :: rest =>
              if is_op t "}" then Ok (mp, rest)
              else if is_op t "," then Parser_parse_map_loop fuel frames mp rest
              else
                match map_key t with
                | None => Raise (SyntaxError (InvalidMapKey t))
                | Some k =>
                    '(_, ts1) <- Parser_expect_kv_sep frames rest ;;
                    '(v, ts2) <- Parser_parse_value fuel below ts1 ;;
                    if mem k mp then Raise (SyntaxError (DuplicateMapKey k))
                    else Parser_parse_map_loop fuel frames (set mp k v) ts2
                end
          end
      end
  end.

Fixpoint Parser_parse_block_section (fuel frames : nat) (ts : list token)
  {struct fuel} : outcome (dict * list token) :=
  match fuel with
  | O => OutOfFuel
  | S fuel =>
      '(_, ts1) <- Parser_expect_operator frames "{" ts ;;
      Parser_parse_block_loop fuel frames [] ts1
  end

with Parser_parse_block_loop (fuel frames : nat) (block_content : dict)
       (ts : list token) {struct fuel} : outcome (dict * list token) :=
  match fuel with
  | O => OutOfFuel
  | S fuel =>
      match frames with
      | O => Raise RecursionError
      | S below =>
          match ts with
          | [] => Raise (SyntaxError MissingCloseBlock)
          | tok :: rest =>
              if is_op tok "}" then Ok (block_content, rest)
              else
                match tok with
                | IDENTIFIER key =>
                    match rest with
                    | next_tok :: rest' =>
                        if is_op next_tok "=" then
                          '(v, ts2) <- Parser_parse_value fuel below rest' ;;
                          if mem key block_content
                          then Raise (SyntaxError (RedefinedKey key))
                          else Parser_parse_block_loop fuel frames
                                 (set block_content key v) ts2
                        else if is_op next_tok "{" then
                          '(sub_block, ts2) <-
                             Parser_parse_block_section fuel below rest ;;
                          if mem key block_content
                          then Raise (SyntaxError (RedefinedSection key))
                          else Parser_parse_block_loop fuel frames
                                 (set block_content key (VDict sub_block)) ts2
                        else Raise (SyntaxError (ExpectedAssignOrSection key))
                    | [] => Raise (SyntaxError (ExpectedAssignOrSection key))
                    end
                | _ => Raise (SyntaxError (ExpectedIdentInBlock tok))
                end
          end
      end
  end.

Fixpoint Parser_parse_loop (fuel frames : nat) (table : symbol_table)
    (ts : list token) {struct fuel} : outcome symbol_table :=
  match fuel with
  | O => OutOfFuel
  | S fuel =>
      match frames with
      | O => Raise RecursionError
      | S below =>
          match ts with
          | [] => Ok table
          | IDENTIFIER word :: ts1 =>
              if String.eqb word "juego" then
                match ts1 with
                | STRING game_name :: ts2 =>
                    '(root_block, ts3) <-
                       Parser_parse_block_section fuel below ts2 ;;
                    if mem game_name table
                    then Raise (SyntaxError (GameRedeclared game_name))
                    else Parser_parse_loop fuel frames
                           (set table game_name root_block) ts3
                | _ => Raise (SyntaxError ExpectedGameName)
                end
              else Raise (SyntaxError (ExpectedJuego (IDENTIFIER word)))
          | ident :: _ => Raise (SyntaxError (ExpectedJuego ident))
          end
      end
  end.

(** [Parser(tokens).parse()] where [frames] frames are left for the calls
    of [parse]. *)
Definition Parser_parse (frames : nat) (ts : list token)
  : outcome symbol_table :=
  Parser_parse_loop (parse_fuel ts) frames [] ts.

(* ================================================================= *)
(** ** Schema validation *)

(** [isinstance(x, (int, long))]: a [bool] is an instance of [int]. *)
Definition isinstance_int (x : option value) : bool :=
  match x with
  | Some (VInt _) | Some (VBool _) => true
  | _ => false
  end.

Definition isinstance_bool (x : option value) : bool :=
  match x with
  | Some (VBool _) => true
  | _ => false
  end.

(** The argument is [None] for Python's [None] (what [dict.get] returns for
    an absent key). *)
Definition is_int_strict (x : option value) : bool :=
  isinstance_int x && negb (isinstance_bool x).

Definition is_str (x : option value) : bool :=
  match x with
  | Some (VStr _) => true
  | _ => false
  end.

(** The receiver of [.get]: only a [dict] has the attribute. *)
Definition as_dict (v : value) : outcome dict :=
  match v with
  | VDict d => Ok d
  | _ => Raise (AttributeError v "get")
  end.

(** [d[k]] *)
Definition getitem {A : Type} (d : list (string * A)) (k : string)
  : outcome A :=
  match get d k with
  | Some v => Ok v
  | None => Raise (KeyError k)
  end.

(** [x > 0], [x < 0] on a value that passed [is_int_strict]. *)
Definition gt0 (x : value) : bool :=
  match x with VInt z => (0 <? z)%Z | _ => false end.

Definition lt0 (x : value) : bool :=
  match x with VInt z => (z <? 0)%Z | _ => false end.

(** [is_int_strict(d.get(k)) and d[k] > 0] *)
Definition int_gt0 (d : dict) (k : string) : outcome bool :=
  if is_int_strict (get d k) then x <- getitem d k ;; Ok (gt0 x)
  else Ok false.

(** [k for k in names if k not in cfg] *)
Definition missing (names : list string) (cfg : dict) : list string :=
  filter (fun k => negb (mem k cfg)) names.

(** The [for k in ('arriba', ...)] loop of [validate_snake]: the first key
    that is not bound to a string. *)
Fixpoint first_not_str (con : dict) (ks : list string) : option string :=
  match ks with
  | [] => None
  | k :: ks' => if negb (is_str (get con k)) then Some k
                else first_not_str con ks'
  end.

Definition validate_snake (cfg : dict) : outcome (bool * string) :=
  match missing ["rejilla"; "velocidad"; "controles"] cfg with
  | (_ :: _) as missing_sections =>
      Ok (false, "Snake: faltan secciones: "
                   ++ String.concat ", " missing_sections)
  | [] =>
      rej <- getitem cfg "rejilla" ;;
      vel <- getitem cfg "velocidad" ;;
      con <- getitem cfg "controles" ;;
      rej_d <- as_dict rej ;;
      ancho <- int_gt0 rej_d "ancho" ;;
      if negb ancho then Ok (false, "Snake: rejilla.ancho debe ser entero > 0")
      else
      alto <- int_gt0 rej_d "alto" ;;
      if negb alto then Ok (false, "Snake: rejilla.alto debe ser entero > 0")
      else
      vel_d <- as_dict vel ;;
      tick <- int_gt0 vel_d "tick_ms" ;;
      if negb tick
      then Ok (false, "Snake: velocidad.tick_ms debe ser entero > 0")
      else
      con_d <- as_dict con ;;
      match first_not_str con_d ["arriba"; "abajo"; "izquierda"; "derecha"] with
      | Some k => Ok (false, "Snake: controles." ++ k ++ " debe ser cadena")
      | None => Ok (true, "Snake OK")
      end
  end.

(** The [for k in ('1','2','3','4')] loop of [validate_tetris]. *)
Fixpoint first_bad_score (pl : dict) (ks : list string) : option string :=
  match ks with
  | [] => None
  | k :: ks' =>
      if negb (mem k pl) || negb (is_int_strict (get pl k))
         || match get pl k with Some x => lt0 x | None => false end
      then Some k
      else first_bad_score pl ks'
  end.

(** The [for opt in ('soft_drop_ms','lock_delay_ms')] loop. *)
Fixpoint first_bad_opt (vel : dict) (opts : list string) : option string :=
  match opts with
  | [] => None
  | opt :: opts' =>
      if mem opt vel && negb (is_int_strict (get vel opt)) then Some opt
      else first_bad_opt vel opts'
  end.

Definition validate_tetris (cfg : dict) : outcome (bool * string) :=
  match missing ["rejilla"; "velocidad"; "puntuacion"] cfg with
  | (_ :: _) as missing_sections =>
      Ok (false, "Tetris: faltan secciones: "
                   ++ String.concat ", " missing_sections)
  | [] =>
      rej <- getitem cfg "rejilla" ;;
      vel <- getitem cfg "velocidad" ;;
      pun <- getitem cfg "puntuacion" ;;
      rej_d <- as_dict rej ;;
      ancho <- int_gt0 rej_d "ancho" ;;
      if negb ancho then Ok (false, "Tetris: rejilla.ancho debe ser entero > 0")
      else
      alto <- int_gt0 rej_d "alto" ;;
      if negb alto then Ok (false, "Tetris: rejilla.alto debe ser entero > 0")
      else
      vel_d <- as_dict vel ;;
      grav <- int_gt0 vel_d "gravedad_ms" ;;
      if negb grav
      then Ok (false, "Tetris: velocidad.gravedad_ms debe ser entero > 0")
      else
      pun_d <- as_dict pun ;;
      match get pun_d "por_linea" with
      | Some (VDict pl) =>
          match first_bad_score pl ["1"; "2"; "3"; "4"] with
          | Some k =>
              Ok (false, "Tetris: puntuacion.por_linea['" ++ k
                           ++ "'] debe ser entero >= 0")
          | None =>
              match first_bad_opt vel_d ["soft_drop_ms"; "lock_delay_ms"] with
              | Some opt =>
                  Ok (false, "Tetris: velocidad." ++ opt ++ " debe ser entero")
              | None => Ok (true, "Tetris OK")
              end
          end
      | _ => Ok (false, "Tetris: puntuacion.por_linea debe ser un mapa")
      end
  end.

(** One entry of the list [validate_all] returns. *)
Record validation_record : Type := mk_record
  { juego : string; valido : bool; mensaje : string }.

(** The choice of a rule set by [game_name] in the loop of
    [validate_all]. *)
Definition validate_game (game_name : string) (cfg : dict)
  : outcome (bool * string) :=
  if String.eqb game_name "snake" then validate_snake cfg
  else if String.eqb game_name "tetris" then validate_tetris cfg
  else Ok (true, "Juego generico (sin validador especifico)").

(** The [for game_name, cfg in symbol_table.items()] loop; an exception of
    a validator leaves the loop and the function. *)
Fixpoint validate_all (table : symbol_table)
  : outcome (list validation_record) :=
  match table with
  | [] => Ok []
  | (game_name, cfg) :: rest =>
      '(ok, msg) <- validate_game game_name cfg ;;
      results <- validate_all rest ;;
      Ok (mk_record game_name ok msg :: results)
  end.

(* ================================================================= *)
(** ** Vocabulary of the statements *)

(** The tokens of one comment-free line. *)
Definition scan (line : string) : list token :=
  flat_map token_of_group (findall line).

(** Every character of [s] satisfies [p]. *)
Fixpoint all_chars (p : ascii -> bool) (s : string) : bool :=
  match s with
  | EmptyString => true
  | String c rest => p c && all_chars p rest
  end.

(** [s] starts with a character satisfying [p]. *)
Definition starts_with (p : ascii -> bool) (s : string) : bool :=
  match s with
  | EmptyString => false
  | String c _ => p c
  end.

(** A character that the line handling leaves alone: no line boundary, no
    blank, no quote, no [#]. *)
Definition plain (c : ascii) : bool :=
  negb (is_linebreak c) && negb (is_space c)
  && negb (Ascii.eqb c dquote) && negb (Ascii.eqb c hash).


(** [s.isascii()] *)
Definition ascii_text (s : string) : bool := all_chars is_ascii s.

(** A character at which no alternative of the pattern can start. *)
Definition unrecognised (c : ascii) : bool :=
  negb (Ascii.eqb c dquote) && negb (is_digit c)
  && negb (is_operator_char c) && negb (is_word c).

Definition is_dot (c : ascii) : bool := Ascii.eqb c dot.

(** A non-empty sequence of digits. *)
Definition digits (s : string) : Prop :=
  s <> EmptyString /\ all_chars is_digit s = true.

(** The numeric literals of the pattern [\d+\.?\d*]: an integer comes from
    digits alone, a float from digits, a dot and then digits or nothing. *)
Definition number_shape (n : number) : Prop :=
  match n with
  | NInt z => exists d, digits d /\ z = int_of_digits d
  | NFloat text =>
      exists d1 d2, digits d1 /\ all_chars is_digit d2 = true
                    /\ text = d1 ++ String dot d2
  end.

(** The numeric literal as the specification words it: digits, optionally
    followed by a dot and more digits. *)
Definition spec_numeric_literal (text : string) : bool :=
  let (d1, r) := span is_digit text in
  truthy d1
  && match r with
     | EmptyString => true
     | String c d2 => is_dot c && truthy d2 && all_chars is_digit d2
     end.

(** A token at which [parse_value] does not raise at once. *)
Definition value_start (t : token) : bool :=
  match t with
  | STRING _ | NUMBER _ => true
  | IDENTIFIER s => is_bool_word s
  | OPERATOR s => String.eqb s "[" || String.eqb s "{"
  end.

(** Every [=] of [ts] is directly followed by a token that can start a
    value. *)
Fixpoint eq_ok (ts : list token) : bool :=
  match ts with
  | [] => true
  | t :: ts' =>
      (if is_op t "=" then
         match ts' with
         | t' :: _ => value_start t'
         | [] => false
         end
       else true)
      && eq_ok ts'
  end.

(** [c] can be put in front of any token list without breaking [eq_ok]. *)
Definition closed (c : list token) : Prop :=
  forall r, eq_ok r = true -> eq_ok (c ++ r)%list = true.

(** A parsing function that returned [rest] from [ts] has read a non-empty,
    closed prefix of [ts]. *)
Definition consumes (ts rest : list token) : Prop :=
  exists c, ts = (c ++ rest)%list /\ c <> [] /\ closed c.

(** The same, for a prefix that starts a value. *)
Definition consumes_value (ts rest : list token) : Prop :=
  exists t c, ts = (t :: c ++ rest)%list /\ value_start t = true
              /\ closed (t :: c).

(** No string occurs twice in [l]. *)
Fixpoint nodupb (l : list string) : bool :=
  match l with
  | [] => true
  | x :: l' => negb (existsb (String.eqb x) l') && nodupb l'
  end.

(** Every dictionary inside [v], at every depth, has each key once. *)
Fixpoint unique_keysb (v : value) : bool :=
  match v with
  | VList l => forallb unique_keysb l
  | VDict d =>
      nodupb (keys d)
      && forallb (fun kv => let '(_, x) := kv in unique_keysb x) d
  | _ => true
  end.

(** The same for a symbol table: entity names and every block and map. *)
Definition table_unique_keys (table : symbol_table) : bool :=
  nodupb (keys table)
  && forallb (fun kv => unique_keysb (VDict (snd kv))) table.

(** No string value inside [v] is the empty string. *)
Fixpoint no_empty_str (v : value) : bool :=
  match v with
  | VStr s => truthy s
  | VList l => forallb no_empty_str l
  | VDict d => forallb (fun kv => let '(_, x) := kv in no_empty_str x) d
  | _ => true
  end.

Definition table_no_empty_str (table : symbol_table) : bool :=
  forallb (fun kv => no_empty_str (VDict (snd kv))) table.

(** The keys of [d] are distinct and [P] holds of every value in it. *)
Definition good_dict (P : value -> bool) (d : dict) : Prop :=
  nodupb (keys d) = true /\ forallb (fun kv => P (snd kv)) d = true.

(** The names of [t] are distinct and [P] holds of every root block. *)
Definition good_symbol_table (P : value -> bool) (t : symbol_table) : Prop :=
  nodupb (keys t) = true
  /\ forallb (fun kv => P (VDict (snd kv))) t = true.

(* ----------------------------------------------------------------- *)
(** *** The bindings of a token sequence

    The grammar of the parser read with its three uniqueness checks
    ([key in block_content], [k in mp], [game_name in self.symbol_table])
    left out: every binding is kept, in the order of the tokens, so a key
    bound twice at one level shows as a repeated key. *)

Fixpoint bindings_value (fuel : nat) (ts : list token) {struct fuel}
  : outcome (value * list token) :=
  match fuel with
  | O => OutOfFuel
  | S fuel =>
      match ts with
      | [] => Raise (SyntaxError ExpectedValue)
      | STRING tval :: rest => Ok (VStr tval, rest)
      | NUMBER (NInt z) :: rest => Ok (VInt z, rest)
      | NUMBER (NFloat x) :: rest => Ok (VFloat x, rest)
      | IDENTIFIER tval :: rest =>
          if is_bool_word tval
          then Ok (VBool (String.eqb tval "verdadero"), rest)
          else Raise (SyntaxError (UnexpectedValue (IDENTIFIER tval)))
      | OPERATOR tval :: _ =>
          if String.eqb tval "[" then
            '(lst, rest) <- bindings_list fuel ts ;; Ok (VList lst, rest)
          else if String.eqb tval "{" then
            '(mp, rest) <- bindings_map fuel ts ;; Ok (VDict mp, rest)
          else Raise (SyntaxError (UnexpectedValue (OPERATOR tval)))
      end
  end

with bindings_list (fuel : nat) (ts : list token) {struct fuel}
  : outcome (list value * list token) :=
  match fuel with
  | O => OutOfFuel
  | S fuel =>
      '(_, ts1) <- expect_operator "[" ts ;;
      bindings_list_loop fuel [] ts1
  end

with bindings_list_loop (fuel : nat) (lst : list value) (ts : list token)
  {struct fuel} : outcome (list value * list token) :=
  match fuel with
  | O => OutOfFuel
  | S fuel =>
      match ts with
      | [] => Raise (SyntaxError MissingCloseList)
      | tok :: rest =>
          if is_op tok "]" then Ok (lst, rest)
          else
            match bare_identifier tok with
            | Some ref => Raise (NameError ref)
            | None =>
                '(v, ts1) <- bindings_value fuel ts ;;
                bindings_list_loop fuel (lst ++ [v]) (skip_comma ts1)
            end
      end
  end

with bindings_map (fuel : nat) (ts : list token) {struct fuel}
  : outcome (dict * list token) :=
  match fuel with
  | O => OutOfFuel
  | S fuel =>
      '(_, ts1) <- expect_operator "{" ts ;;
      bindings_map_loop fuel [] ts1
  end

with bindings_map_loop (fuel : nat) (mp : dict) (ts : list token)
  {struct fuel} : outcome (dict * list token) :=
  match fuel with
  | O => OutOfFuel
  | S fuel =>
      match ts with
      | [] => Raise (SyntaxError MissingCloseMap)
      | t :: rest =>
          if is_op t "}" then Ok (mp, rest)
          else if is_op t "," then bindings_map_loop fuel mp rest
          else
            match map_key t with
            | None => Raise (SyntaxError (InvalidMapKey t))
            | Some k =>
                '(_, ts1) <- expect_kv_sep rest ;;
                '(v, ts2) <- bindings_value fuel ts1 ;;
                bindings_map_loop fuel (mp ++ [(k, v)])%list ts2
            end
      end
  end.

Fixpoint bindings_block (fuel : nat) (ts : list token) {struct fuel}
  : outcome (dict * list token) :=
  match fuel with
  | O => OutOfFuel
  | S fuel =>
      '(_, ts1) <- expect_operator "{" ts ;;
      bindings_block_loop fuel [] ts1
  end

with bindings_block_loop (fuel : nat) (block_content : dict)
       (ts : list token) {struct fuel} : outcome (dict * list token) :=
  match fuel with
  | O => OutOfFuel
  | S fuel =>
      match ts with
      | [] => Raise (SyntaxError MissingCloseBlock)
      | tok :: rest =>
          if is_op tok "}" then Ok (block_content, rest)
          else
            match tok with
            | IDENTIFIER key =>
                match rest with
                | next_tok :: rest' =>
                    if is_op next_tok "=" then
                      '(v, ts2) <- bindings_value fuel rest' ;;
                      bindings_block_loop fuel
                        (block_content ++ [(key, v)])%list ts2
                    else if is_op next_tok "{" then
                      '(sub_block, ts2) <- bindings_block fuel rest ;;
                      bindings_block_loop fuel
                        (block_content ++ [(key, VDict sub_block)])%list ts2
                    else Raise (SyntaxError (ExpectedAssignOrSection key))
                | [] => Raise (SyntaxError (ExpectedAssignOrSection key))
                end
            | _ => Raise (SyntaxError (ExpectedIdentInBlock tok))
            end
      end
  end.

Fixpoint bindings_loop (fuel : nat) (table : symbol_table) (ts : list token)
  {struct fuel} : outcome symbol_table :=
  match fuel with
  | O => OutOfFuel
  | S fuel =>
      match ts with
      | [] => Ok table
      | IDENTIFIER word :: ts1 =>
          if String.eqb word "juego" then
            match ts1 with
            | STRING game_name :: ts2 =>
                '(root_block, ts3) <- bindings_block fuel ts2 ;;
                bindings_loop fuel (table ++ [(game_name, root_block)])%list ts3
            | _ => Raise (SyntaxError ExpectedGameName)
            end
          else Raise (SyntaxError (ExpectedJuego (IDENTIFIER word)))
      | ident :: _ => Raise (SyntaxError (ExpectedJuego ident))
      end
  end.

Definition bindings (ts : list token) : outcome symbol_table :=
  bindings_loop (parse_fuel ts) [] ts.

(** The token after an [=] cannot start a value (or there is none). *)
Definition dangling (post : list token) : bool :=
  match post with
  | [] => true
  | t :: _ => negb (value_start t)
  end.

(** A line on which comment stripping leaves nothing: it is blank or holds
    only a comment. *)
Definition blank_or_comment (line : string) : Prop :=
  _strip_inline_comments (rstrip_newline line) = EmptyString.

(* ----------------------------------------------------------------- *)
(** *** Inputs of the scenarios *)

(** Scenario 3 as the specification writes it: numerals as keys, the map
    opened like a section. *)
Definition scenario3_text : string :=
  "juego " ++ q "tetris" ++ " {
     rejilla { ancho = 10 alto = 20 }
     velocidad { gravedad_ms = 500 }
     puntuacion { por_linea { 1:100, 2:300 3=500 " ++ q "4" ++ "=800 } }
   }".

(** The map of Scenario 3 alone. *)
Definition scenario3_map_text : string :=
  "{ 1:100, 2:300 3=500 " ++ q "4" ++ "=800 }".

(** Scenario 3 with the keys written as string literals and the map
    assigned with [=]. *)
Definition scenario3_quoted_text : string :=
  "juego " ++ q "tetris" ++ " {
     rejilla { ancho = 10 alto = 20 }
     velocidad { gravedad_ms = 500 }
     puntuacion { por_linea = { " ++ q "1" ++ ":100, " ++ q "2" ++ ":300 "
    ++ q "3" ++ "=500 " ++ q "4" ++ "=800 } }
   }".

Definition scenario3_map_tokens : list token :=
  [OPERATOR "{"; STRING "1"; OPERATOR ":"; NUMBER (NInt 100); OPERATOR ",";
   STRING "2"; OPERATOR ":"; NUMBER (NInt 300);
   STRING "3"; OPERATOR "="; NUMBER (NInt 500);
   STRING "4"; OPERATOR "="; NUMBER (NInt 800); OPERATOR "}"].

Definition por_linea : dict :=
  [("1", VInt 100); ("2", VInt 300); ("3", VInt 500); ("4", VInt 800)].

(** The [rejilla] rule of both validators holds of [rej]. *)
Definition valid_rejilla (rej : dict) : Prop :=
  int_gt0 rej "ancho" = Ok true /\ int_gt0 rej "alto" = Ok true.

(** The [velocidad] rules of [validate_tetris] hold of [vel]. *)
Definition valid_velocidad_tetris (vel : dict) : Prop :=
  int_gt0 vel "gravedad_ms" = Ok true
  /\ first_bad_opt vel ["soft_drop_ms"; "lock_delay_ms"] = None.

(** A snake declaration whose [rejilla] is a number, not a section. *)
Definition scalar_section_text : string :=
  "juego " ++ q "snake" ++ " {
     rejilla = 1
     velocidad { tick_ms = 100 }
     controles { arriba = " ++ q "W" ++ " abajo = " ++ q "S"
    ++ " izquierda = " ++ q "A" ++ " derecha = " ++ q "D" ++ " }
   }".

Definition scalar_section_table : symbol_table :=
  [("snake",
    [("rejilla", VInt 1);
     ("velocidad", VDict [("tick_ms", VInt 100)]);
     ("controles",
      VDict [("arriba", VStr "W"); ("abajo", VStr "S");
             ("izquierda", VStr "A"); ("derecha", VStr "D")])])].

(** Keywords used as keys. *)
Definition keyword_keys_text : string :=
  "juego " ++ q "g" ++ " {
     juego = 1
     verdadero { falso = 2 }
     m = { falso : 3, juego = 4, verdadero : 5 }
   }".

Definition scenario3_quoted_map_text : string :=
  "{ " ++ q "1" ++ ":100, " ++ q "2" ++ ":300 " ++ q "3" ++ "=500 "
    ++ q "4" ++ "=800 }".

Definition scenario3_table : symbol_table :=
  [("tetris",
    [("rejilla", VDict [("ancho", VInt 10); ("alto", VInt 20)]);
     ("velocidad", VDict [("gravedad_ms", VInt 500)]);
     ("puntuacion", VDict [("por_linea", VDict por_linea)])])].

(* ----------------------------------------------------------------- *)
(** *** The fields of the rule sets *)

(** In the root block [cfg], the section [sec] binds [fld] to [v]. *)
Definition holds (cfg : dict) (sec fld : string) (v : value) : Prop :=
  exists d, get cfg sec = Some (VDict d) /\ get d fld = Some v.

Definition snake_sections : list string :=
  ["rejilla"; "velocidad"; "controles"].

Definition tetris_sections : list string :=
  ["rejilla"; "velocidad"; "puntuacion"].

(** The fields [validate_snake] passes to [is_int_strict]. *)
Definition snake_int_fields : list (string * string) :=
  [("rejilla", "ancho"); ("rejilla", "alto"); ("velocidad", "tick_ms")].

(** The fields of sections [validate_tetris] passes to [is_int_strict]
    (the entries of [por_linea] are one level further down). *)
Definition tetris_int_fields : list (string * string) :=
  [("rejilla", "ancho"); ("rejilla", "alto"); ("velocidad", "gravedad_ms");
   ("velocidad", "soft_drop_ms"); ("velocidad", "lock_delay_ms")].

Definition score_keys : list string := ["1"; "2"; "3"; "4"].

(** None of the sections [names] is bound to something other than a
    block. *)
Definition sections_are_blocks (names : list string) (cfg : dict) : bool :=
  forallb (fun s => match get cfg s with
                    | Some (VDict _) | None => true
                    | Some _ => false
                    end) names.

(** Scenario 1 with [ancho = verdadero]. *)
Definition boolean_ancho_text : string :=
  "juego " ++ q "snake" ++ " {
     rejilla { ancho = verdadero alto = 10 }
     velocidad { tick_ms = 100 }
     controles { arriba = " ++ q "W" ++ " abajo = " ++ q "S"
    ++ " izquierda = " ++ q "A" ++ " derecha = " ++ q "D" ++ " }
   }".

Definition boolean_ancho_table : symbol_table :=
  [("snake",
    [("rejilla", VDict [("ancho", VBool true); ("alto", VInt 10)]);
     ("velocidad", VDict [("tick_ms", VInt 100)]);
     ("controles",
      VDict [("arriba", VStr "W"); ("abajo", VStr "S");
             ("izquierda", VStr "A"); ("derecha", VStr "D")])])].

(* ----------------------------------------------------------------- *)
(** *** More scenarios of the specification *)

Definition scenario1_text : string :=
  "juego " ++ q "snake" ++ " { rejilla { ancho=10 alto=10 } velocidad { tick_ms=100 } controles { arriba="
    ++ q "W" ++ " abajo=" ++ q "S" ++ " izquierda=" ++ q "A" ++ " derecha="
    ++ q "D" ++ " } }".

Definition scenario2_text : string :=
  "juego " ++ q "snake"
    ++ " { rejilla { ancho=10 alto=10 } velocidad { tick_ms=100 } }".

Definition scenario4_text : string :=
  "juego " ++ q "snake" ++ " { x = 1 }" ++ String LF
    ("juego " ++ q "snake" ++ " { y = 2 }").

Definition scenario6_text : string :=
  "juego " ++ q "pong" ++ " { x = 1 }".

(** Three entities declared out of alphabetical order. *)
Definition three_games_text : string :=
  "juego " ++ q "tetris" ++ " { }  # primero" ++ String LF
    ("juego " ++ q "pong" ++ " { }" ++ String LF
       ("juego " ++ q "snake" ++ " { }")).

(** Every block of the table has the sections of both rule sets as blocks
    (or not at all). *)
Definition table_sections_are_blocks (table : symbol_table) : bool :=
  forallb (fun kv => sections_are_blocks snake_sections (snd kv)
                     && sections_are_blocks tetris_sections (snd kv)) table.

(** A snake declaration with a Boolean [tick_ms] and a number for
    [rejilla]. *)
Definition boolean_tick_text : string :=
  "juego " ++ q "snake" ++ " {
     rejilla = 1
     velocidad { tick_ms = verdadero }
     controles { arriba = " ++ q "W" ++ " abajo = " ++ q "S"
    ++ " izquierda = " ++ q "A" ++ " derecha = " ++ q "D" ++ " }
   }".

Definition boolean_tick_cfg : dict :=
  [("rejilla", VInt 1);
   ("velocidad", VDict [("tick_ms", VBool true)]);
   ("controles",
    VDict [("arriba", VStr "W"); ("abajo", VStr "S");
           ("izquierda", VStr "A"); ("derecha", VStr "D")])].




(** Character classes of the statements about lines. *)
Definition not_quote (c : ascii) : bool := negb (Ascii.eqb c dquote).

Definition not_linebreak (c : ascii) : bool := negb (is_linebreak c).

(** No line boundary, no quote, no [#]: text in front of a literal. *)
Definition code_char (c : ascii) : bool :=
  not_linebreak c && not_quote c && negb (Ascii.eqb c hash).

(** No line boundary and no quote: text after a quote that nothing
    closes. *)
Definition open_char (c : ascii) : bool := not_linebreak c && not_quote c.

(** [b] cannot prolong a number or a word that ends just before it. *)
Definition inert_start (b : string) : bool :=
  negb (starts_with is_digit b) && negb (starts_with is_dot b)
  && negb (starts_with is_word b).

(* ================================================================= *)
(** ** Vocabulary of the further statements

    Definitions that the statements below are made with: states of the
    comment loop, positions of the parser, the frames of a table, the
    requirements of the rule sets as their documentation words them,
    writers of tokens and texts for values and tables. *)

(* ----------------------------------------------------------------- *)
(** *** Lines, comments and literals *)

(** The state [(in_str, esc)] in which the loop of [_strip_inline_comments]
    ends on [line]; [None] when it has left by [break]. *)
Fixpoint strip_state (in_str esc : bool) (line : string)
  : option (bool * bool) :=
  match line with
  | EmptyString => Some (in_str, esc)
  | String ch rest =>
      if in_str then
        if esc then strip_state true false rest
        else if Ascii.eqb ch backslash then strip_state true true rest
        else if Ascii.eqb ch dquote then strip_state false false rest
        else strip_state true false rest
      else
        if Ascii.eqb ch dquote then strip_state true false rest
        else if Ascii.eqb ch hash then None
        else strip_state false false rest
  end.

(** At the end of [code] the loop is inside a string literal. *)
Definition in_string (code : string) : bool :=
  match strip_state false false code with
  | Some (true, _) => true
  | _ => false
  end.

(** The one-character strings of the third alternative of the pattern. *)
Definition operators : list string := ["{"; "}"; "["; "]"; "="; ","; ":"].

Definition digit_or_dot (c : ascii) : bool := is_digit c || is_dot c.

(** The number of dots in [s]. *)
Fixpoint count_dots (s : string) : nat :=
  match s with
  | EmptyString => 0
  | String c rest => (if is_dot c then 1 else 0) + count_dots rest
  end.

(** What a token of [tokenize] looks like. *)
Definition well_formed_token (t : token) : bool :=
  match t with
  | STRING s => truthy s && all_chars open_char s
  | NUMBER (NInt z) => (0 <=? z)%Z
  | NUMBER (NFloat text) =>
      starts_with is_digit text && all_chars digit_or_dot text
      && (count_dots text =? 1)%nat
  | OPERATOR s => existsb (String.eqb s) operators
  | IDENTIFIER s =>
      truthy s && all_chars is_word s && negb (starts_with is_digit s)
  end.

(** A character of the inside of a literal that the comment loop treats as
    any other: no quote, no backslash, no line boundary. *)
Definition literal_char (c : ascii) : bool :=
  open_char c && negb (Ascii.eqb c backslash).

(** A character that is no part of a token and ends the token before it:
    not a quote, a digit, a dot, an operator, a word character, a [#] or a
    line boundary. *)
Definition separator_char (c : ascii) : bool :=
  unrecognised c && negb (is_dot c) && negb (Ascii.eqb c hash)
  && not_linebreak c.

(* ----------------------------------------------------------------- *)
(** *** The outcome of the tokenizer *)

(** The text [int] is called on for a match, if any: its second group,
    when that has no dot. *)
Definition integer_literal (g : groups) : list string :=
  let '(g0, g1, _, _) := g in
  if truthy g0 then []
  else if truthy g1 && negb (has_dot g1) then [g1]
  else [].

(** The texts [int] is called on, in the order of the calls, when nothing
    stops the tokenizer before. *)
Definition integer_literals (source : string) : list string :=
  flat_map (fun line => flat_map integer_literal (line_matches line))
    (splitlines source).

(** More digits than [int] converts. *)
Definition too_long (d : string) : bool :=
  (int_max_str_digits <? String.length d)%nat.

(** The tokens of one comment-free line, with the outcome of the
    conversions. *)
Definition Tokenizer_scan (line : string) : outcome (list token) :=
  Tokenizer_groups (findall line).

(** A lexical unit of the pattern [\d+\.?\d*] and the number it is
    converted into: digits alone are an integer; digits, a dot and then
    digits or nothing are a float. *)
Definition numeric_literal (unit : string) (n : number) : Prop :=
  (digits unit /\ n = NInt (int_of_digits unit))
  \/ (exists d1 d2, digits d1 /\ all_chars is_digit d2 = true
                    /\ unit = d1 ++ String dot d2 /\ n = NFloat unit).

(** [c * n]: the character [c], [n] times. *)
Fixpoint repeat_char (c : ascii) (n : nat) : string :=
  match n with
  | O => EmptyString
  | S n' => String c (repeat_char c n')
  end.

(* ----------------------------------------------------------------- *)
(** *** Programs one after another *)

(** The first name of [names] that [table] has already. *)
Definition first_declared (table : symbol_table) (names : list string)
  : option string :=
  find (fun g => mem g table) names.

(* ----------------------------------------------------------------- *)
(** *** Positions of the parser *)



(* ----------------------------------------------------------------- *)
(** *** The depth of the calls *)

(** The frames that suffice for [parse_value] to read a value: one for an
    atom; for a list or a map two more than its deepest element ([parse_value]
    calls [parse_list], which calls [parse_value]), and three at least. *)
Fixpoint frames_of (v : value) : nat :=
  match v with
  | VList l => 2 + fold_right (fun x m => Nat.max (frames_of x) m) 1 l
  | VDict d =>
      2 + fold_right (fun kv m => let '(_, x) := kv in Nat.max (frames_of x) m)
            1 d
  | _ => 1
  end.

(** The frames that suffice for [parse] to read a table. *)
Definition table_frames (table : symbol_table) : nat :=
  fold_right (fun kv m => Nat.max (frames_of (VDict (snd kv))) m) 1 table.

(* ----------------------------------------------------------------- *)
(** *** The requirements of the rule sets *)

(** [d] binds [k] to an integer (not a Boolean) greater than 0. *)
Definition positive_int (d : dict) (k : string) : bool :=
  match get d k with
  | Some (VInt z) => (0 <? z)%Z
  | _ => false
  end.

(** [d] binds [k] to an integer (not a Boolean) that is not negative. *)
Definition nonneg_int (d : dict) (k : string) : bool :=
  match get d k with
  | Some (VInt z) => (0 <=? z)%Z
  | _ => false
  end.

(** [d] does not bind [k], or binds it to an integer (not a Boolean). *)
Definition optional_int (d : dict) (k : string) : bool :=
  match get d k with
  | Some (VInt _) | None => true
  | Some _ => false
  end.

(** The minimal requirements of the documentation of [validate_snake]:
    sections rejilla, velocidad, controles; rejilla.ancho and rejilla.alto
    integers above 0; velocidad.tick_ms an integer above 0; the four
    controls strings. *)
Definition snake_requirements (cfg : dict) : bool :=
  match get cfg "rejilla", get cfg "velocidad", get cfg "controles" with
  | Some (VDict rej), Some (VDict vel), Some (VDict con) =>
      positive_int rej "ancho" && positive_int rej "alto"
      && positive_int vel "tick_ms"
      && forallb (fun k => is_str (get con k))
           ["arriba"; "abajo"; "izquierda"; "derecha"]
  | _, _, _ => false
  end.

(** The minimal requirements of the documentation of [validate_tetris]:
    sections rejilla, velocidad, puntuacion; rejilla.ancho and rejilla.alto
    integers above 0; velocidad.gravedad_ms an integer above 0;
    puntuacion.por_linea a map with the keys 1 to 4 bound to integers that
    are not negative. *)
Definition tetris_requirements (cfg : dict) : bool :=
  match get cfg "rejilla", get cfg "velocidad", get cfg "puntuacion" with
  | Some (VDict rej), Some (VDict vel), Some (VDict pun) =>
      positive_int rej "ancho" && positive_int rej "alto"
      && positive_int vel "gravedad_ms"
      && match get pun "por_linea" with
         | Some (VDict pl) => forallb (nonneg_int pl) ["1"; "2"; "3"; "4"]
         | _ => false
         end
  | _, _, _ => false
  end.

(** What [validate_tetris] asks beyond its documentation: the optional
    fields of velocidad, where present, are integers. *)
Definition tetris_optional_fields (cfg : dict) : bool :=
  match get cfg "velocidad" with
  | Some (VDict vel) =>
      forallb (optional_int vel) ["soft_drop_ms"; "lock_delay_ms"]
  | _ => false
  end.

Definition is_dict (v : value) : bool :=
  match v with VDict _ => true | _ => false end.

(** [e] is the exception of a call of [.get] on a value that is not a
    block and that [cfg] binds to one of the sections [names]. *)
Definition scalar_section_error (names : list string) (cfg : dict)
           (e : exception) : Prop :=
  exists sec v, In sec names /\ get cfg sec = Some v /\ is_dict v = false
                /\ e = AttributeError v "get".

(** The snake or the tetris entity of [table] binds a section of its rule
    set to a value that is not a block, and [e] is the exception of [.get]
    on that value. *)
Definition scalar_section_in (table : symbol_table) (e : exception) : Prop :=
  exists cfg,
    (In ("snake", cfg) table /\ scalar_section_error snake_sections cfg e)
    \/ (In ("tetris", cfg) table
        /\ scalar_section_error tetris_sections cfg e).

(* ----------------------------------------------------------------- *)
(** *** Brackets *)

(** The bracket that closes [s], when [s] opens one. *)
Definition closer (s : string) : option string :=
  if String.eqb s "{" then Some "}"
  else if String.eqb s "[" then Some "]"
  else None.

Definition is_closer (s : string) : bool :=
  String.eqb s "}" || String.eqb s "]".

(** Reading [ts] with the brackets [open] not yet closed (the closing
    bracket each one waits for, innermost first): the brackets still open
    at the end, [None] when a closing bracket is not the one awaited. *)
Fixpoint nesting (open : list string) (ts : list token)
  : option (list string) :=
  match ts with
  | [] => Some open
  | OPERATOR s :: ts' =>
      match closer s with
      | Some c => nesting (c :: open) ts'
      | None =>
          if is_closer s then
            match open with
            | c :: open' => if String.eqb s c then nesting open' ts' else None
            | [] => None
            end
          else nesting open ts'
      end
  | _ :: ts' => nesting open ts'
  end.

(** Every bracket of [ts] is closed by the bracket of its kind, in order. *)
Definition well_nested (ts : list token) : bool :=
  match nesting [] ts with
  | Some [] => true
  | _ => false
  end.

(** [t] is one of the brackets. *)
Definition bracket (t : token) : bool :=
  match t with
  | OPERATOR s => match closer s with Some _ => true | None => is_closer s end
  | _ => false
  end.

(** Reading [ts] comes to reading [rest], with the same brackets open. *)
Definition reads (ts rest : list token) : Prop :=
  forall open, nesting open ts = nesting open rest.

(** Reading [ts] comes to reading [rest], with the bracket awaiting [cl]
    closed. *)
Definition closes (cl : string) (ts rest : list token) : Prop :=
  forall open, nesting (cl :: open) ts = nesting open rest.

(* ----------------------------------------------------------------- *)
(** *** The values of a text *)

(** Every string, integer and float inside [v] has the shape of a token:
    no string is empty or holds a quote or a line boundary, no integer is
    negative. *)
Fixpoint from_text (v : value) : bool :=
  match v with
  | VStr s => well_formed_token (STRING s)
  | VInt z => well_formed_token (NUMBER (NInt z))
  | VFloat x => well_formed_token (NUMBER (NFloat x))
  | VBool _ => true
  | VList l => forallb from_text l
  | VDict d => forallb (fun kv => let '(_, x) := kv in from_text x) d
  end.

Definition table_from_text (table : symbol_table) : bool :=
  forallb (fun kv => from_text (VDict (snd kv))) table.

(* ----------------------------------------------------------------- *)
(** *** The exceptions the script catches *)

(** [except (SyntaxError, NameError)] *)
Definition caught (e : exception) : bool :=
  match e with
  | SyntaxError _ | NameError _ => true
  | _ => false
  end.

(* ----------------------------------------------------------------- *)
(** *** Texts for tables *)

(** Tokens from which [parse_value] reads [v]: the literal itself, a list
    between square brackets, a map between braces with every key as a
    string and a colon after it. *)
Fixpoint write_value (v : value) : list token :=
  match v with
  | VStr s => [STRING s]
  | VInt z => [NUMBER (NInt z)]
  | VFloat x => [NUMBER (NFloat x)]
  | VBool b => [IDENTIFIER (if b then "verdadero" else "falso")]
  | VList l => OPERATOR "[" :: flat_map write_value l ++ [OPERATOR "]"]
  | VDict d =>
      OPERATOR "{"
        :: flat_map (fun kv => let '(k, x) := kv in
                               STRING k :: OPERATOR ":" :: write_value x) d
        ++ [OPERATOR "}"]
  end.

(** One pair of a map, one assignment of a block. *)
Definition write_pair (kv : string * value) : list token :=
  let '(k, x) := kv in STRING k :: OPERATOR ":" :: write_value x.

Definition write_assignment (kv : string * value) : list token :=
  let '(k, x) := kv in IDENTIFIER k :: OPERATOR "=" :: write_value x.

(** Tokens from which [parse_block_section] reads [blk]: its bindings as
    assignments. *)
Definition write_block (blk : dict) : list token :=
  OPERATOR "{" :: flat_map write_assignment blk ++ [OPERATOR "}"].

Definition write_entity (kv : string * dict) : list token :=
  let '(name, blk) := kv in
  IDENTIFIER "juego" :: STRING name :: write_block blk.

(** Tokens from which [parse] reads [table]. *)
Definition write_table (table : symbol_table) : list token :=
  flat_map write_entity table.

(** Every key inside [v], at every depth, has the shape of a string
    token. *)
Fixpoint keys_text (v : value) : bool :=
  match v with
  | VList l => forallb keys_text l
  | VDict d =>
      forallb (fun kv => let '(k, x) := kv in
                         well_formed_token (STRING k) && keys_text x) d
  | _ => true
  end.

(** The keys of a root block are identifiers. *)
Definition block_keys_text (blk : dict) : bool :=
  forallb (fun kv => let '(k, x) := kv in
                     well_formed_token (IDENTIFIER k) && keys_text x) blk.

Definition table_keys_text (table : symbol_table) : bool :=
  forallb (fun kv => let '(name, blk) := kv in
                     well_formed_token (STRING name) && block_keys_text blk)
          table.

(** The tables a text can give: each key once at every level, values and
    keys of the shape of tokens. *)
Definition writable (table : symbol_table) : bool :=
  table_unique_keys table && table_from_text table && table_keys_text table.

(** With enough fuel the value parser reads [v], when its keys are
    distinct, back from its tokens and leaves what follows them. *)
Definition reads_back (v : value) : Prop :=
  unique_keysb v = true ->
  forall rest, exists n, parse_value n (write_value v ++ rest) = Ok (v, rest).

(** Every token of [ts] is well formed. *)
Definition well_formed (ts : list token) : Prop :=
  Forall (fun t => well_formed_token t = true) ts.

(* ----------------------------------------------------------------- *)
(** *** The tokens and tables of ASCII text *)

(** [NUMBER] tokens made by [int]. *)
Definition is_integer_token (t : token) : bool :=
  match t with
  | NUMBER (NInt _) => true
  | _ => false
  end.

(** What a token of ASCII text holds: a string of ASCII characters, an
    integer of no more digits than [int] converts. *)
Definition within_text (t : token) : bool :=
  match t with
  | STRING s => ascii_text s
  | NUMBER (NInt z) => (z <? 10 ^ Z.of_nat int_max_str_digits)%Z
  | _ => true
  end.

(** The tokens of ASCII text. *)
Definition token_of_text (t : token) : bool :=
  well_formed_token t && within_text t.

(** The strings and keys inside [v] are ASCII, its integers of no more
    digits than [int] converts. *)
Fixpoint value_of_text (v : value) : bool :=
  match v with
  | VStr s => ascii_text s
  | VInt z => (z <? 10 ^ Z.of_nat int_max_str_digits)%Z
  | VFloat _ => true
  | VBool _ => true
  | VList l => forallb value_of_text l
  | VDict d =>
      forallb (fun kv => let '(k, x) := kv in
                         ascii_text k && value_of_text x) d
  end.

Definition table_within_text (table : symbol_table) : bool :=
  forallb (fun kv => let '(name, blk) := kv in
                     ascii_text name && value_of_text (VDict blk)) table.

(** The tables of ASCII text: writable, and within what [int] converts. *)
Definition table_of_text (table : symbol_table) : bool :=
  writable table && table_within_text table.

(** Every token of [ts] is a token of ASCII text. *)
Definition of_text (ts : list token) : Prop :=
  Forall (fun t => token_of_text t = true) ts.

(* ----------------------------------------------------------------- *)
(** *** Styles of writing a map *)

(** How one pair of a map is written: the key bare or between quotes, the
    separator [=] or [:], and the number of commas in front of it. *)
Record pair_style : Type := mk_style
  { bare_key : bool; equals : bool; commas : nat }.

Definition styled_pair (st : pair_style) (kv : string * value)
  : list token :=
  let '(k, x) := kv in
  (repeat (OPERATOR ",") (commas st)
     ++ (if bare_key st then IDENTIFIER k else STRING k)
     :: OPERATOR (if equals st then "=" else ":") :: write_value x)%list.

(** The pairs of [d], each written in its style. *)
Fixpoint styled_pairs (sts : list pair_style) (d : dict) : list token :=
  match sts, d with
  | st :: sts', kv :: d' => (styled_pair st kv ++ styled_pairs sts' d')%list
  | _, _ => []
  end.

(** The elements of a list, each with or without a comma after it. *)
Fixpoint listed (l : list (value * bool)) : list token :=
  match l with
  | [] => []
  | (v, comma) :: l' =>
      (write_value v ++ (if comma then [OPERATOR ","] else []) ++ listed l')%list
  end.

(** A program with one entity [g] whose root block binds [k] by the
    tokens [binding]. *)
Definition one_binding (g k : string) (binding : list token) : list token :=
  (IDENTIFIER "juego" :: STRING g :: OPERATOR "{" :: IDENTIFIER k :: binding
     ++ [OPERATOR "}"])%list.
(* ================================================================= *)
(** * Properties of the tokenizer *)

Lemma span_length (p : ascii -> bool) (s : string) :
  String.length (snd (span p s)) <= String.length s.
Proof.
  induction s as [|c s IH]; simpl; [lia|].
  destruct (p c); simpl; [|lia].
  destruct (span p s) as [a b]; simpl in *; lia.
Qed.

Lemma until_quote_length (s body after : string) :
  until_quote s = Some (body, after) ->
  String.length after < String.length s.
Proof.
  revert body after; induction s as [|c s IH]; simpl; intros body after H.
  - discriminate.
  - destruct (Ascii.eqb c dquote).
    + injection H as _ <-. lia.
    + destruct (until_quote s) as [[a b]|]; [|discriminate].
      injection H as _ <-. specialize (IH a b eq_refl). lia.
Qed.

(** A match consumes at least one character. *)
Lemma match_at_length (s : string) (g : groups) (after : string) :
  match_at s = Some (g, after) -> String.length after < String.length s.
Proof.
  destruct s as [|c rest]; simpl; [discriminate|].
  destruct (Ascii.eqb c dquote).
  { destruct (until_quote rest) as [[body a]|] eqn:E; [|discriminate].
    intros H; injection H as _ <-.
    apply until_quote_length in E. lia. }
  destruct (is_digit c) eqn:Ed.
  { pose proof (span_length is_digit rest) as Hs.
    destruct (span is_digit rest) as [a b]; simpl in Hs.
    destruct b as [|c1 r2].
    - intros H; injection H as _ <-. simpl. lia.
    - destruct (Ascii.eqb c1 dot).
      + pose proof (span_length is_digit r2) as Hs2.
        destruct (span is_digit r2) as [d2 r3]; simpl in Hs2.
        intros H; injection H as _ <-. simpl in Hs. lia.
      + intros H; injection H as _ <-. simpl in *. lia. }
  destruct (is_operator_char c).
  { intros H; injection H as _ <-. lia. }
  destruct (is_word c) eqn:Ew; [|discriminate].
  pose proof (span_length is_word rest) as Hs.
  destruct (span is_word rest) as [a b]; simpl in Hs.
  intros H; injection H as _ <-. lia.
Qed.

(** Fuel beyond the length of the text changes nothing. *)
Lemma findall_fuel_enough (n m : nat) (s : string) :
  String.length s <= n -> String.length s <= m ->
  findall_fuel n s = findall_fuel m s.
Proof.
  revert m s; induction n as [|n IH]; intros m s Hn Hm.
  - destruct s; simpl in Hn; [|lia]. destruct m; reflexivity.
  - destruct m as [|m].
    + destruct s; simpl in Hm; [reflexivity|lia].
    + destruct s as [|c rest]; [reflexivity|].
      cbn [findall_fuel].
      destruct (match_at (String c rest)) as [[g after]|] eqn:E.
      * apply match_at_length in E. simpl in *.
        f_equal. apply IH; lia.
      * simpl in *. apply IH; lia.
Qed.

(** The scan, one step at a time. *)
Lemma findall_cons (c : ascii) (rest : string) :
  findall (String c rest) =
  match match_at (String c rest) with
  | Some (g, after) => g :: findall after
  | None => findall rest
  end.
Proof.
  unfold findall. cbn [String.length findall_fuel].
  destruct (match_at (String c rest)) as [[g after]|] eqn:E.
  - apply match_at_length in E. simpl in E.
    f_equal. apply findall_fuel_enough; lia.
  - apply findall_fuel_enough; simpl; lia.
Qed.

Lemma scan_cons (c : ascii) (rest : string) :
  scan (String c rest) =
  match match_at (String c rest) with
  | Some (g, after) => (token_of_group g ++ scan after)%list
  | None => scan rest
  end.
Proof.
  unfold scan. rewrite findall_cons.
  destruct (match_at (String c rest)) as [[g after]|]; reflexivity.
Qed.

Lemma line_tokens_scan (line : string) :
  line_tokens line
  = scan (strip (_strip_inline_comments (rstrip_newline line))).
Proof.
  unfold line_tokens, scan.
  destruct (strip (_strip_inline_comments (rstrip_newline line)));
    reflexivity.
Qed.

Lemma span_app (p : ascii -> bool) (a rest : string) :
  all_chars p a = true -> starts_with p rest = false ->
  span p (a ++ rest) = (a, rest).
Proof.
  intros Ha Hr. induction a as [|c a IH]; simpl in *.
  - destruct rest as [|c r]; simpl in *; [reflexivity|]. now rewrite Hr.
  - apply andb_true_iff in Ha as [Hc Ha]. rewrite Hc, (IH Ha). reflexivity.
Qed.

Lemma span_all (p : ascii -> bool) (s : string) :
  all_chars p (fst (span p s)) = true.
Proof.
  induction s as [|c s IH]; simpl; [reflexivity|].
  destruct (p c) eqn:E; simpl; [|reflexivity].
  destruct (span p s) as [a b]; simpl in *. now rewrite E.
Qed.

Lemma digit_not_quote (c : ascii) :
  is_digit c = true -> Ascii.eqb c dquote = false.
Proof.
  destruct (Ascii.eqb c dquote) eqn:E; [|reflexivity].
  apply Ascii.eqb_eq in E. subst c. vm_compute. intros H; discriminate H.
Qed.

Lemma digit_not_dot (c : ascii) :
  is_digit c = true -> Ascii.eqb c dot = false.
Proof.
  destruct (Ascii.eqb c dot) eqn:E; [|reflexivity].
  apply Ascii.eqb_eq in E. subst c. vm_compute. intros H; discriminate H.
Qed.

Lemma digits_no_dot (d : string) :
  all_chars is_digit d = true -> has_dot d = false.
Proof.
  induction d as [|c d IH]; simpl; [reflexivity|].
  intros H. apply andb_true_iff in H as [Hc Hd].
  now rewrite (digit_not_dot c Hc), (IH Hd).
Qed.

Lemma has_dot_app (a b : string) : has_dot (a ++ String dot b) = true.
Proof.
  induction a as [|c a IH]; simpl.
  - reflexivity.
  - rewrite IH. apply orb_true_r.
Qed.

(** A digit sequence, with nothing numeric after it, is one match whose
    second group is the sequence. *)
Lemma match_at_int (c : ascii) (d rest : string) :
  all_chars is_digit (String c d) = true ->
  starts_with is_digit rest = false ->
  starts_with (fun c1 => Ascii.eqb c1 dot) rest = false ->
  match_at (String c d ++ rest) = Some (("", String c d, "", ""), rest).
Proof.
  intros Hd Hr Hdot.
  pose proof Hd as Hd'. simpl in Hd'. apply andb_true_iff in Hd' as [Hc _].
  change (String c d ++ rest) with (String c (d ++ rest)).
  unfold match_at. rewrite (digit_not_quote c Hc), Hc.
  change (String c (d ++ rest)) with (String c d ++ rest).
  rewrite (span_app is_digit (String c d) rest Hd Hr).
  destruct rest as [|c1 r2]; [reflexivity|].
  cbn [starts_with] in Hdot. now rewrite Hdot.
Qed.

(** A digit sequence, a dot and a (possibly empty) digit sequence is one
    match whose second group is the whole of it. *)
Lemma match_at_float (c : ascii) (d1 d2 rest : string) :
  all_chars is_digit (String c d1) = true ->
  all_chars is_digit d2 = true ->
  starts_with is_digit rest = false ->
  match_at (String c d1 ++ String dot (d2 ++ rest))
  = Some (("", String c d1 ++ String dot d2, "", ""), rest).
Proof.
  intros Hd1 Hd2 Hr.
  pose proof Hd1 as Hd'. simpl in Hd'. apply andb_true_iff in Hd' as [Hc _].
  change (String c d1 ++ String dot (d2 ++ rest))
    with (String c (d1 ++ String dot (d2 ++ rest))).
  unfold match_at. rewrite (digit_not_quote c Hc), Hc.
  change (String c (d1 ++ String dot (d2 ++ rest)))
    with (String c d1 ++ String dot (d2 ++ rest)).
  rewrite (span_app is_digit (String c d1) (String dot (d2 ++ rest)) Hd1)
    by reflexivity.
  rewrite Ascii.eqb_refl.
  rewrite (span_app is_digit d2 rest Hd2 Hr). reflexivity.
Qed.

(** What holds of the tokens of every single match holds of every token. *)
Lemma findall_fuel_forall (P : token -> Prop) :
  (forall s g after, match_at s = Some (g, after) ->
                     Forall P (token_of_group g)) ->
  forall fuel s, Forall P (flat_map token_of_group (findall_fuel fuel s)).
Proof.
  intros HP fuel. induction fuel as [|fuel IH]; intros s; simpl.
  - constructor.
  - destruct s as [|c rest]; [constructor|].
    destruct (match_at (String c rest)) as [[g after]|] eqn:E.
    + cbn [flat_map]. apply Forall_app. split; [eapply HP; eassumption|apply IH].
    + apply IH.
Qed.

Lemma tokenize_forall (P : token -> Prop) :
  (forall s g after, match_at s = Some (g, after) ->
                     Forall P (token_of_group g)) ->
  forall source, Forall P (tokenize source).
Proof.
  intros HP source. unfold tokenize.
  induction (splitlines source) as [|line ls IH]; simpl.
  - constructor.
  - apply Forall_app. split; [|exact IH].
    unfold line_tokens.
    destruct (truthy (strip (_strip_inline_comments (rstrip_newline line)))).
    + apply findall_fuel_forall, HP.
    + constructor.
Qed.

Lemma all_chars_impl (p r : ascii -> bool) (s : string) :
  (forall c, p c = true -> r c = true) ->
  all_chars p s = true -> all_chars r s = true.
Proof.
  intros Hpr. induction s as [|c s IH]; simpl; [reflexivity|].
  intros H. apply andb_true_iff in H as [Hc Hs].
  now rewrite (Hpr c Hc), (IH Hs).
Qed.

Lemma splitlines_plain (s : string) :
  all_chars plain s = true -> s <> EmptyString -> splitlines s = [s].
Proof.
  induction s as [|c s IH]; intros H Hne; [congruence|].
  cbn [all_chars] in H. apply andb_true_iff in H as [Hc Hs].
  cbn [splitlines].
  unfold plain in Hc. repeat (apply andb_true_iff in Hc as [Hc ?]).
  apply negb_true_iff in Hc. rewrite Hc.
  destruct s as [|c' s']; [reflexivity|].
  rewrite IH; [reflexivity|assumption|discriminate].
Qed.

Lemma strip_loop_plain (s : string) :
  all_chars plain s = true -> strip_loop false false s = s.
Proof.
  induction s as [|c s IH]; intros H; [reflexivity|].
  cbn [all_chars] in H. apply andb_true_iff in H as [Hc Hs].
  cbn [strip_loop].
  unfold plain in Hc.
  apply andb_true_iff in Hc as [Hc Hh]. apply andb_true_iff in Hc as [Hc Hq].
  apply negb_true_iff in Hh, Hq. rewrite Hq, Hh, (IH Hs). reflexivity.
Qed.

Lemma plain_not_space (c : ascii) : plain c = true -> is_space c = false.
Proof.
  unfold plain. intros H.
  repeat (apply andb_true_iff in H as [H ?]).
  now apply negb_true_iff.
Qed.

Lemma lstrip_plain (s : string) : all_chars plain s = true -> lstrip s = s.
Proof.
  destruct s as [|c s]; intros H; [reflexivity|].
  cbn [all_chars] in H. apply andb_true_iff in H as [Hc _].
  cbn [lstrip]. now rewrite (plain_not_space c Hc).
Qed.

Lemma rstrip_by_none (p : ascii -> bool) (s : string) :
  all_chars (fun c => negb (p c)) s = true -> rstrip_by p s = s.
Proof.
  induction s as [|c s IH]; intros H; [reflexivity|].
  cbn [all_chars] in H. apply andb_true_iff in H as [Hc Hs].
  cbn [rstrip_by]. rewrite (IH Hs). apply negb_true_iff in Hc. rewrite Hc.
  destruct s; reflexivity.
Qed.

Lemma rstrip_plain (s : string) : all_chars plain s = true -> rstrip s = s.
Proof.
  intros H. apply rstrip_by_none.
  eapply all_chars_impl; [|exact H].
  intros c Hc. now rewrite (plain_not_space c Hc).
Qed.

Lemma plain_not_newline (c : ascii) :
  plain c = true -> negb (Ascii.eqb LF c) = true.
Proof.
  destruct (Ascii.eqb LF c) eqn:E; [|reflexivity].
  apply Ascii.eqb_eq in E. subst c. intros H; discriminate H.
Qed.

Lemma rstrip_newline_plain (s : string) :
  all_chars plain s = true -> rstrip_newline s = s.
Proof.
  intros H. apply rstrip_by_none.
  eapply all_chars_impl; [apply plain_not_newline|exact H].
Qed.

(** On a text of plain characters the tokenizer is the scan of that text. *)
Lemma tokenize_plain (s : string) :
  all_chars plain s = true -> tokenize s = scan s.
Proof.
  intros H. destruct s as [|c s]; [reflexivity|].
  unfold tokenize. rewrite (splitlines_plain _ H) by discriminate.
  cbn [flat_map]. rewrite app_nil_r, line_tokens_scan.
  rewrite (rstrip_newline_plain _ H).
  unfold _strip_inline_comments, strip.
  rewrite (strip_loop_plain _ H).
  rewrite (lstrip_plain _ H), (rstrip_plain _ H).
  now rewrite (lstrip_plain _ H), (rstrip_plain _ H).
Qed.

Lemma digit_plain (c : ascii) : is_digit c = true -> plain c = true.
Proof.
  destruct c as [[] [] [] [] [] [] [] []]; vm_compute;
    intros H; first [reflexivity | discriminate H].
Qed.


Lemma all_chars_app (p : ascii -> bool) (a b : string) :
  all_chars p (a ++ b) = all_chars p a && all_chars p b.
Proof.
  induction a as [|c a IH]; simpl; [reflexivity|].
  now rewrite IH, andb_assoc.
Qed.

Lemma token_of_int_group (c : ascii) (d : string) :
  all_chars is_digit (String c d) = true ->
  token_of_group ("", String c d, "", "")
  = [NUMBER (NInt (int_of_digits (String c d)))].
Proof.
  intros H. unfold token_of_group. cbn [truthy].
  now rewrite (digits_no_dot _ H).
Qed.

Lemma token_of_float_group (c : ascii) (d1 d2 : string) :
  token_of_group ("", String c d1 ++ String dot d2, "", "")
  = [NUMBER (NFloat (String c d1 ++ String dot d2))].
Proof.
  unfold token_of_group.
  change (String c d1 ++ String dot d2) with (String c (d1 ++ String dot d2)).
  cbn [truthy].
  change (String c (d1 ++ String dot d2)) with (String c d1 ++ String dot d2).
  now rewrite has_dot_app.
Qed.

Lemma scan_int (d rest : string) :
  digits d ->
  starts_with is_digit rest = false -> starts_with is_dot rest = false ->
  scan (d ++ rest) = NUMBER (NInt (int_of_digits d)) :: scan rest.
Proof.
  intros [Hne Hd] Hr Hdot. destruct d as [|c d]; [congruence|].
  change (String c d ++ rest) with (String c (d ++ rest)).
  rewrite scan_cons.
  change (String c (d ++ rest)) with (String c d ++ rest).
  rewrite (match_at_int c d rest Hd Hr Hdot).
  now rewrite (token_of_int_group c d Hd).
Qed.

Lemma scan_float (d1 d2 rest : string) :
  digits d1 -> all_chars is_digit d2 = true ->
  starts_with is_digit rest = false ->
  scan (d1 ++ String dot (d2 ++ rest))
  = NUMBER (NFloat (d1 ++ String dot d2)) :: scan rest.
Proof.
  intros [Hne Hd1] Hd2 Hr. destruct d1 as [|c d1]; [congruence|].
  change (String c d1 ++ String dot (d2 ++ rest))
    with (String c (d1 ++ String dot (d2 ++ rest))).
  rewrite scan_cons.
  change (String c (d1 ++ String dot (d2 ++ rest)))
    with (String c d1 ++ String dot (d2 ++ rest)).
  rewrite (match_at_float c d1 d2 rest Hd1 Hd2 Hr).
  now rewrite token_of_float_group.
Qed.

Lemma string_app_nil_r (s : string) : s ++ EmptyString = s.
Proof. induction s as [|c s IH]; simpl; [reflexivity|now rewrite IH]. Qed.

Lemma dot_plain : plain dot = true.
Proof. reflexivity. Qed.

(** The tokens of one match are numbers of the shape of the pattern. *)
Lemma match_at_number_shape (s : string) (g : groups) (after : string) :
  match_at s = Some (g, after) ->
  Forall (fun t => match t with NUMBER n => number_shape n | _ => True end)
         (token_of_group g).
Proof.
  destruct s as [|c rest]; [discriminate|]. unfold match_at.
  destruct (Ascii.eqb c dquote).
  { destruct (until_quote rest) as [[body a]|]; [|discriminate].
    intros H; injection H as <- _. unfold token_of_group.
    destruct (truthy body); repeat constructor. }
  destruct (is_digit c) eqn:Hc.
  { pose proof (span_all is_digit (String c rest)) as Hall.
    destruct (span is_digit (String c rest)) as [d1 r1] eqn:Es.
    assert (Hd1 : digits d1).
    { split; [|exact Hall].
      cbn [span] in Es. rewrite Hc in Es.
      destruct (span is_digit rest); injection Es as <- _. discriminate. }
    simpl in Hall.
    assert (Hint : Forall
              (fun t => match t with NUMBER n => number_shape n | _ => True end)
              (token_of_group ("", d1, "", ""))).
    { destruct Hd1 as [Hne Hd]. destruct d1 as [|c1 d1]; [congruence|].
      rewrite (token_of_int_group c1 d1 Hd). repeat constructor.
      exists (String c1 d1).
      split; [split; [discriminate|exact Hd]|reflexivity]. }
    destruct r1 as [|c1 r2].
    - intros H; injection H as <- _. exact Hint.
    - destruct (Ascii.eqb c1 dot).
      + pose proof (span_all is_digit r2) as Hall2.
        destruct (span is_digit r2) as [d2 r3]. simpl in Hall2.
        intros H; injection H as <- _.
        destruct Hd1 as [Hne Hd]. destruct d1 as [|c0 d1]; [congruence|].
        rewrite token_of_float_group. repeat constructor.
        exists (String c0 d1), d2.
        split; [split; [discriminate|exact Hd]|split; [exact Hall2|reflexivity]].
      + intros H; injection H as <- _. exact Hint. }
  destruct (is_operator_char c).
  { intros H; injection H as <- _. repeat constructor. }
  destruct (is_word c); [|discriminate].
  destruct (span is_word (String c rest)) as [w r1].
  intros H; injection H as <- _. unfold token_of_group. cbn [truthy].
  destruct (truthy w); repeat constructor.
Qed.

(** The tokenizer never emits a string token with an empty text. *)
Lemma match_at_string_nonempty (s : string) (g : groups) (after : string) :
  match_at s = Some (g, after) ->
  Forall (fun t => t <> STRING EmptyString) (token_of_group g).
Proof.
  intros _. destruct g as [[[g0 g1] g2] g3]. unfold token_of_group.
  destruct g0; cbn [truthy].
  - destruct (truthy g1).
    + destruct (has_dot g1); repeat constructor; discriminate.
    + destruct (truthy g2); [repeat constructor; discriminate|].
      destruct (truthy g3); repeat constructor; discriminate.
  - repeat constructor; discriminate.
Qed.

(* ================================================================= *)
(** * Properties of the parser *)

Lemma bind_ok {A B : Type} (m : outcome A) (f : A -> outcome B) (b : B) :
  bind m f = Ok b -> exists a, m = Ok a /\ f a = Ok b.
Proof. destruct m; simpl; intros H; try discriminate. eauto. Qed.

Lemma is_op_eq (t : token) (op : string) :
  is_op t op = true -> t = OPERATOR op.
Proof.
  destruct t; simpl; try discriminate. intros H.
  apply String.eqb_eq in H. now subst.
Qed.

Lemma expect_operator_ok (op : string) (ts : list token) t rest :
  expect_operator op ts = Ok (t, rest) -> ts = OPERATOR op :: rest.
Proof.
  destruct ts as [|t0 ts]; simpl; [discriminate|].
  destruct (is_op t0 op) eqn:E; [|discriminate].
  intros H; injection H as <- <-. now rewrite (is_op_eq _ _ E).
Qed.

Lemma expect_kv_sep_ok (ts : list token) t rest :
  expect_kv_sep ts = Ok (t, rest) ->
  ts = t :: rest /\ (t = OPERATOR ":" \/ t = OPERATOR "=").
Proof.
  destruct ts as [|t0 ts]; simpl; [discriminate|].
  destruct (is_op t0 ":") eqn:E1; simpl.
  - intros H; injection H as <- <-. split; [reflexivity|].
    left. now apply is_op_eq.
  - destruct (is_op t0 "=") eqn:E2; [|discriminate].
    intros H; injection H as <- <-. split; [reflexivity|].
    right. now apply is_op_eq.
Qed.

Lemma skip_comma_cases (ts : list token) :
  skip_comma ts = ts \/ ts = OPERATOR "," :: skip_comma ts.
Proof.
  destruct ts as [|t ts]; simpl; [now left|].
  destruct (is_op t ",") eqn:E; [|now left].
  right. now rewrite (is_op_eq _ _ E).
Qed.

Section Closed.

Lemma closed_nil : closed [].
Proof. intros r Hr. exact Hr. Qed.

Lemma closed_app (a b : list token) :
  closed a -> closed b -> closed (a ++ b).
Proof.
  intros Ha Hb r Hr. rewrite <- app_assoc. apply Ha, Hb, Hr.
Qed.

Lemma closed_cons (t : token) (c : list token) :
  is_op t "=" = false -> closed c -> closed (t :: c).
Proof.
  intros Ht Hc r Hr. cbn [app eq_ok]. rewrite Ht. simpl. apply Hc, Hr.
Qed.

(** A token in front of the start of a value, [=] included. *)
Lemma closed_before_value (e t : token) (c : list token) :
  value_start t = true -> closed (t :: c) -> closed (e :: t :: c).
Proof.
  intros Ht Hc r Hr.
  change ((e :: t :: c) ++ r)%list with (e :: (t :: c) ++ r)%list.
  cbn [eq_ok]. rewrite (Hc r Hr).
  cbn [app]. rewrite Ht. now destruct (is_op e "=").
Qed.

Lemma consumes_value_consumes (ts rest : list token) :
  consumes_value ts rest -> consumes ts rest.
Proof.
  intros (t & c & -> & _ & Hc). exists (t :: c). repeat split; auto.
  discriminate.
Qed.

Lemma consumes_cons (t : token) (ts rest : list token) :
  is_op t "=" = false -> consumes ts rest -> consumes (t :: ts) rest.
Proof.
  intros Ht (c & -> & _ & Hc). exists (t :: c).
  repeat split; [discriminate|now apply closed_cons].
Qed.

Lemma consumes_one (t : token) (rest : list token) :
  is_op t "=" = false -> consumes (t :: rest) rest.
Proof.
  intros Ht. exists [t]. repeat split; [discriminate|].
  apply closed_cons; [exact Ht|apply closed_nil].
Qed.

Lemma consumes_trans (a b c : list token) :
  consumes a b -> consumes b c -> consumes a c.
Proof.
  intros (x & -> & Hx & Cx) (y & -> & Hy & Cy). exists (x ++ y)%list.
  repeat split.
  - now rewrite app_assoc.
  - destruct x; [congruence|discriminate].
  - now apply closed_app.
Qed.

Lemma consumes_skip_comma (a b c : list token) :
  consumes a b -> consumes (skip_comma b) c -> consumes a c.
Proof.
  intros Hab Hbc. destruct (skip_comma_cases b) as [E|E].
  - rewrite E in Hbc. eapply consumes_trans; eassumption.
  - eapply consumes_trans; [exact Hab|].
    rewrite E. apply consumes_cons; [reflexivity|exact Hbc].
Qed.

(** A key, a separator and a value. *)
Lemma consumes_pair (k sep : token) (ts rest : list token) :
  is_op k "=" = false -> consumes_value ts rest ->
  consumes (k :: sep :: ts) rest.
Proof.
  intros Hk (t & c & -> & Ht & Hc). exists (k :: sep :: t :: c).
  repeat split; [discriminate|].
  apply closed_cons; [exact Hk|]. now apply closed_before_value.
Qed.

Lemma consumes_length (ts rest : list token) :
  consumes ts rest -> List.length rest < List.length ts.
Proof.
  intros (c & -> & Hc & _). rewrite length_app.
  destruct c; [congruence|simpl; lia].
Qed.

End Closed.

Lemma is_op_other (t : token) (a b : string) :
  is_op t a = true -> String.eqb a b = false -> is_op t b = false.
Proof.
  intros H Hab. rewrite (is_op_eq _ _ H). exact Hab.
Qed.

Lemma map_key_not_eq (t : token) (k : string) :
  map_key t = Some k -> is_op t "=" = false.
Proof. destruct t; simpl; congruence. Qed.

(** What the value parsers read. *)
Lemma parse_value_consumes (n : nat) :
  (forall ts v rest,
      parse_value n ts = Ok (v, rest) -> consumes_value ts rest)
  /\ (forall ts l rest,
         parse_list n ts = Ok (l, rest) ->
         consumes ts rest /\ exists ts', ts = OPERATOR "[" :: ts')
  /\ (forall lst ts l rest,
         parse_list_loop n lst ts = Ok (l, rest) -> consumes ts rest)
  /\ (forall ts m rest,
         parse_map n ts = Ok (m, rest) ->
         consumes ts rest /\ exists ts', ts = OPERATOR "{" :: ts')
  /\ (forall mp ts m rest,
         parse_map_loop n mp ts = Ok (m, rest) -> consumes ts rest).
Proof.
  induction n as [|n (IHv & IHl & IHll & IHm & IHml)].
  { repeat split; intros; discriminate. }
  split; [|split; [|split; [|split]]].
  - (* parse_value *)
    intros ts v rest H. cbn [parse_value] in H.
    destruct ts as [|t ts']; [discriminate|].
    destruct t as [s|[z|x]|s|s].
    + injection H as <- <-. exists (STRING s), []. repeat split.
      apply closed_cons; [reflexivity|apply closed_nil].
    + injection H as <- <-. exists (NUMBER (NInt z)), []. repeat split.
      apply closed_cons; [reflexivity|apply closed_nil].
    + injection H as <- <-. exists (NUMBER (NFloat x)), []. repeat split.
      apply closed_cons; [reflexivity|apply closed_nil].
    + destruct (String.eqb s "[") eqn:E1.
      * apply bind_ok in H as ([l r] & Hl & H). injection H as <- <-.
        apply IHl in Hl as [(c & Hc & Hne & Hcl) _].
        destruct c as [|t c]; [congruence|].
        injection Hc as <- ->. exists (OPERATOR s), c.
        repeat split; [|exact Hcl]. simpl. now rewrite E1.
      * destruct (String.eqb s "{") eqn:E2; [|discriminate].
        apply bind_ok in H as ([m r] & Hm & H). injection H as <- <-.
        apply IHm in Hm as [(c & Hc & Hne & Hcl) _].
        destruct c as [|t c]; [congruence|].
        injection Hc as <- ->. exists (OPERATOR s), c.
        repeat split; [|exact Hcl]. simpl. now rewrite E1, E2.
    + destruct (is_bool_word s) eqn:E; [|discriminate].
      injection H as <- <-. exists (IDENTIFIER s), []. repeat split.
      * exact E.
      * apply closed_cons; [reflexivity|apply closed_nil].
  - (* parse_list *)
    intros ts l rest H. cbn [parse_list] in H.
    apply bind_ok in H as ([t ts1] & He & H).
    apply expect_operator_ok in He. subst ts.
    split; [|eauto]. apply consumes_cons; [reflexivity|]. eapply IHll, H.
  - (* parse_list_loop *)
    intros lst ts l rest H. cbn [parse_list_loop] in H.
    destruct ts as [|tok ts']; [discriminate|].
    destruct (is_op tok "]") eqn:Eb.
    + injection H as <- <-. apply consumes_one.
      eapply is_op_other; [exact Eb|reflexivity].
    + destruct (bare_identifier tok); [discriminate|].
      apply bind_ok in H as ([v ts1] & Hv & H).
      apply IHv in Hv. apply IHll in H.
      eapply consumes_skip_comma; [|exact H].
      now apply consumes_value_consumes.
  - (* parse_map *)
    intros ts m rest H. cbn [parse_map] in H.
    apply bind_ok in H as ([t ts1] & He & H).
    apply expect_operator_ok in He. subst ts.
    split; [|eauto]. apply consumes_cons; [reflexivity|]. eapply IHml, H.
  - (* parse_map_loop *)
    intros mp ts m rest H. cbn [parse_map_loop] in H.
    destruct ts as [|t ts']; [discriminate|].
    destruct (is_op t "}") eqn:Eb.
    { injection H as <- <-. apply consumes_one.
      eapply is_op_other; [exact Eb|reflexivity]. }
    destruct (is_op t ",") eqn:Ec.
    { apply consumes_cons; [eapply is_op_other; [exact Ec|reflexivity]|].
      eapply IHml, H. }
    destruct (map_key t) as [k|] eqn:Ek; [|discriminate].
    apply bind_ok in H as ([sep ts1] & Hs & H).
    apply expect_kv_sep_ok in Hs as [-> _].
    apply bind_ok in H as ([v ts2] & Hv & H).
    destruct (mem k mp); [discriminate|].
    apply IHv in Hv. apply IHml in H.
    eapply consumes_trans; [|exact H].
    apply consumes_pair; [eapply map_key_not_eq, Ek|exact Hv].
Qed.

(** What the block parser reads. *)
Lemma parse_block_consumes (n : nat) :
  (forall ts b rest,
      parse_block_section n ts = Ok (b, rest) ->
      consumes ts rest /\ exists ts', ts = OPERATOR "{" :: ts')
  /\ (forall blk ts b rest,
         parse_block_loop n blk ts = Ok (b, rest) -> consumes ts rest).
Proof.
  induction n as [|n (IHs & IHl)].
  { split; intros; discriminate. }
  split.
  - intros ts b rest H. cbn [parse_block_section] in H.
    apply bind_ok in H as ([t ts1] & He & H).
    apply expect_operator_ok in He. subst ts.
    split; [|eauto]. apply consumes_cons; [reflexivity|]. eapply IHl, H.
  - intros blk ts b rest H. cbn [parse_block_loop] in H.
    destruct ts as [|tok ts']; [discriminate|].
    destruct (is_op tok "}") eqn:Eb.
    { injection H as <- <-. apply consumes_one.
      eapply is_op_other; [exact Eb|reflexivity]. }
    destruct tok as [s|x|s|key]; try discriminate.
    destruct ts' as [|next_tok rest']; [discriminate|].
    destruct (is_op next_tok "=") eqn:Ee.
    + apply bind_ok in H as ([v ts2] & Hv & H).
      destruct (mem key blk); [discriminate|].
      apply (proj1 (parse_value_consumes n)) in Hv. apply IHl in H.
      eapply consumes_trans; [|exact H].
      apply consumes_pair; [reflexivity|exact Hv].
    + destruct (is_op next_tok "{") eqn:Eo; [|discriminate].
      apply bind_ok in H as ([sub ts2] & Hs & H).
      destruct (mem key blk); [discriminate|].
      apply IHs in Hs as [Hs _]. apply IHl in H.
      eapply consumes_trans; [|exact H].
      apply consumes_cons; [reflexivity|exact Hs].
Qed.

(** A successful parse has read tokens in which every [=] is followed by
    the start of a value. *)
Lemma parse_loop_eq_ok (n : nat) (table : symbol_table) (ts : list token)
      (result : symbol_table) :
  parse_loop n table ts = Ok result -> eq_ok ts = true.
Proof.
  revert table ts. induction n as [|n IH]; intros table ts H; [discriminate|].
  cbn [parse_loop] in H.
  destruct ts as [|t ts1]; [reflexivity|].
  destruct t as [s|x|s|word]; try discriminate.
  destruct (String.eqb word "juego"); [|discriminate].
  destruct ts1 as [|t2 ts2]; [discriminate|].
  destruct t2 as [game_name|x|s|s]; try discriminate.
  apply bind_ok in H as ([root ts3] & Hb & H).
  destruct (mem game_name table); [discriminate|].
  apply (proj1 (parse_block_consumes n)) in Hb as [(c & -> & _ & Hc) _].
  apply IH in H.
  change (eq_ok (([IDENTIFIER word; STRING game_name] ++ c) ++ ts3) = true).
  apply closed_app; [|exact Hc|exact H].
  apply closed_cons; [reflexivity|].
  apply closed_cons; [reflexivity|apply closed_nil].
Qed.

(* ----------------------------------------------------------------- *)
(** ** The fuel of [parse] is enough *)

Lemma parse_value_fuel (n : nat) :
  (forall ts, 3 * List.length ts + 1 <= n -> parse_value n ts <> OutOfFuel)
  /\ (forall ts, ts <> [] -> 3 * List.length ts <= n ->
                 parse_list n ts <> OutOfFuel)
  /\ (forall lst ts, 3 * List.length ts + 2 <= n ->
                     parse_list_loop n lst ts <> OutOfFuel)
  /\ (forall ts, ts <> [] -> 3 * List.length ts <= n ->
                 parse_map n ts <> OutOfFuel)
  /\ (forall mp ts, 3 * List.length ts + 2 <= n ->
                    parse_map_loop n mp ts <> OutOfFuel).
Proof.
  induction n as [|n (IHv & IHl & IHll & IHm & IHml)].
  { repeat split; intros; try lia.
    - destruct ts; [congruence|simpl in *; lia].
    - destruct ts; [congruence|simpl in *; lia]. }
  split; [|split; [|split; [|split]]].
  - intros ts Hn. cbn [parse_value].
    destruct ts as [|t ts']; [discriminate|].
    destruct t as [s|[z|x]|s|s]; try discriminate.
    + destruct (String.eqb s "[").
      * specialize (IHl (OPERATOR s :: ts')).
        destruct (parse_list n (OPERATOR s :: ts')) as [[l r]| |];
          try discriminate.
        exfalso. apply IHl; [discriminate|simpl in *; lia|reflexivity].
      * destruct (String.eqb s "{"); [|discriminate].
        specialize (IHm (OPERATOR s :: ts')).
        destruct (parse_map n (OPERATOR s :: ts')) as [[l r]| |];
          try discriminate.
        exfalso. apply IHm; [discriminate|simpl in *; lia|reflexivity].
    + destruct (is_bool_word s); discriminate.
  - intros ts Hne Hn. cbn [parse_list].
    destruct (expect_operator "[" ts) as [[t ts1]| |] eqn:He;
      try discriminate.
    + apply expect_operator_ok in He. subst ts. cbn [bind].
      apply IHll. simpl in *; lia.
    + destruct ts as [|t0 ts0]; simpl in He; [discriminate|].
      destruct (is_op t0 "["); discriminate.
  - intros lst ts Hn. cbn [parse_list_loop].
    destruct ts as [|tok ts']; [discriminate|].
    destruct (is_op tok "]"); [discriminate|].
    destruct (bare_identifier tok); [discriminate|].
    destruct (parse_value n (tok :: ts')) as [[v ts1]| |] eqn:Hv;
      try discriminate.
    + cbn [bind]. apply IHll.
      apply (proj1 (parse_value_consumes n)) in Hv.
      apply consumes_value_consumes, consumes_length in Hv.
      destruct (skip_comma_cases ts1) as [E|E].
      * rewrite E. simpl in *; lia.
      * assert (List.length (skip_comma ts1) < List.length ts1)
          by (rewrite E at 2; simpl; lia).
        simpl in *; lia.
    + exfalso. eapply IHv; [|exact Hv]. simpl in *; lia.
  - intros ts Hne Hn. cbn [parse_map].
    destruct (expect_operator "{" ts) as [[t ts1]| |] eqn:He;
      try discriminate.
    + apply expect_operator_ok in He. subst ts. cbn [bind].
      apply IHml. simpl in *; lia.
    + destruct ts as [|t0 ts0]; simpl in He; [discriminate|].
      destruct (is_op t0 "{"); discriminate.
  - intros mp ts Hn. cbn [parse_map_loop].
    destruct ts as [|t ts']; [discriminate|].
    destruct (is_op t "}"); [discriminate|].
    destruct (is_op t ","); [apply IHml; simpl in *; lia|].
    destruct (map_key t) as [k|]; [|discriminate].
    destruct (expect_kv_sep ts') as [[sep ts1]| |] eqn:Hs; try discriminate.
    + apply expect_kv_sep_ok in Hs as [-> _]. cbn [bind].
      destruct (parse_value n ts1) as [[v ts2]| |] eqn:Hv; try discriminate.
      * cbn [bind]. destruct (mem k mp); [discriminate|].
        apply IHml.
        apply (proj1 (parse_value_consumes n)) in Hv.
        apply consumes_value_consumes, consumes_length in Hv.
        simpl in *; lia.
      * exfalso. eapply IHv; [|exact Hv]. simpl in *; lia.
    + destruct ts' as [|t0 ts0]; simpl in Hs; [discriminate|].
      destruct (is_op t0 ":" || is_op t0 "="); discriminate.
Qed.

Lemma parse_block_fuel (n : nat) :
  (forall ts, ts <> [] -> 3 * List.length ts <= n ->
              parse_block_section n ts <> OutOfFuel)
  /\ (forall blk ts, 3 * List.length ts + 2 <= n ->
                     parse_block_loop n blk ts <> OutOfFuel).
Proof.
  induction n as [|n (IHs & IHl)].
  { split; intros; try lia.
    destruct ts; [congruence|simpl in *; lia]. }
  split.
  - intros ts Hne Hn. cbn [parse_block_section].
    destruct (expect_operator "{" ts) as [[t ts1]| |] eqn:He;
      try discriminate.
    + apply expect_operator_ok in He. subst ts. cbn [bind].
      apply IHl. simpl in *; lia.
    + destruct ts as [|t0 ts0]; simpl in He; [discriminate|].
      destruct (is_op t0 "{"); discriminate.
  - intros blk ts Hn. cbn [parse_block_loop].
    destruct ts as [|tok ts']; [discriminate|].
    destruct (is_op tok "}"); [discriminate|].
    destruct tok as [s|x|s|key]; try discriminate.
    destruct ts' as [|next_tok rest']; [discriminate|].
    destruct (is_op next_tok "=").
    + destruct (parse_value n rest') as [[v ts2]| |] eqn:Hv; try discriminate.
      * cbn [bind]. destruct (mem key blk); [discriminate|].
        apply IHl.
        apply (proj1 (parse_value_consumes n)) in Hv.
        apply consumes_value_consumes, consumes_length in Hv.
        simpl in *; lia.
      * exfalso. eapply (proj1 (parse_value_fuel n)); [|exact Hv].
        simpl in *; lia.
    + destruct (is_op next_tok "{"); [|discriminate].
      destruct (parse_block_section n (next_tok :: rest'))
        as [[sub ts2]| |] eqn:Hs; try discriminate.
      * cbn [bind]. destruct (mem key blk); [discriminate|].
        apply IHl.
        apply (proj1 (parse_block_consumes n)) in Hs as [Hs _].
        apply consumes_length in Hs. simpl in *; lia.
      * exfalso. eapply IHs; [| |exact Hs]; [discriminate|simpl in *; lia].
Qed.

Lemma parse_loop_fuel (n : nat) (table : symbol_table) (ts : list token) :
  3 * List.length ts + 3 <= n -> parse_loop n table ts <> OutOfFuel.
Proof.
  revert table ts. induction n as [|n IH]; intros table ts Hn; [lia|].
  cbn [parse_loop].
  destruct ts as [|t ts1]; [discriminate|].
  destruct t as [s|x|s|word]; try discriminate.
  destruct (String.eqb word "juego"); [|discriminate].
  destruct ts1 as [|t2 ts2]; [discriminate|].
  destruct t2 as [game_name|x|s|s]; try discriminate.
  destruct (parse_block_section n ts2) as [[root ts3]| |] eqn:Hb;
    try discriminate.
  - cbn [bind]. destruct (mem game_name table); [discriminate|].
    apply IH.
    apply (proj1 (parse_block_consumes n)) in Hb as [Hb _].
    apply consumes_length in Hb. simpl in *; lia.
  - exfalso. destruct ts2 as [|t3 ts3].
    + destruct n; [simpl in *; lia|]. discriminate Hb.
    + eapply (proj1 (parse_block_fuel n)); [| |exact Hb];
        [discriminate|simpl in *; lia].
Qed.

(** [parse] returns: a table or an exception, never for want of fuel. *)
Lemma parse_returns (ts : list token) :
  (exists table, parse ts = Ok table) \/ (exists e, parse ts = Raise e).
Proof.
  pose proof (parse_loop_fuel (parse_fuel ts) [] ts (Nat.le_refl _)) as H.
  unfold parse. destruct (parse_loop (parse_fuel ts) [] ts); eauto.
  congruence.
Qed.

(* ----------------------------------------------------------------- *)
(** ** Dictionaries *)

Section AssocFacts.
Context {A : Type}.
Implicit Types (d : list (string * A)) (k : string) (v : A).

Lemma mem_keys k d : mem k d = existsb (String.eqb k) (keys d).
Proof.
  induction d as [|[k' v'] d IH]; simpl; [reflexivity|].
  now rewrite <- IH.
Qed.

(** A new key goes last. *)
Lemma set_absent k d v : mem k d = false -> set d k v = (d ++ [(k, v)])%list.
Proof.
  induction d as [|[k' v'] d IH]; simpl; [reflexivity|].
  intros H. apply orb_false_iff in H as [H1 H2].
  rewrite H1. now rewrite (IH H2).
Qed.

Lemma keys_app d1 d2 : keys (d1 ++ d2)%list = (keys d1 ++ keys d2)%list.
Proof. apply map_app. Qed.

End AssocFacts.

Lemma existsb_eqb_app (x k : string) (l : list string) :
  existsb (String.eqb x) (l ++ [k]) = existsb (String.eqb x) l || String.eqb x k.
Proof.
  rewrite existsb_app. simpl. now rewrite orb_false_r.
Qed.

Lemma nodupb_snoc (l : list string) (k : string) :
  nodupb l = true -> existsb (String.eqb k) l = false ->
  nodupb (l ++ [k]) = true.
Proof.
  induction l as [|x l IH]; simpl; [reflexivity|].
  intros H Hk. apply andb_true_iff in H as [Hx Hl].
  apply orb_false_iff in Hk as [Hkx Hkl].
  rewrite existsb_eqb_app, (IH Hl Hkl).
  apply negb_true_iff in Hx. rewrite Hx, String.eqb_sym, Hkx. reflexivity.
Qed.

Lemma nodupb_NoDup (l : list string) : nodupb l = true <-> NoDup l.
Proof.
  induction l as [|x l IH]; simpl.
  - split; [constructor|reflexivity].
  - rewrite andb_true_iff, negb_true_iff, IH. split.
    + intros [Hx Hl]. constructor; [|exact Hl].
      intros Hin. apply not_true_iff_false in Hx. apply Hx.
      apply existsb_exists. exists x. split; [exact Hin|apply String.eqb_refl].
    + intros H. inversion H as [|? ? Hx Hl]; subst. split; [|exact Hl].
      apply not_true_iff_false. intros He.
      apply existsb_exists in He as (y & Hy & Hxy).
      apply String.eqb_eq in Hxy. now subst.
Qed.

Lemma forallb_snd {A : Type} (P : A -> bool) (d : list (string * A)) :
  forallb (fun kv => let '(_, x) := kv in P x) d
  = forallb (fun kv => P (snd kv)) d.
Proof.
  induction d as [|[k v] d IH]; simpl; [reflexivity|now rewrite IH].
Qed.

Lemma consumes_Forall (Q : token -> Prop) (ts rest : list token) :
  consumes ts rest -> Forall Q ts -> Forall Q rest.
Proof.
  intros (c & -> & _) H. now apply Forall_app in H as [_ H].
Qed.

Lemma skip_comma_Forall (Q : token -> Prop) (ts : list token) :
  Forall Q ts -> Forall Q (skip_comma ts).
Proof.
  intros H. destruct (skip_comma_cases ts) as [E|E].
  - now rewrite E.
  - rewrite E in H. now inversion H.
Qed.

(* ----------------------------------------------------------------- *)
(** ** What a parsed table is made of

    [Q] is known of every token, [P] is to hold of every value built; [P]
    may rely on the keys of a dictionary being distinct. *)

Section Invariant.
Variable Q : token -> Prop.
Variable P : value -> bool.
Hypothesis P_str : forall s, Q (STRING s) -> P (VStr s) = true.
Hypothesis P_int : forall z, Q (NUMBER (NInt z)) -> P (VInt z) = true.
Hypothesis P_float : forall x, Q (NUMBER (NFloat x)) -> P (VFloat x) = true.
Hypothesis P_bool : forall b, P (VBool b) = true.
Hypothesis P_list : forall l, forallb P l = true -> P (VList l) = true.
Hypothesis P_dict :
  forall d, nodupb (keys d) = true ->
            forallb (fun kv => P (snd kv)) d = true -> P (VDict d) = true.

Lemma good_nil : good_dict P [].
Proof. split; reflexivity. Qed.

Lemma good_set (d : dict) (k : string) (v : value) :
  good_dict P d -> mem k d = false -> P v = true -> good_dict P (set d k v).
Proof.
  intros [Hn Hf] Hk Hv. rewrite (set_absent k d v Hk). split.
  - rewrite keys_app. apply nodupb_snoc; [exact Hn|].
    now rewrite <- mem_keys.
  - rewrite forallb_app. apply andb_true_iff. split; [exact Hf|].
    simpl. now rewrite Hv.
Qed.

Lemma good_table_set (t : symbol_table) (k : string) (d : dict) :
  good_symbol_table P t -> mem k t = false -> good_dict P d ->
  good_symbol_table P (set t k d).
Proof.
  intros [Hn Hf] Hk [Hd1 Hd2]. rewrite (set_absent k t d Hk). split.
  - rewrite keys_app. apply nodupb_snoc; [exact Hn|].
    now rewrite <- mem_keys.
  - rewrite forallb_app. apply andb_true_iff. split; [exact Hf|].
    simpl. now rewrite (P_dict d Hd1 Hd2).
Qed.

Lemma forallb_snoc (l : list value) (v : value) :
  forallb P l = true -> P v = true -> forallb P (l ++ [v]) = true.
Proof. intros Hl Hv. rewrite forallb_app, Hl. simpl. now rewrite Hv. Qed.

Lemma parse_value_inv (n : nat) :
  (forall ts v rest,
      Forall Q ts -> parse_value n ts = Ok (v, rest) -> P v = true)
  /\ (forall ts l rest,
         Forall Q ts -> parse_list n ts = Ok (l, rest) ->
         forallb P l = true)
  /\ (forall lst ts l rest,
         Forall Q ts -> forallb P lst = true ->
         parse_list_loop n lst ts = Ok (l, rest) -> forallb P l = true)
  /\ (forall ts m rest,
         Forall Q ts -> parse_map n ts = Ok (m, rest) -> good_dict P m)
  /\ (forall mp ts m rest,
         Forall Q ts -> good_dict P mp ->
         parse_map_loop n mp ts = Ok (m, rest) -> good_dict P m).
Proof.
  induction n as [|n (IHv & IHl & IHll & IHm & IHml)].
  { repeat split; intros; discriminate. }
  split; [|split; [|split; [|split]]].
  - intros ts v rest HQ H. cbn [parse_value] in H.
    destruct ts as [|t ts']; [discriminate|].
    destruct t as [s|[z|x]|s|s].
    + injection H as <- <-. apply P_str. now inversion HQ.
    + injection H as <- <-. apply P_int. now inversion HQ.
    + injection H as <- <-. apply P_float. now inversion HQ.
    + destruct (String.eqb s "[").
      * apply bind_ok in H as ([l r] & Hl & H). injection H as <- <-.
        apply P_list. eapply IHl; eassumption.
      * destruct (String.eqb s "{"); [|discriminate].
        apply bind_ok in H as ([m r] & Hm & H). injection H as <- <-.
        destruct (IHm _ _ _ HQ Hm) as [H1 H2]. now apply P_dict.
    + destruct (is_bool_word s); [|discriminate].
      injection H as <- <-. apply P_bool.
  - intros ts l rest HQ H. cbn [parse_list] in H.
    apply bind_ok in H as ([t ts1] & He & H).
    apply expect_operator_ok in He. subst ts.
    apply (IHll [] ts1 l rest); [now inversion HQ|reflexivity|exact H].
  - intros lst ts l rest HQ Hlst H. cbn [parse_list_loop] in H.
    destruct ts as [|tok ts']; [discriminate|].
    destruct (is_op tok "]").
    + now injection H as <- <-.
    + destruct (bare_identifier tok); [discriminate|].
      apply bind_ok in H as ([v ts1] & Hv & H).
      eapply IHll; [| |exact H].
      * apply skip_comma_Forall.
        eapply consumes_Forall; [|exact HQ].
        eapply consumes_value_consumes, (proj1 (parse_value_consumes n)), Hv.
      * apply forallb_snoc; [exact Hlst|]. eapply IHv; eassumption.
  - intros ts m rest HQ H. cbn [parse_map] in H.
    apply bind_ok in H as ([t ts1] & He & H).
    apply expect_operator_ok in He. subst ts.
    apply (IHml [] ts1 m rest); [now inversion HQ|apply good_nil|exact H].
  - intros mp ts m rest HQ Hmp H. cbn [parse_map_loop] in H.
    destruct ts as [|t ts']; [discriminate|].
    assert (HQ' : Forall Q ts') by now inversion HQ.
    destruct (is_op t "}"); [now injection H as <- <-|].
    destruct (is_op t ","); [eapply IHml; eassumption|].
    destruct (map_key t) as [k|]; [|discriminate].
    apply bind_ok in H as ([sep ts1] & Hs & H).
    apply expect_kv_sep_ok in Hs as [-> _].
    apply bind_ok in H as ([v ts2] & Hv & H).
    destruct (mem k mp) eqn:Ek; [discriminate|].
    assert (HQ1 : Forall Q ts1) by now inversion HQ'.
    eapply IHml; [| |exact H].
    + eapply consumes_Forall; [|exact HQ1].
      eapply consumes_value_consumes, (proj1 (parse_value_consumes n)), Hv.
    + apply good_set; [exact Hmp|exact Ek|]. eapply IHv; eassumption.
Qed.

Lemma parse_block_inv (n : nat) :
  (forall ts b rest,
      Forall Q ts -> parse_block_section n ts = Ok (b, rest) -> good_dict P b)
  /\ (forall blk ts b rest,
         Forall Q ts -> good_dict P blk ->
         parse_block_loop n blk ts = Ok (b, rest) -> good_dict P b).
Proof.
  induction n as [|n (IHs & IHl)].
  { split; intros; discriminate. }
  split.
  - intros ts b rest HQ H. cbn [parse_block_section] in H.
    apply bind_ok in H as ([t ts1] & He & H).
    apply expect_operator_ok in He. subst ts.
    apply (IHl [] ts1 b rest); [now inversion HQ|apply good_nil|exact H].
  - intros blk ts b rest HQ Hblk H. cbn [parse_block_loop] in H.
    destruct ts as [|tok ts']; [discriminate|].
    assert (HQ' : Forall Q ts') by now inversion HQ.
    destruct (is_op tok "}"); [now injection H as <- <-|].
    destruct tok as [s|x|s|key]; try discriminate.
    destruct ts' as [|next_tok rest']; [discriminate|].
    assert (HQ1 : Forall Q rest') by now inversion HQ'.
    destruct (is_op next_tok "=").
    + apply bind_ok in H as ([v ts2] & Hv & H).
      destruct (mem key blk) eqn:Ek; [discriminate|].
      eapply IHl; [| |exact H].
      * eapply consumes_Forall; [|exact HQ1].
        eapply consumes_value_consumes, (proj1 (parse_value_consumes n)), Hv.
      * apply good_set; [exact Hblk|exact Ek|].
        eapply (proj1 (parse_value_inv n)); eassumption.
    + destruct (is_op next_tok "{"); [|discriminate].
      apply bind_ok in H as ([sub ts2] & Hs & H).
      destruct (mem key blk) eqn:Ek; [discriminate|].
      eapply IHl; [| |exact H].
      * eapply consumes_Forall; [|exact HQ'].
        eapply (proj1 (parse_block_consumes n)), Hs.
      * apply good_set; [exact Hblk|exact Ek|].
        destruct (IHs _ _ _ HQ' Hs) as [H1 H2]. now apply P_dict.
Qed.

Lemma parse_loop_inv (n : nat) (table : symbol_table) (ts : list token)
      (result : symbol_table) :
  Forall Q ts -> good_symbol_table P table ->
  parse_loop n table ts = Ok result -> good_symbol_table P result.
Proof.
  revert table ts. induction n as [|n IH]; intros table ts HQ Ht H;
    [discriminate|].
  cbn [parse_loop] in H.
  destruct ts as [|t ts1]; [now injection H as <-|].
  destruct t as [s|x|s|word]; try discriminate.
  destruct (String.eqb word "juego"); [|discriminate].
  destruct ts1 as [|t2 ts2]; [discriminate|].
  destruct t2 as [game_name|x|s|s]; try discriminate.
  apply bind_ok in H as ([root ts3] & Hb & H).
  destruct (mem game_name table) eqn:Ek; [discriminate|].
  assert (HQ2 : Forall Q ts2).
  { inversion HQ as [|? ? _ HQ1]; subst. now inversion HQ1. }
  eapply IH; [| |exact H].
  - eapply consumes_Forall; [|exact HQ2].
    eapply (proj1 (parse_block_consumes n)), Hb.
  - apply good_table_set; [exact Ht|exact Ek|].
    eapply (proj1 (parse_block_inv n)); eassumption.
Qed.

Lemma parse_inv (ts : list token) (result : symbol_table) :
  Forall Q ts -> parse ts = Ok result -> good_symbol_table P result.
Proof.
  intros HQ H. eapply parse_loop_inv; [exact HQ| |exact H].
  split; reflexivity.
Qed.
End Invariant.

(* ----------------------------------------------------------------- *)
(** ** The parser and the bindings of its input

    Where the parser returns, the bindings are what it returns: its checks
    only ever reject. *)

Lemma parse_value_bindings (n : nat) :
  (forall ts r, parse_value n ts = Ok r -> bindings_value n ts = Ok r)
  /\ (forall ts r, parse_list n ts = Ok r -> bindings_list n ts = Ok r)
  /\ (forall lst ts r,
         parse_list_loop n lst ts = Ok r ->
         bindings_list_loop n lst ts = Ok r)
  /\ (forall ts r, parse_map n ts = Ok r -> bindings_map n ts = Ok r)
  /\ (forall mp ts r,
         parse_map_loop n mp ts = Ok r -> bindings_map_loop n mp ts = Ok r).
Proof.
  induction n as [|n (IHv & IHl & IHll & IHm & IHml)].
  { repeat split; intros; discriminate. }
  split; [|split; [|split; [|split]]].
  - intros ts r H. cbn [parse_value] in H. cbn [bindings_value].
    destruct ts as [|t ts']; [discriminate|].
    destruct t as [s|[z|x]|s|s]; try exact H.
    destruct (String.eqb s "[").
    + apply bind_ok in H as ([l r'] & Hl & H).
      now rewrite (IHl _ _ Hl).
    + destruct (String.eqb s "{"); [|discriminate].
      apply bind_ok in H as ([m r'] & Hm & H).
      now rewrite (IHm _ _ Hm).
  - intros ts r H. cbn [parse_list] in H. cbn [bindings_list].
    apply bind_ok in H as ([t ts1] & He & H). rewrite He. cbn [bind].
    now apply IHll.
  - intros lst ts r H. cbn [parse_list_loop] in H. cbn [bindings_list_loop].
    destruct ts as [|tok ts']; [discriminate|].
    destruct (is_op tok "]"); [exact H|].
    destruct (bare_identifier tok); [discriminate|].
    apply bind_ok in H as ([v ts1] & Hv & H).
    rewrite (IHv _ _ Hv). cbn [bind]. now apply IHll.
  - intros ts r H. cbn [parse_map] in H. cbn [bindings_map].
    apply bind_ok in H as ([t ts1] & He & H). rewrite He. cbn [bind].
    now apply IHml.
  - intros mp ts r H. cbn [parse_map_loop] in H. cbn [bindings_map_loop].
    destruct ts as [|t ts']; [discriminate|].
    destruct (is_op t "}"); [exact H|].
    destruct (is_op t ","); [now apply IHml|].
    destruct (map_key t) as [k|]; [|discriminate].
    apply bind_ok in H as ([sep ts1] & Hs & H). rewrite Hs. cbn [bind].
    apply bind_ok in H as ([v ts2] & Hv & H).
    rewrite (IHv _ _ Hv). cbn [bind].
    destruct (mem k mp) eqn:Ek; [discriminate|].
    rewrite <- (set_absent k mp v Ek). now apply IHml.
Qed.

Lemma parse_block_bindings (n : nat) :
  (forall ts r, parse_block_section n ts = Ok r -> bindings_block n ts = Ok r)
  /\ (forall blk ts r,
         parse_block_loop n blk ts = Ok r ->
         bindings_block_loop n blk ts = Ok r).
Proof.
  induction n as [|n (IHs & IHl)].
  { split; intros; discriminate. }
  split.
  - intros ts r H. cbn [parse_block_section] in H. cbn [bindings_block].
    apply bind_ok in H as ([t ts1] & He & H). rewrite He. cbn [bind].
    now apply IHl.
  - intros blk ts r H. cbn [parse_block_loop] in H.
    cbn [bindings_block_loop].
    destruct ts as [|tok ts']; [discriminate|].
    destruct (is_op tok "}"); [exact H|].
    destruct tok as [s|x|s|key]; try discriminate.
    destruct ts' as [|next_tok rest']; [discriminate|].
    destruct (is_op next_tok "=").
    + apply bind_ok in H as ([v ts2] & Hv & H).
      rewrite (proj1 (parse_value_bindings n) _ _ Hv). cbn [bind].
      destruct (mem key blk) eqn:Ek; [discriminate|].
      rewrite <- (set_absent key blk v Ek). now apply IHl.
    + destruct (is_op next_tok "{"); [|discriminate].
      apply bind_ok in H as ([sub ts2] & Hs & H).
      rewrite (IHs _ _ Hs). cbn [bind].
      destruct (mem key blk) eqn:Ek; [discriminate|].
      rewrite <- (set_absent key blk (VDict sub) Ek). now apply IHl.
Qed.

Lemma parse_loop_bindings (n : nat) (table : symbol_table)
      (ts : list token) (result : symbol_table) :
  parse_loop n table ts = Ok result -> bindings_loop n table ts = Ok result.
Proof.
  revert table ts. induction n as [|n IH]; intros table ts H; [discriminate|].
  cbn [parse_loop] in H. cbn [bindings_loop].
  destruct ts as [|t ts1]; [exact H|].
  destruct t as [s|x|s|word]; try discriminate.
  destruct (String.eqb word "juego"); [|discriminate].
  destruct ts1 as [|t2 ts2]; [discriminate|].
  destruct t2 as [game_name|x|s|s]; try discriminate.
  apply bind_ok in H as ([root ts3] & Hb & H).
  rewrite (proj1 (parse_block_bindings n) _ _ Hb). cbn [bind].
  destruct (mem game_name table) eqn:Ek; [discriminate|].
  rewrite <- (set_absent game_name table root Ek). now apply IH.
Qed.

Lemma parse_bindings (ts : list token) (table : symbol_table) :
  parse ts = Ok table -> bindings ts = Ok table.
Proof. apply parse_loop_bindings. Qed.

(** Every block and map of a parsed table has each key once. *)
Lemma parse_unique_keys (ts : list token) (table : symbol_table) :
  parse ts = Ok table -> table_unique_keys table = true.
Proof.
  intros H.
  destruct (parse_inv (fun _ => True) unique_keysb) with (ts := ts)
                                                         (result := table)
    as [H1 H2]; try reflexivity; try exact H.
  - intros l Hl. exact Hl.
  - intros d Hn Hf. cbn [unique_keysb]. now rewrite Hn, forallb_snd.
  - apply Forall_forall. intros; exact I.
  - unfold table_unique_keys. now rewrite H1, H2.
Qed.

(** No string bound in a parsed table is empty when no string token is. *)
Lemma parse_no_empty_str (ts : list token) (table : symbol_table) :
  Forall (fun t => t <> STRING EmptyString) ts ->
  parse ts = Ok table -> table_no_empty_str table = true.
Proof.
  intros HQ H.
  destruct (parse_inv (fun t => t <> STRING EmptyString) no_empty_str)
    with (ts := ts) (result := table) as [H1 H2];
    try reflexivity; try assumption.
  - intros s Hs. destruct s; [congruence|reflexivity].
  - intros l Hl. exact Hl.
  - intros d _ Hf. cbn [no_empty_str]. now rewrite forallb_snd.
Qed.

Lemma eq_ok_dangling (pre post : list token) :
  dangling post = true ->
  eq_ok (pre ++ OPERATOR "=" :: post) = false.
Proof.
  intros H. induction pre as [|t pre IH].
  - cbn [app eq_ok is_op]. rewrite String.eqb_refl.
    destruct post as [|t post]; [reflexivity|].
    cbn [dangling] in H. apply negb_true_iff in H. now rewrite H.
  - change ((t :: pre) ++ OPERATOR "=" :: post)%list
      with (t :: (pre ++ OPERATOR "=" :: post))%list.
    cbn [eq_ok]. rewrite IH. apply andb_false_r.
Qed.

Lemma blank_lines_no_tokens (source : string) :
  Forall blank_or_comment (splitlines source) -> tokenize source = [].
Proof.
  unfold tokenize. induction (splitlines source) as [|line ls IH];
    intros H; [reflexivity|].
  inversion H as [|? ? Hl Hls]; subst. cbn [flat_map].
  rewrite (IH Hls), app_nil_r. unfold line_tokens.
  unfold blank_or_comment in Hl. now rewrite Hl.
Qed.

(* ================================================================= *)
(** * Properties of the validators *)

Section GetFacts.
Context {A : Type}.
Implicit Types (d : list (string * A)) (k : string).

Lemma get_Some_mem d k v : get d k = Some v -> mem k d = true.
Proof.
  induction d as [|[k' v'] d IH]; simpl; [discriminate|].
  destruct (String.eqb k k'); [reflexivity|exact IH].
Qed.

Lemma mem_get d k : mem k d = true -> exists v, get d k = Some v.
Proof.
  induction d as [|[k' v'] d IH]; simpl; [discriminate|].
  destruct (String.eqb k k'); [eauto|exact IH].
Qed.
End GetFacts.

Lemma missing_nil (a b c : string) (cfg : dict) :
  mem a cfg = true -> mem b cfg = true -> mem c cfg = true ->
  missing [a; b; c] cfg = [].
Proof. intros Ha Hb Hc. unfold missing. simpl. now rewrite Ha, Hb, Hc. Qed.

Lemma missing_cases (a b c : string) (cfg : dict) :
  (exists x l, missing [a; b; c] cfg = x :: l)
  \/ (missing [a; b; c] cfg = []
      /\ exists va vb vc,
          get cfg a = Some va /\ get cfg b = Some vb /\ get cfg c = Some vc).
Proof.
  unfold missing. simpl.
  destruct (mem a cfg) eqn:Ha; simpl; [|eauto].
  destruct (mem b cfg) eqn:Hb; simpl; [|eauto].
  destruct (mem c cfg) eqn:Hc; simpl; [|eauto].
  right. split; [reflexivity|].
  apply mem_get in Ha as [va Ha], Hb as [vb Hb], Hc as [vc Hc]. eauto 7.
Qed.

(** The integer rule never raises on a dictionary. *)
Lemma int_gt0_total (d : dict) (k : string) : exists x, int_gt0 d k = Ok x.
Proof.
  unfold int_gt0, getitem.
  destruct (get d k) as [v|]; [|now exists false].
  destruct (is_int_strict (Some v)); cbn [bind]; eauto.
Qed.

(** A Boolean fails the integer rule. *)
Lemma int_gt0_bool (d : dict) (k : string) (b : bool) :
  get d k = Some (VBool b) -> int_gt0 d k = Ok false.
Proof. intros H. unfold int_gt0. now rewrite H. Qed.


Lemma first_bad_score_bool (pl : dict) (ks : list string) (k : string)
      (b : bool) :
  In k ks -> get pl k = Some (VBool b) ->
  exists k', first_bad_score pl ks = Some k'.
Proof.
  intros Hin Hk. induction ks as [|k0 ks IH]; [contradiction|].
  cbn [first_bad_score].
  destruct (negb (mem k0 pl) || negb (is_int_strict (get pl k0))
            || match get pl k0 with Some x => lt0 x | None => false end) eqn:E.
  - eauto.
  - destruct Hin as [->|Hin]; [|now apply IH].
    rewrite Hk in E. cbn in E. rewrite orb_true_r in E. discriminate.
Qed.

Lemma first_bad_opt_bool (vel : dict) (opts : list string) (opt : string)
      (b : bool) :
  In opt opts -> get vel opt = Some (VBool b) ->
  exists o, first_bad_opt vel opts = Some o.
Proof.
  intros Hin Hk. induction opts as [|o opts IH]; [contradiction|].
  cbn [first_bad_opt].
  destruct (mem o vel && negb (is_int_strict (get vel o))) eqn:E.
  - eauto.
  - destruct Hin as [->|Hin]; [|now apply IH].
    rewrite Hk, (get_Some_mem _ _ _ Hk) in E. discriminate.
Qed.

(** The body of [validate_snake] once the three sections are there. *)
Lemma validate_snake_sections (cfg : dict) (rej vel con : value) :
  get cfg "rejilla" = Some rej -> get cfg "velocidad" = Some vel ->
  get cfg "controles" = Some con ->
  validate_snake cfg =
  (rej_d <- as_dict rej ;;
   ancho <- int_gt0 rej_d "ancho" ;;
   if negb ancho then Ok (false, "Snake: rejilla.ancho debe ser entero > 0")
   else
   alto <- int_gt0 rej_d "alto" ;;
   if negb alto then Ok (false, "Snake: rejilla.alto debe ser entero > 0")
   else
   vel_d <- as_dict vel ;;
   tick <- int_gt0 vel_d "tick_ms" ;;
   if negb tick
   then Ok (false, "Snake: velocidad.tick_ms debe ser entero > 0")
   else
   con_d <- as_dict con ;;
   match first_not_str con_d ["arriba"; "abajo"; "izquierda"; "derecha"] with
   | Some k => Ok (false, "Snake: controles." ++ k ++ " debe ser cadena")
   | None => Ok (true, "Snake OK")
   end).
Proof.
  intros Hr Hv Hc. unfold validate_snake.
  rewrite missing_nil by (eapply get_Some_mem; eassumption).
  unfold getitem. rewrite Hr, Hv, Hc. reflexivity.
Qed.

Lemma validate_tetris_sections (cfg : dict) (rej vel pun : value) :
  get cfg "rejilla" = Some rej -> get cfg "velocidad" = Some vel ->
  get cfg "puntuacion" = Some pun ->
  validate_tetris cfg =
  (rej_d <- as_dict rej ;;
   ancho <- int_gt0 rej_d "ancho" ;;
   if negb ancho then Ok (false, "Tetris: rejilla.ancho debe ser entero > 0")
   else
   alto <- int_gt0 rej_d "alto" ;;
   if negb alto then Ok (false, "Tetris: rejilla.alto debe ser entero > 0")
   else
   vel_d <- as_dict vel ;;
   grav <- int_gt0 vel_d "gravedad_ms" ;;
   if negb grav
   then Ok (false, "Tetris: velocidad.gravedad_ms debe ser entero > 0")
   else
   pun_d <- as_dict pun ;;
   match get pun_d "por_linea" with
   | Some (VDict pl) =>
       match first_bad_score pl ["1"; "2"; "3"; "4"] with
       | Some k =>
           Ok (false, "Tetris: puntuacion.por_linea['" ++ k
                        ++ "'] debe ser entero >= 0")
       | None =>
           match first_bad_opt vel_d ["soft_drop_ms"; "lock_delay_ms"] with
           | Some opt =>
               Ok (false, "Tetris: velocidad." ++ opt ++ " debe ser entero")
           | None => Ok (true, "Tetris OK")
           end
       end
   | _ => Ok (false, "Tetris: puntuacion.por_linea debe ser un mapa")
   end).
Proof.
  intros Hr Hv Hp. unfold validate_tetris.
  rewrite missing_nil by (eapply get_Some_mem; eassumption).
  unfold getitem. rewrite Hr, Hv, Hp. reflexivity.
Qed.

(** With a section missing the record says so. *)
Lemma validate_snake_missing (cfg : dict) x l :
  missing ["rejilla"; "velocidad"; "controles"] cfg = x :: l ->
  exists m, validate_snake cfg = Ok (false, m).
Proof. intros H. unfold validate_snake. rewrite H. eauto. Qed.

Lemma validate_tetris_missing (cfg : dict) x l :
  missing ["rejilla"; "velocidad"; "puntuacion"] cfg = x :: l ->
  exists m, validate_tetris cfg = Ok (false, m).
Proof. intros H. unfold validate_tetris. rewrite H. eauto. Qed.

(** Destructing the integer rules of a validator body, one at a time. *)
Ltac rule_step :=
  match goal with
  | |- context [int_gt0 ?d ?k] =>
      let x := fresh "x" in
      let Hx := fresh "Hx" in
      destruct (int_gt0_total d k) as [x Hx]; rewrite Hx; cbn [bind];
      destruct x; cbn [negb]
  end.

Ltac rule_bool H :=
  rewrite (int_gt0_bool _ _ _ H); cbn [bind negb].

Lemma sections_are_blocks_scalar (names : list string) (cfg : dict)
      (s : string) (v : value) :
  In s names -> get cfg s = Some v -> (forall d, v <> VDict d) ->
  sections_are_blocks names cfg = false.
Proof.
  intros Hin Hs Hv. unfold sections_are_blocks.
  apply not_true_iff_false. intros H.
  rewrite forallb_forall in H. specialize (H s Hin). rewrite Hs in H.
  destruct v; try discriminate. now apply (Hv d).
Qed.

(** A Boolean in an integer field of the snake rules: the record says
    invalid, unless a section read before the field is not a block, and
    then the validator raises. *)
Lemma validate_snake_bool (cfg : dict) (sec fld : string) (b : bool) :
  In (sec, fld) snake_int_fields -> holds cfg sec fld (VBool b) ->
  (exists m, validate_snake cfg = Ok (false, m))
  \/ (sec <> "rejilla"
      /\ sections_are_blocks snake_sections cfg = false
      /\ exists v, validate_snake cfg = Raise (AttributeError v "get")).
Proof.
  intros Hin (d & Hsec & Hfld).
  destruct (missing_cases "rejilla" "velocidad" "controles" cfg)
    as [(x & l & Hm) | (_ & rej & vel & con & Hr & Hv & Hc)].
  { left. eapply validate_snake_missing, Hm. }
  rewrite (validate_snake_sections _ _ _ _ Hr Hv Hc).
  destruct Hin as [E | [E | [E | []]]]; injection E as <- <-.
  - rewrite Hr in Hsec. injection Hsec as ->. cbn [as_dict bind].
    rule_bool Hfld. eauto.
  - rewrite Hr in Hsec. injection Hsec as ->. cbn [as_dict bind].
    rule_step; [|eauto]. rule_bool Hfld. eauto.
  - rewrite Hv in Hsec. injection Hsec as ->.
    destruct rej as [s|z|x|b0|l|rd];
      try (right; split; [discriminate|split];
           [eapply (sections_are_blocks_scalar snake_sections);
            [left; reflexivity|exact Hr|discriminate]
           |eexists; reflexivity]).
    cbn [as_dict bind].
    rule_step; [|eauto]. rule_step; [|eauto]. rule_bool Hfld. eauto.
Qed.

(** Giving up on a validator run where a section is not a block. *)
Ltac scalar_section names H pos :=
  split;
  [eapply (sections_are_blocks_scalar names); [pos|exact H|discriminate]
  |eexists; reflexivity].

Lemma validate_tetris_bool_opt (cfg d : dict) (opt : string) (b : bool) :
  In opt ["soft_drop_ms"; "lock_delay_ms"] ->
  get cfg "velocidad" = Some (VDict d) -> get d opt = Some (VBool b) ->
  (exists m, validate_tetris cfg = Ok (false, m))
  \/ (sections_are_blocks tetris_sections cfg = false
      /\ exists v, validate_tetris cfg = Raise (AttributeError v "get")).
Proof.
  intros Hopt Hsec Hfld.
  destruct (missing_cases "rejilla" "velocidad" "puntuacion" cfg)
    as [(x & l & Hm) | (_ & rej & vel & pun & Hr & Hv & Hp)].
  { left. eapply validate_tetris_missing, Hm. }
  rewrite (validate_tetris_sections _ _ _ _ Hr Hv Hp).
  rewrite Hv in Hsec. injection Hsec as ->.
  destruct rej as [s|z|x|b0|l|rd];
    try (right; scalar_section tetris_sections Hr ltac:(left; reflexivity)).
  cbn [as_dict bind].
  rule_step; [|eauto]. rule_step; [|eauto]. rule_step; [|eauto].
  destruct pun as [s|z|x|b0|l|pd];
    try (right; scalar_section tetris_sections Hp
                        ltac:(right; right; left; reflexivity)).
  cbn [as_dict bind].
  destruct (get pd "por_linea") as [[s|z|x|b0|l|pl]|]; eauto.
  destruct (first_bad_score pl ["1"; "2"; "3"; "4"]); [eauto|].
  destruct (first_bad_opt_bool d ["soft_drop_ms"; "lock_delay_ms"] opt b
              Hopt Hfld) as [o Ho].
  rewrite Ho. eauto.
Qed.

Lemma validate_tetris_bool (cfg : dict) (sec fld : string) (b : bool) :
  In (sec, fld) tetris_int_fields -> holds cfg sec fld (VBool b) ->
  (exists m, validate_tetris cfg = Ok (false, m))
  \/ (sec <> "rejilla"
      /\ sections_are_blocks tetris_sections cfg = false
      /\ exists v, validate_tetris cfg = Raise (AttributeError v "get")).
Proof.
  intros Hin (d & Hsec & Hfld).
  assert (Hopt : forall opt,
             In opt ["soft_drop_ms"; "lock_delay_ms"] ->
             get cfg "velocidad" = Some (VDict d) ->
             get d opt = Some (VBool b) ->
             (exists m, validate_tetris cfg = Ok (false, m))
             \/ ("velocidad" <> "rejilla"
                 /\ sections_are_blocks tetris_sections cfg = false
                 /\ exists v,
                     validate_tetris cfg = Raise (AttributeError v "get"))).
  { intros opt Ho Hs Hf.
    destruct (validate_tetris_bool_opt cfg d opt b Ho Hs Hf) as [H|H];
      [now left|right]. split; [discriminate|exact H]. }
  destruct Hin as [E | [E | [E | [E | [E | []]]]]]; injection E as <- <-;
    try (eapply Hopt; try eassumption; simpl; tauto).
  all: destruct (missing_cases "rejilla" "velocidad" "puntuacion" cfg)
    as [(x & l & Hm) | (_ & rej & vel & pun & Hr & Hv & Hp)];
    [left; eapply validate_tetris_missing, Hm|];
    rewrite (validate_tetris_sections _ _ _ _ Hr Hv Hp).
  - rewrite Hr in Hsec. injection Hsec as ->. cbn [as_dict bind].
    rule_bool Hfld. eauto.
  - rewrite Hr in Hsec. injection Hsec as ->. cbn [as_dict bind].
    rule_step; [|eauto]. rule_bool Hfld. eauto.
  - rewrite Hv in Hsec. injection Hsec as ->.
    destruct rej as [s|z|x|b0|l|rd];
      try (right; split; [discriminate|];
           scalar_section tetris_sections Hr ltac:(left; reflexivity)).
    cbn [as_dict bind].
    rule_step; [|eauto]. rule_step; [|eauto]. rule_bool Hfld. eauto.
Qed.

(** The same for an entry of the score map. *)
Lemma validate_tetris_bool_score (cfg pun pl : dict) (k : string) (b : bool) :
  In k score_keys ->
  get cfg "puntuacion" = Some (VDict pun) ->
  get pun "por_linea" = Some (VDict pl) -> get pl k = Some (VBool b) ->
  (exists m, validate_tetris cfg = Ok (false, m))
  \/ (sections_are_blocks tetris_sections cfg = false
      /\ exists v, validate_tetris cfg = Raise (AttributeError v "get")).
Proof.
  intros Hk Hsec Hpl Hfld.
  destruct (missing_cases "rejilla" "velocidad" "puntuacion" cfg)
    as [(x & l & Hm) | (_ & rej & vel & pun' & Hr & Hv & Hp)].
  { left. eapply validate_tetris_missing, Hm. }
  rewrite (validate_tetris_sections _ _ _ _ Hr Hv Hp).
  rewrite Hp in Hsec. injection Hsec as ->.
  destruct rej as [s|z|x|b0|l|rd];
    try (right; scalar_section tetris_sections Hr ltac:(left; reflexivity)).
  cbn [as_dict bind].
  rule_step; [|eauto]. rule_step; [|eauto].
  destruct vel as [s|z|x|b0|l|vd];
    try (right; scalar_section tetris_sections Hv ltac:(right; left; reflexivity)).
  cbn [as_dict bind].
  rule_step; [|eauto]. rewrite Hpl.
  destruct (first_bad_score_bool pl ["1"; "2"; "3"; "4"] k b Hk Hfld)
    as [k' Hk'].
  rewrite Hk'. eauto.
Qed.

(** With every section a block the validators return a record. *)
Lemma validate_snake_returns (cfg : dict) :
  sections_are_blocks snake_sections cfg = true ->
  exists r, validate_snake cfg = Ok r.
Proof.
  intros H.
  destruct (missing_cases "rejilla" "velocidad" "controles" cfg)
    as [(x & l & Hm) | (_ & rej & vel & con & Hr & Hv & Hc)].
  { destruct (validate_snake_missing cfg x l Hm) as [m E]. eauto. }
  rewrite (validate_snake_sections _ _ _ _ Hr Hv Hc).
  unfold sections_are_blocks, snake_sections in H. cbn [forallb] in H.
  rewrite Hr, Hv, Hc in H.
  destruct rej as [s|z|x|b0|l|rd]; try discriminate.
  destruct vel as [s|z|x|b0|l|vd]; try discriminate.
  destruct con as [s|z|x|b0|l|cd]; try discriminate.
  cbn [as_dict bind].
  rule_step; [|eauto]. rule_step; [|eauto]. rule_step; [|eauto].
  destruct (first_not_str cd _); eauto.
Qed.

Lemma validate_tetris_returns (cfg : dict) :
  sections_are_blocks tetris_sections cfg = true ->
  exists r, validate_tetris cfg = Ok r.
Proof.
  intros H.
  destruct (missing_cases "rejilla" "velocidad" "puntuacion" cfg)
    as [(x & l & Hm) | (_ & rej & vel & pun & Hr & Hv & Hp)].
  { destruct (validate_tetris_missing cfg x l Hm) as [m E]. eauto. }
  rewrite (validate_tetris_sections _ _ _ _ Hr Hv Hp).
  unfold sections_are_blocks, tetris_sections in H. cbn [forallb] in H.
  rewrite Hr, Hv, Hp in H.
  destruct rej as [s|z|x|b0|l|rd]; try discriminate.
  destruct vel as [s|z|x|b0|l|vd]; try discriminate.
  destruct pun as [s|z|x|b0|l|pd]; try discriminate.
  cbn [as_dict bind].
  rule_step; [|eauto]. rule_step; [|eauto]. rule_step; [|eauto].
  destruct (get pd "por_linea") as [[s|z|x|b0|l|pl]|]; eauto.
  destruct (first_bad_score pl _); [eauto|].
  destruct (first_bad_opt vd _); eauto.
Qed.

(* ----------------------------------------------------------------- *)
(** ** The parser, one step at a time *)

Lemma parse_loop_juego (n : nat) (table : symbol_table) (g : string)
      (ts : list token) :
  parse_loop (S n) table (IDENTIFIER "juego" :: STRING g :: ts)
  = ('(root_block, ts3) <- parse_block_section n ts ;;
     if mem g table then Raise (SyntaxError (GameRedeclared g))
     else parse_loop n (set table g root_block) ts3).
Proof. reflexivity. Qed.

Lemma parse_block_section_open (n : nat) (ts : list token) :
  parse_block_section (S n) (OPERATOR "{" :: ts) = parse_block_loop n [] ts.
Proof. reflexivity. Qed.

Lemma parse_block_loop_assign (n : nat) (blk : dict) (key : string)
      (ts : list token) :
  parse_block_loop (S n) blk (IDENTIFIER key :: OPERATOR "=" :: ts)
  = ('(v, ts2) <- parse_value n ts ;;
     if mem key blk then Raise (SyntaxError (RedefinedKey key))
     else parse_block_loop n (set blk key v) ts2).
Proof. reflexivity. Qed.

Lemma parse_value_list (n : nat) (ts : list token) :
  parse_value (S (S n)) (OPERATOR "[" :: ts)
  = ('(lst, rest) <- parse_list_loop n [] ts ;; Ok (VList lst, rest)).
Proof. reflexivity. Qed.

Lemma parse_value_map (n : nat) (ts : list token) :
  parse_value (S (S n)) (OPERATOR "{" :: ts)
  = ('(mp, rest) <- parse_map_loop n [] ts ;; Ok (VDict mp, rest)).
Proof. reflexivity. Qed.


(** The records of [validate_all], when it returns, are one for each entity,
    in the order of the table. *)
Lemma validate_all_names (table : symbol_table)
      (results : list validation_record) :
  validate_all table = Ok results -> map juego results = keys table.
Proof.
  revert results. induction table as [|[name cfg] table IH];
    intros results H.
  - injection H as <-. reflexivity.
  - cbn [validate_all] in H.
    apply bind_ok in H as ([ok msg] & _ & H).
    apply bind_ok in H as (rs & Hrs & H). injection H as <-.
    cbn [map keys juego fst]. f_equal. now apply IH.
Qed.

Lemma validate_game_returns (name : string) (cfg : dict) :
  sections_are_blocks snake_sections cfg = true ->
  sections_are_blocks tetris_sections cfg = true ->
  exists r, validate_game name cfg = Ok r.
Proof.
  intros Hs Ht. unfold validate_game.
  destruct (String.eqb name "snake"); [now apply validate_snake_returns|].
  destruct (String.eqb name "tetris"); [now apply validate_tetris_returns|].
  eauto.
Qed.

(* ----------------------------------------------------------------- *)
(** ** Lists of literals *)







(* ----------------------------------------------------------------- *)
(** ** The parser accepts every sequence whose bindings are distinct *)

Lemma nodupb_app_inv (a b : list string) (k : string) :
  nodupb (a ++ k :: b) = true ->
  nodupb a = true /\ existsb (String.eqb k) a = false.
Proof.
  induction a as [|x a IH]; simpl; [now split|].
  intros H. apply andb_true_iff in H as [Hx Ha].
  apply negb_true_iff in Hx. rewrite existsb_app in Hx.
  apply orb_false_iff in Hx as [Hxa Hxk]. simpl in Hxk.
  apply orb_false_iff in Hxk as [Hxk _].
  destruct (IH Ha) as [Hn Hk]. split.
  - now rewrite Hxa, Hn.
  - now rewrite String.eqb_sym, Hxk, Hk.
Qed.

(** One more binding in a dictionary whose keys stay distinct. *)
Lemma unique_keysb_snoc (d ext : dict) (k : string) (v : value) :
  unique_keysb (VDict ((d ++ [(k, v)]) ++ ext)) = true ->
  mem k d = false /\ unique_keysb v = true.
Proof.
  cbn [unique_keysb]. intros H. apply andb_true_iff in H as [Hn Hf].
  split.
  - rewrite <- app_assoc in Hn. unfold keys in Hn. rewrite map_app in Hn.
    cbn [app map fst] in Hn. apply nodupb_app_inv in Hn as [_ Hk].
    now rewrite mem_keys.
  - rewrite !forallb_app in Hf. cbn [forallb] in Hf.
    apply andb_true_iff in Hf as [Hf _]. apply andb_true_iff in Hf as [_ Hf].
    now apply andb_true_iff in Hf as [Hf _].
Qed.

Lemma bindings_loops_extend (n : nat) :
  (forall lst ts l rest,
      bindings_list_loop n lst ts = Ok (l, rest) ->
      exists ext, l = (lst ++ ext)%list)
  /\ (forall mp ts m rest,
         bindings_map_loop n mp ts = Ok (m, rest) ->
         exists ext, m = (mp ++ ext)%list).
Proof.
  induction n as [|n [IHl IHm]]; [split; intros; discriminate|].
  split.
  - intros lst ts l rest H. cbn [bindings_list_loop] in H.
    destruct ts as [|tok ts']; [discriminate|].
    destruct (is_op tok "]").
    { injection H as <- _. exists []. now rewrite app_nil_r. }
    destruct (bare_identifier tok); [discriminate|].
    apply bind_ok in H as ([v ts1] & _ & H).
    apply IHl in H as [ext ->]. exists (v :: ext).
    now rewrite <- app_assoc.
  - intros mp ts m rest H. cbn [bindings_map_loop] in H.
    destruct ts as [|t ts']; [discriminate|].
    destruct (is_op t "}").
    { injection H as <- _. exists []. now rewrite app_nil_r. }
    destruct (is_op t ","); [now apply IHm in H|].
    destruct (map_key t) as [k|]; [|discriminate].
    apply bind_ok in H as ([sep ts1] & _ & H).
    apply bind_ok in H as ([v ts2] & _ & H).
    apply IHm in H as [ext ->]. exists ((k, v) :: ext).
    now rewrite <- app_assoc.
Qed.

Lemma bindings_block_loop_extends (n : nat) (blk : dict) (ts : list token)
      (b : dict) (rest : list token) :
  bindings_block_loop n blk ts = Ok (b, rest) ->
  exists ext, b = (blk ++ ext)%list.
Proof.
  revert blk ts. induction n as [|n IH]; intros blk ts H; [discriminate|].
  cbn [bindings_block_loop] in H.
  destruct ts as [|tok ts']; [discriminate|].
  destruct (is_op tok "}").
  { injection H as <- _. exists []. now rewrite app_nil_r. }
  destruct tok as [s|x|s|key]; try discriminate.
  destruct ts' as [|next_tok rest']; [discriminate|].
  destruct (is_op next_tok "=").
  - apply bind_ok in H as ([v ts2] & _ & H).
    apply IH in H as [ext ->]. exists ((key, v) :: ext).
    now rewrite <- app_assoc.
  - destruct (is_op next_tok "{"); [|discriminate].
    apply bind_ok in H as ([sub ts2] & _ & H).
    apply IH in H as [ext ->]. exists ((key, VDict sub) :: ext).
    now rewrite <- app_assoc.
Qed.

Lemma bindings_loop_extends (n : nat) (table : symbol_table)
      (ts : list token) (result : symbol_table) :
  bindings_loop n table ts = Ok result ->
  exists ext, result = (table ++ ext)%list.
Proof.
  revert table ts. induction n as [|n IH]; intros table ts H; [discriminate|].
  cbn [bindings_loop] in H.
  destruct ts as [|t ts1].
  { injection H as <-. exists []. now rewrite app_nil_r. }
  destruct t as [s|x|s|word]; try discriminate.
  destruct (String.eqb word "juego"); [|discriminate].
  destruct ts1 as [|t2 ts2]; [discriminate|].
  destruct t2 as [game_name|x|s|s]; try discriminate.
  apply bind_ok in H as ([root ts3] & _ & H).
  apply IH in H as [ext ->]. exists ((game_name, root) :: ext).
  now rewrite <- app_assoc.
Qed.

Lemma forallb_snoc_inv {A : Type} (f : A -> bool) (l ext : list A) (x : A) :
  forallb f ((l ++ [x]) ++ ext) = true -> f x = true.
Proof.
  rewrite !forallb_app. cbn [forallb]. intros H.
  apply andb_true_iff in H as [H _]. apply andb_true_iff in H as [_ H].
  now apply andb_true_iff in H as [H _].
Qed.

Lemma bindings_value_parse (n : nat) :
  (forall ts v rest,
      bindings_value n ts = Ok (v, rest) -> unique_keysb v = true ->
      parse_value n ts = Ok (v, rest))
  /\ (forall ts l rest,
         bindings_list n ts = Ok (l, rest) ->
         forallb unique_keysb l = true -> parse_list n ts = Ok (l, rest))
  /\ (forall lst ts l rest,
         bindings_list_loop n lst ts = Ok (l, rest) ->
         forallb unique_keysb l = true ->
         parse_list_loop n lst ts = Ok (l, rest))
  /\ (forall ts m rest,
         bindings_map n ts = Ok (m, rest) ->
         unique_keysb (VDict m) = true -> parse_map n ts = Ok (m, rest))
  /\ (forall mp ts m rest,
         bindings_map_loop n mp ts = Ok (m, rest) ->
         unique_keysb (VDict m) = true ->
         parse_map_loop n mp ts = Ok (m, rest)).
Proof.
  induction n as [|n (IHv & IHl & IHll & IHm & IHml)].
  { repeat split; intros; discriminate. }
  split; [|split; [|split; [|split]]].
  - intros ts v rest H Hu. cbn [bindings_value] in H. cbn [parse_value].
    destruct ts as [|t ts']; [discriminate|].
    destruct t as [s|[z|x]|s|s]; try exact H.
    destruct (String.eqb s "[").
    + apply bind_ok in H as ([l r] & Hl & H). injection H as <- <-.
      now rewrite (IHl _ _ _ Hl Hu).
    + destruct (String.eqb s "{"); [|discriminate].
      apply bind_ok in H as ([m r] & Hm & H). injection H as <- <-.
      now rewrite (IHm _ _ _ Hm Hu).
  - intros ts l rest H Hu. cbn [bindings_list] in H. cbn [parse_list].
    apply bind_ok in H as ([t ts1] & He & H). rewrite He. cbn [bind].
    now apply IHll.
  - intros lst ts l rest H Hu. cbn [bindings_list_loop] in H.
    cbn [parse_list_loop].
    destruct ts as [|tok ts']; [discriminate|].
    destruct (is_op tok "]"); [exact H|].
    destruct (bare_identifier tok); [discriminate|].
    apply bind_ok in H as ([v ts1] & Hv & H).
    destruct (proj1 (bindings_loops_extend n) _ _ _ _ H) as [ext E].
    assert (Huv : unique_keysb v = true).
    { rewrite E in Hu. now apply forallb_snoc_inv in Hu. }
    rewrite (IHv _ _ _ Hv Huv). cbn [bind]. now apply IHll.
  - intros ts m rest H Hu. cbn [bindings_map] in H. cbn [parse_map].
    apply bind_ok in H as ([t ts1] & He & H). rewrite He. cbn [bind].
    now apply IHml.
  - intros mp ts m rest H Hu. cbn [bindings_map_loop] in H.
    cbn [parse_map_loop].
    destruct ts as [|t ts']; [discriminate|].
    destruct (is_op t "}"); [exact H|].
    destruct (is_op t ","); [now apply IHml|].
    destruct (map_key t) as [k|]; [|discriminate].
    apply bind_ok in H as ([sep ts1] & Hs & H). rewrite Hs. cbn [bind].
    apply bind_ok in H as ([v ts2] & Hv & H).
    destruct (proj2 (bindings_loops_extend n) _ _ _ _ H) as [ext E].
    pose proof Hu as Hu'. rewrite E in Hu'.
    apply unique_keysb_snoc in Hu' as [Hk Huv].
    rewrite (IHv _ _ _ Hv Huv). cbn [bind]. rewrite Hk.
    rewrite (set_absent k mp v Hk). now apply IHml.
Qed.

Lemma bindings_block_parse (n : nat) :
  (forall ts b rest,
      bindings_block n ts = Ok (b, rest) ->
      unique_keysb (VDict b) = true ->
      parse_block_section n ts = Ok (b, rest))
  /\ (forall blk ts b rest,
         bindings_block_loop n blk ts = Ok (b, rest) ->
         unique_keysb (VDict b) = true ->
         parse_block_loop n blk ts = Ok (b, rest)).
Proof.
  induction n as [|n (IHs & IHl)].
  { split; intros; discriminate. }
  split.
  - intros ts b rest H Hu. cbn [bindings_block] in H.
    cbn [parse_block_section].
    apply bind_ok in H as ([t ts1] & He & H). rewrite He. cbn [bind].
    now apply IHl.
  - intros blk ts b rest H Hu. cbn [bindings_block_loop] in H.
    cbn [parse_block_loop].
    destruct ts as [|tok ts']; [discriminate|].
    destruct (is_op tok "}"); [exact H|].
    destruct tok as [s|x|s|key]; try discriminate.
    destruct ts' as [|next_tok rest']; [discriminate|].
    destruct (is_op next_tok "=").
    + apply bind_ok in H as ([v ts2] & Hv & H).
      destruct (bindings_block_loop_extends _ _ _ _ _ H) as [ext E].
      pose proof Hu as Hu'. rewrite E in Hu'.
      apply unique_keysb_snoc in Hu' as [Hk Huv].
      rewrite (proj1 (bindings_value_parse n) _ _ _ Hv Huv). cbn [bind].
      rewrite Hk, (set_absent key blk v Hk). now apply IHl.
    + destruct (is_op next_tok "{"); [|discriminate].
      apply bind_ok in H as ([sub ts2] & Hs & H).
      destruct (bindings_block_loop_extends _ _ _ _ _ H) as [ext E].
      pose proof Hu as Hu'. rewrite E in Hu'.
      apply unique_keysb_snoc in Hu' as [Hk Huv].
      rewrite (IHs _ _ _ Hs Huv). cbn [bind].
      rewrite Hk, (set_absent key blk (VDict sub) Hk). now apply IHl.
Qed.

Lemma table_unique_keys_snoc (table ext : symbol_table) (g : string)
      (root : dict) :
  table_unique_keys ((table ++ [(g, root)]) ++ ext)%list = true ->
  mem g table = false /\ unique_keysb (VDict root) = true.
Proof.
  unfold table_unique_keys. intros H. apply andb_true_iff in H as [Hn Hf].
  split.
  - rewrite <- app_assoc in Hn. unfold keys in Hn. rewrite map_app in Hn.
    cbn [app map fst] in Hn. apply nodupb_app_inv in Hn as [_ Hk].
    now rewrite mem_keys.
  - now apply forallb_snoc_inv in Hf.
Qed.

Lemma bindings_loop_parse (n : nat) (table : symbol_table)
      (ts : list token) (result : symbol_table) :
  bindings_loop n table ts = Ok result ->
  table_unique_keys result = true ->
  parse_loop n table ts = Ok result.
Proof.
  revert table ts. induction n as [|n IH]; intros table ts H Hu;
    [discriminate|].
  cbn [bindings_loop] in H. cbn [parse_loop].
  destruct ts as [|t ts1]; [exact H|].
  destruct t as [s|x|s|word]; try discriminate.
  destruct (String.eqb word "juego"); [|discriminate].
  destruct ts1 as [|t2 ts2]; [discriminate|].
  destruct t2 as [game_name|x|s|s]; try discriminate.
  apply bind_ok in H as ([root ts3] & Hb & H).
  destruct (bindings_loop_extends _ _ _ _ H) as [ext E].
  pose proof Hu as Hu'. rewrite E in Hu'.
  apply table_unique_keys_snoc in Hu' as [Hk Hur].
  rewrite (proj1 (bindings_block_parse n) _ _ _ Hb Hur). cbn [bind].
  rewrite Hk, (set_absent game_name table root Hk). now apply IH.
Qed.

(** The parser returns a table exactly when the bindings of its input
    exist and are distinct at every level, and then it returns them. *)
Lemma parse_iff_bindings (ts : list token) (table : symbol_table) :
  parse ts = Ok table
  <-> bindings ts = Ok table /\ table_unique_keys table = true.
Proof.
  split.
  - intros H. split; [now apply parse_bindings|].
    eapply parse_unique_keys, H.
  - intros [H Hu]. unfold parse. now apply bindings_loop_parse.
Qed.

(* ================================================================= *)
(** * The scan of a text in two parts *)

Lemma until_quote_app (a b body after : string) :
  until_quote a = Some (body, after) ->
  until_quote (a ++ b) = Some (body, after ++ b).
Proof.
  revert body after. induction a as [|c a IH]; intros body after H;
    [discriminate|].
  cbn [append until_quote] in *.
  destruct (Ascii.eqb c dquote).
  - now injection H as <- <-.
  - destruct (until_quote a) as [[x y]|]; [|discriminate].
    injection H as <- <-. now rewrite (IH x y eq_refl).
Qed.

Lemma until_quote_app_none (a b : string) :
  until_quote a = None -> until_quote b = None ->
  until_quote (a ++ b) = None.
Proof.
  intros Ha Hb. induction a as [|c a IH]; [exact Hb|].
  cbn [append until_quote] in *.
  destruct (Ascii.eqb c dquote); [discriminate|].
  destruct (until_quote a) as [[x y]|]; [discriminate|].
  now rewrite IH.
Qed.

Lemma until_quote_none (s : string) :
  all_chars not_quote s = true -> until_quote s = None.
Proof.
  induction s as [|c s IH]; [reflexivity|].
  cbn [all_chars until_quote]. intros H.
  apply andb_true_iff in H as [Hc Hs]. unfold not_quote in Hc.
  apply negb_true_iff in Hc. now rewrite Hc, (IH Hs).
Qed.

Lemma span_app_stop (p : ascii -> bool) (a b : string) :
  starts_with p b = false ->
  span p (a ++ b) = (fst (span p a), snd (span p a) ++ b).
Proof.
  intros Hb. induction a as [|c a IH].
  - destruct b as [|c b]; [reflexivity|].
    cbn [append span starts_with] in *. now rewrite Hb.
  - cbn [append span]. destruct (p c); [|reflexivity].
    rewrite IH. now destruct (span p a).
Qed.

Lemma inert_start_inv (b : string) :
  inert_start b = true ->
  starts_with is_digit b = false /\ starts_with is_dot b = false
  /\ starts_with is_word b = false.
Proof.
  unfold inert_start. intros H.
  apply andb_true_iff in H as [H Hw]. apply andb_true_iff in H as [Hd Hp].
  apply negb_true_iff in Hd, Hp, Hw. auto.
Qed.

(** A match in front of a text that cannot prolong it is the match of the
    front part alone. *)
Lemma match_at_app (c : ascii) (a b : string) :
  inert_start b = true ->
  until_quote b = None \/ all_chars not_quote (String c a) = true ->
  match_at (String c a ++ b)
  = match match_at (String c a) with
    | Some (g, after) => Some (g, after ++ b)
    | None => None
    end.
Proof.
  intros Hb Hq. apply inert_start_inv in Hb as (Hd & Hp & Hw).
  change (String c a ++ b) with (String c (a ++ b)).
  unfold match_at.
  destruct (Ascii.eqb c dquote) eqn:Ec.
  { destruct (until_quote a) as [[body after]|] eqn:Ea.
    - now rewrite (until_quote_app a b body after Ea).
    - destruct Hq as [Hq|Hq].
      + now rewrite (until_quote_app_none a b Ea Hq).
      + cbn [all_chars] in Hq. unfold not_quote in Hq at 1.
        rewrite Ec in Hq. discriminate. }
  destruct (is_digit c) eqn:Edc.
  { change (String c (a ++ b)) with (String c a ++ b).
    rewrite (span_app_stop is_digit (String c a) b Hd).
    destruct (span is_digit (String c a)) as [d1 r1]. cbn [fst snd].
    destruct r1 as [|c1 r2].
    - cbn [append]. destruct b as [|c1 b']; [reflexivity|].
      cbn [starts_with] in Hp. unfold is_dot in Hp. now rewrite Hp.
    - cbn [append]. destruct (Ascii.eqb c1 dot); [|reflexivity].
      rewrite (span_app_stop is_digit r2 b Hd).
      now destruct (span is_digit r2). }
  destruct (is_operator_char c); [reflexivity|].
  destruct (is_word c); [|reflexivity].
  change (String c (a ++ b)) with (String c a ++ b).
  rewrite (span_app_stop is_word (String c a) b Hw).
  now destruct (span is_word (String c a)).
Qed.

Lemma span_snd_all (p q : ascii -> bool) (s : string) :
  all_chars p s = true -> all_chars p (snd (span q s)) = true.
Proof.
  induction s as [|c s IH]; [reflexivity|].
  intros H. cbn [span]. destruct (q c); [|exact H].
  cbn [all_chars] in H. apply andb_true_iff in H as [_ Hs].
  specialize (IH Hs). now destruct (span q s).
Qed.

Lemma until_quote_all (p : ascii -> bool) (s body after : string) :
  all_chars p s = true -> until_quote s = Some (body, after) ->
  all_chars p after = true.
Proof.
  revert body after. induction s as [|c s IH]; intros body after H E;
    [discriminate|].
  cbn [all_chars] in H. apply andb_true_iff in H as [_ Hs].
  cbn [until_quote] in E. destruct (Ascii.eqb c dquote).
  - now injection E as _ <-.
  - destruct (until_quote s) as [[x y]|]; [|discriminate].
    injection E as _ <-. now apply (IH x y).
Qed.

(** What is left after a match is a part of the text. *)
Lemma match_at_all (p : ascii -> bool) (s : string) (g : groups)
      (after : string) :
  all_chars p s = true -> match_at s = Some (g, after) ->
  all_chars p after = true.
Proof.
  destruct s as [|c rest]; [discriminate|]. intros H. unfold match_at.
  pose proof H as Hrest. cbn [all_chars] in Hrest.
  apply andb_true_iff in Hrest as [_ Hrest].
  destruct (Ascii.eqb c dquote).
  { destruct (until_quote rest) as [[body a]|] eqn:E; [|discriminate].
    intros E'; injection E' as _ <-. eapply until_quote_all; eassumption. }
  destruct (is_digit c).
  { pose proof (span_snd_all p is_digit (String c rest) H) as Hs.
    destruct (span is_digit (String c rest)) as [d1 r1]. cbn [snd] in Hs.
    destruct r1 as [|c1 r2].
    - intros E; now injection E as _ <-.
    - destruct (Ascii.eqb c1 dot).
      + cbn [all_chars] in Hs. apply andb_true_iff in Hs as [_ Hs].
        pose proof (span_snd_all p is_digit r2 Hs) as Hs2.
        destruct (span is_digit r2) as [d2 r3].
        intros E; now injection E as _ <-.
      + intros E; now injection E as _ <-. }
  destruct (is_operator_char c).
  { intros E; now injection E as _ <-. }
  destruct (is_word c); [|discriminate].
  pose proof (span_snd_all p is_word (String c rest) H) as Hs.
  destruct (span is_word (String c rest)) as [w r1].
  intros E; now injection E as _ <-.
Qed.

(** The scan of a text and of what follows it, when what follows cannot
    prolong a match and no quote of the text can be closed by it. *)
Lemma scan_app_fuel (n : nat) (a b : string) :
  String.length a <= n ->
  inert_start b = true ->
  until_quote b = None \/ all_chars not_quote a = true ->
  scan (a ++ b) = (scan a ++ scan b)%list.
Proof.
  revert a. induction n as [|n IH]; intros a Hn Hb Hq.
  - destruct a; [reflexivity|simpl in Hn; lia].
  - destruct a as [|c a]; [reflexivity|].
    change (String c a ++ b) with (String c (a ++ b)).
    rewrite (scan_cons c (a ++ b)), (scan_cons c a).
    change (String c (a ++ b)) with (String c a ++ b).
    rewrite (match_at_app c a b Hb Hq).
    destruct (match_at (String c a)) as [[g after]|] eqn:E.
    + rewrite <- app_assoc. f_equal. apply IH; [|exact Hb|].
      * apply match_at_length in E. simpl in *. lia.
      * destruct Hq as [Hq|Hq]; [now left|right].
        eapply match_at_all; eassumption.
    + apply IH; [simpl in Hn; lia|exact Hb|].
      destruct Hq as [Hq|Hq]; [now left|right].
      cbn [all_chars] in Hq. now apply andb_true_iff in Hq as [_ Hq].
Qed.

Lemma scan_app (a b : string) :
  inert_start b = true ->
  until_quote b = None \/ all_chars not_quote a = true ->
  scan (a ++ b) = (scan a ++ scan b)%list.
Proof. apply (scan_app_fuel (String.length a)), Nat.le_refl. Qed.

Lemma scan_skip_unrecognised (c : ascii) (rest : string) :
  unrecognised c = true -> scan (String c rest) = scan rest.
Proof.
  intros H. rewrite scan_cons. unfold match_at.
  unfold unrecognised in H.
  apply andb_true_iff in H as [H Hw]. apply andb_true_iff in H as [H Ho].
  apply andb_true_iff in H as [Hq Hd].
  apply negb_true_iff in Hq, Hd, Ho, Hw.
  now rewrite Hq, Hd, Ho, Hw.
Qed.

Lemma scan_skip_quote (rest : string) :
  until_quote rest = None -> scan (String dquote rest) = scan rest.
Proof.
  intros H. rewrite scan_cons. unfold match_at.
  now rewrite Ascii.eqb_refl, H.
Qed.

Lemma space_unrecognised (c : ascii) :
  is_space c = true -> unrecognised c = true.
Proof.
  destruct c as [[] [] [] [] [] [] [] []]; vm_compute;
    intros H; first [reflexivity | discriminate H].
Qed.

Lemma space_facts (c : ascii) :
  is_space c = true ->
  is_digit c = false /\ is_dot c = false /\ is_word c = false
  /\ not_quote c = true.
Proof.
  destruct c as [[] [] [] [] [] [] [] []]; vm_compute;
    intros H; first [discriminate H | repeat split].
Qed.

Lemma scan_spaces (w : string) : all_chars is_space w = true -> scan w = [].
Proof.
  induction w as [|c w IH]; [reflexivity|].
  cbn [all_chars]. intros H. apply andb_true_iff in H as [Hc Hw].
  rewrite (scan_skip_unrecognised c w (space_unrecognised c Hc)).
  now apply IH.
Qed.

Lemma spaces_inert (w : string) :
  all_chars is_space w = true ->
  inert_start w = true /\ until_quote w = None.
Proof.
  intros H. split.
  - destruct w as [|c w]; [reflexivity|].
    cbn [all_chars] in H. apply andb_true_iff in H as [Hc _].
    destruct (space_facts c Hc) as (Hd & Hp & Hw & _).
    unfold inert_start. cbn [starts_with]. now rewrite Hd, Hp, Hw.
  - apply until_quote_none.
    eapply all_chars_impl; [|exact H].
    intros c Hc. now destruct (space_facts c Hc) as (_ & _ & _ & Hq).
Qed.

(** Blanks at the end of a text add no token. *)
Lemma scan_app_spaces (s w : string) :
  all_chars is_space w = true -> scan (s ++ w) = scan s.
Proof.
  intros H. destruct (spaces_inert w H) as [Hi Hq].
  rewrite (scan_app s w Hi (or_introl Hq)), (scan_spaces w H).
  apply app_nil_r.
Qed.

Lemma rstrip_by_split (p : ascii -> bool) (s : string) :
  exists w, s = rstrip_by p s ++ w /\ all_chars p w = true.
Proof.
  induction s as [|c s (w & E & Hw)]; [now exists EmptyString|].
  cbn [rstrip_by]. destruct (rstrip_by p s) as [|c' r] eqn:Er.
  - destruct (p c) eqn:Ec.
    + exists (String c s). split; [reflexivity|].
      cbn [all_chars]. rewrite Ec. cbn [append] in E. now rewrite E.
    + exists w. split; [|exact Hw]. cbn [append] in *. now rewrite <- E.
  - exists w. split; [|exact Hw].
    change (String c (String c' r) ++ w) with (String c (String c' r ++ w)).
    now rewrite <- E.
Qed.

Lemma scan_rstrip (s : string) : scan (rstrip s) = scan s.
Proof.
  destruct (rstrip_by_split is_space s) as (w & E & Hw).
  unfold rstrip. rewrite E at 2. now rewrite (scan_app_spaces _ w Hw).
Qed.

Lemma scan_lstrip (s : string) : scan (lstrip s) = scan s.
Proof.
  induction s as [|c s IH]; [reflexivity|].
  cbn [lstrip]. destruct (is_space c) eqn:Ec; [|reflexivity].
  now rewrite IH, (scan_skip_unrecognised c s (space_unrecognised c Ec)).
Qed.

Lemma scan_strip (s : string) : scan (strip s) = scan s.
Proof. unfold strip. now rewrite scan_rstrip, scan_lstrip. Qed.

(** The tokens of a line are the scan of what its comment leaves. *)
Lemma line_tokens_strip_loop (line : string) :
  line_tokens line = scan (strip_loop false false (rstrip_newline line)).
Proof.
  rewrite line_tokens_scan. unfold _strip_inline_comments.
  now rewrite !scan_strip.
Qed.

Lemma splitlines_one (s : string) :
  all_chars not_linebreak s = true -> s <> EmptyString -> splitlines s = [s].
Proof.
  induction s as [|c s IH]; intros H Hne; [congruence|].
  cbn [all_chars] in H. apply andb_true_iff in H as [Hc Hs].
  cbn [splitlines]. unfold not_linebreak in Hc.
  apply negb_true_iff in Hc. rewrite Hc.
  destruct s as [|c' s']; [reflexivity|].
  rewrite IH; [reflexivity|assumption|discriminate].
Qed.

Lemma not_linebreak_not_newline (c : ascii) :
  not_linebreak c = true -> negb (Ascii.eqb LF c) = true.
Proof.
  destruct (Ascii.eqb LF c) eqn:E; [|reflexivity].
  apply Ascii.eqb_eq in E. subst c. intros H; discriminate H.
Qed.

Lemma strip_loop_open (esc : bool) (s : string) :
  all_chars not_quote s = true -> strip_loop true esc s = s.
Proof.
  revert esc. induction s as [|c s IH]; intros esc H; [reflexivity|].
  cbn [all_chars] in H. apply andb_true_iff in H as [Hc Hs].
  unfold not_quote in Hc. apply negb_true_iff in Hc.
  cbn [strip_loop]. destruct esc; [now rewrite IH|].
  destruct (Ascii.eqb c backslash); [now rewrite IH|].
  rewrite Hc. now rewrite IH.
Qed.

Lemma strip_loop_code (pre rest : string) :
  all_chars code_char pre = true ->
  strip_loop false false (pre ++ rest) = pre ++ strip_loop false false rest.
Proof.
  induction pre as [|c pre IH]; intros H; [reflexivity|].
  cbn [all_chars] in H. apply andb_true_iff in H as [Hc Hs].
  unfold code_char, not_quote in Hc.
  apply andb_true_iff in Hc as [Hc Hh]. apply andb_true_iff in Hc as [_ Hq].
  apply negb_true_iff in Hq, Hh.
  cbn [append strip_loop]. now rewrite Hq, Hh, (IH Hs).
Qed.

(** A line with a quote that nothing closes: its tokens are those of the
    text before the quote, then those of the text after it. *)
Lemma tokenize_open_quote (pre rest : string) :
  all_chars code_char pre = true -> all_chars open_char rest = true ->
  tokenize (pre ++ String dquote rest) = (scan pre ++ scan rest)%list.
Proof.
  intros Hpre Hrest.
  assert (Hpq : all_chars not_quote pre = true).
  { eapply all_chars_impl; [|exact Hpre]. intros c Hc.
    unfold code_char in Hc. apply andb_true_iff in Hc as [Hc _].
    now apply andb_true_iff in Hc as [_ Hc]. }
  assert (Hrq : all_chars not_quote rest = true).
  { eapply all_chars_impl; [|exact Hrest]. intros c Hc.
    unfold open_char in Hc. now apply andb_true_iff in Hc as [_ Hc]. }
  assert (Hnl : all_chars not_linebreak (pre ++ String dquote rest) = true).
  { rewrite all_chars_app. cbn [all_chars]. apply andb_true_iff. split.
    - eapply all_chars_impl; [|exact Hpre]. intros c Hc.
      unfold code_char in Hc. apply andb_true_iff in Hc as [Hc _].
      now apply andb_true_iff in Hc as [Hc _].
    - apply andb_true_iff. split; [reflexivity|].
      eapply all_chars_impl; [|exact Hrest]. intros c Hc.
      unfold open_char in Hc. now apply andb_true_iff in Hc as [Hc _]. }
  unfold tokenize. rewrite (splitlines_one _ Hnl) by (destruct pre; discriminate).
  cbn [flat_map]. rewrite app_nil_r, line_tokens_strip_loop.
  unfold rstrip_newline. rewrite rstrip_by_none
    by (eapply all_chars_impl; [apply not_linebreak_not_newline|exact Hnl]).
  rewrite (strip_loop_code pre _ Hpre). cbn [strip_loop].
  rewrite Ascii.eqb_refl, (strip_loop_open false rest Hrq).
  rewrite scan_app; [|reflexivity|now right].
  now rewrite (scan_skip_quote rest (until_quote_none rest Hrq)).
Qed.

(** The empty literal gives no token. *)
Lemma scan_empty_literal (rest : string) : scan (q "" ++ rest) = scan rest.
Proof.
  unfold q. cbn [append]. rewrite scan_cons.
  unfold match_at. rewrite Ascii.eqb_refl. cbn [until_quote].
  rewrite Ascii.eqb_refl. reflexivity.
Qed.

(** A line with an empty literal: its tokens are those of the text before
    the literal, then those of the text after it. *)
Lemma tokenize_empty_literal (pre rest : string) :
  all_chars code_char pre = true -> all_chars not_linebreak rest = true ->
  tokenize (pre ++ q "" ++ rest)
  = (scan pre ++ scan (strip_loop false false rest))%list.
Proof.
  intros Hpre Hrest.
  assert (Hpq : all_chars not_quote pre = true).
  { eapply all_chars_impl; [|exact Hpre]. intros c Hc.
    unfold code_char in Hc. apply andb_true_iff in Hc as [Hc _].
    now apply andb_true_iff in Hc as [_ Hc]. }
  assert (Hnl : all_chars not_linebreak (pre ++ q "" ++ rest) = true).
  { rewrite all_chars_app. apply andb_true_iff. split.
    - eapply all_chars_impl; [|exact Hpre]. intros c Hc.
      unfold code_char in Hc. apply andb_true_iff in Hc as [Hc _].
      now apply andb_true_iff in Hc as [Hc _].
    - unfold q. cbn [append all_chars]. now rewrite Hrest. }
  unfold tokenize.
  rewrite (splitlines_one _ Hnl) by (destruct pre; discriminate).
  cbn [flat_map]. rewrite app_nil_r, line_tokens_strip_loop.
  unfold rstrip_newline. rewrite rstrip_by_none
    by (eapply all_chars_impl; [apply not_linebreak_not_newline|exact Hnl]).
  rewrite (strip_loop_code pre _ Hpre).
  unfold q. cbn [append strip_loop]. rewrite Ascii.eqb_refl.
  change (Ascii.eqb dquote backslash) with false. cbn iota.
  rewrite scan_app; [|reflexivity|now right].
  f_equal. exact (scan_empty_literal (strip_loop false false rest)).
Qed.

(* ================================================================= *)
(** * More properties of the tokenizer *)

Lemma tokenize_cons_break (c : ascii) (s : string) :
  is_linebreak c = true -> tokenize (String c s) = tokenize s.
Proof.
  intros Hc. unfold tokenize. cbn [splitlines]. rewrite Hc.
  cbn [flat_map]. change (line_tokens "") with (@nil token). cbn [app].
  destruct s as [|c' s']; [reflexivity|].
  destruct (Ascii.eqb c CR && Ascii.eqb c' LF) eqn:E; [|reflexivity].
  apply andb_true_iff in E as [_ E]. apply Ascii.eqb_eq in E. subst c'.
  cbn [splitlines]. change (is_linebreak LF) with true. cbn iota.
  cbn [flat_map]. change (line_tokens "") with (@nil token). cbn [app].
  destruct s' as [|c'' s'']; [reflexivity|].
  change (Ascii.eqb LF CR) with false. reflexivity.
Qed.

Lemma splitlines_line (l : string) (c : ascii) (s : string) :
  all_chars not_linebreak l = true -> is_linebreak c = true ->
  exists tl, splitlines (l ++ String c s) = l :: tl
             /\ flat_map line_tokens tl = tokenize s.
Proof.
  intros Hl Hc. induction l as [|x l IH].
  - cbn [append]. pose proof (tokenize_cons_break c s Hc) as E.
    unfold tokenize in E. cbn [splitlines] in *. rewrite Hc in *.
    eexists. split; [reflexivity|].
    cbn [flat_map] in E. change (line_tokens "") with (@nil token) in E.
    exact E.
  - cbn [all_chars] in Hl. apply andb_true_iff in Hl as [Hx Hl].
    destruct (IH Hl) as (tl & E & Ht). exists tl. split; [|exact Ht].
    cbn [append splitlines]. unfold not_linebreak in Hx.
    apply negb_true_iff in Hx. rewrite Hx, E. reflexivity.
Qed.

Lemma tokenize_one_line (l : string) :
  all_chars not_linebreak l = true -> tokenize l = line_tokens l.
Proof.
  intros Hl. destruct l as [|c l]; [reflexivity|].
  unfold tokenize. rewrite (splitlines_one _ Hl) by discriminate.
  cbn [flat_map]. apply app_nil_r.
Qed.

Lemma tokenize_line (l : string) (c : ascii) (s : string) :
  all_chars not_linebreak l = true -> is_linebreak c = true ->
  tokenize (l ++ String c s) = (tokenize l ++ tokenize s)%list.
Proof.
  intros Hl Hc. destruct (splitlines_line l c s Hl Hc) as (tl & E & Ht).
  rewrite (tokenize_one_line l Hl).
  unfold tokenize at 1. rewrite E. cbn [flat_map]. now rewrite Ht.
Qed.

Lemma span_split (p : ascii -> bool) (s : string) :
  s = fst (span p s) ++ snd (span p s)
  /\ starts_with p (snd (span p s)) = false.
Proof.
  induction s as [|c s [IH1 IH2]]; [split; reflexivity|].
  cbn [span]. destruct (p c) eqn:E.
  - destruct (span p s) as [a b]. cbn [fst snd] in *. split; [|exact IH2].
    cbn [append]. now rewrite <- IH1.
  - cbn [fst snd append starts_with]. split; [reflexivity|exact E].
Qed.

Lemma string_app_assoc (a b c : string) : (a ++ b) ++ c = a ++ (b ++ c).
Proof. induction a as [|x a IH]; [reflexivity|]. cbn [append]. now rewrite IH. Qed.

Lemma string_app_length (a b : string) :
  String.length (a ++ b) = String.length a + String.length b.
Proof. induction a as [|x a IH]; [reflexivity|]. cbn. now rewrite IH. Qed.

Lemma tokenize_app_break_fuel (n : nat) (a : string) (c : ascii) (b : string) :
  String.length a <= n -> is_linebreak c = true ->
  tokenize (a ++ String c b) = (tokenize a ++ tokenize b)%list.
Proof.
  revert a. induction n as [|n IH]; intros a Hn Hc.
  - destruct a; [|simpl in Hn; lia]. cbn [append].
    now rewrite tokenize_cons_break.
  - destruct (span_split not_linebreak a) as [Ea Hs].
    pose proof (span_all not_linebreak a) as Hl.
    destruct (span not_linebreak a) as [l r]. cbn [fst snd] in *.
    destruct r as [|x r].
    + rewrite string_app_nil_r in Ea. subst l.
      now apply tokenize_line.
    + cbn [starts_with] in Hs. unfold not_linebreak in Hs.
      apply negb_false_iff in Hs.
      rewrite Ea, string_app_assoc. cbn [append].
      rewrite (tokenize_line l x _ Hl Hs), (tokenize_line l x r Hl Hs).
      rewrite <- app_assoc. f_equal. apply IH; [|exact Hc].
      rewrite Ea, string_app_length in Hn. simpl in Hn. lia.
Qed.

(** A line boundary separates the tokens of what is before it from those of
    what is after it. *)
Lemma tokenize_app_break (a : string) (c : ascii) (b : string) :
  is_linebreak c = true ->
  tokenize (a ++ String c b) = (tokenize a ++ tokenize b)%list.
Proof. apply (tokenize_app_break_fuel (String.length a)), Nat.le_refl. Qed.

Lemma rstrip_newline_line (l : string) :
  all_chars not_linebreak l = true -> rstrip_newline l = l.
Proof.
  intros H. unfold rstrip_newline. apply rstrip_by_none.
  eapply all_chars_impl; [apply not_linebreak_not_newline|exact H].
Qed.

Lemma tokenize_line_scan (l : string) :
  all_chars not_linebreak l = true ->
  tokenize l = scan (strip_loop false false l).
Proof.
  intros H. rewrite (tokenize_one_line l H), line_tokens_strip_loop.
  now rewrite (rstrip_newline_line l H).
Qed.

Lemma space_not_special (c : ascii) :
  is_space c = true ->
  Ascii.eqb c dquote = false /\ Ascii.eqb c hash = false
  /\ Ascii.eqb c backslash = false.
Proof.
  destruct c as [[] [] [] [] [] [] [] []]; vm_compute;
    intros H; first [discriminate H | repeat split].
Qed.

(** Blanks at the end of a line stay blanks (or go with the comment). *)
Lemma strip_loop_app_spaces (a b : bool) (l w : string) :
  all_chars is_space w = true ->
  exists w', strip_loop a b (l ++ w) = strip_loop a b l ++ w'
             /\ all_chars is_space w' = true.
Proof.
  intros Hw. revert a b. induction l as [|c l IH]; intros a b.
  - cbn [append]. exists (strip_loop a b w). split; [reflexivity|].
    revert a b. induction w as [|x w IHw]; intros a b; [reflexivity|].
    cbn [all_chars] in Hw. apply andb_true_iff in Hw as [Hx Hw].
    destruct (space_not_special x Hx) as (Hq & Hh & Hb).
    cbn [strip_loop]. rewrite Hq, Hh, Hb.
    destruct a; [destruct b|]; cbn [all_chars]; rewrite Hx; now apply IHw.
  - cbn [append strip_loop].
    destruct a.
    + destruct b.
      { destruct (IH true false) as (w' & E & H'). exists w'.
        now rewrite E. }
      destruct (Ascii.eqb c backslash).
      { destruct (IH true true) as (w' & E & H'). exists w'. now rewrite E. }
      destruct (Ascii.eqb c dquote).
      { destruct (IH false false) as (w' & E & H'). exists w'. now rewrite E. }
      destruct (IH true false) as (w' & E & H'). exists w'. now rewrite E.
    + destruct (Ascii.eqb c dquote).
      { destruct (IH true false) as (w' & E & H'). exists w'. now rewrite E. }
      destruct (Ascii.eqb c hash).
      { now exists EmptyString. }
      destruct (IH false false) as (w' & E & H'). exists w'. now rewrite E.
Qed.

Lemma all_chars_space_split (w : string) :
  all_chars is_space w = true ->
  all_chars is_space (fst (span not_linebreak w)) = true
  /\ all_chars is_space (snd (span not_linebreak w)) = true.
Proof.
  intros H. destruct (span_split not_linebreak w) as [E _].
  rewrite E, all_chars_app in H. now apply andb_true_iff in H.
Qed.

(** Blanks in front of a text add no token. *)
Lemma tokenize_cons_space (c : ascii) (s : string) :
  is_space c = true -> tokenize (String c s) = tokenize s.
Proof.
  intros Hc. destruct (is_linebreak c) eqn:Eb;
    [now apply tokenize_cons_break|].
  destruct (space_not_special c Hc) as (Hq & Hh & _).
  assert (L : forall l, all_chars not_linebreak l = true ->
                        tokenize (String c l) = tokenize l).
  { intros l Hl. rewrite !tokenize_line_scan; [|exact Hl|].
    - cbn [strip_loop]. rewrite Hq, Hh.
      apply scan_skip_unrecognised, space_unrecognised, Hc.
    - cbn [all_chars]. unfold not_linebreak at 1. now rewrite Eb, Hl. }
  destruct (span_split not_linebreak s) as [Es Hs].
  pose proof (span_all not_linebreak s) as Hl.
  destruct (span not_linebreak s) as [l r]. cbn [fst snd] in *.
  destruct r as [|x r].
  - rewrite string_app_nil_r in Es. subst l. now apply L.
  - cbn [starts_with] in Hs. unfold not_linebreak in Hs.
    apply negb_false_iff in Hs. rewrite Es.
    change (String c (l ++ String x r)) with (String c l ++ String x r).
    rewrite !tokenize_app_break by exact Hs. now rewrite L.
Qed.

Lemma tokenize_lead_spaces (w s : string) :
  all_chars is_space w = true -> tokenize (w ++ s) = tokenize s.
Proof.
  induction w as [|c w IH]; [reflexivity|].
  cbn [all_chars append]. intros H. apply andb_true_iff in H as [Hc Hw].
  now rewrite (tokenize_cons_space c _ Hc), IH.
Qed.

Lemma tokenize_spaces (w : string) :
  all_chars is_space w = true -> tokenize w = [].
Proof.
  intros H. rewrite <- (string_app_nil_r w). now rewrite tokenize_lead_spaces.
Qed.

Lemma tokenize_trail_line_fuel (n : nat) (s w : string) :
  String.length s <= n ->
  all_chars is_space w = true -> all_chars not_linebreak w = true ->
  tokenize (s ++ w) = tokenize s.
Proof.
  revert s. induction n as [|n IH]; intros s Hn Hw Hl.
  - destruct s; [|simpl in Hn; lia]. cbn [append]. now apply tokenize_spaces.
  - destruct (span_split not_linebreak s) as [Es Hs].
    pose proof (span_all not_linebreak s) as Hsl.
    destruct (span not_linebreak s) as [l r]. cbn [fst snd] in *.
    destruct r as [|x r].
    + rewrite string_app_nil_r in Es. subst l.
      rewrite !tokenize_line_scan; [|exact Hsl|].
      * destruct (strip_loop_app_spaces false false s w Hw) as (w' & E & H').
        rewrite E. now apply scan_app_spaces.
      * rewrite all_chars_app. now rewrite Hsl, Hl.
    + cbn [starts_with] in Hs. unfold not_linebreak in Hs.
      apply negb_false_iff in Hs. rewrite Es, string_app_assoc. cbn [append].
      rewrite !tokenize_app_break by exact Hs. f_equal.
      apply IH; [|exact Hw|exact Hl].
      rewrite Es, string_app_length in Hn. simpl in Hn. lia.
Qed.

Lemma tokenize_trail_spaces (s w : string) :
  all_chars is_space w = true -> tokenize (s ++ w) = tokenize s.
Proof.
  intros Hw. destruct (span_split not_linebreak w) as [Ew Hs].
  destruct (all_chars_space_split w Hw) as [H1 H2].
  pose proof (span_all not_linebreak w) as Hl.
  destruct (span not_linebreak w) as [l r]. cbn [fst snd] in *.
  destruct r as [|x r].
  - rewrite string_app_nil_r in Ew. subst l.
    now apply (tokenize_trail_line_fuel (String.length s)).
  - cbn [starts_with] in Hs. unfold not_linebreak in Hs.
    apply negb_false_iff in Hs. rewrite Ew, <- string_app_assoc.
    rewrite tokenize_app_break by exact Hs.
    cbn [all_chars] in H2. apply andb_true_iff in H2 as [_ H2].
    rewrite (tokenize_spaces r H2), app_nil_r.
    now apply (tokenize_trail_line_fuel (String.length s)).
Qed.

(* ----------------------------------------------------------------- *)
(** ** Comments *)

(** Once the loop has left, what follows is not read. *)
Lemma strip_loop_after_break (a b : bool) (code rest : string) :
  strip_state a b code = None ->
  strip_loop a b (code ++ rest) = strip_loop a b code.
Proof.
  revert a b. induction code as [|c code IH]; intros a b H; [discriminate|].
  cbn [strip_state] in H. cbn [append strip_loop].
  destruct a.
  - destruct b; [now rewrite IH|].
    destruct (Ascii.eqb c backslash); [now rewrite IH|].
    destruct (Ascii.eqb c dquote); now rewrite IH.
  - destruct (Ascii.eqb c dquote); [now rewrite IH|].
    destruct (Ascii.eqb c hash); [reflexivity|now rewrite IH].
Qed.

(** Where the loop goes on, it goes on from its state. *)
Lemma strip_loop_app (a b a' b' : bool) (code rest : string) :
  strip_state a b code = Some (a', b') ->
  strip_loop a b (code ++ rest) = strip_loop a b code ++ strip_loop a' b' rest.
Proof.
  revert a b. induction code as [|c code IH]; intros a b H.
  - cbn [strip_state] in H. injection H as -> ->. reflexivity.
  - cbn [strip_state] in H. cbn [append strip_loop].
    destruct a.
    + destruct b; [now rewrite IH|].
      destruct (Ascii.eqb c backslash); [now rewrite IH|].
      destruct (Ascii.eqb c dquote); now rewrite IH.
    + destruct (Ascii.eqb c dquote); [now rewrite IH|].
      destruct (Ascii.eqb c hash); [discriminate|now rewrite IH].
Qed.

Lemma strip_loop_comment (code comment : string) :
  in_string code = false ->
  strip_loop false false (code ++ String hash comment)
  = strip_loop false false code.
Proof.
  unfold in_string. intros H.
  destruct (strip_state false false code) as [[a b]|] eqn:E.
  - destruct a; [discriminate|].
    rewrite (strip_loop_app _ _ _ _ code _ E). cbn [strip_loop].
    change (Ascii.eqb hash dquote) with false.
    change (Ascii.eqb hash hash) with true. cbn iota.
    apply string_app_nil_r.
  - now apply strip_loop_after_break.
Qed.

Lemma hash_not_linebreak : not_linebreak hash = true.
Proof. reflexivity. Qed.

(** A [#] outside a string literal ends the line. *)
Lemma tokenize_comment (code comment : string) :
  all_chars not_linebreak code = true ->
  all_chars not_linebreak comment = true ->
  in_string code = false ->
  tokenize (code ++ String hash comment) = tokenize code.
Proof.
  intros Hc Hm Hs. rewrite !tokenize_line_scan.
  - now rewrite strip_loop_comment.
  - exact Hc.
  - rewrite all_chars_app. cbn [all_chars].
    now rewrite Hc, Hm, hash_not_linebreak.
Qed.

(* ----------------------------------------------------------------- *)
(** ** String literals *)

Lemma literal_char_inv (c : ascii) :
  literal_char c = true ->
  not_linebreak c = true /\ Ascii.eqb c dquote = false
  /\ Ascii.eqb c backslash = false.
Proof.
  unfold literal_char, open_char, not_quote. intros H.
  apply andb_true_iff in H as [H Hb]. apply andb_true_iff in H as [Hl Hq].
  apply negb_true_iff in Hb, Hq. auto.
Qed.

Lemma strip_state_literal (body : string) :
  all_chars literal_char body = true ->
  strip_state true false body = Some (true, false).
Proof.
  induction body as [|c body IH]; [reflexivity|].
  cbn [all_chars]. intros H. apply andb_true_iff in H as [Hc H].
  destruct (literal_char_inv c Hc) as (_ & Hq & Hb).
  cbn [strip_state]. now rewrite Hb, Hq, IH.
Qed.

Lemma strip_state_code (pre : string) :
  all_chars code_char pre = true ->
  strip_state false false pre = Some (false, false).
Proof.
  induction pre as [|c pre IH]; [reflexivity|].
  cbn [all_chars]. intros H. apply andb_true_iff in H as [Hc H].
  unfold code_char, not_quote in Hc.
  apply andb_true_iff in Hc as [Hc Hh]. apply andb_true_iff in Hc as [_ Hq].
  apply negb_true_iff in Hq, Hh.
  cbn [strip_state]. now rewrite Hq, Hh, IH.
Qed.

Lemma strip_state_app (a b a' b' : bool) (x y : string) :
  strip_state a b x = Some (a', b') ->
  strip_state a b (x ++ y) = strip_state a' b' y.
Proof.
  revert a b. induction x as [|c x IH]; intros a b H.
  - cbn [strip_state] in H. now injection H as -> ->.
  - cbn [strip_state] in H. cbn [append strip_state].
    destruct a.
    + destruct b; [now rewrite IH|].
      destruct (Ascii.eqb c backslash); [now rewrite IH|].
      destruct (Ascii.eqb c dquote); now rewrite IH.
    + destruct (Ascii.eqb c dquote); [now rewrite IH|].
      destruct (Ascii.eqb c hash); [discriminate|now rewrite IH].
Qed.

Lemma literal_open (body : string) :
  all_chars literal_char body = true -> all_chars open_char body = true.
Proof.
  apply all_chars_impl. intros c H. unfold literal_char in H.
  now apply andb_true_iff in H as [H _].
Qed.

Lemma open_not_quote (s : string) :
  all_chars open_char s = true -> all_chars not_quote s = true.
Proof.
  apply all_chars_impl. intros c H. unfold open_char in H.
  now apply andb_true_iff in H as [_ H].
Qed.

Lemma open_not_linebreak (s : string) :
  all_chars open_char s = true -> all_chars not_linebreak s = true.
Proof.
  apply all_chars_impl. intros c H. unfold open_char in H.
  now apply andb_true_iff in H as [H _].
Qed.

Lemma code_not_quote (s : string) :
  all_chars code_char s = true -> all_chars not_quote s = true.
Proof.
  apply all_chars_impl. intros c H. unfold code_char in H.
  apply andb_true_iff in H as [H _]. now apply andb_true_iff in H as [_ H].
Qed.

Lemma code_not_linebreak (s : string) :
  all_chars code_char s = true -> all_chars not_linebreak s = true.
Proof.
  apply all_chars_impl. intros c H. unfold code_char in H.
  apply andb_true_iff in H as [H _]. now apply andb_true_iff in H as [H _].
Qed.

Lemma until_quote_literal (body rest : string) :
  all_chars not_quote body = true ->
  until_quote (body ++ String dquote rest) = Some (body, rest).
Proof.
  induction body as [|c body IH].
  - intros _. cbn [append until_quote]. now rewrite Ascii.eqb_refl.
  - cbn [all_chars]. intros H. apply andb_true_iff in H as [Hc H].
    unfold not_quote in Hc. apply negb_true_iff in Hc.
    cbn [append until_quote]. now rewrite Hc, (IH H).
Qed.

Lemma q_app (body rest : string) :
  q body ++ rest = String dquote (body ++ String dquote rest).
Proof.
  unfold q. cbn [append]. f_equal. now rewrite string_app_assoc.
Qed.

(** A quoted text without a quote in it is one match. *)
Lemma scan_literal (body rest : string) :
  all_chars not_quote body = true ->
  scan (q body ++ rest)
  = ((if truthy body then [STRING body] else []) ++ scan rest)%list.
Proof.
  intros H. rewrite q_app, scan_cons. unfold match_at.
  rewrite Ascii.eqb_refl, (until_quote_literal body rest H).
  cbn [token_of_group]. now destruct (truthy body).
Qed.

Lemma tokenize_code (pre : string) :
  all_chars code_char pre = true -> tokenize pre = scan pre.
Proof.
  intros H. rewrite tokenize_line_scan by now apply code_not_linebreak.
  rewrite <- (string_app_nil_r pre) at 1.
  rewrite (strip_loop_code pre _ H). cbn [strip_loop].
  now rewrite string_app_nil_r.
Qed.

Lemma strip_loop_literal (body rest : string) :
  all_chars literal_char body = true ->
  strip_loop false false (q body ++ rest)
  = q body ++ strip_loop false false rest.
Proof.
  intros H. rewrite !q_app. cbn [strip_loop]. rewrite Ascii.eqb_refl.
  f_equal.
  rewrite (strip_loop_app true false true false body _
             (strip_state_literal body H)).
  rewrite (strip_loop_open false body
             (open_not_quote body (literal_open body H))).
  reflexivity.
Qed.

(* ----------------------------------------------------------------- *)
(** ** The shape of the tokens *)

Lemma all_chars_rstrip_by (p r : ascii -> bool) (s : string) :
  all_chars p s = true -> all_chars p (rstrip_by r s) = true.
Proof.
  intros H. destruct (rstrip_by_split r s) as (w & E & _).
  rewrite E, all_chars_app in H. now apply andb_true_iff in H as [H _].
Qed.

Lemma all_chars_strip_loop (p : ascii -> bool) (a b : bool) (s : string) :
  all_chars p s = true -> all_chars p (strip_loop a b s) = true.
Proof.
  revert a b. induction s as [|c s IH]; intros a b H; [reflexivity|].
  cbn [all_chars] in H. apply andb_true_iff in H as [Hc Hs].
  cbn [strip_loop].
  destruct a.
  - destruct b; [cbn [all_chars]; now rewrite Hc, IH|].
    destruct (Ascii.eqb c backslash); [cbn [all_chars]; now rewrite Hc, IH|].
    destruct (Ascii.eqb c dquote); cbn [all_chars]; now rewrite Hc, IH.
  - destruct (Ascii.eqb c dquote); [cbn [all_chars]; now rewrite Hc, IH|].
    destruct (Ascii.eqb c hash); [reflexivity|].
    cbn [all_chars]; now rewrite Hc, IH.
Qed.

Lemma splitlines_lines_fuel (n : nat) (s : string) :
  String.length s <= n ->
  Forall (fun l => all_chars not_linebreak l = true) (splitlines s).
Proof.
  revert s. induction n as [|n IH]; intros s Hn.
  - destruct s; [constructor|simpl in Hn; lia].
  - destruct s as [|c s]; [constructor|]. simpl in Hn.
    cbn [splitlines]. destruct (is_linebreak c) eqn:Ec.
    + constructor; [reflexivity|].
      destruct s as [|c' s']; [constructor|].
      destruct (Ascii.eqb c CR && Ascii.eqb c' LF).
      * apply IH. simpl in Hn. lia.
      * apply IH. lia.
    + pose proof (IH s ltac:(lia)) as H.
      destruct (splitlines s) as [|l ls].
      * repeat constructor. cbn [all_chars]. unfold not_linebreak.
        now rewrite Ec.
      * inversion H as [|? ? Hl Hls]; subst. constructor; [|exact Hls].
        cbn [all_chars]. unfold not_linebreak at 1. now rewrite Ec.
Qed.

Lemma splitlines_lines (s : string) :
  Forall (fun l => all_chars not_linebreak l = true) (splitlines s).
Proof. apply (splitlines_lines_fuel (String.length s)), Nat.le_refl. Qed.

(** What holds of the tokens of every match in a text of characters [p]
    holds of every token of the scan of such a text. *)
Lemma scan_forall (p : ascii -> bool) (P : token -> Prop) :
  (forall s g after, all_chars p s = true -> match_at s = Some (g, after) ->
                     Forall P (token_of_group g)) ->
  forall s, all_chars p s = true -> Forall P (scan s).
Proof.
  intros HP s. unfold scan, findall.
  generalize (String.length s) as fuel. intros fuel. revert s.
  induction fuel as [|fuel IH]; intros s Hs; [constructor|].
  cbn [findall_fuel]. destruct s as [|c rest]; [constructor|].
  destruct (match_at (String c rest)) as [[g after]|] eqn:E.
  - cbn [flat_map]. apply Forall_app. split.
    + eapply HP; eassumption.
    + apply IH. eapply match_at_all; eassumption.
  - apply IH. cbn [all_chars] in Hs. now apply andb_true_iff in Hs as [_ Hs].
Qed.

Lemma tokenize_forall_lines (P : token -> Prop) :
  (forall s g after, all_chars not_linebreak s = true ->
                     match_at s = Some (g, after) ->
                     Forall P (token_of_group g)) ->
  forall source, Forall P (tokenize source).
Proof.
  intros HP source. unfold tokenize.
  pose proof (splitlines_lines source) as HL.
  induction (splitlines source) as [|line ls IH]; [constructor|].
  inversion HL as [|? ? Hl Hls]; subst.
  cbn [flat_map]. apply Forall_app. split; [|now apply IH].
  rewrite line_tokens_strip_loop.
  apply (scan_forall not_linebreak P HP).
  apply all_chars_strip_loop. unfold rstrip_newline.
  now apply all_chars_rstrip_by.
Qed.

Lemma until_quote_body (p : ascii -> bool) (s body after : string) :
  until_quote s = Some (body, after) ->
  all_chars not_quote body = true
  /\ (all_chars p s = true -> all_chars p body = true).
Proof.
  revert body after. induction s as [|c s IH]; intros body after H;
    [discriminate|].
  cbn [until_quote] in H. destruct (Ascii.eqb c dquote) eqn:Ec.
  - injection H as <- _. split; reflexivity.
  - destruct (until_quote s) as [[x y]|]; [|discriminate].
    injection H as <- _. destruct (IH x y eq_refl) as [H1 H2]. split.
    + cbn [all_chars]. unfold not_quote at 1. now rewrite Ec, H1.
    + cbn [all_chars]. intros H. apply andb_true_iff in H as [Hc Hs].
      now rewrite Hc, H2.
Qed.

Lemma operator_char_operators (c : ascii) :
  is_operator_char c = true ->
  existsb (String.eqb (String c "")) operators = true.
Proof.
  destruct c as [[] [] [] [] [] [] [] []]; vm_compute;
    intros H; first [reflexivity | discriminate H].
Qed.

Lemma digit_bounds (c : ascii) :
  is_digit c = true -> 48 <= code c <= 57.
Proof.
  unfold is_digit. intros H. apply andb_true_iff in H as [H1 H2].
  apply Nat.leb_le in H1, H2. lia.
Qed.

Lemma int_of_digits_acc_nonneg (s : string) (acc : Z) :
  all_chars is_digit s = true -> (0 <= acc)%Z ->
  (0 <= int_of_digits_acc acc s)%Z.
Proof.
  revert acc. induction s as [|c s IH]; intros acc H Ha; [exact Ha|].
  cbn [all_chars] in H. apply andb_true_iff in H as [Hc Hs].
  cbn [int_of_digits_acc]. apply IH; [exact Hs|].
  pose proof (digit_bounds c Hc). lia.
Qed.

Lemma count_dots_digits (d : string) :
  all_chars is_digit d = true -> count_dots d = 0.
Proof.
  induction d as [|c d IH]; [reflexivity|].
  cbn [all_chars]. intros H. apply andb_true_iff in H as [Hc Hd].
  cbn [count_dots]. unfold is_dot. now rewrite (digit_not_dot c Hc), IH.
Qed.

Lemma count_dots_app (a b : string) :
  count_dots (a ++ b) = count_dots a + count_dots b.
Proof.
  induction a as [|c a IH]; [reflexivity|].
  cbn [append count_dots]. rewrite IH. lia.
Qed.

Lemma digits_digit_or_dot (d : string) :
  all_chars is_digit d = true -> all_chars digit_or_dot d = true.
Proof.
  apply all_chars_impl. intros c H. unfold digit_or_dot. now rewrite H.
Qed.

Lemma number_shape_well_formed (n : number) :
  number_shape n -> well_formed_token (NUMBER n) = true.
Proof.
  destruct n as [z|text]; cbn [number_shape well_formed_token].
  - intros (d & [_ Hd] & ->). apply Z.leb_le.
    now apply int_of_digits_acc_nonneg.
  - intros (d1 & d2 & [Hne Hd1] & Hd2 & ->).
    rewrite all_chars_app, count_dots_app. cbn [all_chars count_dots].
    rewrite (digits_digit_or_dot d1 Hd1), (digits_digit_or_dot d2 Hd2).
    rewrite (count_dots_digits d1 Hd1), (count_dots_digits d2 Hd2).
    destruct d1 as [|c d1]; [congruence|].
    cbn [all_chars] in Hd1. apply andb_true_iff in Hd1 as [Hc _].
    cbn [append starts_with]. now rewrite Hc.
Qed.

Lemma match_at_not_number (s : string) (g : groups) (after : string) :
  all_chars not_linebreak s = true -> match_at s = Some (g, after) ->
  Forall (fun t => match t with
                   | NUMBER _ => True
                   | _ => well_formed_token t = true
                   end) (token_of_group g).
Proof.
  destruct s as [|c rest]; [discriminate|]. intros Hl. unfold match_at.
  pose proof Hl as Hrest. cbn [all_chars] in Hrest.
  apply andb_true_iff in Hrest as [_ Hrest].
  destruct (Ascii.eqb c dquote).
  { destruct (until_quote rest) as [[body a]|] eqn:E; [|discriminate].
    intros H; injection H as <- _. unfold token_of_group.
    destruct (until_quote_body not_linebreak rest body a E) as [Hq Hb].
    destruct (truthy body) eqn:Et; repeat constructor.
    cbn [well_formed_token]. rewrite Et. cbn [andb].
    specialize (Hb Hrest). clear - Hq Hb.
    induction body as [|x body IH]; [reflexivity|].
    cbn [all_chars] in *. apply andb_true_iff in Hq as [Hx Hq].
    apply andb_true_iff in Hb as [Hy Hb]. unfold open_char at 1.
    now rewrite Hx, Hy, IH. }
  destruct (is_digit c) eqn:Hc.
  { assert (Hnum : forall d,
               Forall (fun t => match t with
                                | NUMBER _ => True
                                | _ => well_formed_token t = true
                                end) (token_of_group ("", d, "", ""))).
    { intros d. unfold token_of_group. cbn [truthy].
      destruct (truthy d); [|constructor].
      destruct (has_dot d); repeat constructor. }
    destruct (span is_digit (String c rest)) as [d1 r1].
    destruct r1 as [|c1 r2].
    - intros H; injection H as <- _. apply Hnum.
    - destruct (Ascii.eqb c1 dot).
      + destruct (span is_digit r2) as [d2 r3].
        intros H; injection H as <- _. apply Hnum.
      + intros H; injection H as <- _. apply Hnum. }
  destruct (is_operator_char c) eqn:Ho.
  { intros H; injection H as <- _. repeat constructor.
    cbn [well_formed_token]. now apply operator_char_operators. }
  destruct (is_word c) eqn:Hw; [|discriminate].
  pose proof (span_all is_word (String c rest)) as Hall.
  cbn [span] in *. rewrite Hw in *.
  destruct (span is_word rest) as [w r1]. cbn [fst] in Hall.
  intros H; injection H as <- _. repeat constructor.
  cbn [well_formed_token truthy starts_with]. now rewrite Hall, Hc.
Qed.

Lemma match_at_well_formed (s : string) (g : groups) (after : string) :
  all_chars not_linebreak s = true -> match_at s = Some (g, after) ->
  Forall (fun t => well_formed_token t = true) (token_of_group g).
Proof.
  intros Hl H.
  pose proof (match_at_number_shape s g after H) as H1.
  pose proof (match_at_not_number s g after Hl H) as H2.
  induction (token_of_group g) as [|t l IH]; [constructor|].
  inversion H1 as [|? ? Ht1 Hl1]; subst.
  inversion H2 as [|? ? Ht2 Hl2]; subst.
  constructor; [|now apply IH].
  destruct t as [s0|n|s0|s0]; try exact Ht2.
  now apply number_shape_well_formed.
Qed.

Lemma tokenize_well_formed (source : string) :
  forallb well_formed_token (tokenize source) = true.
Proof.
  apply forallb_forall. apply Forall_forall.
  apply tokenize_forall_lines. exact match_at_well_formed.
Qed.

(* ----------------------------------------------------------------- *)
(** ** Characters that separate tokens *)

Lemma separator_char_inv (c : ascii) :
  separator_char c = true ->
  unrecognised c = true /\ Ascii.eqb c dquote = false
  /\ Ascii.eqb c hash = false
  /\ inert_start (String c "") = true.
Proof.
  unfold separator_char. intros H.
  apply andb_true_iff in H as [H _]. apply andb_true_iff in H as [H Hh].
  apply andb_true_iff in H as [Hu Hd].
  apply negb_true_iff in Hh, Hd. split; [exact Hu|].
  unfold unrecognised in Hu.
  apply andb_true_iff in Hu as [Hu Hw]. apply andb_true_iff in Hu as [Hu _].
  apply andb_true_iff in Hu as [Hq Hg].
  apply negb_true_iff in Hq, Hg, Hw.
  repeat split; try assumption.
  unfold inert_start. cbn [starts_with]. now rewrite Hg, Hd, Hw.
Qed.

Lemma operator_char_inv (c : ascii) :
  is_operator_char c = true ->
  Ascii.eqb c dquote = false /\ Ascii.eqb c hash = false
  /\ is_digit c = false /\ is_dot c = false /\ is_word c = false.
Proof.
  destruct c as [[] [] [] [] [] [] [] []]; vm_compute;
    intros H; first [discriminate H | repeat split].
Qed.

(* ================================================================= *)
(** * The tokenizer and the limit of int *)

Lemma find_app {A : Type} (p : A -> bool) (a b : list A) :
  find p (a ++ b)
  = match find p a with Some x => Some x | None => find p b end.
Proof.
  induction a as [|x a IH]; [reflexivity|].
  cbn [app find]. now destruct (p x).
Qed.

Lemma Tokenizer_group_outcome (g : groups) :
  Tokenizer_group g
  = match find too_long (integer_literal g) with
    | Some d => Raise (ValueError d)
    | None => Ok (token_of_group g)
    end.
Proof.
  destruct g as [[[g0 g1] g2] g3].
  unfold Tokenizer_group, token_of_group, integer_literal.
  destruct (truthy g0); [reflexivity|].
  destruct (truthy g1); cbn [andb];
    [|cbn [find]; destruct (truthy g2); [reflexivity|now destruct (truthy g3)]].
  destruct (has_dot g1); cbn [negb find]; [reflexivity|].
  unfold int, too_long. now destruct (int_max_str_digits <? String.length g1)%nat.
Qed.

Lemma Tokenizer_groups_outcome (gs : list groups) :
  Tokenizer_groups gs
  = match find too_long (flat_map integer_literal gs) with
    | Some d => Raise (ValueError d)
    | None => Ok (flat_map token_of_group gs)
    end.
Proof.
  induction gs as [|g gs IH]; [reflexivity|].
  cbn [Tokenizer_groups flat_map]. rewrite find_app, Tokenizer_group_outcome.
  destruct (find too_long (integer_literal g)); [reflexivity|].
  cbn [bind]. rewrite IH.
  now destruct (find too_long (flat_map integer_literal gs)).
Qed.

Lemma line_tokens_matches (line : string) :
  line_tokens line = flat_map token_of_group (line_matches line).
Proof.
  unfold line_tokens, line_matches.
  now destruct (truthy (strip (_strip_inline_comments (rstrip_newline line)))).
Qed.

Lemma Tokenizer_lines_outcome (ls : list string) :
  Tokenizer_lines ls
  = match find too_long
            (flat_map (fun l => flat_map integer_literal (line_matches l)) ls)
    with
    | Some d => Raise (ValueError d)
    | None => Ok (flat_map line_tokens ls)
    end.
Proof.
  induction ls as [|l ls IH]; [reflexivity|].
  cbn [Tokenizer_lines flat_map]. rewrite find_app.
  unfold Tokenizer_line. rewrite Tokenizer_groups_outcome.
  destruct (find too_long (flat_map integer_literal (line_matches l)));
    [reflexivity|].
  cbn [bind]. rewrite IH, line_tokens_matches.
  now destruct (find too_long _).
Qed.

(** The tokenizer fails in one way only: at the first integer literal that
    is too long for [int]; otherwise it returns [tokenize]. *)
Lemma Tokenizer_tokenize_outcome (source : string) :
  Tokenizer_tokenize source
  = match find too_long (integer_literals source) with
    | Some d => Raise (ValueError d)
    | None => Ok (tokenize source)
    end.
Proof. apply Tokenizer_lines_outcome. Qed.

Lemma Tokenizer_tokenize_ok (source : string) (ts : list token) :
  Tokenizer_tokenize source = Ok ts -> tokenize source = ts.
Proof.
  rewrite Tokenizer_tokenize_outcome.
  destruct (find too_long (integer_literals source)); [discriminate|].
  now intros H; injection H.
Qed.

Lemma Tokenizer_scan_outcome (line : string) :
  Tokenizer_scan line
  = match find too_long (flat_map integer_literal (findall line)) with
    | Some d => Raise (ValueError d)
    | None => Ok (scan line)
    end.
Proof. apply Tokenizer_groups_outcome. Qed.

Lemma Tokenizer_scan_cons (c : ascii) (rest : string) :
  Tokenizer_scan (String c rest)
  = match match_at (String c rest) with
    | Some (g, after) =>
        ts <- Tokenizer_group g ;;
        ts' <- Tokenizer_scan after ;;
        Ok (ts ++ ts')%list
    | None => Tokenizer_scan rest
    end.
Proof.
  unfold Tokenizer_scan. rewrite findall_cons.
  now destruct (match_at (String c rest)) as [[g after]|].
Qed.

(** On a text of plain characters the lines are the text itself and its
    matches are those of the pattern on it. *)
Lemma line_matches_plain (s : string) :
  all_chars plain s = true -> line_matches s = findall s.
Proof.
  intros H. unfold line_matches.
  rewrite (rstrip_newline_plain _ H).
  unfold _strip_inline_comments, strip.
  rewrite (strip_loop_plain _ H).
  rewrite (lstrip_plain _ H), (rstrip_plain _ H).
  rewrite (lstrip_plain _ H), (rstrip_plain _ H).
  now destruct s.
Qed.

Lemma Tokenizer_tokenize_plain (s : string) :
  all_chars plain s = true -> Tokenizer_tokenize s = Tokenizer_scan s.
Proof.
  intros H. destruct s as [|c s]; [reflexivity|].
  unfold Tokenizer_tokenize. rewrite (splitlines_plain _ H) by discriminate.
  cbn [Tokenizer_lines]. unfold Tokenizer_line.
  rewrite (line_matches_plain _ H). fold (Tokenizer_scan (String c s)).
  destruct (Tokenizer_scan (String c s)) as [ts| e |]; cbn [bind];
    [now rewrite app_nil_r|reflexivity|reflexivity].
Qed.

Lemma Tokenizer_group_int (c : ascii) (d : string) :
  all_chars is_digit (String c d) = true ->
  Tokenizer_group ("", String c d, "", "")
  = (z <- int (String c d) ;; Ok [NUMBER (NInt z)]).
Proof.
  intros H. unfold Tokenizer_group. cbn [truthy].
  now rewrite (digits_no_dot _ H).
Qed.

Lemma Tokenizer_group_float (c : ascii) (d1 d2 : string) :
  Tokenizer_group ("", String c d1 ++ String dot d2, "", "")
  = Ok [NUMBER (NFloat (String c d1 ++ String dot d2))].
Proof.
  unfold Tokenizer_group.
  change (String c d1 ++ String dot d2) with (String c (d1 ++ String dot d2)).
  cbn [truthy].
  change (String c (d1 ++ String dot d2)) with (String c d1 ++ String dot d2).
  now rewrite has_dot_app.
Qed.

(** Digits with nothing numeric after them: one call of [int], then the
    rest of the line. *)
Lemma Tokenizer_scan_int (d rest : string) :
  digits d ->
  starts_with is_digit rest = false -> starts_with is_dot rest = false ->
  Tokenizer_scan (d ++ rest)
  = (z <- int d ;; ts <- Tokenizer_scan rest ;; Ok (NUMBER (NInt z) :: ts)).
Proof.
  intros [Hne Hd] Hr Hdot. destruct d as [|c d]; [congruence|].
  change (String c d ++ rest) with (String c (d ++ rest)).
  rewrite Tokenizer_scan_cons.
  change (String c (d ++ rest)) with (String c d ++ rest).
  rewrite (match_at_int c d rest Hd Hr Hdot).
  rewrite (Tokenizer_group_int c d Hd).
  destruct (int (String c d)) as [z| e |]; reflexivity.
Qed.

Lemma Tokenizer_scan_float (d1 d2 rest : string) :
  digits d1 -> all_chars is_digit d2 = true ->
  starts_with is_digit rest = false ->
  Tokenizer_scan (d1 ++ String dot (d2 ++ rest))
  = (ts <- Tokenizer_scan rest ;;
     Ok (NUMBER (NFloat (d1 ++ String dot d2)) :: ts)).
Proof.
  intros [Hne Hd1] Hd2 Hr. destruct d1 as [|c d1]; [congruence|].
  change (String c d1 ++ String dot (d2 ++ rest))
    with (String c (d1 ++ String dot (d2 ++ rest))).
  rewrite Tokenizer_scan_cons.
  change (String c (d1 ++ String dot (d2 ++ rest)))
    with (String c d1 ++ String dot (d2 ++ rest)).
  rewrite (match_at_float c d1 d2 rest Hd1 Hd2 Hr).
  rewrite Tokenizer_group_float. reflexivity.
Qed.

Lemma int_within (d : string) :
  String.length d <= int_max_str_digits -> int d = Ok (int_of_digits d).
Proof.
  intros H. unfold int.
  destruct (Nat.ltb_spec int_max_str_digits (String.length d)); [lia|reflexivity].
Qed.

Lemma int_beyond (d : string) :
  int_max_str_digits < String.length d -> int d = Raise (ValueError d).
Proof.
  intros H. unfold int.
  destruct (Nat.ltb_spec int_max_str_digits (String.length d)); [reflexivity|lia].
Qed.

(** The text a match has consumed. *)
Lemma match_at_consumed (s : string) (g : groups) (after : string) :
  match_at s = Some (g, after) -> exists m, s = m ++ after.
Proof.
  destruct s as [|c rest]; [discriminate|]. unfold match_at.
  destruct (Ascii.eqb c dquote).
  { destruct (until_quote rest) as [[body a]|] eqn:E; [|discriminate].
    intros H; injection H as _ <-.
    exists (String c (body ++ String dquote "")).
    cbn [append]. f_equal. rewrite string_app_assoc. cbn [append].
    revert body a E. induction rest as [|c' rest IH]; intros body a E;
      [discriminate|].
    cbn [until_quote] in E. destruct (Ascii.eqb c' dquote) eqn:Eq.
    - injection E as <- <-. apply Ascii.eqb_eq in Eq. now subst c'.
    - destruct (until_quote rest) as [[b' a']|]; [|discriminate].
      injection E as <- <-. cbn [append]. f_equal. now apply IH. }
  destruct (is_digit c).
  { destruct (span_split is_digit (String c rest)) as [E1 _].
    destruct (span is_digit (String c rest)) as [d1 r1]. cbn [fst snd] in E1.
    destruct r1 as [|c1 r2].
    - intros H; injection H as _ <-. now exists d1.
    - destruct (Ascii.eqb c1 dot) eqn:Ed.
      + destruct (span_split is_digit r2) as [E2 _].
        destruct (span is_digit r2) as [d2 r3]. cbn [fst snd] in E2.
        intros H; injection H as _ <-.
        exists (d1 ++ String c1 d2). rewrite E1, E2.
        rewrite string_app_assoc. reflexivity.
      + intros H; injection H as _ <-. now exists d1. }
  destruct (is_operator_char c).
  { intros H; injection H as _ <-. now exists (String c ""). }
  destruct (is_word c); [|discriminate].
  destruct (span_split is_word (String c rest)) as [E1 _].
  destruct (span is_word (String c rest)) as [w r1]. cbn [fst snd] in E1.
  intros H; injection H as _ <-. now exists w.
Qed.

(** A match that gives a NUMBER token has consumed a numeric literal, and
    the token is its conversion. *)
Lemma match_at_numeric (s : string) (g : groups) (after : string)
      (n : number) :
  match_at s = Some (g, after) -> In (NUMBER n) (token_of_group g) ->
  exists unit, s = unit ++ after /\ numeric_literal unit n
               /\ token_of_group g = [NUMBER n].
Proof.
  destruct s as [|c rest]; [discriminate|]. unfold match_at.
  destruct (Ascii.eqb c dquote).
  { destruct (until_quote rest) as [[body a]|]; [|discriminate].
    intros H; injection H as <- _. unfold token_of_group.
    intros Hin. exfalso.
    destruct (truthy body); cbn [In] in Hin;
      [destruct Hin as [Hin|Hin]; [discriminate Hin|exact Hin]|exact Hin]. }
  destruct (is_digit c) eqn:Hc.
  { pose proof (span_all is_digit (String c rest)) as Hall.
    destruct (span_split is_digit (String c rest)) as [E1 _].
    destruct (span is_digit (String c rest)) as [d1 r1] eqn:Es.
    cbn [fst snd] in E1, Hall.
    assert (Hd1 : digits d1).
    { split; [|exact Hall].
      cbn [span] in Es. rewrite Hc in Es.
      destruct (span is_digit rest); injection Es as <- _. discriminate. }
    assert (Hint : forall n, In (NUMBER n) (token_of_group ("", d1, "", "")) ->
              numeric_literal d1 n
              /\ token_of_group ("", d1, "", "") = [NUMBER n]).
    { intros n0. destruct Hd1 as [Hne Hd]. destruct d1 as [|c1 d1]; [congruence|].
      rewrite (token_of_int_group c1 d1 Hd). intros [Hin|[]].
      injection Hin as <-. split; [|reflexivity].
      left. split; [split; [discriminate|exact Hd]|reflexivity]. }
    destruct r1 as [|c1 r2].
    - intros H; injection H as <- <-. intros Hin.
      exists d1. split; [exact E1|now apply Hint].
    - destruct (Ascii.eqb c1 dot) eqn:Ed.
      + pose proof (span_all is_digit r2) as Hall2.
        destruct (span_split is_digit r2) as [E2 _].
        destruct (span is_digit r2) as [d2 r3]. cbn [fst snd] in E2, Hall2.
        intros H; injection H as <- <-.
        apply Ascii.eqb_eq in Ed. subst c1.
        destruct Hd1 as [Hne Hd]. destruct d1 as [|c0 d1]; [congruence|].
        rewrite token_of_float_group. intros [Hin|[]]. injection Hin as <-.
        exists (String c0 d1 ++ String dot d2).
        split; [|split; [|reflexivity]].
        * rewrite E1, E2 at 1. now rewrite string_app_assoc.
        * right. exists (String c0 d1), d2.
          split; [split; [discriminate|exact Hd]|].
          split; [exact Hall2|split; reflexivity].
      + intros H; injection H as <- <-. intros Hin.
        exists d1. split; [exact E1|now apply Hint]. }
  destruct (is_operator_char c).
  { intros H; injection H as <- _. intros [Hin|[]]. discriminate. }
  destruct (is_word c); [|discriminate].
  destruct (span is_word (String c rest)) as [w r1].
  intros H; injection H as <- _. unfold token_of_group. cbn [truthy].
  intros Hin. exfalso.
  destruct (truthy w); cbn [In] in Hin;
    [destruct Hin as [Hin|Hin]; [discriminate Hin|exact Hin]|exact Hin].
Qed.

(** Every NUMBER token of a scan comes from a numeric literal of the line,
    at a place where the scan starts a match: the tokens of the line are
    those before the literal, its NUMBER token and those of the rest. *)
Lemma scan_numeric_fuel (k : nat) (line : string) (n : number) :
  String.length line <= k ->
  In (NUMBER n) (scan line) ->
  exists pre unit rest before,
    line = pre ++ unit ++ rest /\ numeric_literal unit n
    /\ scan (unit ++ rest) = NUMBER n :: scan rest
    /\ scan line = (before ++ NUMBER n :: scan rest)%list.
Proof.
  revert line. induction k as [|k IH]; intros line Hk Hin.
  { destruct line; [destruct Hin|simpl in Hk; lia]. }
  destruct line as [|c rest]; [destruct Hin|].
  pose proof (scan_cons c rest) as Ec. rewrite Ec in Hin.
  destruct (match_at (String c rest)) as [[g after]|] eqn:Em.
  - apply in_app_or in Hin as [Hin|Hin].
    + destruct (match_at_numeric _ _ _ _ Em Hin) as (unit & E & Hu & Et).
      exists "", unit, after, []. cbn [append app].
      split; [exact E|split; [exact Hu|]].
      rewrite <- E, Ec, Et. split; reflexivity.
    + pose proof (match_at_length _ _ _ Em) as Hl.
      destruct (match_at_consumed _ _ _ Em) as [m Es].
      destruct (IH after ltac:(simpl in *; lia) Hin)
        as (pre & unit & r & before & E & Hu & Hs & Hb).
      exists (m ++ pre), unit, r, (token_of_group g ++ before)%list.
      split; [|split; [exact Hu|split; [exact Hs|]]].
      * rewrite Es, E. now rewrite string_app_assoc.
      * rewrite Ec, Hb. now rewrite app_assoc.
  - destruct (IH rest ltac:(simpl in *; lia) Hin)
      as (pre & unit & r & before & E & Hu & Hs & Hb).
    exists (String c pre), unit, r, before.
    split; [|split; [exact Hu|split; [exact Hs|]]].
    + cbn [append]. now rewrite <- E.
    + now rewrite Ec.
Qed.

Lemma scan_numeric (line : string) (n : number) :
  In (NUMBER n) (scan line) ->
  exists pre unit rest before,
    line = pre ++ unit ++ rest /\ numeric_literal unit n
    /\ scan (unit ++ rest) = NUMBER n :: scan rest
    /\ scan line = (before ++ NUMBER n :: scan rest)%list.
Proof. apply (scan_numeric_fuel (String.length line)), Nat.le_refl. Qed.

(** The tokens of a text are the scans of its lines, each without its
    comment. *)
Lemma tokenize_lines_scan (source : string) :
  tokenize source
  = flat_map (fun l => scan (strip_loop false false (rstrip_newline l)))
      (splitlines source).
Proof.
  unfold tokenize.
  induction (splitlines source) as [|l ls IH]; [reflexivity|].
  cbn [flat_map]. now rewrite IH, line_tokens_strip_loop.
Qed.

Lemma tokenize_numeric (source : string) (n : number) :
  In (NUMBER n) (tokenize source) ->
  exists line pre unit rest before,
    In line (splitlines source)
    /\ strip_loop false false (rstrip_newline line) = pre ++ unit ++ rest
    /\ numeric_literal unit n
    /\ scan (unit ++ rest) = NUMBER n :: scan rest
    /\ scan (pre ++ unit ++ rest) = (before ++ NUMBER n :: scan rest)%list.
Proof.
  rewrite tokenize_lines_scan. intros Hin.
  apply in_flat_map in Hin as (line & Hl & Hin).
  destruct (scan_numeric _ _ Hin)
    as (pre & unit & rest & before & E & Hu & Hs & Hb).
  exists line, pre, unit, rest, before. rewrite <- E. auto.
Qed.

Lemma digits_ascii (d : string) :
  all_chars is_digit d = true -> ascii_text d = true.
Proof.
  apply all_chars_impl. intros c Hc.
  apply digit_bounds in Hc. unfold is_ascii. apply Nat.ltb_lt. lia.
Qed.

Lemma repeat_char_length (c : ascii) (n : nat) :
  String.length (repeat_char c n) = n.
Proof. induction n as [|n IH]; [reflexivity|]. cbn. now rewrite IH. Qed.

Lemma repeat_char_digits (c : ascii) (n : nat) :
  is_digit c = true -> digits (repeat_char c (S n)).
Proof.
  intros Hc. split; [discriminate|].
  induction n as [|n IH]; [cbn [repeat_char all_chars]; now rewrite Hc|].
  change (all_chars is_digit (repeat_char c (S (S n))))
    with (is_digit c && all_chars is_digit (repeat_char c (S n))).
  now rewrite Hc, IH.
Qed.

(** A blank in front of a text, after text without quote or [#]: the
    tokens of both, one after the other. *)
Lemma tokenize_blank (pre rest : string) :
  all_chars code_char pre = true -> all_chars not_linebreak rest = true ->
  tokenize (pre ++ String " " rest)
  = (scan pre ++ scan (strip_loop false false rest))%list.
Proof.
  intros Hpre Hrest.
  rewrite tokenize_line_scan.
  - rewrite (strip_loop_code pre _ Hpre).
    change (strip_loop false false (String " " rest))
      with (String " " (strip_loop false false rest)).
    rewrite scan_app; [|reflexivity|right; now apply code_not_quote].
    now rewrite scan_skip_unrecognised.
  - rewrite all_chars_app. cbn [all_chars].
    now rewrite (code_not_linebreak pre Hpre), Hrest.
Qed.

Lemma Tokenizer_scan_empty_literal (rest : string) :
  Tokenizer_scan (q "" ++ rest) = Tokenizer_scan rest.
Proof.
  unfold q. cbn [append]. rewrite Tokenizer_scan_cons.
  unfold match_at. rewrite Ascii.eqb_refl. cbn [until_quote].
  rewrite Ascii.eqb_refl. cbn [Tokenizer_group truthy bind].
  now destruct (Tokenizer_scan rest).
Qed.

(** Digits alone on a line: one integer within the limit of [int], the
    error of [int] beyond it. *)
Lemma Tokenizer_tokenize_int (d : string) :
  digits d ->
  Tokenizer_tokenize d = (z <- int d ;; Ok [NUMBER (NInt z)]).
Proof.
  intros Hd. pose proof Hd as [_ Hall].
  rewrite (Tokenizer_tokenize_plain d)
    by (eapply all_chars_impl; [apply digit_plain|exact Hall]).
  rewrite <- (string_app_nil_r d) at 1.
  rewrite (Tokenizer_scan_int d EmptyString Hd) by reflexivity.
  now destruct (int d).
Qed.


(* ================================================================= *)
(** * The parser: fuel, frames and composition *)

(* ----------------------------------------------------------------- *)
(** ** One call of each parsing function *)

Lemma parse_value_S (n : nat) (ts : list token) :
  parse_value (S n) ts =
  match ts with
  | [] => Raise (SyntaxError ExpectedValue)
  | STRING tval :: rest => Ok (VStr tval, rest)
  | NUMBER (NInt z) :: rest => Ok (VInt z, rest)
  | NUMBER (NFloat x) :: rest => Ok (VFloat x, rest)
  | IDENTIFIER tval :: rest =>
      if is_bool_word tval
      then Ok (VBool (String.eqb tval "verdadero"), rest)
      else Raise (SyntaxError (UnexpectedValue (IDENTIFIER tval)))
  | OPERATOR tval :: _ =>
      if String.eqb tval "[" then
        '(lst, rest) <- parse_list n ts ;; Ok (VList lst, rest)
      else if String.eqb tval "{" then
        '(mp, rest) <- parse_map n ts ;; Ok (VDict mp, rest)
      else Raise (SyntaxError (UnexpectedValue (OPERATOR tval)))
  end.
Proof. reflexivity. Qed.

Lemma parse_list_S (n : nat) (ts : list token) :
  parse_list (S n) ts =
  ('(_, ts1) <- expect_operator "[" ts ;; parse_list_loop n [] ts1).
Proof. reflexivity. Qed.

Lemma parse_list_loop_S (n : nat) (lst : list value) (ts : list token) :
  parse_list_loop (S n) lst ts =
  match ts with
  | [] => Raise (SyntaxError MissingCloseList)
  | tok :: rest =>
      if is_op tok "]" then Ok (lst, rest)
      else
        match bare_identifier tok with
        | Some ref => Raise (NameError ref)
        | None =>
            '(v, ts1) <- parse_value n ts ;;
            parse_list_loop n (lst ++ [v]) (skip_comma ts1)
        end
  end.
Proof. reflexivity. Qed.

Lemma parse_map_S (n : nat) (ts : list token) :
  parse_map (S n) ts =
  ('(_, ts1) <- expect_operator "{" ts ;; parse_map_loop n [] ts1).
Proof. reflexivity. Qed.

Lemma parse_map_loop_S (n : nat) (mp : dict) (ts : list token) :
  parse_map_loop (S n) mp ts =
  match ts with
  | [] => Raise (SyntaxError MissingCloseMap)
  | t :: rest =>
      if is_op t "}" then Ok (mp, rest)
      else if is_op t "," then parse_map_loop n mp rest
      else
        match map_key t with
        | None => Raise (SyntaxError (InvalidMapKey t))
        | Some k =>
            '(_, ts1) <- expect_kv_sep rest ;;
            '(v, ts2) <- parse_value n ts1 ;;
            if mem k mp then Raise (SyntaxError (DuplicateMapKey k))
            else parse_map_loop n (set mp k v) ts2
        end
  end.
Proof. reflexivity. Qed.

Lemma parse_block_section_S (n : nat) (ts : list token) :
  parse_block_section (S n) ts =
  ('(_, ts1) <- expect_operator "{" ts ;; parse_block_loop n [] ts1).
Proof. reflexivity. Qed.

Lemma parse_block_loop_S (n : nat) (block_content : dict) (ts : list token) :
  parse_block_loop (S n) block_content ts =
  match ts with
  | [] => Raise (SyntaxError MissingCloseBlock)
  | tok :: rest =>
      if is_op tok "}" then Ok (block_content, rest)
      else
        match tok with
        | IDENTIFIER key =>
            match rest with
            | next_tok :: rest' =>
                if is_op next_tok "=" then
                  '(v, ts2) <- parse_value n rest' ;;
                  if mem key block_content
                  then Raise (SyntaxError (RedefinedKey key))
                  else parse_block_loop n (set block_content key v) ts2
                else if is_op next_tok "{" then
                  '(sub_block, ts2) <- parse_block_section n rest ;;
                  if mem key block_content
                  then Raise (SyntaxError (RedefinedSection key))
                  else parse_block_loop n
                         (set block_content key (VDict sub_block)) ts2
                else Raise (SyntaxError (ExpectedAssignOrSection key))
            | [] => Raise (SyntaxError (ExpectedAssignOrSection key))
            end
        | _ => Raise (SyntaxError (ExpectedIdentInBlock tok))
        end
  end.
Proof. reflexivity. Qed.

Lemma parse_loop_S (n : nat) (table : symbol_table) (ts : list token) :
  parse_loop (S n) table ts =
  match ts with
  | [] => Ok table
  | IDENTIFIER word :: ts1 =>
      if String.eqb word "juego" then
        match ts1 with
        | STRING game_name :: ts2 =>
            '(root_block, ts3) <- parse_block_section n ts2 ;;
            if mem game_name table
            then Raise (SyntaxError (GameRedeclared game_name))
            else parse_loop n (set table game_name root_block) ts3
        | _ => Raise (SyntaxError ExpectedGameName)
        end
      else Raise (SyntaxError (ExpectedJuego (IDENTIFIER word)))
  | ident :: _ => Raise (SyntaxError (ExpectedJuego ident))
  end.
Proof. reflexivity. Qed.

(* ----------------------------------------------------------------- *)
(** ** More fuel changes nothing *)

Lemma bind_mono {A B : Type} (m m' : outcome A) (f f' : A -> outcome B) :
  (m <> OutOfFuel -> m' = m) ->
  (forall a, f a <> OutOfFuel -> f' a = f a) ->
  bind m f <> OutOfFuel -> bind m' f' = bind m f.
Proof.
  intros Hm Hf H. destruct m as [a| e |]; cbn [bind] in *.
  - rewrite Hm by discriminate. cbn [bind]. now apply Hf.
  - now rewrite Hm by discriminate.
  - congruence.
Qed.

Lemma parse_value_more (n : nat) :
  (forall ts, parse_value n ts <> OutOfFuel ->
              parse_value (S n) ts = parse_value n ts)
  /\ (forall ts, parse_list n ts <> OutOfFuel ->
                 parse_list (S n) ts = parse_list n ts)
  /\ (forall lst ts, parse_list_loop n lst ts <> OutOfFuel ->
                     parse_list_loop (S n) lst ts = parse_list_loop n lst ts)
  /\ (forall ts, parse_map n ts <> OutOfFuel ->
                 parse_map (S n) ts = parse_map n ts)
  /\ (forall mp ts, parse_map_loop n mp ts <> OutOfFuel ->
                    parse_map_loop (S n) mp ts = parse_map_loop n mp ts).
Proof.
  induction n as [|n (IHv & IHl & IHll & IHm & IHml)].
  { repeat split; intros; exfalso; auto. }
  split; [|split; [|split; [|split]]].
  - intros ts. rewrite (parse_value_S (S n)), (parse_value_S n).
    destruct ts as [|t ts']; [reflexivity|].
    destruct t as [s|[z|x]|s|s]; try reflexivity.
    destruct (String.eqb s "[").
    { apply bind_mono; [apply IHl|reflexivity]. }
    destruct (String.eqb s "{"); [|reflexivity].
    apply bind_mono; [apply IHm|reflexivity].
  - intros ts. rewrite (parse_list_S (S n)), (parse_list_S n).
    apply bind_mono; [reflexivity|]. intros [t ts1]. apply IHll.
  - intros lst ts. rewrite (parse_list_loop_S (S n)), (parse_list_loop_S n).
    destruct ts as [|tok rest]; [reflexivity|].
    destruct (is_op tok "]"); [reflexivity|].
    destruct (bare_identifier tok); [reflexivity|].
    apply bind_mono; [apply IHv|]. intros [v ts1]. apply IHll.
  - intros ts. rewrite (parse_map_S (S n)), (parse_map_S n).
    apply bind_mono; [reflexivity|]. intros [t ts1]. apply IHml.
  - intros mp ts. rewrite (parse_map_loop_S (S n)), (parse_map_loop_S n).
    destruct ts as [|t rest]; [reflexivity|].
    destruct (is_op t "}"); [reflexivity|].
    destruct (is_op t ","); [apply IHml|].
    destruct (map_key t) as [k|]; [|reflexivity].
    apply bind_mono; [reflexivity|]. intros [sep ts1].
    apply bind_mono; [apply IHv|]. intros [v ts2].
    destruct (mem k mp); [reflexivity|apply IHml].
Qed.

Lemma parse_block_more (n : nat) :
  (forall ts, parse_block_section n ts <> OutOfFuel ->
              parse_block_section (S n) ts = parse_block_section n ts)
  /\ (forall blk ts, parse_block_loop n blk ts <> OutOfFuel ->
                     parse_block_loop (S n) blk ts = parse_block_loop n blk ts).
Proof.
  induction n as [|n (IHs & IHl)].
  { split; intros; exfalso; auto. }
  split.
  - intros ts. rewrite (parse_block_section_S (S n)), (parse_block_section_S n).
    apply bind_mono; [reflexivity|]. intros [t ts1]. apply IHl.
  - intros blk ts. rewrite (parse_block_loop_S (S n)), (parse_block_loop_S n).
    destruct ts as [|tok rest]; [reflexivity|].
    destruct (is_op tok "}"); [reflexivity|].
    destruct tok as [s|x|s|key]; try reflexivity.
    destruct rest as [|next_tok rest']; [reflexivity|].
    destruct (is_op next_tok "=").
    { apply bind_mono; [apply (proj1 (parse_value_more n))|].
      intros [v ts2]. destruct (mem key blk); [reflexivity|apply IHl]. }
    destruct (is_op next_tok "{"); [|reflexivity].
    apply bind_mono; [apply IHs|].
    intros [sub ts2]. destruct (mem key blk); [reflexivity|apply IHl].
Qed.

Lemma parse_loop_more (n : nat) (table : symbol_table) (ts : list token) :
  parse_loop n table ts <> OutOfFuel ->
  parse_loop (S n) table ts = parse_loop n table ts.
Proof.
  revert table ts. induction n as [|n IH]; intros table ts.
  { intros H. exfalso. auto. }
  rewrite (parse_loop_S (S n)), (parse_loop_S n).
  destruct ts as [|t ts1]; [reflexivity|].
  destruct t as [s|x|s|word]; try reflexivity.
  destruct (String.eqb word "juego"); [|reflexivity].
  destruct ts1 as [|t2 ts2]; [reflexivity|].
  destruct t2 as [game_name|x|s|s]; try reflexivity.
  apply bind_mono; [apply (proj1 (parse_block_more n))|].
  intros [root ts3]. destruct (mem game_name table); [reflexivity|apply IH].
Qed.

Lemma parse_block_section_le (n m : nat) (ts : list token) :
  n <= m -> parse_block_section n ts <> OutOfFuel ->
  parse_block_section m ts = parse_block_section n ts.
Proof.
  intros Hle H. induction Hle as [|m Hle IH]; [reflexivity|].
  rewrite <- IH. apply (proj1 (parse_block_more m)). now rewrite IH.
Qed.

Lemma parse_loop_le (n m : nat) (table : symbol_table) (ts : list token) :
  n <= m -> parse_loop n table ts <> OutOfFuel ->
  parse_loop m table ts = parse_loop n table ts.
Proof.
  intros Hle H. induction Hle as [|m Hle IH]; [reflexivity|].
  rewrite <- IH. apply parse_loop_more. now rewrite IH.
Qed.

(** The result of the loop of [parse] is that of [parse] on the same table
    and tokens, whatever fuel it is given, provided it is enough. *)
Lemma parse_loop_enough (n : nat) (table : symbol_table) (ts : list token) :
  parse_fuel ts <= n ->
  parse_loop n table ts = parse_loop (parse_fuel ts) table ts.
Proof.
  intros H. apply parse_loop_le; [exact H|].
  apply parse_loop_fuel. unfold parse_fuel. lia.
Qed.

(* ----------------------------------------------------------------- *)
(** ** Tokens after those that are read *)

Lemma expect_operator_frame (op : string) (ts x : list token) t rest :
  expect_operator op ts = Ok (t, rest) ->
  expect_operator op (ts ++ x) = Ok (t, rest ++ x)%list.
Proof.
  destruct ts as [|t0 ts]; cbn [expect_operator app]; [discriminate|].
  destruct (is_op t0 op); [|discriminate].
  intros H; now injection H as <- <-.
Qed.

Lemma expect_kv_sep_frame (ts x : list token) t rest :
  expect_kv_sep ts = Ok (t, rest) ->
  expect_kv_sep (ts ++ x) = Ok (t, rest ++ x)%list.
Proof.
  destruct ts as [|t0 ts]; cbn [expect_kv_sep app]; [discriminate|].
  destruct (is_op t0 ":" || is_op t0 "="); [|discriminate].
  intros H; now injection H as <- <-.
Qed.

Lemma skip_comma_frame (ts x : list token) :
  ts <> [] -> skip_comma (ts ++ x) = (skip_comma ts ++ x)%list.
Proof.
  destruct ts as [|t ts]; [congruence|]. intros _.
  cbn [app skip_comma]. now destruct (is_op t ",").
Qed.

Lemma parse_list_loop_nil (n : nat) (lst l : list value) (rest : list token) :
  parse_list_loop n lst [] <> Ok (l, rest).
Proof. destruct n; discriminate. Qed.

(** A call that returns has not looked beyond what it has read: with more
    tokens after its input it returns the same, and leaves them too. *)
Lemma parse_value_frame (x : list token) (n : nat) :
  (forall ts v rest,
      parse_value n ts = Ok (v, rest) ->
      parse_value n (ts ++ x) = Ok (v, rest ++ x)%list)
  /\ (forall ts l rest,
         parse_list n ts = Ok (l, rest) ->
         parse_list n (ts ++ x) = Ok (l, rest ++ x)%list)
  /\ (forall lst ts l rest,
         parse_list_loop n lst ts = Ok (l, rest) ->
         parse_list_loop n lst (ts ++ x) = Ok (l, rest ++ x)%list)
  /\ (forall ts m rest,
         parse_map n ts = Ok (m, rest) ->
         parse_map n (ts ++ x) = Ok (m, rest ++ x)%list)
  /\ (forall mp ts m rest,
         parse_map_loop n mp ts = Ok (m, rest) ->
         parse_map_loop n mp (ts ++ x) = Ok (m, rest ++ x)%list).
Proof.
  induction n as [|n (IHv & IHl & IHll & IHm & IHml)].
  { repeat split; intros; discriminate. }
  split; [|split; [|split; [|split]]].
  - intros ts v rest H. rewrite parse_value_S in H |- *.
    destruct ts as [|t ts']; [discriminate|]. cbn [app].
    destruct t as [s|[z|y]|s|s].
    + now injection H as <- <-.
    + now injection H as <- <-.
    + now injection H as <- <-.
    + destruct (String.eqb s "[").
      { apply bind_ok in H as ([l r] & Hl & H). injection H as <- <-.
        apply IHl in Hl. cbn [app] in Hl. now rewrite Hl. }
      destruct (String.eqb s "{"); [|discriminate].
      apply bind_ok in H as ([m r] & Hm & H). injection H as <- <-.
      apply IHm in Hm. cbn [app] in Hm. now rewrite Hm.
    + destruct (is_bool_word s); [|discriminate].
      now injection H as <- <-.
  - intros ts l rest H. rewrite parse_list_S in H |- *.
    apply bind_ok in H as ([t ts1] & He & H).
    rewrite (expect_operator_frame _ _ x _ _ He). cbn [bind].
    now apply IHll.
  - intros lst ts l rest H. rewrite parse_list_loop_S in H |- *.
    destruct ts as [|tok ts']; [discriminate|]. cbn [app].
    destruct (is_op tok "]"); [now injection H as <- <-|].
    destruct (bare_identifier tok); [discriminate|].
    apply bind_ok in H as ([v ts1] & Hv & H).
    apply IHv in Hv. cbn [app] in Hv. rewrite Hv. cbn [bind].
    destruct ts1 as [|t1 ts1]; [now apply parse_list_loop_nil in H|].
    rewrite skip_comma_frame by discriminate. now apply IHll.
  - intros ts m rest H. rewrite parse_map_S in H |- *.
    apply bind_ok in H as ([t ts1] & He & H).
    rewrite (expect_operator_frame _ _ x _ _ He). cbn [bind].
    now apply IHml.
  - intros mp ts m rest H. rewrite parse_map_loop_S in H |- *.
    destruct ts as [|t ts']; [discriminate|]. cbn [app].
    destruct (is_op t "}"); [now injection H as <- <-|].
    destruct (is_op t ","); [now apply IHml|].
    destruct (map_key t) as [k|]; [|discriminate].
    apply bind_ok in H as ([sep ts1] & Hs & H).
    rewrite (expect_kv_sep_frame _ x _ _ Hs). cbn [bind].
    apply bind_ok in H as ([v ts2] & Hv & H).
    rewrite (IHv _ _ _ Hv). cbn [bind].
    destruct (mem k mp); [discriminate|]. now apply IHml.
Qed.

Lemma parse_block_frame (x : list token) (n : nat) :
  (forall ts b rest,
      parse_block_section n ts = Ok (b, rest) ->
      parse_block_section n (ts ++ x) = Ok (b, rest ++ x)%list)
  /\ (forall blk ts b rest,
         parse_block_loop n blk ts = Ok (b, rest) ->
         parse_block_loop n blk (ts ++ x) = Ok (b, rest ++ x)%list).
Proof.
  induction n as [|n (IHs & IHl)].
  { split; intros; discriminate. }
  split.
  - intros ts b rest H. rewrite parse_block_section_S in H |- *.
    apply bind_ok in H as ([t ts1] & He & H).
    rewrite (expect_operator_frame _ _ x _ _ He). cbn [bind].
    now apply IHl.
  - intros blk ts b rest H. rewrite parse_block_loop_S in H |- *.
    destruct ts as [|tok ts']; [discriminate|]. cbn [app].
    destruct (is_op tok "}"); [now injection H as <- <-|].
    destruct tok as [s|y|s|key]; try discriminate.
    destruct ts' as [|next_tok rest']; [discriminate|]. cbn [app].
    destruct (is_op next_tok "=").
    { apply bind_ok in H as ([v ts2] & Hv & H).
      rewrite (proj1 (parse_value_frame x n) _ _ _ Hv). cbn [bind].
      destruct (mem key blk); [discriminate|]. now apply IHl. }
    destruct (is_op next_tok "{"); [|discriminate].
    apply bind_ok in H as ([sub ts2] & Hs & H).
    apply IHs in Hs. cbn [app] in Hs. rewrite Hs. cbn [bind].
    destruct (mem key blk); [discriminate|]. now apply IHl.
Qed.

(* ----------------------------------------------------------------- *)
(** ** One program after another *)

Lemma parse_loop_not_fuel (n : nat) (table : symbol_table) (ts : list token)
      (result : symbol_table) :
  parse_loop n table ts = Ok result -> parse_loop n table ts <> OutOfFuel.
Proof. intros ->. discriminate. Qed.

(** The loop of [parse] on a program followed by more tokens: once through
    the program, it goes on with the table of the program. *)
Lemma parse_loop_app (ts2 : list token) (m : nat) (n : nat) :
  forall table ts1 t1,
    parse_loop n table ts1 = Ok t1 ->
    parse_loop m t1 ts2 <> OutOfFuel ->
    parse_loop (n + m) table (ts1 ++ ts2) = parse_loop m t1 ts2.
Proof.
  induction n as [|n IH]; intros table ts1 t1 H Hm; [discriminate|].
  rewrite parse_loop_S in H.
  destruct ts1 as [|t ts1].
  { injection H as <-. cbn [app]. apply parse_loop_le; [lia|exact Hm]. }
  cbn [app plus]. rewrite parse_loop_S.
  destruct t as [s|y|s|word]; try discriminate.
  destruct (String.eqb word "juego"); [|discriminate].
  destruct ts1 as [|t2 ts2']; [discriminate|]. cbn [app].
  destruct t2 as [game_name|y|s|s]; try discriminate.
  apply bind_ok in H as ([root ts3] & Hb & H).
  assert (E : parse_block_section (n + m) (ts2' ++ ts2)
              = Ok (root, ts3 ++ ts2)%list).
  { rewrite <- (proj1 (parse_block_frame ts2 n) _ _ _ Hb).
    apply parse_block_section_le; [lia|].
    rewrite (proj1 (parse_block_frame ts2 n) _ _ _ Hb). discriminate. }
  rewrite E. cbn [bind].
  destruct (mem game_name table); [discriminate|].
  now apply IH.
Qed.

Lemma parse_app_loop (ts1 ts2 : list token) (t1 : symbol_table) :
  parse ts1 = Ok t1 ->
  parse (ts1 ++ ts2) = parse_loop (parse_fuel ts2) t1 ts2.
Proof.
  intros H. unfold parse in *.
  assert (Hm : parse_loop (parse_fuel ts2) t1 ts2 <> OutOfFuel).
  { apply parse_loop_fuel. unfold parse_fuel. lia. }
  rewrite <- (parse_loop_app ts2 _ _ _ _ _ H Hm).
  symmetry. apply parse_loop_enough.
  unfold parse_fuel. rewrite length_app. lia.
Qed.

Lemma mem_app {A : Type} (k : string) (d1 d2 : list (string * A)) :
  mem k (d1 ++ d2)%list = mem k d1 || mem k d2.
Proof. unfold mem. apply existsb_app. Qed.

(** The loop of [parse] started on a table with more entities in front:
    it stops at the first name it finds declared there, and otherwise
    returns the same with these entities in front. *)
Lemma parse_loop_shift (pre : symbol_table) (n : nat) :
  forall acc ts result,
    parse_loop n acc ts = Ok result ->
    exists new,
      result = (acc ++ new)%list
      /\ parse_loop n (pre ++ acc)%list ts
         = match first_declared pre (keys new) with
           | Some g => Raise (SyntaxError (GameRedeclared g))
           | None => Ok (pre ++ result)%list
           end.
Proof.
  induction n as [|n IH]; intros acc ts result H; [discriminate|].
  rewrite parse_loop_S in H. rewrite parse_loop_S.
  destruct ts as [|t ts1].
  { injection H as <-. exists []. now rewrite app_nil_r. }
  destruct t as [s|y|s|word]; try discriminate.
  destruct (String.eqb word "juego"); [|discriminate].
  destruct ts1 as [|t2 ts2]; [discriminate|].
  destruct t2 as [game_name|y|s|s]; try discriminate.
  apply bind_ok in H as ([root ts3] & Hb & H). rewrite Hb. cbn [bind].
  destruct (mem game_name acc) eqn:Ek; [discriminate|].
  rewrite (set_absent _ _ root Ek) in H.
  destruct (IH _ _ _ H) as (new & -> & E).
  exists ((game_name, root) :: new). split; [now rewrite <- app_assoc|].
  cbn [keys map fst first_declared find].
  rewrite mem_app, Ek, orb_false_r.
  destruct (mem game_name pre) eqn:Ep; [reflexivity|].
  rewrite set_absent by (now rewrite mem_app, Ep, Ek).
  rewrite <- app_assoc. exact E.
Qed.

(** Two programs one after the other: the entities of both, in order,
    unless the second declares a name of the first. *)
Lemma parse_app (ts1 ts2 : list token) (t1 t2 : symbol_table) :
  parse ts1 = Ok t1 -> parse ts2 = Ok t2 ->
  parse (ts1 ++ ts2)
  = match first_declared t1 (keys t2) with
    | Some g => Raise (SyntaxError (GameRedeclared g))
    | None => Ok (t1 ++ t2)%list
    end.
Proof.
  intros H1 H2. rewrite (parse_app_loop ts1 ts2 t1 H1).
  destruct (parse_loop_shift t1 _ _ _ _ H2) as (new & E & H).
  cbn [app] in E. subst new. rewrite app_nil_r in H. exact H.
Qed.

(** Where the loop of [parse] raises, it raises as well on a table with
    more entities in front: the same exception, or earlier, at a name
    declared there. *)
Lemma parse_loop_shift_raise (pre : symbol_table) (n : nat) :
  forall acc ts e,
    parse_loop n acc ts = Raise e ->
    parse_loop n (pre ++ acc)%list ts = Raise e
    \/ exists g, mem g pre = true
                 /\ parse_loop n (pre ++ acc)%list ts
                    = Raise (SyntaxError (GameRedeclared g)).
Proof.
  induction n as [|n IH]; intros acc ts e H; [discriminate|].
  rewrite parse_loop_S in H. rewrite parse_loop_S.
  destruct ts as [|t ts1]; [discriminate|].
  destruct t as [s|y|s|word]; try (now left).
  destruct (String.eqb word "juego"); [|now left].
  destruct ts1 as [|t2 ts2]; [now left|].
  destruct t2 as [game_name|y|s|s]; try (now left).
  destruct (parse_block_section n ts2) as [[root ts3]| e' |];
    cbn [bind] in *; [|now left|discriminate].
  rewrite mem_app.
  destruct (mem game_name pre) eqn:Ep; cbn [orb].
  { destruct (mem game_name acc); [now left|]. right. eauto. }
  destruct (mem game_name acc) eqn:Ek; [now left|].
  rewrite set_absent by (now rewrite mem_app, Ep, Ek).
  rewrite (set_absent _ _ root Ek) in H. rewrite <- app_assoc.
  now apply IH.
Qed.

Lemma parse_app_raise (ts1 ts2 : list token) (t1 : symbol_table)
      (e : exception) :
  parse ts1 = Ok t1 -> parse ts2 = Raise e ->
  parse (ts1 ++ ts2) = Raise e
  \/ exists g, mem g t1 = true
               /\ parse (ts1 ++ ts2) = Raise (SyntaxError (GameRedeclared g)).
Proof.
  intros H1 H2. rewrite (parse_app_loop ts1 ts2 t1 H1).
  pose proof (parse_loop_shift_raise t1 _ _ _ _ H2) as H.
  now rewrite app_nil_r in H.
Qed.


(* ================================================================= *)
(** * What the parser expects after a prefix *)

Section Position.
Variable E : syntax_error.
Variable x : list token.
Variable R : exception.
Hypothesis E_position : E = ExpectedValue \/ E = MissingCloseList.
Hypothesis x_no_comma : skip_comma x = x.
Hypothesis at_value :
  E = ExpectedValue ->
  forall n, parse_value n x = Raise R \/ parse_value n x = OutOfFuel.
Hypothesis at_element :
  E = MissingCloseList ->
  forall n lst,
    parse_list_loop n lst x = Raise R \/ parse_list_loop n lst x = OutOfFuel.








End Position.



(** After a program that parses, a token other than the identifier
    [juego] is refused. *)
Lemma parse_expects_juego (ts1 : list token) (table : symbol_table)
      (t : token) (rest : list token) :
  parse ts1 = Ok table -> t <> IDENTIFIER "juego" ->
  parse (ts1 ++ t :: rest) = Raise (SyntaxError (ExpectedJuego t)).
Proof.
  intros H Ht. rewrite (parse_app_loop _ _ _ H).
  unfold parse_fuel. rewrite Nat.add_comm. cbn [Nat.add].
  rewrite parse_loop_S.
  destruct t as [s|y|s|word]; try reflexivity.
  destruct (String.eqb word "juego") eqn:Ew; [|reflexivity].
  apply String.eqb_eq in Ew. now subst word.
Qed.

(* ----------------------------------------------------------------- *)
(** ** How the positions arise *)






(* ================================================================= *)
(** * The parser in a bounded stack *)

(* ----------------------------------------------------------------- *)
(** ** One call of each method *)

Lemma Parser_parse_value_S (n frames : nat) (ts : list token) :
  Parser_parse_value (S n) frames ts =
  match frames with
  | O => Raise RecursionError
  | S below =>
      match ts with
      | [] => Raise (SyntaxError ExpectedValue)
      | STRING tval :: rest => Ok (VStr tval, rest)
      | NUMBER (NInt z) :: rest => Ok (VInt z, rest)
      | NUMBER (NFloat x) :: rest => Ok (VFloat x, rest)
      | IDENTIFIER tval :: rest =>
          if is_bool_word tval
          then Ok (VBool (String.eqb tval "verdadero"), rest)
          else Raise (SyntaxError (UnexpectedValue (IDENTIFIER tval)))
      | OPERATOR tval :: _ =>
          if String.eqb tval "[" then
            '(lst, rest) <- Parser_parse_list n below ts ;;
            Ok (VList lst, rest)
          else if String.eqb tval "{" then
            '(mp, rest) <- Parser_parse_map n below ts ;;
            Ok (VDict mp, rest)
          else Raise (SyntaxError (UnexpectedValue (OPERATOR tval)))
      end
  end.
Proof. reflexivity. Qed.

Lemma Parser_parse_list_S (n frames : nat) (ts : list token) :
  Parser_parse_list (S n) frames ts =
  ('(_, ts1) <- Parser_expect_operator frames "[" ts ;;
   Parser_parse_list_loop n frames [] ts1).
Proof. reflexivity. Qed.

Lemma Parser_parse_list_loop_S (n frames : nat) (lst : list value)
      (ts : list token) :
  Parser_parse_list_loop (S n) frames lst ts =
  match frames with
  | O => Raise RecursionError
  | S below =>
      match ts with
      | [] => Raise (SyntaxError MissingCloseList)
      | tok :: rest =>
          if is_op tok "]" then Ok (lst, rest)
          else
            match bare_identifier tok with
            | Some ref => Raise (NameError ref)
            | None =>
                '(v, ts1) <- Parser_parse_value n below ts ;;
                Parser_parse_list_loop n frames (lst ++ [v]) (skip_comma ts1)
            end
      end
  end.
Proof. reflexivity. Qed.

Lemma Parser_parse_map_S (n frames : nat) (ts : list token) :
  Parser_parse_map (S n) frames ts =
  ('(_, ts1) <- Parser_expect_operator frames "{" ts ;;
   Parser_parse_map_loop n frames [] ts1).
Proof. reflexivity. Qed.

Lemma Parser_parse_map_loop_S (n frames : nat) (mp : dict) (ts : list token) :
  Parser_parse_map_loop (S n) frames mp ts =
  match frames with
  | O => Raise RecursionError
  | S below =>
      match ts with
      | [] => Raise (SyntaxError MissingCloseMap)
      | t :: rest =>
          if is_op t "}" then Ok (mp, rest)
          else if is_op t "," then Parser_parse_map_loop n frames mp rest
          else
            match map_key t with
            | None => Raise (SyntaxError (InvalidMapKey t))
            | Some k =>
                '(_, ts1) <- Parser_expect_kv_sep frames rest ;;
                '(v, ts2) <- Parser_parse_value n below ts1 ;;
                if mem k mp then Raise (SyntaxError (DuplicateMapKey k))
                else Parser_parse_map_loop n frames (set mp k v) ts2
            end
      end
  end.
Proof. reflexivity. Qed.

Lemma Parser_parse_block_section_S (n frames : nat) (ts : list token) :
  Parser_parse_block_section (S n) frames ts =
  ('(_, ts1) <- Parser_expect_operator frames "{" ts ;;
   Parser_parse_block_loop n frames [] ts1).
Proof. reflexivity. Qed.

Lemma Parser_parse_block_loop_S (n frames : nat) (block_content : dict)
      (ts : list token) :
  Parser_parse_block_loop (S n) frames block_content ts =
  match frames with
  | O => Raise RecursionError
  | S below =>
      match ts with
      | [] => Raise (SyntaxError MissingCloseBlock)
      | tok :: rest =>
          if is_op tok "}" then Ok (block_content, rest)
          else
            match tok with
            | IDENTIFIER key =>
                match rest with
                | next_tok :: rest' =>
                    if is_op next_tok "=" then
                      '(v, ts2) <- Parser_parse_value n below rest' ;;
                      if mem key block_content
                      then Raise (SyntaxError (RedefinedKey key))
                      else Parser_parse_block_loop n frames
                             (set block_content key v) ts2
                    else if is_op next_tok "{" then
                      '(sub_block, ts2) <-
                         Parser_parse_block_section n below rest ;;
                      if mem key block_content
                      then Raise (SyntaxError (RedefinedSection key))
                      else Parser_parse_block_loop n frames
                             (set block_content key (VDict sub_block)) ts2
                    else Raise (SyntaxError (ExpectedAssignOrSection key))
                | [] => Raise (SyntaxError (ExpectedAssignOrSection key))
                end
            | _ => Raise (SyntaxError (ExpectedIdentInBlock tok))
            end
      end
  end.
Proof. reflexivity. Qed.

Lemma Parser_parse_loop_S (n frames : nat) (table : symbol_table)
      (ts : list token) :
  Parser_parse_loop (S n) frames table ts =
  match frames with
  | O => Raise RecursionError
  | S below =>
      match ts with
      | [] => Ok table
      | IDENTIFIER word :: ts1 =>
          if String.eqb word "juego" then
            match ts1 with
            | STRING game_name :: ts2 =>
                '(root_block, ts3) <-
                   Parser_parse_block_section n below ts2 ;;
                if mem game_name table
                then Raise (SyntaxError (GameRedeclared game_name))
                else Parser_parse_loop n frames
                       (set table game_name root_block) ts3
            | _ => Raise (SyntaxError ExpectedGameName)
            end
          else Raise (SyntaxError (ExpectedJuego (IDENTIFIER word)))
      | ident :: _ => Raise (SyntaxError (ExpectedJuego ident))
      end
  end.
Proof. reflexivity. Qed.

(* ----------------------------------------------------------------- *)
(** ** The two parsers agree, short of the limit *)

Lemma bind_sim {A B : Type} (m m' : outcome A) (f f' : A -> outcome B) :
  m = Raise RecursionError \/ m = m' ->
  (forall a, f a = Raise RecursionError \/ f a = f' a) ->
  bind m f = Raise RecursionError \/ bind m f = bind m' f'.
Proof.
  intros [->| ->] Hf; [now left|].
  destruct m' as [a| e |]; cbn [bind]; [apply Hf|now right|now right].
Qed.

Lemma Parser_expect_operator_sim (frames : nat) (op : string)
      (ts : list token) :
  Parser_expect_operator frames op ts = Raise RecursionError
  \/ Parser_expect_operator frames op ts = expect_operator op ts.
Proof. destruct frames as [|[|f]]; cbn; auto. Qed.

Lemma Parser_expect_kv_sep_sim (frames : nat) (ts : list token) :
  Parser_expect_kv_sep frames ts = Raise RecursionError
  \/ Parser_expect_kv_sep frames ts = expect_kv_sep ts.
Proof. destruct frames as [|[|f]]; cbn; auto. Qed.

(** In a bounded stack a call gives what it gives in an unbounded one, or
    raises [RecursionError]. *)
Lemma Parser_parse_value_sim (n : nat) :
  (forall frames ts,
      Parser_parse_value n frames ts = Raise RecursionError
      \/ Parser_parse_value n frames ts = parse_value n ts)
  /\ (forall frames ts,
         Parser_parse_list n frames ts = Raise RecursionError
         \/ Parser_parse_list n frames ts = parse_list n ts)
  /\ (forall frames lst ts,
         Parser_parse_list_loop n frames lst ts = Raise RecursionError
         \/ Parser_parse_list_loop n frames lst ts = parse_list_loop n lst ts)
  /\ (forall frames ts,
         Parser_parse_map n frames ts = Raise RecursionError
         \/ Parser_parse_map n frames ts = parse_map n ts)
  /\ (forall frames mp ts,
         Parser_parse_map_loop n frames mp ts = Raise RecursionError
         \/ Parser_parse_map_loop n frames mp ts = parse_map_loop n mp ts).
Proof.
  induction n as [|n (IHv & IHl & IHll & IHm & IHml)].
  { repeat split; intros; now right. }
  split; [|split; [|split; [|split]]].
  - intros frames ts. rewrite Parser_parse_value_S, parse_value_S.
    destruct frames as [|below]; [now left|].
    destruct ts as [|t ts']; [now right|].
    destruct t as [s|[z|y]|s|s]; try (now right).
    destruct (String.eqb s "[").
    { apply bind_sim; [apply IHl|]. intros [l r]. now right. }
    destruct (String.eqb s "{"); [|now right].
    apply bind_sim; [apply IHm|]. intros [m r]. now right.
  - intros frames ts. rewrite Parser_parse_list_S, parse_list_S.
    apply bind_sim; [apply Parser_expect_operator_sim|].
    intros [t ts1]. apply IHll.
  - intros frames lst ts.
    rewrite Parser_parse_list_loop_S, parse_list_loop_S.
    destruct frames as [|below]; [now left|].
    destruct ts as [|tok rest]; [now right|].
    destruct (is_op tok "]"); [now right|].
    destruct (bare_identifier tok); [now right|].
    apply bind_sim; [apply IHv|]. intros [v ts1]. apply IHll.
  - intros frames ts. rewrite Parser_parse_map_S, parse_map_S.
    apply bind_sim; [apply Parser_expect_operator_sim|].
    intros [t ts1]. apply IHml.
  - intros frames mp ts.
    rewrite Parser_parse_map_loop_S, parse_map_loop_S.
    destruct frames as [|below]; [now left|].
    destruct ts as [|t rest]; [now right|].
    destruct (is_op t "}"); [now right|].
    destruct (is_op t ","); [apply IHml|].
    destruct (map_key t) as [k|]; [|now right].
    apply bind_sim; [apply Parser_expect_kv_sep_sim|]. intros [sep ts1].
    apply bind_sim; [apply IHv|]. intros [v ts2].
    destruct (mem k mp); [now right|apply IHml].
Qed.

Lemma Parser_parse_block_sim (n : nat) :
  (forall frames ts,
      Parser_parse_block_section n frames ts = Raise RecursionError
      \/ Parser_parse_block_section n frames ts = parse_block_section n ts)
  /\ (forall frames blk ts,
         Parser_parse_block_loop n frames blk ts = Raise RecursionError
         \/ Parser_parse_block_loop n frames blk ts
            = parse_block_loop n blk ts).
Proof.
  induction n as [|n (IHs & IHl)].
  { split; intros; now right. }
  split.
  - intros frames ts.
    rewrite Parser_parse_block_section_S, parse_block_section_S.
    apply bind_sim; [apply Parser_expect_operator_sim|].
    intros [t ts1]. apply IHl.
  - intros frames blk ts.
    rewrite Parser_parse_block_loop_S, parse_block_loop_S.
    destruct frames as [|below]; [now left|].
    destruct ts as [|tok rest]; [now right|].
    destruct (is_op tok "}"); [now right|].
    destruct tok as [s|y|s|key]; try (now right).
    destruct rest as [|next_tok rest']; [now right|].
    destruct (is_op next_tok "=").
    { apply bind_sim; [apply (proj1 (Parser_parse_value_sim n))|].
      intros [v ts2]. destruct (mem key blk); [now right|apply IHl]. }
    destruct (is_op next_tok "{"); [|now right].
    apply bind_sim; [apply IHs|].
    intros [sub ts2]. destruct (mem key blk); [now right|apply IHl].
Qed.

Lemma Parser_parse_loop_sim (n frames : nat) (table : symbol_table)
      (ts : list token) :
  Parser_parse_loop n frames table ts = Raise RecursionError
  \/ Parser_parse_loop n frames table ts = parse_loop n table ts.
Proof.
  revert table ts. induction n as [|n IH]; intros table ts; [now right|].
  rewrite Parser_parse_loop_S, parse_loop_S.
  destruct frames as [|below]; [now left|].
  destruct ts as [|t ts1]; [now right|].
  destruct t as [s|y|s|word]; try (now right).
  destruct (String.eqb word "juego"); [|now right].
  destruct ts1 as [|t2 ts2]; [now right|].
  destruct t2 as [game_name|y|s|s]; try (now right).
  apply bind_sim; [apply (proj1 (Parser_parse_block_sim n))|].
  intros [root ts3]. destruct (mem game_name table); [now right|apply IH].
Qed.

Lemma Parser_parse_sim (frames : nat) (ts : list token) :
  Parser_parse frames ts = Raise RecursionError
  \/ Parser_parse frames ts = parse ts.
Proof. apply Parser_parse_loop_sim. Qed.

(* ----------------------------------------------------------------- *)
(** ** Frames that suffice for the tokens *)

Lemma bind_eq {A B : Type} (m : outcome A) (f f' : A -> outcome B) :
  (forall a, m = Ok a -> f a = f' a) -> bind m f = bind m f'.
Proof. destruct m as [a| e |]; cbn [bind]; auto. Qed.

Lemma Parser_expect_operator_enough (frames : nat) (op : string)
      (ts : list token) :
  2 <= frames -> Parser_expect_operator frames op ts = expect_operator op ts.
Proof. destruct frames as [|[|f]]; [lia|lia|reflexivity]. Qed.

Lemma Parser_expect_kv_sep_enough (frames : nat) (ts : list token) :
  2 <= frames -> Parser_expect_kv_sep frames ts = expect_kv_sep ts.
Proof. destruct frames as [|[|f]]; [lia|lia|reflexivity]. Qed.

Lemma skip_comma_length (ts : list token) :
  List.length (skip_comma ts) <= List.length ts.
Proof.
  destruct ts as [|t ts]; [apply Nat.le_refl|]. cbn [skip_comma].
  destruct (is_op t ","); cbn [List.length]; lia.
Qed.

Lemma expect_operator_length (op : string) (ts : list token) t rest :
  expect_operator op ts = Ok (t, rest) ->
  List.length ts = S (List.length rest).
Proof.
  destruct ts as [|t0 ts]; cbn [expect_operator]; [discriminate|].
  destruct (is_op t0 op); [|discriminate].
  intros H; now injection H as <- <-.
Qed.

Lemma expect_kv_sep_length (ts : list token) t rest :
  expect_kv_sep ts = Ok (t, rest) ->
  List.length ts = S (List.length rest).
Proof.
  destruct ts as [|t0 ts]; cbn [expect_kv_sep]; [discriminate|].
  destruct (is_op t0 ":" || is_op t0 "="); [|discriminate].
  intros H; now injection H as <- <-.
Qed.

(** Two frames for each token, and a few more, are enough: no call is
    nested deeper than the tokens it has read allow. *)
Lemma Parser_parse_value_enough (n : nat) :
  (forall frames ts,
      2 * List.length ts + 3 <= frames ->
      Parser_parse_value n frames ts = parse_value n ts)
  /\ (forall frames ts,
         2 * List.length ts + 2 <= frames ->
         Parser_parse_list n frames ts = parse_list n ts)
  /\ (forall frames lst ts,
         2 * List.length ts + 4 <= frames ->
         Parser_parse_list_loop n frames lst ts = parse_list_loop n lst ts)
  /\ (forall frames ts,
         2 * List.length ts + 2 <= frames ->
         Parser_parse_map n frames ts = parse_map n ts)
  /\ (forall frames mp ts,
         2 * List.length ts + 4 <= frames ->
         Parser_parse_map_loop n frames mp ts = parse_map_loop n mp ts).
Proof.
  induction n as [|n (IHv & IHl & IHll & IHm & IHml)].
  { repeat split; intros; reflexivity. }
  split; [|split; [|split; [|split]]].
  - intros frames ts Hf. rewrite Parser_parse_value_S, parse_value_S.
    destruct frames as [|below]; [lia|].
    destruct ts as [|t ts']; [reflexivity|].
    destruct t as [s|[z|y]|s|s]; try reflexivity.
    destruct (String.eqb s "[").
    { rewrite IHl by (cbn [List.length] in *; lia). reflexivity. }
    destruct (String.eqb s "{"); [|reflexivity].
    rewrite IHm by (cbn [List.length] in *; lia). reflexivity.
  - intros frames ts Hf. rewrite Parser_parse_list_S, parse_list_S.
    rewrite Parser_expect_operator_enough by lia.
    apply bind_eq. intros [t ts1] He.
    apply expect_operator_length in He. apply IHll. lia.
  - intros frames lst ts Hf.
    rewrite Parser_parse_list_loop_S, parse_list_loop_S.
    destruct frames as [|below]; [lia|].
    destruct ts as [|tok rest]; [reflexivity|].
    destruct (is_op tok "]"); [reflexivity|].
    destruct (bare_identifier tok); [reflexivity|].
    rewrite IHv by lia.
    apply bind_eq. intros [v ts1] Hv.
    apply (proj1 (parse_value_consumes n)) in Hv.
    apply consumes_value_consumes, consumes_length in Hv.
    apply IHll. pose proof (skip_comma_length ts1). lia.
  - intros frames ts Hf. rewrite Parser_parse_map_S, parse_map_S.
    rewrite Parser_expect_operator_enough by lia.
    apply bind_eq. intros [t ts1] He.
    apply expect_operator_length in He. apply IHml. lia.
  - intros frames mp ts Hf.
    rewrite Parser_parse_map_loop_S, parse_map_loop_S.
    destruct frames as [|below]; [lia|].
    destruct ts as [|t rest]; [reflexivity|].
    destruct (is_op t "}"); [reflexivity|].
    destruct (is_op t ","); [apply IHml; cbn [List.length] in *; lia|].
    destruct (map_key t) as [k|]; [|reflexivity].
    rewrite Parser_expect_kv_sep_enough by lia.
    apply bind_eq. intros [sep ts1] Hs.
    apply expect_kv_sep_length in Hs.
    rewrite IHv by (cbn [List.length] in *; lia).
    apply bind_eq. intros [v ts2] Hv.
    apply (proj1 (parse_value_consumes n)) in Hv.
    apply consumes_value_consumes, consumes_length in Hv.
    destruct (mem k mp); [reflexivity|].
    apply IHml. cbn [List.length] in *. lia.
Qed.

Lemma Parser_parse_block_enough (n : nat) :
  (forall frames ts,
      2 * List.length ts + 2 <= frames ->
      Parser_parse_block_section n frames ts = parse_block_section n ts)
  /\ (forall frames blk ts,
         2 * List.length ts + 4 <= frames ->
         Parser_parse_block_loop n frames blk ts = parse_block_loop n blk ts).
Proof.
  induction n as [|n (IHs & IHl)].
  { split; intros; reflexivity. }
  split.
  - intros frames ts Hf.
    rewrite Parser_parse_block_section_S, parse_block_section_S.
    rewrite Parser_expect_operator_enough by lia.
    apply bind_eq. intros [t ts1] He.
    apply expect_operator_length in He. apply IHl. lia.
  - intros frames blk ts Hf.
    rewrite Parser_parse_block_loop_S, parse_block_loop_S.
    destruct frames as [|below]; [lia|].
    destruct ts as [|tok rest]; [reflexivity|].
    destruct (is_op tok "}"); [reflexivity|].
    destruct tok as [s|y|s|key]; try reflexivity.
    destruct rest as [|next_tok rest']; [reflexivity|].
    destruct (is_op next_tok "=").
    { rewrite (proj1 (Parser_parse_value_enough n))
        by (cbn [List.length] in *; lia).
      apply bind_eq. intros [v ts2] Hv.
      apply (proj1 (parse_value_consumes n)) in Hv.
      apply consumes_value_consumes, consumes_length in Hv.
      destruct (mem key blk); [reflexivity|].
      apply IHl. cbn [List.length] in *. lia. }
    destruct (is_op next_tok "{"); [|reflexivity].
    rewrite IHs by (cbn [List.length] in *; lia).
    apply bind_eq. intros [sub ts2] Hb.
    apply (proj1 (parse_block_consumes n)) in Hb as [Hb _].
    apply consumes_length in Hb.
    destruct (mem key blk); [reflexivity|].
    apply IHl. cbn [List.length] in *. lia.
Qed.

Lemma Parser_parse_loop_enough (n frames : nat) (table : symbol_table)
      (ts : list token) :
  2 * List.length ts + 2 <= frames ->
  Parser_parse_loop n frames table ts = parse_loop n table ts.
Proof.
  revert table ts. induction n as [|n IH]; intros table ts Hf; [reflexivity|].
  rewrite Parser_parse_loop_S, parse_loop_S.
  destruct frames as [|below]; [lia|].
  destruct ts as [|t ts1]; [reflexivity|].
  destruct t as [s|y|s|word]; try reflexivity.
  destruct (String.eqb word "juego"); [|reflexivity].
  destruct ts1 as [|t2 ts2]; [reflexivity|].
  destruct t2 as [game_name|y|s|s]; try reflexivity.
  rewrite (proj1 (Parser_parse_block_enough n))
    by (cbn [List.length] in *; lia).
  apply bind_eq. intros [root ts3] Hb.
  apply (proj1 (parse_block_consumes n)) in Hb as [Hb _].
  apply consumes_length in Hb.
  destruct (mem game_name table); [reflexivity|].
  apply IH. cbn [List.length] in *. lia.
Qed.

Lemma Parser_parse_enough (frames : nat) (ts : list token) :
  2 * List.length ts + 2 <= frames -> Parser_parse frames ts = parse ts.
Proof. apply Parser_parse_loop_enough. Qed.

(* ----------------------------------------------------------------- *)
(** ** Frames that suffice for the result *)

Lemma frames_of_In (l : list value) (x : value) :
  In x l ->
  frames_of x <= fold_right (fun x m => Nat.max (frames_of x) m) 1 l.
Proof.
  induction l as [|y l IH]; [intros []|].
  cbn [In fold_right]. intros [->|H]; [lia|]. apply IH in H. lia.
Qed.

Lemma frames_of_In_dict (d : dict) (k : string) (x : value) :
  In (k, x) d ->
  frames_of x
  <= fold_right (fun kv m => let '(_, x) := kv in Nat.max (frames_of x) m) 1 d.
Proof.
  induction d as [|[k' y] d IH]; [intros []|].
  cbn [In fold_right]. intros [H|H]; [injection H as _ ->; lia|].
  apply IH in H. lia.
Qed.

Lemma frames_of_list_ge (l : list value) : 3 <= frames_of (VList l).
Proof.
  cbn [frames_of]. induction l as [|y l IH]; cbn [fold_right] in *; lia.
Qed.

Lemma frames_of_dict_ge (d : dict) : 3 <= frames_of (VDict d).
Proof.
  cbn [frames_of]. induction d as [|[k x] d IH]; cbn [fold_right] in *; lia.
Qed.

Lemma frames_of_list_In (l : list value) (x : value) :
  In x l -> frames_of x + 2 <= frames_of (VList l).
Proof. intros H. apply frames_of_In in H. cbn [frames_of]. lia. Qed.

Lemma frames_of_dict_In (d : dict) (k : string) (x : value) :
  In (k, x) d -> frames_of x + 2 <= frames_of (VDict d).
Proof. intros H. apply frames_of_In_dict in H. cbn [frames_of]. lia. Qed.

Lemma table_frames_In (table : symbol_table) (g : string) (root : dict) :
  In (g, root) table -> frames_of (VDict root) <= table_frames table.
Proof.
  unfold table_frames.
  induction table as [|[g' r] table IH]; [intros []|].
  cbn [In fold_right snd]. intros [H|H]; [injection H as _ ->; lia|].
  apply IH in H. lia.
Qed.

(** What a loop returns is what it was given, with more at the end. *)
Lemma parse_loops_extend (n : nat) :
  (forall lst ts l rest,
      parse_list_loop n lst ts = Ok (l, rest) ->
      exists ext, l = (lst ++ ext)%list)
  /\ (forall mp ts m rest,
         parse_map_loop n mp ts = Ok (m, rest) ->
         exists ext, m = (mp ++ ext)%list)
  /\ (forall blk ts b rest,
         parse_block_loop n blk ts = Ok (b, rest) ->
         exists ext, b = (blk ++ ext)%list)
  /\ (forall table ts result,
         parse_loop n table ts = Ok result ->
         exists ext, result = (table ++ ext)%list).
Proof.
  induction n as [|n (IHl & IHm & IHb & IHt)].
  { repeat split; intros; discriminate. }
  split; [|split; [|split]].
  - intros lst ts l rest H. rewrite parse_list_loop_S in H.
    destruct ts as [|tok ts']; [discriminate|].
    destruct (is_op tok "]").
    { injection H as <- _. exists []. now rewrite app_nil_r. }
    destruct (bare_identifier tok); [discriminate|].
    apply bind_ok in H as ([v ts1] & _ & H).
    apply IHl in H as [ext ->]. exists (v :: ext).
    now rewrite <- app_assoc.
  - intros mp ts m rest H. rewrite parse_map_loop_S in H.
    destruct ts as [|t ts']; [discriminate|].
    destruct (is_op t "}").
    { injection H as <- _. exists []. now rewrite app_nil_r. }
    destruct (is_op t ","); [now apply IHm in H|].
    destruct (map_key t) as [k|]; [|discriminate].
    apply bind_ok in H as ([sep ts1] & _ & H).
    apply bind_ok in H as ([v ts2] & _ & H).
    destruct (mem k mp) eqn:Ek; [discriminate|].
    rewrite (set_absent _ _ v Ek) in H.
    apply IHm in H as [ext ->]. exists ((k, v) :: ext).
    now rewrite <- app_assoc.
  - intros blk ts b rest H. rewrite parse_block_loop_S in H.
    destruct ts as [|tok ts']; [discriminate|].
    destruct (is_op tok "}").
    { injection H as <- _. exists []. now rewrite app_nil_r. }
    destruct tok as [s|y|s|key]; try discriminate.
    destruct ts' as [|next_tok rest']; [discriminate|].
    destruct (is_op next_tok "=").
    { apply bind_ok in H as ([v ts2] & _ & H).
      destruct (mem key blk) eqn:Ek; [discriminate|].
      rewrite (set_absent _ _ v Ek) in H.
      apply IHb in H as [ext ->]. exists ((key, v) :: ext).
      now rewrite <- app_assoc. }
    destruct (is_op next_tok "{"); [|discriminate].
    apply bind_ok in H as ([sub ts2] & _ & H).
    destruct (mem key blk) eqn:Ek; [discriminate|].
    rewrite (set_absent _ _ (VDict sub) Ek) in H.
    apply IHb in H as [ext ->]. exists ((key, VDict sub) :: ext).
    now rewrite <- app_assoc.
  - intros table ts result H. rewrite parse_loop_S in H.
    destruct ts as [|t ts1].
    { injection H as <-. exists []. now rewrite app_nil_r. }
    destruct t as [s|y|s|word]; try discriminate.
    destruct (String.eqb word "juego"); [|discriminate].
    destruct ts1 as [|t2 ts2]; [discriminate|].
    destruct t2 as [game_name|y|s|s]; try discriminate.
    apply bind_ok in H as ([root ts3] & _ & H).
    destruct (mem game_name table) eqn:Ek; [discriminate|].
    rewrite (set_absent _ _ root Ek) in H.
    apply IHt in H as [ext ->]. exists ((game_name, root) :: ext).
    now rewrite <- app_assoc.
Qed.

(** A call that returns a value needs no more frames than the nesting of
    that value. *)
Lemma Parser_parse_value_frames (n : nat) :
  (forall frames ts v rest,
      parse_value n ts = Ok (v, rest) -> frames_of v <= frames ->
      Parser_parse_value n frames ts = Ok (v, rest))
  /\ (forall frames ts l rest,
         parse_list n ts = Ok (l, rest) -> frames_of (VList l) <= S frames ->
         Parser_parse_list n frames ts = Ok (l, rest))
  /\ (forall frames lst ts l rest,
         parse_list_loop n lst ts = Ok (l, rest) ->
         frames_of (VList l) <= S frames ->
         Parser_parse_list_loop n frames lst ts = Ok (l, rest))
  /\ (forall frames ts m rest,
         parse_map n ts = Ok (m, rest) -> frames_of (VDict m) <= S frames ->
         Parser_parse_map n frames ts = Ok (m, rest))
  /\ (forall frames mp ts m rest,
         parse_map_loop n mp ts = Ok (m, rest) ->
         frames_of (VDict m) <= S frames ->
         Parser_parse_map_loop n frames mp ts = Ok (m, rest)).
Proof.
  induction n as [|n (IHv & IHl & IHll & IHm & IHml)].
  { repeat split; intros; discriminate. }
  split; [|split; [|split; [|split]]].
  - intros frames ts v rest H Hf. rewrite parse_value_S in H.
    rewrite Parser_parse_value_S.
    destruct frames as [|below].
    { destruct v as [s|z|y|b|l|d]; cbn [frames_of] in Hf; lia. }
    destruct ts as [|t ts']; [discriminate|].
    destruct t as [s|[z|y]|s|s]; try exact H.
    destruct (String.eqb s "[").
    { apply bind_ok in H as ([l r] & Hl & H). injection H as <- <-.
      now rewrite (IHl below _ _ _ Hl Hf). }
    destruct (String.eqb s "{"); [|discriminate].
    apply bind_ok in H as ([m r] & Hm & H). injection H as <- <-.
    now rewrite (IHm below _ _ _ Hm Hf).
  - intros frames ts l rest H Hf. rewrite parse_list_S in H.
    rewrite Parser_parse_list_S.
    apply bind_ok in H as ([t ts1] & He & H).
    rewrite Parser_expect_operator_enough
      by (pose proof (frames_of_list_ge l); lia).
    rewrite He. cbn [bind]. now apply IHll.
  - intros frames lst ts l rest H Hf. rewrite parse_list_loop_S in H.
    rewrite Parser_parse_list_loop_S.
    destruct frames as [|below]; [pose proof (frames_of_list_ge l); lia|].
    destruct ts as [|tok ts']; [discriminate|].
    destruct (is_op tok "]"); [exact H|].
    destruct (bare_identifier tok); [discriminate|].
    apply bind_ok in H as ([v ts1] & Hv & H).
    assert (Hin : In v l).
    { destruct (proj1 (parse_loops_extend n) _ _ _ _ H) as [ext ->].
      apply in_or_app. left. apply in_or_app. right. now left. }
    apply frames_of_list_In in Hin.
    rewrite (IHv below _ _ _ Hv) by lia.
    cbn [bind]. now apply IHll.
  - intros frames ts m rest H Hf. rewrite parse_map_S in H.
    rewrite Parser_parse_map_S.
    apply bind_ok in H as ([t ts1] & He & H).
    rewrite Parser_expect_operator_enough
      by (pose proof (frames_of_dict_ge m); lia).
    rewrite He. cbn [bind]. now apply IHml.
  - intros frames mp ts m rest H Hf. rewrite parse_map_loop_S in H.
    rewrite Parser_parse_map_loop_S.
    destruct frames as [|below]; [pose proof (frames_of_dict_ge m); lia|].
    destruct ts as [|t ts']; [discriminate|].
    destruct (is_op t "}"); [exact H|].
    destruct (is_op t ","); [now apply IHml|].
    destruct (map_key t) as [k|]; [|discriminate].
    apply bind_ok in H as ([sep ts1] & Hs & H).
    rewrite Parser_expect_kv_sep_enough
      by (pose proof (frames_of_dict_ge m); lia).
    rewrite Hs. cbn [bind].
    apply bind_ok in H as ([v ts2] & Hv & H).
    destruct (mem k mp) eqn:Ek; [discriminate|].
    assert (Hin : In (k, v) m).
    { rewrite (set_absent _ _ v Ek) in H.
      destruct (proj1 (proj2 (parse_loops_extend n)) _ _ _ _ H) as [ext ->].
      apply in_or_app. left. apply in_or_app. right. now left. }
    apply frames_of_dict_In in Hin.
    rewrite (IHv below _ _ _ Hv) by lia.
    cbn [bind]. now apply IHml.
Qed.

Lemma Parser_parse_block_frames (n : nat) :
  (forall frames ts b rest,
      parse_block_section n ts = Ok (b, rest) ->
      frames_of (VDict b) <= S frames ->
      Parser_parse_block_section n frames ts = Ok (b, rest))
  /\ (forall frames blk ts b rest,
         parse_block_loop n blk ts = Ok (b, rest) ->
         frames_of (VDict b) <= S frames ->
         Parser_parse_block_loop n frames blk ts = Ok (b, rest)).
Proof.
  induction n as [|n (IHs & IHl)].
  { split; intros; discriminate. }
  split.
  - intros frames ts b rest H Hf. rewrite parse_block_section_S in H.
    rewrite Parser_parse_block_section_S.
    apply bind_ok in H as ([t ts1] & He & H).
    rewrite Parser_expect_operator_enough
      by (pose proof (frames_of_dict_ge b); lia).
    rewrite He. cbn [bind]. now apply IHl.
  - intros frames blk ts b rest H Hf. rewrite parse_block_loop_S in H.
    rewrite Parser_parse_block_loop_S.
    destruct frames as [|below]; [pose proof (frames_of_dict_ge b); lia|].
    destruct ts as [|tok ts']; [discriminate|].
    destruct (is_op tok "}"); [exact H|].
    destruct tok as [s|y|s|key]; try discriminate.
    destruct ts' as [|next_tok rest']; [discriminate|].
    destruct (is_op next_tok "=").
    { apply bind_ok in H as ([v ts2] & Hv & H).
      destruct (mem key blk) eqn:Ek; [discriminate|].
      assert (Hin : In (key, v) b).
      { rewrite (set_absent _ _ v Ek) in H.
        destruct (proj1 (proj2 (proj2 (parse_loops_extend n))) _ _ _ _ H)
          as [ext ->].
        apply in_or_app. left. apply in_or_app. right. now left. }
      apply frames_of_dict_In in Hin.
      rewrite (proj1 (Parser_parse_value_frames n) below _ _ _ Hv) by lia.
      cbn [bind]. now apply IHl. }
    destruct (is_op next_tok "{"); [|discriminate].
    apply bind_ok in H as ([sub ts2] & Hb & H).
    destruct (mem key blk) eqn:Ek; [discriminate|].
    assert (Hin : In (key, VDict sub) b).
    { rewrite (set_absent _ _ (VDict sub) Ek) in H.
      destruct (proj1 (proj2 (proj2 (parse_loops_extend n))) _ _ _ _ H)
        as [ext ->].
      apply in_or_app. left. apply in_or_app. right. now left. }
    apply frames_of_dict_In in Hin.
    rewrite (IHs below _ _ _ Hb) by lia.
    cbn [bind]. now apply IHl.
Qed.

Lemma table_frames_pos (table : symbol_table) : 1 <= table_frames table.
Proof.
  unfold table_frames.
  induction table as [|kv t IH]; cbn [fold_right] in *; lia.
Qed.

Lemma Parser_parse_loop_frames (n frames : nat) :
  forall table ts result,
    parse_loop n table ts = Ok result -> table_frames result <= frames ->
    Parser_parse_loop n frames table ts = Ok result.
Proof.
  induction n as [|n IH]; intros table ts result H Hf; [discriminate|].
  rewrite parse_loop_S in H. rewrite Parser_parse_loop_S.
  pose proof (table_frames_pos result) as Hpos.
  destruct frames as [|below]; [lia|].
  destruct ts as [|t ts1]; [exact H|].
  destruct t as [s|y|s|word]; try discriminate.
  destruct (String.eqb word "juego"); [|discriminate].
  destruct ts1 as [|t2 ts2]; [discriminate|].
  destruct t2 as [game_name|y|s|s]; try discriminate.
  apply bind_ok in H as ([root ts3] & Hb & H).
  destruct (mem game_name table) eqn:Ek; [discriminate|].
  assert (Hin : In (game_name, root) result).
  { rewrite (set_absent _ _ root Ek) in H.
    destruct (proj2 (proj2 (proj2 (parse_loops_extend n))) _ _ _ H)
      as [ext ->].
    apply in_or_app. left. apply in_or_app. right. now left. }
  apply table_frames_In in Hin.
  rewrite (proj1 (Parser_parse_block_frames n) below _ _ _ Hb) by lia.
  cbn [bind]. now apply IH.
Qed.

(** A program that parses needs no more frames than the nesting of its
    table. *)
Lemma Parser_parse_frames (frames : nat) (ts : list token)
      (table : symbol_table) :
  parse ts = Ok table -> table_frames table <= frames ->
  Parser_parse frames ts = Ok table.
Proof. apply Parser_parse_loop_frames. Qed.

(** In a bounded stack the parser raises nothing but what it raises in an
    unbounded one, and [RecursionError]. *)
Lemma Parser_parse_outcomes (frames : nat) (ts : list token) :
  (exists table, Parser_parse frames ts = Ok table /\ parse ts = Ok table)
  \/ (exists e, Parser_parse frames ts = Raise e /\ parse ts = Raise e)
  \/ Parser_parse frames ts = Raise RecursionError.
Proof.
  destruct (Parser_parse_sim frames ts) as [H|H]; [now right; right|].
  destruct (parse_returns ts) as [[table Ht]|[e He]].
  - left. exists table. now rewrite H.
  - right. left. exists e. now rewrite H.
Qed.


(* ================================================================= *)
(** * What the validators accept and when they raise *)

Lemma int_gt0_positive (d : dict) (k : string) :
  int_gt0 d k = Ok (positive_int d k).
Proof.
  unfold int_gt0, positive_int, getitem.
  destruct (get d k) as [[s|z|x|b|l|m]|]; reflexivity.
Qed.

Lemma first_not_str_none (con : dict) (ks : list string) :
  first_not_str con ks = None
  <-> forallb (fun k => is_str (get con k)) ks = true.
Proof.
  induction ks as [|k ks IH]; [split; reflexivity|].
  cbn [first_not_str forallb]. destruct (is_str (get con k)); cbn [negb andb].
  - exact IH.
  - split; discriminate.
Qed.

Lemma first_bad_score_none (pl : dict) (ks : list string) :
  first_bad_score pl ks = None <-> forallb (nonneg_int pl) ks = true.
Proof.
  induction ks as [|k ks IH]; [split; reflexivity|].
  cbn [first_bad_score forallb]. unfold nonneg_int at 1.
  destruct (get pl k) as [v|] eqn:E.
  - rewrite (get_Some_mem _ _ _ E).
    destruct v as [s|z|x|b|l|m]; cbn; try (split; discriminate).
    rewrite Z.leb_antisym. destruct (z <? 0)%Z; cbn.
    + split; discriminate.
    + exact IH.
  - destruct (mem k pl); cbn; split; discriminate.
Qed.

Lemma first_bad_opt_none (vel : dict) (opts : list string) :
  first_bad_opt vel opts = None <-> forallb (optional_int vel) opts = true.
Proof.
  induction opts as [|o opts IH]; [split; reflexivity|].
  cbn [first_bad_opt forallb]. unfold optional_int at 1.
  destruct (get vel o) as [v|] eqn:E.
  - rewrite (get_Some_mem _ _ _ E).
    destruct v as [s|z|x|b|l|m]; cbn; try (split; discriminate).
    exact IH.
  - destruct (mem o vel) eqn:Em.
    + apply mem_get in Em as [v Ev]. congruence.
    + cbn. exact IH.
Qed.

Lemma missing_get (a b c : string) (cfg : dict) :
  missing [a; b; c] cfg = []
  <-> (exists va vb vc,
          get cfg a = Some va /\ get cfg b = Some vb /\ get cfg c = Some vc).
Proof.
  split.
  - intros H. destruct (missing_cases a b c cfg) as [(x & l & E)|[_ E]];
      [congruence|exact E].
  - intros (va & vb & vc & Ha & Hb & Hc).
    apply missing_nil; eapply get_Some_mem; eassumption.
Qed.

(* ----------------------------------------------------------------- *)
(** ** The exceptions of the validators *)

Lemma validate_snake_raises (cfg : dict) (e : exception) :
  validate_snake cfg = Raise e -> scalar_section_error snake_sections cfg e.
Proof.
  destruct (missing_cases "rejilla" "velocidad" "controles" cfg)
    as [(x & l & Hm) | (_ & rej & vel & con & Hr & Hv & Hc)].
  { unfold validate_snake. rewrite Hm. discriminate. }
  rewrite (validate_snake_sections _ _ _ _ Hr Hv Hc).
  destruct rej as [s|z|x|b0|l|rd]; cbn [as_dict bind].
  1-5: intros H; injection H as <-; eexists "rejilla", _;
       (split; [cbn; tauto|]); (split; [exact Hr|split; reflexivity]).
  rewrite ?int_gt0_positive. cbn [bind].
  destruct (positive_int rd "ancho"); cbn [negb]; [|discriminate].
  cbn [bind].
  destruct (positive_int rd "alto"); cbn [negb]; [|discriminate].
  destruct vel as [s|z|x|b0|l|vd]; cbn [as_dict bind].
  1-5: intros H; injection H as <-; eexists "velocidad", _;
       (split; [cbn; tauto|]); (split; [exact Hv|split; reflexivity]).
  rewrite ?int_gt0_positive. cbn [bind].
  destruct (positive_int vd "tick_ms"); cbn [negb]; [|discriminate].
  destruct con as [s|z|x|b0|l|cd]; cbn [as_dict bind].
  1-5: intros H; injection H as <-; eexists "controles", _;
       (split; [cbn; tauto|]); (split; [exact Hc|split; reflexivity]).
  destruct (first_not_str cd _); discriminate.
Qed.

Lemma validate_tetris_raises (cfg : dict) (e : exception) :
  validate_tetris cfg = Raise e -> scalar_section_error tetris_sections cfg e.
Proof.
  destruct (missing_cases "rejilla" "velocidad" "puntuacion" cfg)
    as [(x & l & Hm) | (_ & rej & vel & pun & Hr & Hv & Hp)].
  { unfold validate_tetris. rewrite Hm. discriminate. }
  rewrite (validate_tetris_sections _ _ _ _ Hr Hv Hp).
  destruct rej as [s|z|x|b0|l|rd]; cbn [as_dict bind].
  1-5: intros H; injection H as <-; eexists "rejilla", _;
       (split; [cbn; tauto|]); (split; [exact Hr|split; reflexivity]).
  rewrite ?int_gt0_positive. cbn [bind].
  destruct (positive_int rd "ancho"); cbn [negb]; [|discriminate].
  cbn [bind].
  destruct (positive_int rd "alto"); cbn [negb]; [|discriminate].
  destruct vel as [s|z|x|b0|l|vd]; cbn [as_dict bind].
  1-5: intros H; injection H as <-; eexists "velocidad", _;
       (split; [cbn; tauto|]); (split; [exact Hv|split; reflexivity]).
  rewrite ?int_gt0_positive. cbn [bind].
  destruct (positive_int vd "gravedad_ms"); cbn [negb]; [|discriminate].
  destruct pun as [s|z|x|b0|l|pd]; cbn [as_dict bind].
  1-5: intros H; injection H as <-; eexists "puntuacion", _;
       (split; [cbn; tauto|]); (split; [exact Hp|split; reflexivity]).
  destruct (get pd "por_linea") as [[s|z|x|b0|l|pl]|]; try discriminate.
  destruct (first_bad_score pl _); [discriminate|].
  destruct (first_bad_opt vd _); discriminate.
Qed.

Lemma bind_raise {A B : Type} (m : outcome A) (f : A -> outcome B)
      (e : exception) :
  bind m f = Raise e ->
  m = Raise e \/ exists a, m = Ok a /\ f a = Raise e.
Proof.
  destruct m as [a|e'|]; cbn [bind]; intros H.
  - right. exists a. now split.
  - injection H as ->. now left.
  - discriminate.
Qed.

Lemma validate_all_raises (table : symbol_table) (e : exception) :
  validate_all table = Raise e -> scalar_section_in table e.
Proof.
  induction table as [|[name cfg] table IH]; [discriminate|].
  cbn [validate_all]. intros H.
  apply bind_raise in H as [H|([ok msg] & _ & H)].
  - exists cfg. unfold validate_game in H.
    destruct (String.eqb name "snake") eqn:Es.
    { apply String.eqb_eq in Es. subst name. left.
      split; [now left|now apply validate_snake_raises]. }
    destruct (String.eqb name "tetris") eqn:Et; [|discriminate].
    apply String.eqb_eq in Et. subst name. right.
    split; [now left|now apply validate_tetris_raises].
  - apply bind_raise in H as [H|(rs & _ & H)]; [|discriminate].
    destruct (IH H) as [c [[Hin Hc]|[Hin Hc]]]; exists c;
      [left|right]; (split; [now right|exact Hc]).
Qed.


(* ================================================================= *)
(** * The brackets of a program *)

Lemma reads_trans (a b c : list token) : reads a b -> reads b c -> reads a c.
Proof. intros H1 H2 st. now rewrite H1. Qed.

Lemma reads_atom (t : token) (ts : list token) :
  bracket t = false -> reads (t :: ts) ts.
Proof.
  intros H st. destruct t as [s|x|s|s]; try reflexivity.
  cbn [bracket] in H. cbn [nesting].
  destruct (closer s); [discriminate|]. now rewrite H.
Qed.

Lemma reads_closes (cl : string) (a b c : list token) :
  reads a b -> closes cl b c -> closes cl a c.
Proof. intros H1 H2 st. now rewrite H1. Qed.

Lemma closes_open (op cl : string) (ts rest : list token) :
  closer op = Some cl -> closes cl ts rest -> reads (OPERATOR op :: ts) rest.
Proof. intros Ho H st. cbn [nesting]. rewrite Ho. apply H. Qed.

Lemma closes_here (cl : string) (rest : list token) :
  closer cl = None -> is_closer cl = true ->
  closes cl (OPERATOR cl :: rest) rest.
Proof.
  intros H1 H2 st. cbn [nesting]. now rewrite H1, H2, String.eqb_refl.
Qed.

Lemma reads_skip_comma (ts : list token) : reads ts (skip_comma ts).
Proof.
  destruct (skip_comma_cases ts) as [E|E].
  - rewrite E. intros st. reflexivity.
  - rewrite E at 1. now apply reads_atom.
Qed.

Lemma map_key_atom (t : token) (k : string) :
  map_key t = Some k -> bracket t = false.
Proof. destruct t; cbn; congruence. Qed.

(** A call that returns has read brackets that match. *)
Lemma parse_value_nesting (n : nat) :
  (forall ts v rest, parse_value n ts = Ok (v, rest) -> reads ts rest)
  /\ (forall ts l rest, parse_list n ts = Ok (l, rest) -> reads ts rest)
  /\ (forall lst ts l rest,
         parse_list_loop n lst ts = Ok (l, rest) -> closes "]" ts rest)
  /\ (forall ts m rest, parse_map n ts = Ok (m, rest) -> reads ts rest)
  /\ (forall mp ts m rest,
         parse_map_loop n mp ts = Ok (m, rest) -> closes "}" ts rest).
Proof.
  induction n as [|n (IHv & IHl & IHll & IHm & IHml)].
  { repeat split; intros; discriminate. }
  split; [|split; [|split; [|split]]].
  - intros ts v rest H. rewrite parse_value_S in H.
    destruct ts as [|t ts']; [discriminate|].
    destruct t as [s|[z|x]|s|s].
    + injection H as _ <-. now apply reads_atom.
    + injection H as _ <-. now apply reads_atom.
    + injection H as _ <-. now apply reads_atom.
    + destruct (String.eqb s "[").
      { apply bind_ok in H as ([l r] & Hl & H). injection H as _ <-.
        eapply IHl, Hl. }
      destruct (String.eqb s "{"); [|discriminate].
      apply bind_ok in H as ([m r] & Hm & H). injection H as _ <-.
      eapply IHm, Hm.
    + destruct (is_bool_word s); [|discriminate].
      injection H as _ <-. now apply reads_atom.
  - intros ts l rest H. rewrite parse_list_S in H.
    apply bind_ok in H as ([t ts1] & He & H).
    apply expect_operator_ok in He. subst ts.
    eapply closes_open; [reflexivity|]. eapply IHll, H.
  - intros lst ts l rest H. rewrite parse_list_loop_S in H.
    destruct ts as [|tok ts']; [discriminate|].
    destruct (is_op tok "]") eqn:Eb.
    { injection H as _ <-. apply is_op_eq in Eb. subst tok.
      now apply closes_here. }
    destruct (bare_identifier tok); [discriminate|].
    apply bind_ok in H as ([v ts1] & Hv & H).
    apply IHv in Hv. apply IHll in H.
    eapply reads_closes; [|exact H].
    eapply reads_trans; [exact Hv|apply reads_skip_comma].
  - intros ts m rest H. rewrite parse_map_S in H.
    apply bind_ok in H as ([t ts1] & He & H).
    apply expect_operator_ok in He. subst ts.
    eapply closes_open; [reflexivity|]. eapply IHml, H.
  - intros mp ts m rest H. rewrite parse_map_loop_S in H.
    destruct ts as [|t ts']; [discriminate|].
    destruct (is_op t "}") eqn:Eb.
    { injection H as _ <-. apply is_op_eq in Eb. subst t.
      now apply closes_here. }
    destruct (is_op t ",") eqn:Ec.
    { apply is_op_eq in Ec. subst t.
      eapply reads_closes; [now apply reads_atom|]. eapply IHml, H. }
    destruct (map_key t) as [k|] eqn:Ek; [|discriminate].
    apply bind_ok in H as ([sep ts1] & Hs & H).
    apply expect_kv_sep_ok in Hs as [-> Hsep].
    apply bind_ok in H as ([v ts2] & Hv & H).
    destruct (mem k mp); [discriminate|].
    apply IHv in Hv. apply IHml in H.
    eapply reads_closes; [|exact H].
    eapply reads_trans; [apply reads_atom, (map_key_atom _ _ Ek)|].
    eapply reads_trans; [|exact Hv].
    apply reads_atom. now destruct Hsep as [-> | ->].
Qed.

Lemma parse_block_nesting (n : nat) :
  (forall ts b rest,
      parse_block_section n ts = Ok (b, rest) -> reads ts rest)
  /\ (forall blk ts b rest,
         parse_block_loop n blk ts = Ok (b, rest) -> closes "}" ts rest).
Proof.
  induction n as [|n (IHs & IHl)].
  { split; intros; discriminate. }
  split.
  - intros ts b rest H. rewrite parse_block_section_S in H.
    apply bind_ok in H as ([t ts1] & He & H).
    apply expect_operator_ok in He. subst ts.
    eapply closes_open; [reflexivity|]. eapply IHl, H.
  - intros blk ts b rest H. rewrite parse_block_loop_S in H.
    destruct ts as [|tok ts']; [discriminate|].
    destruct (is_op tok "}") eqn:Eb.
    { injection H as _ <-. apply is_op_eq in Eb. subst tok.
      now apply closes_here. }
    destruct tok as [s|x|s|key]; try discriminate.
    destruct ts' as [|next_tok rest']; [discriminate|].
    eapply reads_closes; [now apply reads_atom|].
    destruct (is_op next_tok "=") eqn:Ee.
    { apply is_op_eq in Ee. subst next_tok.
      apply bind_ok in H as ([v ts2] & Hv & H).
      destruct (mem key blk); [discriminate|].
      apply (proj1 (parse_value_nesting n)) in Hv. apply IHl in H.
      eapply reads_closes; [|exact H].
      eapply reads_trans; [|exact Hv]. now apply reads_atom. }
    destruct (is_op next_tok "{"); [|discriminate].
    apply bind_ok in H as ([sub ts2] & Hs & H).
    destruct (mem key blk); [discriminate|].
    apply IHs in Hs. apply IHl in H.
    eapply reads_closes; [exact Hs|exact H].
Qed.

Lemma parse_loop_nesting (n : nat) (table : symbol_table) (ts : list token)
      (result : symbol_table) :
  parse_loop n table ts = Ok result -> reads ts [].
Proof.
  revert table ts. induction n as [|n IH]; intros table ts H; [discriminate|].
  rewrite parse_loop_S in H.
  destruct ts as [|t ts1]; [intros st; reflexivity|].
  destruct t as [s|x|s|word]; try discriminate.
  destruct (String.eqb word "juego"); [|discriminate].
  destruct ts1 as [|t2 ts2]; [discriminate|].
  destruct t2 as [game_name|x|s|s]; try discriminate.
  apply bind_ok in H as ([root ts3] & Hb & H).
  destruct (mem game_name table); [discriminate|].
  apply (proj1 (parse_block_nesting n)) in Hb. apply IH in H.
  eapply reads_trans; [now apply reads_atom|].
  eapply reads_trans; [now apply reads_atom|].
  eapply reads_trans; eassumption.
Qed.

(* ================================================================= *)
(** * What a text can bind *)

Lemma parse_from_text (ts : list token) (table : symbol_table) :
  forallb well_formed_token ts = true ->
  parse ts = Ok table -> table_from_text table = true.
Proof.
  intros HQ H.
  destruct (parse_inv (fun t => well_formed_token t = true) from_text)
    with (ts := ts) (result := table) as [_ H2];
    try (intros; assumption); try reflexivity; try exact H.
  - intros d _ Hf. cbn [from_text]. now rewrite forallb_snd.
  - apply Forall_forall. now apply forallb_forall.
Qed.

Lemma from_text_get (d : dict) (k : string) (v : value) :
  from_text (VDict d) = true -> get d k = Some v -> from_text v = true.
Proof.
  cbn [from_text]. induction d as [|[k' v'] d IH]; [discriminate|].
  cbn [forallb get]. intros H. apply andb_true_iff in H as [Hv Hd].
  destruct (String.eqb k k'); [|now apply IH].
  intros E; now injection E as <-.
Qed.

Lemma table_from_text_In (table : symbol_table) (name : string) (cfg : dict) :
  table_from_text table = true -> In (name, cfg) table ->
  from_text (VDict cfg) = true.
Proof.
  unfold table_from_text. intros H Hin.
  rewrite forallb_forall in H. exact (H _ Hin).
Qed.

Lemma from_text_not_negative (x : value) :
  from_text x = true -> lt0 x = false.
Proof.
  destruct x as [s|z|y|b|l|d]; try reflexivity.
  cbn [from_text well_formed_token lt0]. intros H.
  apply Z.leb_le in H. apply Z.ltb_ge. exact H.
Qed.

(* ================================================================= *)
(** * The exceptions of the parser and of the validators *)

Lemma expect_operator_caught (op : string) (ts : list token) e :
  expect_operator op ts = Raise e -> caught e = true.
Proof.
  destruct ts as [|t ts]; cbn [expect_operator].
  - intros H; now injection H as <-.
  - destruct (is_op t op); [discriminate|]. intros H; now injection H as <-.
Qed.

Lemma expect_kv_sep_caught (ts : list token) e :
  expect_kv_sep ts = Raise e -> caught e = true.
Proof.
  destruct ts as [|t ts]; cbn [expect_kv_sep].
  - intros H; now injection H as <-.
  - destruct (is_op t ":" || is_op t "="); [discriminate|].
    intros H; now injection H as <-.
Qed.

Ltac raised H := injection H as <-; reflexivity.

(** The parser raises [SyntaxError] and [NameError] only. *)
Lemma parse_value_caught (n : nat) :
  (forall ts e, parse_value n ts = Raise e -> caught e = true)
  /\ (forall ts e, parse_list n ts = Raise e -> caught e = true)
  /\ (forall lst ts e, parse_list_loop n lst ts = Raise e -> caught e = true)
  /\ (forall ts e, parse_map n ts = Raise e -> caught e = true)
  /\ (forall mp ts e, parse_map_loop n mp ts = Raise e -> caught e = true).
Proof.
  induction n as [|n (IHv & IHl & IHll & IHm & IHml)].
  { repeat split; intros; discriminate. }
  split; [|split; [|split; [|split]]].
  - intros ts e H. rewrite parse_value_S in H.
    destruct ts as [|t ts']; [raised H|].
    destruct t as [s|[z|x]|s|s]; try discriminate.
    + destruct (String.eqb s "[").
      { apply bind_raise in H as [H|([l r] & _ & H)];
          [now apply IHl in H|discriminate]. }
      destruct (String.eqb s "{"); [|raised H].
      apply bind_raise in H as [H|([m r] & _ & H)];
        [now apply IHm in H|discriminate].
    + destruct (is_bool_word s); [discriminate|raised H].
  - intros ts e H. rewrite parse_list_S in H.
    apply bind_raise in H as [H|([t ts1] & _ & H)];
      [now apply expect_operator_caught in H|now apply IHll in H].
  - intros lst ts e H. rewrite parse_list_loop_S in H.
    destruct ts as [|tok rest]; [raised H|].
    destruct (is_op tok "]"); [discriminate|].
    destruct (bare_identifier tok); [raised H|].
    apply bind_raise in H as [H|([v ts1] & _ & H)];
      [now apply IHv in H|now apply IHll in H].
  - intros ts e H. rewrite parse_map_S in H.
    apply bind_raise in H as [H|([t ts1] & _ & H)];
      [now apply expect_operator_caught in H|now apply IHml in H].
  - intros mp ts e H. rewrite parse_map_loop_S in H.
    destruct ts as [|t rest]; [raised H|].
    destruct (is_op t "}"); [discriminate|].
    destruct (is_op t ","); [now apply IHml in H|].
    destruct (map_key t) as [k|]; [|raised H].
    apply bind_raise in H as [H|([sep ts1] & _ & H)];
      [now apply expect_kv_sep_caught in H|].
    apply bind_raise in H as [H|([v ts2] & _ & H)]; [now apply IHv in H|].
    destruct (mem k mp); [raised H|now apply IHml in H].
Qed.

Lemma parse_block_caught (n : nat) :
  (forall ts e, parse_block_section n ts = Raise e -> caught e = true)
  /\ (forall blk ts e,
         parse_block_loop n blk ts = Raise e -> caught e = true).
Proof.
  induction n as [|n (IHs & IHl)].
  { split; intros; discriminate. }
  split.
  - intros ts e H. rewrite parse_block_section_S in H.
    apply bind_raise in H as [H|([t ts1] & _ & H)];
      [now apply expect_operator_caught in H|now apply IHl in H].
  - intros blk ts e H. rewrite parse_block_loop_S in H.
    destruct ts as [|tok rest]; [raised H|].
    destruct (is_op tok "}"); [discriminate|].
    destruct tok as [s|x|s|key]; try raised H.
    destruct rest as [|next_tok rest']; [raised H|].
    destruct (is_op next_tok "=").
    { apply bind_raise in H as [H|([v ts2] & _ & H)];
        [now apply (proj1 (parse_value_caught n)) in H|].
      destruct (mem key blk); [raised H|now apply IHl in H]. }
    destruct (is_op next_tok "{"); [|raised H].
    apply bind_raise in H as [H|([sub ts2] & _ & H)];
      [now apply IHs in H|].
    destruct (mem key blk); [raised H|now apply IHl in H].
Qed.

Lemma parse_loop_caught (n : nat) (table : symbol_table) (ts : list token)
      (e : exception) :
  parse_loop n table ts = Raise e -> caught e = true.
Proof.
  revert table ts. induction n as [|n IH]; intros table ts H; [discriminate|].
  rewrite parse_loop_S in H.
  destruct ts as [|t ts1]; [discriminate|].
  destruct t as [s|x|s|word]; try raised H.
  destruct (String.eqb word "juego"); [|raised H].
  destruct ts1 as [|t2 ts2]; [raised H|].
  destruct t2 as [game_name|x|s|s]; try raised H.
  apply bind_raise in H as [H|([root ts3] & _ & H)];
    [now apply (proj1 (parse_block_caught n)) in H|].
  destruct (mem game_name table); [raised H|now apply IH in H].
Qed.

Lemma parse_caught (ts : list token) (e : exception) :
  parse ts = Raise e -> caught e = true.
Proof. apply parse_loop_caught. Qed.

(* ----------------------------------------------------------------- *)
(** ** The validators return or raise *)

Lemma validate_all_not_fuel (table : symbol_table) :
  validate_all table <> OutOfFuel.
Proof.
  induction table as [|[name cfg] table IH]; [discriminate|].
  cbn [validate_all].
  assert (Hg : validate_game name cfg <> OutOfFuel).
  { unfold validate_game.
    destruct (String.eqb name "snake").
    { destruct (missing_cases "rejilla" "velocidad" "controles" cfg)
        as [(x & l & Hm) | (_ & rej & vel & con & Hr & Hv & Hc)].
      { destruct (validate_snake_missing cfg x l Hm) as [m E].
        rewrite E. discriminate. }
      rewrite (validate_snake_sections _ _ _ _ Hr Hv Hc).
      destruct rej; cbn [as_dict bind]; try discriminate.
      rewrite ?int_gt0_positive. cbn [bind].
      destruct (positive_int _ _); cbn [negb bind]; [|discriminate].
      destruct (positive_int _ _); cbn [negb]; [|discriminate].
      destruct vel; cbn [as_dict bind]; try discriminate.
      rewrite ?int_gt0_positive. cbn [bind].
      destruct (positive_int _ _); cbn [negb]; [|discriminate].
      destruct con; cbn [as_dict bind]; try discriminate.
      destruct (first_not_str _ _); discriminate. }
    destruct (String.eqb name "tetris"); [|discriminate].
    destruct (missing_cases "rejilla" "velocidad" "puntuacion" cfg)
      as [(x & l & Hm) | (_ & rej & vel & pun & Hr & Hv & Hp)].
    { destruct (validate_tetris_missing cfg x l Hm) as [m E].
      rewrite E. discriminate. }
    rewrite (validate_tetris_sections _ _ _ _ Hr Hv Hp).
    destruct rej; cbn [as_dict bind]; try discriminate.
    rewrite ?int_gt0_positive. cbn [bind].
    destruct (positive_int _ _); cbn [negb bind]; [|discriminate].
    destruct (positive_int _ _); cbn [negb]; [|discriminate].
    destruct vel; cbn [as_dict bind]; try discriminate.
    rewrite ?int_gt0_positive. cbn [bind].
    destruct (positive_int _ _); cbn [negb]; [|discriminate].
    destruct pun; cbn [as_dict bind]; try discriminate.
    destruct (get _ "por_linea") as [[]|]; try discriminate.
    destruct (first_bad_score _ _); [discriminate|].
    destruct (first_bad_opt _ _); discriminate. }
  destruct (validate_game name cfg) as [[ok msg]| |]; cbn [bind];
    [|discriminate|congruence].
  destruct (validate_all table); cbn [bind]; [discriminate|discriminate|congruence].
Qed.

Lemma scalar_section_not_caught (table : symbol_table) (e : exception) :
  scalar_section_in table e -> caught e = false.
Proof.
  intros [cfg [[_ (sec & v & _ & _ & _ & ->)]|[_ (sec & v & _ & _ & _ & ->)]]];
    reflexivity.
Qed.


(* ================================================================= *)
(** * Every well-formed table has a text *)

(* ----------------------------------------------------------------- *)
(** ** A text for every token *)

Lemma int_of_digits_acc_app (a b : string) (acc : Z) :
  int_of_digits_acc acc (a ++ b)
  = int_of_digits_acc (int_of_digits_acc acc a) b.
Proof.
  revert acc. induction a as [|c a IH]; intros acc; [reflexivity|].
  cbn [append int_of_digits_acc]. apply IH.
Qed.

Lemma digit_char (r : Z) :
  (0 <= r < 10)%Z ->
  exists c, is_digit c = true /\ (Z.of_nat (code c) - 48 = r)%Z.
Proof.
  intros H. exists (ascii_of_nat (48 + Z.to_nat r)).
  assert (E : code (ascii_of_nat (48 + Z.to_nat r)) = 48 + Z.to_nat r).
  { unfold code. apply nat_ascii_embedding. lia. }
  split.
  - unfold is_digit. rewrite E. apply andb_true_iff.
    split; apply Nat.leb_le; lia.
  - rewrite E. lia.
Qed.

Lemma word_plain (c : ascii) : is_word c = true -> plain c = true.
Proof.
  destruct c as [[] [] [] [] [] [] [] []]; vm_compute;
    intros H; first [reflexivity | discriminate H].
Qed.

Lemma word_not_special (c : ascii) :
  is_word c = true ->
  Ascii.eqb c dquote = false /\ is_operator_char c = false.
Proof.
  destruct c as [[] [] [] [] [] [] [] []]; vm_compute;
    intros H; first [discriminate H | split; reflexivity].
Qed.

Lemma plain_not_linebreak (s : string) :
  all_chars plain s = true -> all_chars not_linebreak s = true.
Proof.
  apply all_chars_impl. intros c H. unfold plain in H.
  repeat (apply andb_true_iff in H as [H _]). exact H.
Qed.

(** A word that does not start with a digit is one identifier. *)
Lemma tokenize_identifier (w : string) :
  well_formed_token (IDENTIFIER w) = true -> tokenize w = [IDENTIFIER w].
Proof.
  cbn [well_formed_token]. intros H.
  apply andb_true_iff in H as [H Hd]. apply andb_true_iff in H as [Hne Hw].
  apply negb_true_iff in Hd.
  rewrite tokenize_plain
    by (eapply all_chars_impl; [apply word_plain|exact Hw]).
  destruct w as [|c w]; [discriminate|].
  cbn [starts_with] in Hd. pose proof Hw as Hw'.
  cbn [all_chars] in Hw'. apply andb_true_iff in Hw' as [Hc _].
  destruct (word_not_special c Hc) as [Hq Ho].
  rewrite scan_cons. unfold match_at. rewrite Hq, Hd, Ho, Hc.
  rewrite <- (string_app_nil_r (String c w)) at 1.
  now rewrite (span_app is_word (String c w) "" Hw eq_refl).
Qed.

(** The comment loop, started inside a literal, keeps a text without quote
    and the quote after it. *)
Lemma strip_loop_closing (esc : bool) (s : string) :
  all_chars not_quote s = true ->
  strip_loop true esc (s ++ String dquote "") = s ++ String dquote "".
Proof.
  revert esc. induction s as [|c s IH]; intros esc H.
  - cbn [append strip_loop]. now destruct esc.
  - cbn [all_chars] in H. apply andb_true_iff in H as [Hc Hs].
    unfold not_quote in Hc. apply negb_true_iff in Hc.
    cbn [append strip_loop]. destruct esc; [now rewrite IH|].
    destruct (Ascii.eqb c backslash); [now rewrite IH|].
    rewrite Hc. now rewrite IH.
Qed.

(** A quoted text without quote or line boundary is one string. *)
Lemma tokenize_string (s : string) :
  well_formed_token (STRING s) = true -> tokenize (q s) = [STRING s].
Proof.
  cbn [well_formed_token]. intros H. apply andb_true_iff in H as [Hne Ho].
  pose proof (open_not_quote s Ho) as Hq.
  rewrite tokenize_line_scan.
  - unfold q at 1. cbn [strip_loop]. rewrite Ascii.eqb_refl.
    rewrite (strip_loop_closing false s Hq).
    change (String dquote (s ++ String dquote "")) with (q s).
    rewrite <- (string_app_nil_r (q s)).
    rewrite (scan_literal s "" Hq), Hne. reflexivity.
  - unfold q. cbn [all_chars]. rewrite all_chars_app.
    now rewrite (open_not_linebreak s Ho).
Qed.

Lemma digits_or_dots_no_dot (s : string) :
  all_chars digit_or_dot s = true -> count_dots s = 0 ->
  all_chars is_digit s = true.
Proof.
  induction s as [|c s IH]; [reflexivity|].
  cbn [all_chars count_dots]. intros H Hn.
  apply andb_true_iff in H as [Hc Hs]. unfold digit_or_dot in Hc.
  destruct (is_dot c); [discriminate|]. rewrite orb_false_r in Hc.
  rewrite Hc. now apply IH.
Qed.

(** The text of a well-formed float: digits, a dot, digits or nothing. *)
Lemma float_text_shape (text : string) :
  well_formed_token (NUMBER (NFloat text)) = true ->
  exists d1 d2, digits d1 /\ all_chars is_digit d2 = true
                /\ text = d1 ++ String dot d2.
Proof.
  cbn [well_formed_token]. intros H.
  apply andb_true_iff in H as [H Hn]. apply andb_true_iff in H as [Hs Ha].
  apply Nat.eqb_eq in Hn.
  destruct (span_split is_digit text) as [E Hr].
  pose proof (span_all is_digit text) as Hd1.
  destruct (span is_digit text) as [d1 r]. cbn [fst snd] in *.
  assert (Hne : d1 <> EmptyString).
  { intros ->. cbn [append] in E. subst r. congruence. }
  rewrite E, all_chars_app in Ha. apply andb_true_iff in Ha as [_ Har].
  rewrite E, count_dots_app, (count_dots_digits d1 Hd1) in Hn.
  destruct r as [|c d2]; [discriminate Hn|].
  cbn [starts_with] in Hr. cbn [all_chars] in Har.
  apply andb_true_iff in Har as [Hc Hd2]. unfold digit_or_dot in Hc.
  rewrite Hr in Hc. cbn [orb] in Hc. cbn [count_dots] in Hn.
  rewrite Hc in Hn.
  exists d1, d2. split; [split; assumption|]. split.
  - apply digits_or_dots_no_dot; [exact Hd2|lia].
  - unfold is_dot in Hc. apply Ascii.eqb_eq in Hc. now subst c.
Qed.

Lemma digits_plain (d : string) :
  all_chars is_digit d = true -> all_chars plain d = true.
Proof. apply all_chars_impl, digit_plain. Qed.

(* ----------------------------------------------------------------- *)
(** ** The parser reads the written tokens back *)

Lemma value_induction (P : value -> Prop) :
  (forall s, P (VStr s)) -> (forall z, P (VInt z)) ->
  (forall x, P (VFloat x)) -> (forall b, P (VBool b)) ->
  (forall l, Forall P l -> P (VList l)) ->
  (forall d, Forall (fun kv => P (snd kv)) d -> P (VDict d)) ->
  forall v, P v.
Proof.
  intros Hs Hi Hf Hb Hl Hd. fix IH 1. intros [s|z|x|b|l|d].
  - apply Hs.
  - apply Hi.
  - apply Hf.
  - apply Hb.
  - apply Hl. induction l as [|v l IHl]; constructor; [apply IH|exact IHl].
  - apply Hd. induction d as [|[k v] d IHd]; constructor;
      [apply IH|exact IHd].
Qed.

Lemma write_dict_pairs (d : dict) :
  write_value (VDict d)
  = OPERATOR "{" :: flat_map write_pair d ++ [OPERATOR "}"].
Proof. reflexivity. Qed.

Lemma fuel_le {A : Type} (f : nat -> outcome A) :
  (forall n, f n <> OutOfFuel -> f (S n) = f n) ->
  forall n m, n <= m -> f n <> OutOfFuel -> f m = f n.
Proof.
  intros Hf n m Hle H. induction Hle as [|m Hle IH]; [reflexivity|].
  rewrite <- IH. apply Hf. now rewrite IH.
Qed.

Lemma parse_value_lift (n m : nat) (ts : list token) r :
  parse_value n ts = Ok r -> n <= m -> parse_value m ts = Ok r.
Proof.
  intros H Hle. rewrite <- H.
  apply (fuel_le (fun k => parse_value k ts)); [|exact Hle|congruence].
  intros k. apply (proj1 (parse_value_more k)).
Qed.

Lemma parse_list_loop_lift (n m : nat) lst (ts : list token) r :
  parse_list_loop n lst ts = Ok r -> n <= m ->
  parse_list_loop m lst ts = Ok r.
Proof.
  intros H Hle. rewrite <- H.
  apply (fuel_le (fun k => parse_list_loop k lst ts));
    [|exact Hle|congruence].
  intros k. apply (proj1 (proj2 (proj2 (parse_value_more k)))).
Qed.

Lemma parse_map_loop_lift (n m : nat) mp (ts : list token) r :
  parse_map_loop n mp ts = Ok r -> n <= m -> parse_map_loop m mp ts = Ok r.
Proof.
  intros H Hle. rewrite <- H.
  apply (fuel_le (fun k => parse_map_loop k mp ts));
    [|exact Hle|congruence].
  intros k. apply (proj2 (proj2 (proj2 (proj2 (parse_value_more k))))).
Qed.

Lemma parse_block_loop_lift (n m : nat) blk (ts : list token) r :
  parse_block_loop n blk ts = Ok r -> n <= m ->
  parse_block_loop m blk ts = Ok r.
Proof.
  intros H Hle. rewrite <- H.
  apply (fuel_le (fun k => parse_block_loop k blk ts));
    [|exact Hle|congruence].
  intros k. apply (proj2 (parse_block_more k)).
Qed.

Lemma parse_loop_lift (n m : nat) table (ts : list token) r :
  parse_loop n table ts = Ok r -> n <= m -> parse_loop m table ts = Ok r.
Proof.
  intros H Hle. rewrite <- H. apply parse_loop_le; [exact Hle|congruence].
Qed.

(** What the loop of [parse] returns with some fuel, [parse] returns. *)
Lemma parse_of_loop (n : nat) (ts : list token) (table : symbol_table) :
  parse_loop n [] ts = Ok table -> parse ts = Ok table.
Proof.
  intros H. unfold parse.
  rewrite <- (parse_loop_enough (Nat.max n (parse_fuel ts))) by lia.
  eapply parse_loop_lift; [exact H|lia].
Qed.

Lemma write_value_head (v : value) :
  exists t tl, write_value v = t :: tl /\ value_start t = true.
Proof.
  destruct v as [s|z|x|b|l|d]; cbn [write_value]; eexists _, _;
    (split; [reflexivity|]); try reflexivity.
  now destruct b.
Qed.

Lemma value_start_not (t : token) :
  value_start t = true ->
  is_op t "]" = false /\ is_op t "," = false /\ bare_identifier t = None.
Proof.
  destruct t as [s|x|s|s]; cbn [value_start is_op bare_identifier];
    intros H; try (repeat split; reflexivity).
  - apply orb_true_iff in H as [H|H]; apply String.eqb_eq in H; subst s;
      repeat split; reflexivity.
  - now rewrite H.
Qed.

Lemma skip_comma_written (l : list value) (rest : list token) :
  skip_comma (flat_map write_value l ++ OPERATOR "]" :: rest)
  = (flat_map write_value l ++ OPERATOR "]" :: rest)%list.
Proof.
  destruct l as [|v l]; [reflexivity|]. cbn [flat_map].
  destruct (write_value_head v) as (t & tl & E & Ht). rewrite E.
  cbn [app skip_comma].
  destruct (value_start_not t Ht) as (_ & Hc & _). now rewrite Hc.
Qed.

Lemma write_list_parse (l : list value) :
  Forall reads_back l -> forallb unique_keysb l = true ->
  forall acc rest,
  exists n,
    parse_list_loop n acc (flat_map write_value l ++ OPERATOR "]" :: rest)
    = Ok ((acc ++ l)%list, rest).
Proof.
  induction l as [|v l IH]; intros HP Hu acc rest.
  - exists 1. now rewrite app_nil_r.
  - inversion HP as [|? ? Hv Hl]; subst.
    cbn [forallb] in Hu. apply andb_true_iff in Hu as [Huv Hul].
    cbn [flat_map]. rewrite <- app_assoc.
    set (rest' := (flat_map write_value l ++ OPERATOR "]" :: rest)%list).
    destruct (Hv Huv rest') as [n1 H1].
    destruct (IH Hl Hul (acc ++ [v])%list rest) as [n2 H2]. fold rest' in H2.
    exists (S (Nat.max n1 n2)). rewrite parse_list_loop_S.
    destruct (write_value_head v) as (t & tl & E & Ht).
    destruct (value_start_not t Ht) as (Hb & _ & Hi).
    rewrite E in *. cbn [app] in *. rewrite Hb, Hi.
    rewrite (parse_value_lift n1 _ _ _ H1) by lia. cbn [bind].
    unfold rest' at 1. rewrite skip_comma_written. fold rest'.
    rewrite (parse_list_loop_lift n2 _ _ _ _ H2) by lia.
    now rewrite <- app_assoc.
Qed.

Lemma parse_map_loop_written (n : nat) (mp : dict) (k : string)
      (ts : list token) :
  parse_map_loop (S n) mp (STRING k :: OPERATOR ":" :: ts)
  = ('(v, ts2) <- parse_value n ts ;;
     if mem k mp then Raise (SyntaxError (DuplicateMapKey k))
     else parse_map_loop n (set mp k v) ts2).
Proof. reflexivity. Qed.

Lemma nodupb_keys_mid {A : Type} (acc d : list (string * A)) (k : string)
      (v : A) :
  nodupb (keys (acc ++ (k, v) :: d)) = true ->
  mem k acc = false
  /\ nodupb (keys ((acc ++ [(k, v)]) ++ d)) = true.
Proof.
  intros H. split.
  - unfold keys in H. rewrite map_app in H. cbn [map fst] in H.
    apply nodupb_app_inv in H as [_ H]. now rewrite mem_keys.
  - now rewrite <- app_assoc.
Qed.

Lemma write_map_parse (d : dict) :
  Forall (fun kv => reads_back (snd kv)) d ->
  forallb (fun kv => let '(_, x) := kv in unique_keysb x) d = true ->
  forall acc rest,
    nodupb (keys (acc ++ d)) = true ->
    exists n,
      parse_map_loop n acc (flat_map write_pair d ++ OPERATOR "}" :: rest)
      = Ok ((acc ++ d)%list, rest).
Proof.
  induction d as [|[k v] d IH]; intros HP Hu acc rest Hn.
  - exists 1. now rewrite app_nil_r.
  - inversion HP as [|? ? Hv Hd]; subst. cbn [snd] in Hv.
    cbn [forallb] in Hu. apply andb_true_iff in Hu as [Huv Hud].
    destruct (nodupb_keys_mid acc d k v Hn) as [Hk Hn'].
    cbn [flat_map write_pair]. cbn [app]. rewrite <- app_assoc.
    set (rest' := (flat_map write_pair d ++ OPERATOR "}" :: rest)%list).
    destruct (Hv Huv rest') as [n1 H1].
    destruct (IH Hd Hud (acc ++ [(k, v)])%list rest Hn') as [n2 H2].
    fold rest' in H2.
    exists (S (Nat.max n1 n2)). rewrite parse_map_loop_written.
    rewrite (parse_value_lift n1 _ _ _ H1) by lia. cbn [bind].
    rewrite Hk, (set_absent _ _ v Hk).
    rewrite (parse_map_loop_lift n2 _ _ _ _ H2) by lia.
    now rewrite <- app_assoc.
Qed.

Lemma bool_word_value (b : bool) (rest : list token) :
  parse_value 1 (IDENTIFIER (if b then "verdadero" else "falso") :: rest)
  = Ok (VBool b, rest).
Proof. now destruct b. Qed.

(** The value parser reads every value with distinct keys back from its
    tokens. *)
Lemma write_value_parse (v : value) : reads_back v.
Proof.
  induction v as [s|z|x|b|l IH|d IH] using value_induction;
    intros Hu rest.
  - now exists 1.
  - now exists 1.
  - now exists 1.
  - exists 1. apply bool_word_value.
  - cbn [unique_keysb] in Hu.
    destruct (write_list_parse l IH Hu [] rest) as [n H].
    exists (S (S n)). cbn [write_value app]. rewrite <- app_assoc.
    cbn [app]. rewrite parse_value_list, H. reflexivity.
  - cbn [unique_keysb] in Hu. apply andb_true_iff in Hu as [Hn Hu].
    destruct (write_map_parse d IH Hu [] rest Hn) as [n H].
    exists (S (S n)). rewrite write_dict_pairs. cbn [app].
    rewrite <- app_assoc. cbn [app]. rewrite parse_value_map, H.
    reflexivity.
Qed.

Lemma write_block_loop_parse (d : dict) :
  forallb (fun kv => let '(_, x) := kv in unique_keysb x) d = true ->
  forall acc rest,
    nodupb (keys (acc ++ d)) = true ->
    exists n,
      parse_block_loop n acc
        (flat_map write_assignment d ++ OPERATOR "}" :: rest)
      = Ok ((acc ++ d)%list, rest).
Proof.
  induction d as [|[k v] d IH]; intros Hu acc rest Hn.
  - exists 1. now rewrite app_nil_r.
  - cbn [forallb] in Hu. apply andb_true_iff in Hu as [Huv Hud].
    destruct (nodupb_keys_mid acc d k v Hn) as [Hk Hn'].
    cbn [flat_map write_assignment]. cbn [app]. rewrite <- app_assoc.
    set (rest' := (flat_map write_assignment d ++ OPERATOR "}" :: rest)%list).
    destruct (write_value_parse v Huv rest') as [n1 H1].
    destruct (IH Hud (acc ++ [(k, v)])%list rest Hn') as [n2 H2].
    fold rest' in H2.
    exists (S (Nat.max n1 n2)). rewrite parse_block_loop_assign.
    rewrite (parse_value_lift n1 _ _ _ H1) by lia. cbn [bind].
    rewrite Hk, (set_absent _ _ v Hk).
    rewrite (parse_block_loop_lift n2 _ _ _ _ H2) by lia.
    now rewrite <- app_assoc.
Qed.

Lemma write_block_parse (blk : dict) (rest : list token) :
  unique_keysb (VDict blk) = true ->
  exists n, parse_block_section n (write_block blk ++ rest) = Ok (blk, rest).
Proof.
  cbn [unique_keysb]. intros Hu. apply andb_true_iff in Hu as [Hn Hu].
  destruct (write_block_loop_parse blk Hu [] rest Hn) as [n H].
  exists (S n). unfold write_block. cbn [app]. rewrite <- app_assoc.
  cbn [app]. now rewrite parse_block_section_open.
Qed.

Lemma parse_block_section_lift (n m : nat) (ts : list token) r :
  parse_block_section n ts = Ok r -> n <= m ->
  parse_block_section m ts = Ok r.
Proof.
  intros H Hle. rewrite <- H.
  apply parse_block_section_le; [exact Hle|congruence].
Qed.

Lemma write_table_loop_parse (table : symbol_table) :
  forallb (fun kv => unique_keysb (VDict (snd kv))) table = true ->
  forall acc,
    nodupb (keys (acc ++ table)) = true ->
    exists n, parse_loop n acc (write_table table) = Ok (acc ++ table)%list.
Proof.
  induction table as [|[name blk] table IH]; intros Hu acc Hn.
  - exists 1. now rewrite app_nil_r.
  - cbn [forallb snd] in Hu. apply andb_true_iff in Hu as [Hub Hut].
    destruct (nodupb_keys_mid acc table name blk Hn) as [Hk Hn'].
    unfold write_table. cbn [flat_map write_entity]. cbn [app].
    fold (write_table table).
    destruct (write_block_parse blk (write_table table) Hub) as [n1 H1].
    destruct (IH Hut (acc ++ [(name, blk)])%list Hn') as [n2 H2].
    exists (S (Nat.max n1 n2)). rewrite parse_loop_juego.
    rewrite (parse_block_section_lift n1 _ _ _ H1) by lia. cbn [bind].
    rewrite Hk, (set_absent _ _ blk Hk).
    rewrite (parse_loop_lift n2 _ _ _ _ H2) by lia.
    now rewrite <- app_assoc.
Qed.

(** [parse] reads every table with distinct keys back from its tokens. *)
Lemma write_table_parse (table : symbol_table) :
  table_unique_keys table = true -> parse (write_table table) = Ok table.
Proof.
  unfold table_unique_keys. intros H. apply andb_true_iff in H as [Hn Hu].
  destruct (write_table_loop_parse table Hu [] Hn) as [n H].
  now apply (parse_of_loop n).
Qed.

(* ----------------------------------------------------------------- *)
(** ** The written tokens are well formed *)

Lemma forallb_flat_map {A B : Type} (p : B -> bool) (f : A -> list B)
      (l : list A) :
  Forall (fun x => forallb p (f x) = true) l ->
  forallb p (flat_map f l) = true.
Proof.
  induction 1 as [|x l Hx Hl IH]; [reflexivity|].
  cbn [flat_map]. now rewrite forallb_app, Hx, IH.
Qed.

Lemma write_value_well_formed (v : value) :
  from_text v = true -> keys_text v = true ->
  forallb well_formed_token (write_value v) = true.
Proof.
  induction v as [s|z|x|b|l IH|d IH] using value_induction;
    cbn [from_text keys_text write_value]; intros Hf Hk.
  - cbn [forallb]. now rewrite Hf.
  - cbn [forallb]. now rewrite Hf.
  - cbn [forallb]. now rewrite Hf.
  - now destruct b.
  - cbn [forallb]. rewrite forallb_app. cbn [forallb].
    change (well_formed_token (OPERATOR "[")) with true.
    change (well_formed_token (OPERATOR "]")) with true.
    cbn [andb]. rewrite andb_true_r. apply forallb_flat_map.
    rewrite forallb_forall in Hf, Hk. rewrite Forall_forall in IH |- *.
    intros x Hx. apply IH; auto.
  - cbn [forallb]. rewrite forallb_app. cbn [forallb].
    change (well_formed_token (OPERATOR "{")) with true.
    change (well_formed_token (OPERATOR "}")) with true.
    cbn [andb]. rewrite andb_true_r. apply forallb_flat_map.
    rewrite forallb_forall in Hf, Hk. rewrite Forall_forall in IH |- *.
    intros [k x] Hx. specialize (Hf _ Hx). specialize (Hk _ Hx).
    apply andb_true_iff in Hk as [Hkk Hkx].
    cbn [forallb]. rewrite Hkk.
    change (well_formed_token (OPERATOR ":")) with true. cbn [andb].
    exact (IH _ Hx Hf Hkx).
Qed.

Lemma write_block_well_formed (blk : dict) :
  from_text (VDict blk) = true -> block_keys_text blk = true ->
  forallb well_formed_token (write_block blk) = true.
Proof.
  cbn [from_text]. unfold block_keys_text, write_block. intros Hf Hk.
  cbn [forallb]. rewrite forallb_app. cbn [forallb].
  change (well_formed_token (OPERATOR "{")) with true.
  change (well_formed_token (OPERATOR "}")) with true.
  cbn [andb]. rewrite andb_true_r. apply forallb_flat_map.
  rewrite forallb_forall in Hf, Hk. apply Forall_forall.
  intros [k x] Hx. specialize (Hf _ Hx). specialize (Hk _ Hx).
  apply andb_true_iff in Hk as [Hkk Hkx].
  cbn [write_assignment forallb]. rewrite Hkk.
  change (well_formed_token (OPERATOR "=")) with true. cbn [andb].
  now apply write_value_well_formed.
Qed.

Lemma write_table_well_formed (table : symbol_table) :
  table_from_text table = true -> table_keys_text table = true ->
  forallb well_formed_token (write_table table) = true.
Proof.
  unfold table_from_text, table_keys_text, write_table. intros Hf Hk.
  apply forallb_flat_map.
  rewrite forallb_forall in Hf, Hk. apply Forall_forall.
  intros [name blk] Hx. specialize (Hf _ Hx). specialize (Hk _ Hx).
  cbn [snd] in Hf. apply andb_true_iff in Hk as [Hkn Hkb].
  cbn [write_entity forallb]. rewrite Hkn.
  change (well_formed_token (IDENTIFIER "juego")) with true. cbn [andb].
  now apply write_block_well_formed.
Qed.

(* ----------------------------------------------------------------- *)
(** ** The keys of a parsed text *)

Lemma identifier_is_string (k : string) :
  well_formed_token (IDENTIFIER k) = true ->
  well_formed_token (STRING k) = true.
Proof.
  cbn [well_formed_token]. intros H.
  apply andb_true_iff in H as [H _]. apply andb_true_iff in H as [Hne Hw].
  rewrite Hne. cbn [andb].
  eapply all_chars_impl; [|exact Hw]. intros c Hc.
  pose proof (word_plain c Hc) as Hp. unfold plain in Hp.
  apply andb_true_iff in Hp as [Hp _]. apply andb_true_iff in Hp as [Hp Hq].
  apply andb_true_iff in Hp as [Hl _].
  unfold open_char, not_linebreak, not_quote. now rewrite Hl, Hq.
Qed.

Lemma map_key_text (t : token) (k : string) :
  well_formed_token t = true -> map_key t = Some k ->
  well_formed_token (STRING k) = true.
Proof.
  destruct t as [s|x|s|s]; cbn [map_key]; intros H E; try discriminate;
    injection E as <-; [exact H|now apply identifier_is_string].
Qed.

Lemma keys_text_set (d : dict) (k : string) (v : value) :
  keys_text (VDict d) = true -> mem k d = false ->
  well_formed_token (STRING k) = true -> keys_text v = true ->
  keys_text (VDict (set d k v)) = true.
Proof.
  intros Hd Hk Hkk Hv. rewrite (set_absent _ _ v Hk).
  cbn [keys_text] in *. rewrite forallb_app, Hd. cbn [forallb].
  now rewrite Hkk, Hv.
Qed.

Lemma block_keys_text_set (d : dict) (k : string) (v : value) :
  block_keys_text d = true -> mem k d = false ->
  well_formed_token (IDENTIFIER k) = true -> keys_text v = true ->
  block_keys_text (set d k v) = true.
Proof.
  intros Hd Hk Hkk Hv. rewrite (set_absent _ _ v Hk).
  unfold block_keys_text in *. rewrite forallb_app, Hd. cbn [forallb].
  now rewrite Hkk, Hv.
Qed.

Lemma block_keys_are_keys (d : dict) :
  block_keys_text d = true -> keys_text (VDict d) = true.
Proof.
  unfold block_keys_text. cbn [keys_text]. intros H.
  rewrite forallb_forall in H |- *. intros [k x] Hx.
  specialize (H _ Hx). apply andb_true_iff in H as [Hk Hv].
  now rewrite (identifier_is_string k Hk), Hv.
Qed.

Lemma well_formed_rest (n : nat) (ts : list token) v rest :
  well_formed ts -> parse_value n ts = Ok (v, rest) -> well_formed rest.
Proof.
  intros HQ H. eapply consumes_Forall; [|exact HQ].
  eapply consumes_value_consumes, (proj1 (parse_value_consumes n)), H.
Qed.

(** The keys of the values the parser builds are keys of its tokens. *)
Lemma parse_value_keys (n : nat) :
  (forall ts v rest,
      well_formed ts -> parse_value n ts = Ok (v, rest) ->
      keys_text v = true)
  /\ (forall ts l rest,
         well_formed ts -> parse_list n ts = Ok (l, rest) ->
         forallb keys_text l = true)
  /\ (forall lst ts l rest,
         well_formed ts -> forallb keys_text lst = true ->
         parse_list_loop n lst ts = Ok (l, rest) ->
         forallb keys_text l = true)
  /\ (forall ts m rest,
         well_formed ts -> parse_map n ts = Ok (m, rest) ->
         keys_text (VDict m) = true)
  /\ (forall mp ts m rest,
         well_formed ts -> keys_text (VDict mp) = true ->
         parse_map_loop n mp ts = Ok (m, rest) ->
         keys_text (VDict m) = true).
Proof.
  induction n as [|n (IHv & IHl & IHll & IHm & IHml)].
  { repeat split; intros; discriminate. }
  split; [|split; [|split; [|split]]].
  - intros ts v rest HQ H. rewrite parse_value_S in H.
    destruct ts as [|t ts']; [discriminate|].
    destruct t as [s|[z|x]|s|s].
    + now injection H as <- _.
    + now injection H as <- _.
    + now injection H as <- _.
    + destruct (String.eqb s "[").
      { apply bind_ok in H as ([l r] & Hl & H). injection H as <- _.
        cbn [keys_text]. eapply IHl; eassumption. }
      destruct (String.eqb s "{"); [|discriminate].
      apply bind_ok in H as ([m r] & Hm & H). injection H as <- _.
      eapply IHm; eassumption.
    + destruct (is_bool_word s); [|discriminate]. now injection H as <- _.
  - intros ts l rest HQ H. rewrite parse_list_S in H.
    apply bind_ok in H as ([t ts1] & He & H).
    apply expect_operator_ok in He. subst ts.
    apply (IHll [] ts1 l rest); [now inversion HQ|reflexivity|exact H].
  - intros lst ts l rest HQ Hlst H. rewrite parse_list_loop_S in H.
    destruct ts as [|tok ts']; [discriminate|].
    destruct (is_op tok "]"); [now injection H as <- _|].
    destruct (bare_identifier tok); [discriminate|].
    apply bind_ok in H as ([v ts1] & Hv & H).
    eapply IHll; [| |exact H].
    + apply skip_comma_Forall. eapply well_formed_rest; eassumption.
    + rewrite forallb_app, Hlst. cbn [forallb].
      now rewrite (IHv _ _ _ HQ Hv).
  - intros ts m rest HQ H. rewrite parse_map_S in H.
    apply bind_ok in H as ([t ts1] & He & H).
    apply expect_operator_ok in He. subst ts.
    apply (IHml [] ts1 m rest); [now inversion HQ|reflexivity|exact H].
  - intros mp ts m rest HQ Hmp H. rewrite parse_map_loop_S in H.
    destruct ts as [|t ts']; [discriminate|].
    assert (HQ' : well_formed ts') by now inversion HQ.
    assert (Ht : well_formed_token t = true) by now inversion HQ.
    destruct (is_op t "}"); [now injection H as <- _|].
    destruct (is_op t ","); [eapply IHml; eassumption|].
    destruct (map_key t) as [k|] eqn:Ek; [|discriminate].
    apply bind_ok in H as ([sep ts1] & Hs & H).
    apply expect_kv_sep_ok in Hs as [-> _].
    apply bind_ok in H as ([v ts2] & Hv & H).
    destruct (mem k mp) eqn:Em; [discriminate|].
    assert (HQ1 : well_formed ts1) by now inversion HQ'.
    eapply IHml; [| |exact H].
    + eapply well_formed_rest; eassumption.
    + apply keys_text_set; [exact Hmp|exact Em| |].
      * eapply map_key_text; eassumption.
      * exact (IHv _ _ _ HQ1 Hv).
Qed.

Lemma parse_block_keys (n : nat) :
  (forall ts b rest,
      well_formed ts -> parse_block_section n ts = Ok (b, rest) ->
      block_keys_text b = true)
  /\ (forall blk ts b rest,
         well_formed ts -> block_keys_text blk = true ->
         parse_block_loop n blk ts = Ok (b, rest) ->
         block_keys_text b = true).
Proof.
  induction n as [|n (IHs & IHl)].
  { split; intros; discriminate. }
  split.
  - intros ts b rest HQ H. rewrite parse_block_section_S in H.
    apply bind_ok in H as ([t ts1] & He & H).
    apply expect_operator_ok in He. subst ts.
    apply (IHl [] ts1 b rest); [now inversion HQ|reflexivity|exact H].
  - intros blk ts b rest HQ Hblk H. rewrite parse_block_loop_S in H.
    destruct ts as [|tok ts']; [discriminate|].
    assert (HQ' : well_formed ts') by now inversion HQ.
    assert (Ht : well_formed_token tok = true) by now inversion HQ.
    destruct (is_op tok "}"); [now injection H as <- _|].
    destruct tok as [s|x|s|key]; try discriminate.
    destruct ts' as [|next_tok rest']; [discriminate|].
    assert (HQ1 : well_formed rest') by now inversion HQ'.
    destruct (is_op next_tok "=").
    + apply bind_ok in H as ([v ts2] & Hv & H).
      destruct (mem key blk) eqn:Ek; [discriminate|].
      eapply IHl; [| |exact H].
      * eapply well_formed_rest; eassumption.
      * apply block_keys_text_set; [exact Hblk|exact Ek|exact Ht|].
        exact (proj1 (parse_value_keys n) _ _ _ HQ1 Hv).
    + destruct (is_op next_tok "{"); [|discriminate].
      apply bind_ok in H as ([sub ts2] & Hs & H).
      destruct (mem key blk) eqn:Ek; [discriminate|].
      eapply IHl; [| |exact H].
      * eapply consumes_Forall; [|exact HQ'].
        eapply (proj1 (parse_block_consumes n)), Hs.
      * apply block_keys_text_set; [exact Hblk|exact Ek|exact Ht|].
        apply block_keys_are_keys. exact (IHs _ _ _ HQ' Hs).
Qed.

Lemma parse_loop_keys (n : nat) (table : symbol_table) (ts : list token)
      (result : symbol_table) :
  well_formed ts -> table_keys_text table = true ->
  parse_loop n table ts = Ok result -> table_keys_text result = true.
Proof.
  revert table ts. induction n as [|n IH]; intros table ts HQ Ht H;
    [discriminate|].
  rewrite parse_loop_S in H.
  destruct ts as [|t ts1]; [now injection H as <-|].
  destruct t as [s|x|s|word]; try discriminate.
  destruct (String.eqb word "juego"); [|discriminate].
  destruct ts1 as [|t2 ts2]; [discriminate|].
  destruct t2 as [game_name|x|s|s]; try discriminate.
  apply bind_ok in H as ([root ts3] & Hb & H).
  destruct (mem game_name table) eqn:Ek; [discriminate|].
  assert (HQ1 : well_formed (STRING game_name :: ts2)) by now inversion HQ.
  assert (HQ2 : well_formed ts2) by now inversion HQ1.
  assert (Hg : well_formed_token (STRING game_name) = true)
    by now inversion HQ1.
  eapply IH; [| |exact H].
  - eapply consumes_Forall; [|exact HQ2].
    eapply (proj1 (parse_block_consumes n)), Hb.
  - rewrite (set_absent _ _ root Ek). unfold table_keys_text in *.
    rewrite forallb_app, Ht. cbn [forallb]. rewrite Hg.
    now rewrite (proj1 (parse_block_keys n) _ _ _ HQ2 Hb).
Qed.

(** The table of a text is writable. *)
Lemma parsed_text_writable (source : string) (table : symbol_table) :
  parse (tokenize source) = Ok table -> writable table = true.
Proof.
  intros H. unfold writable.
  rewrite (parse_unique_keys _ _ H).
  rewrite (parse_from_text _ _ (tokenize_well_formed source) H).
  cbn [andb].
  apply (parse_loop_keys (parse_fuel (tokenize source)) [] (tokenize source));
    [|reflexivity|exact H].
  apply Forall_forall, forallb_forall, tokenize_well_formed.
Qed.


(* ================================================================= *)
(** * The range of the tokenizer and of the parser *)

(* ----------------------------------------------------------------- *)
(** ** Lines *)

Section Lines.
Variable B : Type.
Variable f : string -> list B.
Hypothesis f_empty : f EmptyString = [].

Lemma lines_cons_break (c : ascii) (s : string) :
  is_linebreak c = true ->
  flat_map f (splitlines (String c s)) = flat_map f (splitlines s).
Proof.
  intros Hc. cbn [splitlines]. rewrite Hc.
  cbn [flat_map]. rewrite f_empty. cbn [app].
  destruct s as [|c' s']; [reflexivity|].
  destruct (Ascii.eqb c CR && Ascii.eqb c' LF) eqn:E; [|reflexivity].
  apply andb_true_iff in E as [_ E]. apply Ascii.eqb_eq in E. subst c'.
  cbn [splitlines]. change (is_linebreak LF) with true. cbn iota.
  cbn [flat_map]. rewrite f_empty. cbn [app].
  destruct s' as [|c'' s'']; [reflexivity|].
  change (Ascii.eqb LF CR) with false. reflexivity.
Qed.

Lemma lines_line (l : string) (c : ascii) (s : string) :
  all_chars not_linebreak l = true -> is_linebreak c = true ->
  flat_map f (splitlines (l ++ String c s))
  = (f l ++ flat_map f (splitlines s))%list.
Proof.
  intros Hl Hc.
  assert (H : exists tl, splitlines (l ++ String c s) = l :: tl
                         /\ flat_map f tl = flat_map f (splitlines s)).
  { induction l as [|x l IH].
    - cbn [append]. pose proof (lines_cons_break c s Hc) as E.
      cbn [splitlines] in *. rewrite Hc in *.
      eexists. split; [reflexivity|].
      cbn [flat_map] in E. rewrite f_empty in E. exact E.
    - cbn [all_chars] in Hl. apply andb_true_iff in Hl as [Hx Hl].
      destruct (IH Hl) as (tl & E & Ht). exists tl. split; [|exact Ht].
      cbn [append splitlines]. unfold not_linebreak in Hx.
      apply negb_true_iff in Hx. rewrite Hx, E. reflexivity. }
  destruct H as (tl & E & Ht). rewrite E. cbn [flat_map]. now rewrite Ht.
Qed.

Lemma lines_one (l : string) :
  all_chars not_linebreak l = true -> flat_map f (splitlines l) = f l.
Proof.
  intros Hl. destruct l as [|c l]; [now rewrite f_empty|].
  rewrite (splitlines_one _ Hl) by discriminate.
  cbn [flat_map]. apply app_nil_r.
Qed.

Lemma lines_app_break_fuel (n : nat) (a : string) (c : ascii) (b : string) :
  String.length a <= n -> is_linebreak c = true ->
  flat_map f (splitlines (a ++ String c b))
  = (flat_map f (splitlines a) ++ flat_map f (splitlines b))%list.
Proof.
  revert a. induction n as [|n IH]; intros a Hn Hc.
  - destruct a; [|simpl in Hn; lia]. cbn [append].
    now rewrite lines_cons_break.
  - destruct (span_split not_linebreak a) as [Ea Hs].
    pose proof (span_all not_linebreak a) as Hl.
    destruct (span not_linebreak a) as [l r]. cbn [fst snd] in *.
    destruct r as [|x r].
    + rewrite string_app_nil_r in Ea. subst l.
      rewrite (lines_line a c b Hl Hc). now rewrite (lines_one a Hl).
    + cbn [starts_with] in Hs. unfold not_linebreak in Hs.
      apply negb_false_iff in Hs.
      rewrite Ea, string_app_assoc. cbn [append].
      rewrite (lines_line l x _ Hl Hs), (lines_line l x r Hl Hs).
      rewrite <- app_assoc. f_equal. apply IH; [|exact Hc].
      rewrite Ea, string_app_length in Hn. simpl in Hn. lia.
Qed.

(** A line boundary separates what the lines before it give from what the
    lines after it give. *)
Lemma lines_app_break (a : string) (c : ascii) (b : string) :
  is_linebreak c = true ->
  flat_map f (splitlines (a ++ String c b))
  = (flat_map f (splitlines a) ++ flat_map f (splitlines b))%list.
Proof. apply (lines_app_break_fuel (String.length a)), Nat.le_refl. Qed.

End Lines.

Lemma integer_literals_app_break (a : string) (c : ascii) (b : string) :
  is_linebreak c = true ->
  integer_literals (a ++ String c b)
  = (integer_literals a ++ integer_literals b)%list.
Proof. intros Hc. now apply lines_app_break. Qed.

(** The tokenizer on two texts with a line boundary between them: the
    tokens of both, or the first error. *)
Lemma Tokenizer_tokenize_app_break (a : string) (c : ascii) (b : string) :
  is_linebreak c = true ->
  Tokenizer_tokenize (a ++ String c b)
  = (ts <- Tokenizer_tokenize a ;;
     ts' <- Tokenizer_tokenize b ;; Ok (ts ++ ts')%list).
Proof.
  intros Hc. rewrite !Tokenizer_tokenize_outcome.
  rewrite (integer_literals_app_break a c b Hc), find_app.
  rewrite (tokenize_app_break a c b Hc).
  destruct (find too_long (integer_literals a)); [reflexivity|].
  cbn [bind]. now destruct (find too_long (integer_literals b)).
Qed.

(* ----------------------------------------------------------------- *)
(** ** Integer literals and integer tokens *)

Lemma integer_literal_token (g : groups) :
  map (fun d => NUMBER (NInt (int_of_digits d))) (integer_literal g)
  = filter is_integer_token (token_of_group g).
Proof.
  destruct g as [[[g0 g1] g2] g3]. unfold integer_literal, token_of_group.
  destruct (truthy g0); [reflexivity|].
  destruct (truthy g1); cbn [andb].
  - now destruct (has_dot g1).
  - destruct (truthy g2); [reflexivity|]. now destruct (truthy g3).
Qed.

Lemma integer_literals_of_tokens (gs : list groups) :
  map (fun d => NUMBER (NInt (int_of_digits d))) (flat_map integer_literal gs)
  = filter is_integer_token (flat_map token_of_group gs).
Proof.
  induction gs as [|g gs IH]; [reflexivity|].
  cbn [flat_map]. now rewrite map_app, filter_app, IH, integer_literal_token.
Qed.

(** The integer tokens of a text are the conversions of its integer
    literals, one for one. *)
Lemma integer_literals_tokens (source : string) :
  map (fun d => NUMBER (NInt (int_of_digits d))) (integer_literals source)
  = filter is_integer_token (tokenize source).
Proof.
  unfold integer_literals, tokenize.
  induction (splitlines source) as [|l ls IH]; [reflexivity|].
  cbn [flat_map].
  now rewrite map_app, filter_app, IH, integer_literals_of_tokens,
    line_tokens_matches.
Qed.

(** A text whose only token is no integer: the tokenizer returns it. *)
Lemma Tokenizer_tokenize_one (text : string) (t : token) :
  tokenize text = [t] -> is_integer_token t = false ->
  Tokenizer_tokenize text = Ok [t].
Proof.
  intros Et Hi. rewrite Tokenizer_tokenize_outcome, Et.
  pose proof (integer_literals_tokens text) as E.
  rewrite Et in E. cbn [filter] in E. rewrite Hi in E.
  destruct (integer_literals text); [reflexivity|discriminate E].
Qed.

Lemma findall_fuel_groups (P : groups -> Prop) :
  (forall s g after, match_at s = Some (g, after) -> P g) ->
  forall fuel s, Forall P (findall_fuel fuel s).
Proof.
  intros HP fuel. induction fuel as [|fuel IH]; intros s; [constructor|].
  cbn [findall_fuel]. destruct s as [|c rest]; [constructor|].
  destruct (match_at (String c rest)) as [[g after]|] eqn:E.
  - constructor; [eapply HP; eassumption|apply IH].
  - apply IH.
Qed.

Lemma match_at_integer_literal (s : string) (g : groups) (after : string) :
  match_at s = Some (g, after) ->
  Forall (fun d => all_chars is_digit d = true) (integer_literal g).
Proof.
  destruct s as [|c rest]; [discriminate|]. unfold match_at.
  destruct (Ascii.eqb c dquote).
  { destruct (until_quote rest) as [[body a]|]; [|discriminate].
    intros H; injection H as <- _. unfold integer_literal.
    destruct (truthy body); constructor. }
  destruct (is_digit c) eqn:Hc.
  { pose proof (span_all is_digit (String c rest)) as Hall.
    destruct (span is_digit (String c rest)) as [d1 r1] eqn:Es.
    cbn [fst] in Hall.
    assert (Hint : Forall (fun d => all_chars is_digit d = true)
                     (integer_literal ("", d1, "", ""))).
    { unfold integer_literal. cbn [truthy].
      destruct (truthy d1 && negb (has_dot d1)); repeat constructor.
      exact Hall. }
    destruct r1 as [|c1 r2].
    - intros H; injection H as <- _. exact Hint.
    - destruct (Ascii.eqb c1 dot).
      + destruct (span is_digit r2) as [d2 r3].
        intros H; injection H as <- _. unfold integer_literal. cbn [truthy].
        rewrite has_dot_app. rewrite andb_false_r. constructor.
      + intros H; injection H as <- _. exact Hint. }
  destruct (is_operator_char c).
  { intros H; injection H as <- _. constructor. }
  destruct (is_word c); [|discriminate].
  destruct (span is_word (String c rest)) as [w r1].
  intros H; injection H as <- _. constructor.
Qed.

Lemma Forall_flat_map {A C : Type} (P : C -> Prop) (f : A -> list C)
      (l : list A) :
  Forall (fun x => Forall P (f x)) l -> Forall P (flat_map f l).
Proof.
  induction 1 as [|x l Hx Hl IH]; [constructor|].
  cbn [flat_map]. apply Forall_app. now split.
Qed.

(** Every integer literal is made of digits. *)
Lemma integer_literals_digits (source : string) :
  Forall (fun d => all_chars is_digit d = true) (integer_literals source).
Proof.
  unfold integer_literals. apply Forall_flat_map.
  apply Forall_forall. intros line _. apply Forall_flat_map.
  unfold line_matches.
  destruct (truthy _); [|constructor].
  apply (findall_fuel_groups
           (fun g => Forall (fun d => all_chars is_digit d = true)
                       (integer_literal g))).
  apply match_at_integer_literal.
Qed.

(* ----------------------------------------------------------------- *)
(** ** The size of an integer *)

Lemma int_of_digits_acc_lt (d : string) (acc : Z) :
  all_chars is_digit d = true -> (0 <= acc)%Z ->
  (int_of_digits_acc acc d < (acc + 1) * 10 ^ Z.of_nat (String.length d))%Z.
Proof.
  revert acc. induction d as [|c d IH]; intros acc Hd Hacc.
  - cbn [int_of_digits_acc String.length]. change (10 ^ Z.of_nat 0)%Z with 1%Z.
    lia.
  - cbn [all_chars] in Hd. apply andb_true_iff in Hd as [Hc Hd].
    apply digit_bounds in Hc.
    cbn [int_of_digits_acc String.length].
    rewrite Nat2Z.inj_succ, Z.pow_succ_r by lia.
    specialize (IH (10 * acc + (Z.of_nat (code c) - 48))%Z Hd ltac:(lia)).
    pose proof (Z.pow_pos_nonneg 10 (Z.of_nat (String.length d))
                  ltac:(lia) ltac:(lia)) as Hp.
    nia.
Qed.

Lemma int_of_digits_lt (d : string) :
  all_chars is_digit d = true ->
  (int_of_digits d < 10 ^ Z.of_nat (String.length d))%Z.
Proof.
  intros Hd. pose proof (int_of_digits_acc_lt d 0 Hd ltac:(lia)) as H.
  unfold int_of_digits. lia.
Qed.

(** An integer [int] has made is below ten to the limit of [int]. *)
Lemma int_of_digits_within (d : string) :
  all_chars is_digit d = true -> too_long d = false ->
  (int_of_digits d < 10 ^ Z.of_nat int_max_str_digits)%Z.
Proof.
  intros Hd Hl. unfold too_long in Hl. apply Nat.ltb_ge in Hl.
  eapply Z.lt_le_trans; [apply (int_of_digits_lt d Hd)|].
  apply Z.pow_le_mono_r; lia.
Qed.

(** Every integer that is not negative is written by digits, and by no
    more of them than its size asks for. *)
Lemma digits_of_within_fuel (n : nat) (z : Z) :
  (0 <= z)%Z -> (Z.to_nat z < n)%nat ->
  exists d, digits d /\ int_of_digits d = z
            /\ forall k, 1 <= k -> (z < 10 ^ Z.of_nat k)%Z ->
                         String.length d <= k.
Proof.
  revert z. induction n as [|n IH]; intros z Hz Hn; [lia|].
  destruct (Z.ltb_spec z 10) as [Hlt|Hge].
  - destruct (digit_char z ltac:(lia)) as (c & Hc & Ev).
    exists (String c ""). split; [|split].
    + split; [discriminate|]. cbn [all_chars]. now rewrite Hc.
    + unfold int_of_digits. cbn [int_of_digits_acc]. lia.
    + intros k Hk _. exact Hk.
  - pose proof (Z.div_mod z 10 ltac:(lia)) as Hdm.
    pose proof (Z.mod_pos_bound z 10 ltac:(lia)) as Hr.
    assert (Hq : (0 <= z / 10 < z)%Z).
    { split; [apply Z.div_pos; lia|apply Z.div_lt; lia]. }
    destruct (IH (z / 10)%Z ltac:(lia) ltac:(lia))
      as (d & [Hne Hd] & Ed & Hlen).
    destruct (digit_char (z mod 10) Hr) as (c & Hc & Ev).
    exists (d ++ String c ""). split; [|split].
    + split.
      * destruct d; [congruence|discriminate].
      * rewrite all_chars_app, Hd. cbn [all_chars]. now rewrite Hc.
    + unfold int_of_digits in *. rewrite int_of_digits_acc_app, Ed.
      cbn [int_of_digits_acc]. lia.
    + intros k Hk Hz10. rewrite string_app_length. cbn [String.length].
      destruct k as [|[|k]]; [lia| |].
      * change (10 ^ Z.of_nat 1)%Z with 10%Z in Hz10. lia.
      * specialize (Hlen (S k) ltac:(lia)).
        rewrite (Nat2Z.inj_succ (S k)), Z.pow_succ_r in Hz10 by lia.
        assert (Hd10 : (z / 10 < 10 ^ Z.of_nat (S k))%Z).
        { apply Z.div_lt_upper_bound; lia. }
        specialize (Hlen Hd10). lia.
Qed.

Lemma digits_of_within (z : Z) :
  (0 <= z)%Z ->
  exists d, digits d /\ int_of_digits d = z
            /\ forall k, 1 <= k -> (z < 10 ^ Z.of_nat k)%Z ->
                         String.length d <= k.
Proof.
  intros H. apply (digits_of_within_fuel (S (Z.to_nat z))); [exact H|lia].
Qed.

(* ----------------------------------------------------------------- *)
(** ** The characters of the tokens *)

Lemma splitlines_all_fuel (p : ascii -> bool) (n : nat) (s : string) :
  String.length s <= n -> all_chars p s = true ->
  Forall (fun l => all_chars p l = true) (splitlines s).
Proof.
  revert s. induction n as [|n IH]; intros s Hn Hs.
  - destruct s; [constructor|simpl in Hn; lia].
  - destruct s as [|c s]; [constructor|]. simpl in Hn.
    cbn [all_chars] in Hs. apply andb_true_iff in Hs as [Hc Hs].
    cbn [splitlines]. destruct (is_linebreak c).
    + constructor; [reflexivity|].
      destruct s as [|c' s']; [constructor|].
      destruct (Ascii.eqb c CR && Ascii.eqb c' LF).
      * cbn [all_chars] in Hs. apply andb_true_iff in Hs as [_ Hs].
        apply IH; [simpl in Hn; lia|exact Hs].
      * apply IH; [lia|exact Hs].
    + pose proof (IH s ltac:(lia) Hs) as H.
      destruct (splitlines s) as [|l ls].
      * repeat constructor. cbn [all_chars]. now rewrite Hc.
      * inversion H as [|? ? Hl Hls]; subst. constructor; [|exact Hls].
        cbn [all_chars]. now rewrite Hc, Hl.
Qed.

Lemma splitlines_all (p : ascii -> bool) (s : string) :
  all_chars p s = true ->
  Forall (fun l => all_chars p l = true) (splitlines s).
Proof. apply (splitlines_all_fuel p (String.length s)), Nat.le_refl. Qed.

(** What holds of the tokens of every match in a text of characters [p]
    holds of every token of such a text. *)
Lemma tokenize_forall_chars (p : ascii -> bool) (P : token -> Prop) :
  (forall s g after, all_chars p s = true -> match_at s = Some (g, after) ->
                     Forall P (token_of_group g)) ->
  forall source, all_chars p source = true -> Forall P (tokenize source).
Proof.
  intros HP source Hs. unfold tokenize.
  pose proof (splitlines_all p source Hs) as HL.
  induction (splitlines source) as [|line ls IH]; [constructor|].
  inversion HL as [|? ? Hl Hls]; subst.
  cbn [flat_map]. apply Forall_app. split; [|now apply IH].
  rewrite line_tokens_strip_loop.
  apply (scan_forall p P HP).
  apply all_chars_strip_loop. unfold rstrip_newline.
  now apply all_chars_rstrip_by.
Qed.

Lemma match_at_string_chars (p : ascii -> bool) (s : string) (g : groups)
      (after : string) :
  all_chars p s = true -> match_at s = Some (g, after) ->
  Forall (fun t => match t with
                   | STRING body => all_chars p body = true
                   | _ => True
                   end) (token_of_group g).
Proof.
  destruct s as [|c rest]; [discriminate|]. intros Hs. unfold match_at.
  cbn [all_chars] in Hs. apply andb_true_iff in Hs as [_ Hrest].
  destruct (Ascii.eqb c dquote).
  { destruct (until_quote rest) as [[body a]|] eqn:E; [|discriminate].
    intros H; injection H as <- _. unfold token_of_group.
    destruct (truthy body); repeat constructor.
    now apply (proj2 (until_quote_body p rest body a E)). }
  destruct (is_digit c).
  { destruct (span is_digit (String c rest)) as [d1 r1].
    assert (Hn : forall x, Forall (fun t => match t with
                                          | STRING body => all_chars p body = true
                                          | _ => True
                                          end) (token_of_group ("", x, "", ""))).
    { intros x. unfold token_of_group. cbn [truthy].
      destruct (truthy x); [destruct (has_dot x)|]; repeat constructor. }
    destruct r1 as [|c1 r2]; [intros H; injection H as <- _; apply Hn|].
    destruct (Ascii.eqb c1 dot).
    - destruct (span is_digit r2) as [d2 r3].
      intros H; injection H as <- _. apply Hn.
    - intros H; injection H as <- _. apply Hn. }
  destruct (is_operator_char c).
  { intros H; injection H as <- _. repeat constructor. }
  destruct (is_word c); [|discriminate].
  destruct (span is_word (String c rest)) as [w r1].
  intros H; injection H as <- _. unfold token_of_group. cbn [truthy].
  destruct (truthy w); repeat constructor.
Qed.

(** What the tokenizer returns on ASCII text are tokens of ASCII text. *)
Lemma Tokenizer_tokenize_of_text (source : string) (ts : list token) :
  ascii_text source = true -> Tokenizer_tokenize source = Ok ts ->
  forallb token_of_text ts = true.
Proof.
  intros Ha H. pose proof H as Hout.
  apply Tokenizer_tokenize_ok in H. subst ts.
  rewrite Tokenizer_tokenize_outcome in Hout.
  destruct (find too_long (integer_literals source)) eqn:Ef; [discriminate|].
  pose proof (tokenize_well_formed source) as Hw.
  rewrite forallb_forall in Hw.
  pose proof (tokenize_forall_chars is_ascii _
                (match_at_string_chars is_ascii) source Ha) as Hs.
  rewrite Forall_forall in Hs.
  apply forallb_forall. intros t Hin. unfold token_of_text.
  rewrite (Hw t Hin). cbn [andb].
  destruct t as [s|[z|x]|s|s]; try reflexivity.
  - exact (Hs _ Hin).
  - cbn [within_text].
    assert (Hf : In (NUMBER (NInt z))
                   (filter is_integer_token (tokenize source))).
    { apply filter_In. now split. }
    rewrite <- integer_literals_tokens in Hf.
    apply in_map_iff in Hf as (d & Ed & Hd). injection Ed as <-.
    apply Z.ltb_lt. apply int_of_digits_within.
    + pose proof (integer_literals_digits source) as HF.
      rewrite Forall_forall in HF. now apply HF.
    + exact (find_none _ _ Ef d Hd).
Qed.

(* ----------------------------------------------------------------- *)
(** ** A text for every token *)

Lemma word_ascii (c : ascii) : is_word c = true -> is_ascii c = true.
Proof.
  destruct c as [[] [] [] [] [] [] [] []]; vm_compute;
    intros H; first [reflexivity | discriminate H].
Qed.

Lemma digit_or_dot_ascii (c : ascii) : digit_or_dot c = true -> is_ascii c = true.
Proof.
  destruct c as [[] [] [] [] [] [] [] []]; vm_compute;
    intros H; first [reflexivity | discriminate H].
Qed.

(** Every token of ASCII text is the only token of some ASCII line. *)
Lemma token_ascii_text (t : token) :
  token_of_text t = true ->
  exists text, ascii_text text = true /\ Tokenizer_tokenize text = Ok [t].
Proof.
  unfold token_of_text. intros H. apply andb_true_iff in H as [Hw H].
  destruct t as [s|[z|x]|s|s]; cbn [within_text] in H.
  - exists (q s). split.
    + unfold q, ascii_text. cbn [all_chars]. rewrite all_chars_app.
      unfold ascii_text in H. now rewrite H.
    + apply Tokenizer_tokenize_one; [now apply tokenize_string|reflexivity].
  - cbn [well_formed_token] in Hw. apply Z.leb_le in Hw. apply Z.ltb_lt in H.
    destruct (digits_of_within z Hw) as (d & Hd & <- & Hlen).
    exists d. split; [apply digits_ascii, Hd|].
    rewrite (Tokenizer_tokenize_int d Hd), int_within; [reflexivity|].
    apply Hlen; [unfold int_max_str_digits; lia|exact H].
  - pose proof Hw as Hx. cbn [well_formed_token] in Hx.
    apply andb_true_iff in Hx as [Hx _]. apply andb_true_iff in Hx as [_ Hx].
    destruct (float_text_shape x Hw) as (d1 & d2 & Hd1 & Hd2 & ->).
    exists (d1 ++ String dot d2). split.
    + eapply all_chars_impl; [apply digit_or_dot_ascii|exact Hx].
    + apply Tokenizer_tokenize_one; [|reflexivity].
      rewrite tokenize_plain.
      * rewrite <- (string_app_nil_r d2) at 1.
        now rewrite (scan_float d1 d2 "" Hd1 Hd2).
      * rewrite all_chars_app. cbn [all_chars]. rewrite dot_plain.
        now rewrite (digits_plain d1 (proj2 Hd1)), (digits_plain d2 Hd2).
  - exists s. cbn [well_formed_token operators existsb] in Hw.
    repeat (apply orb_true_iff in Hw as [Hw|Hw];
            [apply String.eqb_eq in Hw; subst s; split; reflexivity|]).
    discriminate.
  - exists s. split.
    + cbn [well_formed_token] in Hw.
      apply andb_true_iff in Hw as [Hw _]. apply andb_true_iff in Hw as [_ Hw].
      eapply all_chars_impl; [apply word_ascii|exact Hw].
    + apply Tokenizer_tokenize_one; [now apply tokenize_identifier|reflexivity].
Qed.

(** Every sequence of tokens of ASCII text is what the tokenizer returns on
    some ASCII text: each token on a line of its own. *)
Lemma tokens_ascii_text (ts : list token) :
  forallb token_of_text ts = true ->
  exists source, ascii_text source = true /\ Tokenizer_tokenize source = Ok ts.
Proof.
  induction ts as [|t ts IH]; [now exists EmptyString|].
  cbn [forallb]. intros H. apply andb_true_iff in H as [Ht Hts].
  destruct (token_ascii_text t Ht) as (text & Ha & Et).
  destruct (IH Hts) as (source & Has & Es).
  exists (text ++ String LF source). split.
  - unfold ascii_text in *. rewrite all_chars_app. cbn [all_chars].
    now rewrite Ha, Has.
  - rewrite Tokenizer_tokenize_app_break by reflexivity.
    now rewrite Et, Es.
Qed.

(* ----------------------------------------------------------------- *)
(** ** The tables of ASCII text *)

Lemma forallb_token_of_text (ts : list token) :
  forallb token_of_text ts
  = forallb well_formed_token ts && forallb within_text ts.
Proof.
  induction ts as [|t ts IH]; [reflexivity|].
  cbn [forallb]. rewrite IH. unfold token_of_text.
  destruct (well_formed_token t), (within_text t),
    (forallb well_formed_token ts); reflexivity.
Qed.

Lemma write_value_within (v : value) :
  value_of_text v = true -> forallb within_text (write_value v) = true.
Proof.
  induction v as [s|z|x|b|l IH|d IH] using value_induction;
    cbn [value_of_text write_value]; intros Hv.
  - cbn [forallb within_text]. now rewrite Hv.
  - cbn [forallb within_text]. now rewrite Hv.
  - reflexivity.
  - now destruct b.
  - cbn [forallb within_text]. rewrite forallb_app. cbn [forallb within_text].
    rewrite andb_true_r. apply forallb_flat_map.
    rewrite forallb_forall in Hv. rewrite Forall_forall in IH |- *.
    intros x Hx. apply IH; auto.
  - cbn [forallb within_text]. rewrite forallb_app. cbn [forallb within_text].
    rewrite andb_true_r. apply forallb_flat_map.
    rewrite forallb_forall in Hv. rewrite Forall_forall in IH |- *.
    intros [k x] Hx. specialize (Hv _ Hx).
    apply andb_true_iff in Hv as [Hk Hvx].
    cbn [forallb within_text]. rewrite Hk. cbn [andb].
    exact (IH _ Hx Hvx).
Qed.

Lemma write_table_within (table : symbol_table) :
  table_within_text table = true ->
  forallb within_text (write_table table) = true.
Proof.
  unfold table_within_text, write_table. intros H.
  apply forallb_flat_map. rewrite forallb_forall in H. apply Forall_forall.
  intros [name blk] Hx. specialize (H _ Hx).
  apply andb_true_iff in H as [Hn Hb].
  cbn [write_entity forallb within_text]. rewrite Hn. cbn [andb].
  unfold write_block. cbn [forallb within_text]. rewrite forallb_app.
  cbn [forallb within_text]. rewrite andb_true_r. apply forallb_flat_map.
  cbn [value_of_text] in Hb. rewrite forallb_forall in Hb.
  apply Forall_forall. intros [k x] Hkx. specialize (Hb _ Hkx).
  apply andb_true_iff in Hb as [_ Hv].
  cbn [write_assignment forallb within_text].
  now apply write_value_within.
Qed.

(** The tokens that write a table of ASCII text are tokens of ASCII
    text. *)
Lemma write_table_of_text (table : symbol_table) :
  table_of_text table = true ->
  forallb token_of_text (write_table table) = true.
Proof.
  unfold table_of_text, writable. intros H.
  apply andb_true_iff in H as [H Hw]. apply andb_true_iff in H as [H Hk].
  apply andb_true_iff in H as [_ Hf].
  rewrite forallb_token_of_text, (write_table_well_formed table Hf Hk).
  now rewrite (write_table_within table Hw).
Qed.

Lemma of_text_well_formed (ts : list token) : of_text ts -> well_formed ts.
Proof.
  unfold of_text, well_formed. intros H.
  eapply Forall_impl; [|exact H]. intros t Ht.
  unfold token_of_text in Ht. now apply andb_true_iff in Ht as [Ht _].
Qed.

Lemma map_key_ascii (t : token) (k : string) :
  token_of_text t = true -> map_key t = Some k -> ascii_text k = true.
Proof.
  unfold token_of_text. intros H. apply andb_true_iff in H as [Hw H].
  destruct t as [s|x|s|s]; cbn [map_key]; intros E; try discriminate;
    injection E as <-; [exact H|].
  cbn [well_formed_token] in Hw.
  apply andb_true_iff in Hw as [Hw _]. apply andb_true_iff in Hw as [_ Hw].
  eapply all_chars_impl; [apply word_ascii|exact Hw].
Qed.

Lemma value_of_text_set (d : dict) (k : string) (v : value) :
  value_of_text (VDict d) = true -> mem k d = false ->
  ascii_text k = true -> value_of_text v = true ->
  value_of_text (VDict (set d k v)) = true.
Proof.
  intros Hd Hk Hkk Hv. rewrite (set_absent _ _ v Hk).
  cbn [value_of_text] in *. rewrite forallb_app, Hd. cbn [forallb].
  now rewrite Hkk, Hv.
Qed.

Lemma of_text_rest (n : nat) (ts : list token) v rest :
  of_text ts -> parse_value n ts = Ok (v, rest) -> of_text rest.
Proof.
  intros HQ H. eapply consumes_Forall; [|exact HQ].
  eapply consumes_value_consumes, (proj1 (parse_value_consumes n)), H.
Qed.

(** The strings, integers and keys of the values the parser builds are
    those of its tokens. *)
Lemma parse_value_of_text (n : nat) :
  (forall ts v rest,
      of_text ts -> parse_value n ts = Ok (v, rest) ->
      value_of_text v = true)
  /\ (forall ts l rest,
         of_text ts -> parse_list n ts = Ok (l, rest) ->
         forallb value_of_text l = true)
  /\ (forall lst ts l rest,
         of_text ts -> forallb value_of_text lst = true ->
         parse_list_loop n lst ts = Ok (l, rest) ->
         forallb value_of_text l = true)
  /\ (forall ts m rest,
         of_text ts -> parse_map n ts = Ok (m, rest) ->
         value_of_text (VDict m) = true)
  /\ (forall mp ts m rest,
         of_text ts -> value_of_text (VDict mp) = true ->
         parse_map_loop n mp ts = Ok (m, rest) ->
         value_of_text (VDict m) = true).
Proof.
  induction n as [|n (IHv & IHl & IHll & IHm & IHml)].
  { repeat split; intros; discriminate. }
  split; [|split; [|split; [|split]]].
  - intros ts v rest HQ H. rewrite parse_value_S in H.
    destruct ts as [|t ts']; [discriminate|].
    assert (Ht : token_of_text t = true) by now inversion HQ.
    unfold token_of_text in Ht. apply andb_true_iff in Ht as [_ Ht].
    destruct t as [s|[z|x]|s|s].
    + injection H as <- _. exact Ht.
    + injection H as <- _. exact Ht.
    + now injection H as <- _.
    + destruct (String.eqb s "[").
      { apply bind_ok in H as ([l r] & Hl & H). injection H as <- _.
        cbn [value_of_text]. eapply IHl; eassumption. }
      destruct (String.eqb s "{"); [|discriminate].
      apply bind_ok in H as ([m r] & Hm & H). injection H as <- _.
      eapply IHm; eassumption.
    + destruct (is_bool_word s); [|discriminate]. now injection H as <- _.
  - intros ts l rest HQ H. rewrite parse_list_S in H.
    apply bind_ok in H as ([t ts1] & He & H).
    apply expect_operator_ok in He. subst ts.
    apply (IHll [] ts1 l rest); [now inversion HQ|reflexivity|exact H].
  - intros lst ts l rest HQ Hlst H. rewrite parse_list_loop_S in H.
    destruct ts as [|tok ts']; [discriminate|].
    destruct (is_op tok "]"); [now injection H as <- _|].
    destruct (bare_identifier tok); [discriminate|].
    apply bind_ok in H as ([v ts1] & Hv & H).
    eapply IHll; [| |exact H].
    + apply skip_comma_Forall. eapply of_text_rest; eassumption.
    + rewrite forallb_app, Hlst. cbn [forallb].
      now rewrite (IHv _ _ _ HQ Hv).
  - intros ts m rest HQ H. rewrite parse_map_S in H.
    apply bind_ok in H as ([t ts1] & He & H).
    apply expect_operator_ok in He. subst ts.
    apply (IHml [] ts1 m rest); [now inversion HQ|reflexivity|exact H].
  - intros mp ts m rest HQ Hmp H. rewrite parse_map_loop_S in H.
    destruct ts as [|t ts']; [discriminate|].
    assert (HQ' : of_text ts') by now inversion HQ.
    assert (Ht : token_of_text t = true) by now inversion HQ.
    destruct (is_op t "}"); [now injection H as <- _|].
    destruct (is_op t ","); [eapply IHml; eassumption|].
    destruct (map_key t) as [k|] eqn:Ek; [|discriminate].
    apply bind_ok in H as ([sep ts1] & Hs & H).
    apply expect_kv_sep_ok in Hs as [-> _].
    apply bind_ok in H as ([v ts2] & Hv & H).
    destruct (mem k mp) eqn:Em; [discriminate|].
    assert (HQ1 : of_text ts1) by now inversion HQ'.
    eapply IHml; [| |exact H].
    + eapply of_text_rest; eassumption.
    + apply value_of_text_set; [exact Hmp|exact Em| |].
      * eapply map_key_ascii; eassumption.
      * exact (IHv _ _ _ HQ1 Hv).
Qed.

Lemma parse_block_of_text (n : nat) :
  (forall ts b rest,
      of_text ts -> parse_block_section n ts = Ok (b, rest) ->
      value_of_text (VDict b) = true)
  /\ (forall blk ts b rest,
         of_text ts -> value_of_text (VDict blk) = true ->
         parse_block_loop n blk ts = Ok (b, rest) ->
         value_of_text (VDict b) = true).
Proof.
  induction n as [|n (IHs & IHl)].
  { split; intros; discriminate. }
  split.
  - intros ts b rest HQ H. rewrite parse_block_section_S in H.
    apply bind_ok in H as ([t ts1] & He & H).
    apply expect_operator_ok in He. subst ts.
    apply (IHl [] ts1 b rest); [now inversion HQ|reflexivity|exact H].
  - intros blk ts b rest HQ Hblk H. rewrite parse_block_loop_S in H.
    destruct ts as [|tok ts']; [discriminate|].
    assert (HQ' : of_text ts') by now inversion HQ.
    assert (Ht : token_of_text tok = true) by now inversion HQ.
    destruct (is_op tok "}"); [now injection H as <- _|].
    destruct tok as [s|x|s|key]; try discriminate.
    assert (Hkey : ascii_text key = true)
      by (apply (map_key_ascii (IDENTIFIER key)); [exact Ht|reflexivity]).
    destruct ts' as [|next_tok rest']; [discriminate|].
    assert (HQ1 : of_text rest') by now inversion HQ'.
    destruct (is_op next_tok "=").
    + apply bind_ok in H as ([v ts2] & Hv & H).
      destruct (mem key blk) eqn:Ek; [discriminate|].
      eapply IHl; [| |exact H].
      * eapply of_text_rest; eassumption.
      * apply value_of_text_set; [exact Hblk|exact Ek|exact Hkey|].
        exact (proj1 (parse_value_of_text n) _ _ _ HQ1 Hv).
    + destruct (is_op next_tok "{"); [|discriminate].
      apply bind_ok in H as ([sub ts2] & Hs & H).
      destruct (mem key blk) eqn:Ek; [discriminate|].
      eapply IHl; [| |exact H].
      * eapply consumes_Forall; [|exact HQ'].
        eapply (proj1 (parse_block_consumes n)), Hs.
      * apply value_of_text_set; [exact Hblk|exact Ek|exact Hkey|].
        exact (IHs _ _ _ HQ' Hs).
Qed.

Lemma parse_loop_of_text (n : nat) (table : symbol_table) (ts : list token)
      (result : symbol_table) :
  of_text ts -> table_within_text table = true ->
  parse_loop n table ts = Ok result -> table_within_text result = true.
Proof.
  revert table ts. induction n as [|n IH]; intros table ts HQ Ht H;
    [discriminate|].
  rewrite parse_loop_S in H.
  destruct ts as [|t ts1]; [now injection H as <-|].
  destruct t as [s|x|s|word]; try discriminate.
  destruct (String.eqb word "juego"); [|discriminate].
  destruct ts1 as [|t2 ts2]; [discriminate|].
  destruct t2 as [game_name|x|s|s]; try discriminate.
  apply bind_ok in H as ([root ts3] & Hb & H).
  destruct (mem game_name table) eqn:Ek; [discriminate|].
  assert (HQ1 : of_text (STRING game_name :: ts2)) by now inversion HQ.
  assert (HQ2 : of_text ts2) by now inversion HQ1.
  assert (Hg : ascii_text game_name = true).
  { apply (map_key_ascii (STRING game_name)); [now inversion HQ1|reflexivity]. }
  eapply IH; [| |exact H].
  - eapply consumes_Forall; [|exact HQ2].
    eapply (proj1 (parse_block_consumes n)), Hb.
  - rewrite (set_absent _ _ root Ek). unfold table_within_text in *.
    rewrite forallb_app. apply andb_true_iff. split; [exact Ht|].
    cbn [forallb]. rewrite Hg.
    now rewrite (proj1 (parse_block_of_text n) _ _ _ HQ2 Hb).
Qed.

(** The table of an ASCII text that the tokenizer returns on is a table of
    ASCII text. *)
Lemma parsed_table_of_text (source : string) (ts : list token)
      (table : symbol_table) :
  ascii_text source = true -> Tokenizer_tokenize source = Ok ts ->
  parse ts = Ok table -> table_of_text table = true.
Proof.
  intros Ha Ht H. pose proof (Tokenizer_tokenize_of_text source ts Ha Ht) as Hts.
  apply Tokenizer_tokenize_ok in Ht. subst ts.
  unfold table_of_text. rewrite (parsed_text_writable source table H).
  cbn [andb].
  apply (parse_loop_of_text (parse_fuel (tokenize source)) [] (tokenize source));
    [|reflexivity|exact H].
  apply Forall_forall, forallb_forall, Hts.
Qed.


(* ================================================================= *)
(** * The syntax of maps *)

Lemma parse_map_loop_comma (n : nat) (mp : dict) (ts : list token) :
  parse_map_loop (S n) mp (OPERATOR "," :: ts) = parse_map_loop n mp ts.
Proof. reflexivity. Qed.

Lemma parse_map_loop_commas (c : nat) (n : nat) (mp : dict)
      (ts : list token) r :
  parse_map_loop n mp ts = Ok r ->
  parse_map_loop (c + n) mp (repeat (OPERATOR ",") c ++ ts) = Ok r.
Proof.
  intros H. induction c as [|c IH]; [exact H|].
  cbn [repeat app plus]. now rewrite parse_map_loop_comma.
Qed.

Lemma parse_map_loop_styled (n : nat) (mp : dict) (st : pair_style)
      (k : string) (ts : list token) :
  parse_map_loop (S n) mp
    ((if bare_key st then IDENTIFIER k else STRING k)
       :: OPERATOR (if equals st then "=" else ":") :: ts)
  = ('(v, ts2) <- parse_value n ts ;;
     if mem k mp then Raise (SyntaxError (DuplicateMapKey k))
     else parse_map_loop n (set mp k v) ts2).
Proof. destruct (bare_key st), (equals st); reflexivity. Qed.

(** The pairs of a map, in any style, are read as the same map. *)
Lemma styled_map_parse (d : dict) :
  forallb (fun kv => let '(_, x) := kv in unique_keysb x) d = true ->
  forall sts c acc rest,
    List.length sts = List.length d ->
    nodupb (keys (acc ++ d)) = true ->
    exists n,
      parse_map_loop n acc
        (styled_pairs sts d ++ repeat (OPERATOR ",") c
           ++ OPERATOR "}" :: rest)
      = Ok ((acc ++ d)%list, rest).
Proof.
  induction d as [|[k v] d IH]; intros Hu sts c acc rest Hlen Hn.
  - destruct sts; [|discriminate]. cbn [styled_pairs app].
    exists (c + 1). rewrite app_nil_r. now apply parse_map_loop_commas.
  - destruct sts as [|st sts]; [discriminate|]. injection Hlen as Hlen.
    cbn [forallb] in Hu. apply andb_true_iff in Hu as [Huv Hud].
    destruct (nodupb_keys_mid acc d k v Hn) as [Hk Hn'].
    cbn [styled_pairs styled_pair]. rewrite <- !app_assoc. cbn [app].
    set (rest' := (styled_pairs sts d ++ repeat (OPERATOR ",") c
                     ++ OPERATOR "}" :: rest)%list).
    destruct (write_value_parse v Huv rest') as [n1 H1].
    destruct (IH Hud sts c (acc ++ [(k, v)])%list rest Hlen Hn')
      as [n2 H2]. fold rest' in H2.
    exists (commas st + S (Nat.max n1 n2)).
    apply parse_map_loop_commas. rewrite parse_map_loop_styled.
    rewrite (parse_value_lift n1 _ _ _ H1) by lia. cbn [bind].
    rewrite Hk, (set_absent _ _ v Hk).
    rewrite (parse_map_loop_lift n2 _ _ _ _ H2) by lia.
    now rewrite <- app_assoc.
Qed.

Lemma one_binding_value (g k : string) (v : value) (tokens : list token)
      (n : nat) :
  parse_value n (tokens ++ [OPERATOR "}"]) = Ok (v, [OPERATOR "}"]) ->
  parse (one_binding g k (OPERATOR "=" :: tokens)) = Ok [(g, [(k, v)])].
Proof.
  intros H. apply (parse_of_loop (S (S (S (S n))))).
  unfold one_binding. cbn [app].
  rewrite parse_loop_juego, parse_block_section_open.
  rewrite parse_block_loop_assign.
  rewrite (parse_value_lift n _ _ _ H) by lia. reflexivity.
Qed.

Lemma parse_block_loop_section (n : nat) (blk : dict) (key : string)
      (ts : list token) :
  parse_block_loop (S n) blk (IDENTIFIER key :: OPERATOR "{" :: ts)
  = ('(sub_block, ts2) <- parse_block_section n (OPERATOR "{" :: ts) ;;
     if mem key blk then Raise (SyntaxError (RedefinedSection key))
     else parse_block_loop n (set blk key (VDict sub_block)) ts2).
Proof. reflexivity. Qed.

Lemma one_binding_section (g k : string) (d : dict) :
  unique_keysb (VDict d) = true ->
  parse (one_binding g k (write_block d)) = Ok [(g, [(k, VDict d)])].
Proof.
  intros Hu.
  destruct (write_block_parse d [OPERATOR "}"] Hu) as [n H].
  apply (parse_of_loop (S (S (S (S n))))).
  unfold one_binding, write_block in *. cbn [app] in *.
  rewrite parse_loop_juego, parse_block_section_open.
  rewrite parse_block_loop_section.
  rewrite (parse_block_section_lift n _ _ _ H) by lia. reflexivity.
Qed.

Lemma skip_comma_listed (l : list (value * bool)) (comma : bool)
      (rest : list token) :
  skip_comma ((if comma then [OPERATOR ","] else [])
                ++ listed l ++ OPERATOR "]" :: rest)
  = (listed l ++ OPERATOR "]" :: rest)%list.
Proof.
  destruct comma; [reflexivity|]. cbn [app].
  destruct l as [|[v c] l]; [reflexivity|]. cbn [listed].
  destruct (write_value_head v) as (t & tl & E & Ht). rewrite E.
  cbn [app skip_comma].
  destruct (value_start_not t Ht) as (_ & Hc & _). now rewrite Hc.
Qed.

(** The elements of a list, with or without commas, are read as the same
    list. *)
Lemma listed_parse (l : list (value * bool)) :
  forallb unique_keysb (map fst l) = true ->
  forall acc rest,
  exists n,
    parse_list_loop n acc (listed l ++ OPERATOR "]" :: rest)
    = Ok ((acc ++ map fst l)%list, rest).
Proof.
  induction l as [|[v comma] l IH]; intros Hu acc rest.
  - exists 1. cbn [map]. now rewrite app_nil_r.
  - cbn [map fst forallb] in Hu. apply andb_true_iff in Hu as [Huv Hul].
    cbn [listed map fst]. rewrite <- !app_assoc.
    set (rest' := ((if comma then [OPERATOR ","] else [])
                     ++ listed l ++ OPERATOR "]" :: rest)%list).
    destruct (write_value_parse v Huv rest') as [n1 H1].
    destruct (IH Hul (acc ++ [v])%list rest) as [n2 H2].
    exists (S (Nat.max n1 n2)). rewrite parse_list_loop_S.
    destruct (write_value_head v) as (t & tl & E & Ht).
    destruct (value_start_not t Ht) as (Hb & _ & Hi).
    rewrite E in *. cbn [app] in *. rewrite Hb, Hi.
    rewrite (parse_value_lift n1 _ _ _ H1) by lia. cbn [bind].
    unfold rest'. rewrite skip_comma_listed.
    rewrite (parse_list_loop_lift n2 _ _ _ _ H2) by lia.
    now rewrite <- app_assoc.
Qed.


(* ================================================================= *)
(** * The claims *)

(* ----------------------------------------------------------------- *)
(** C1: on a snake entity whose [rejilla] is bound to a number the parse
    succeeds and [validate_all] raises [AttributeError]: no record is
    produced.  So do [validate_snake] and [validate_tetris] on every block
    that has their three sections and binds [rejilla] to anything but a
    block. *)
Theorem scalar_section_raises :
  parse (tokenize scalar_section_text) = Ok scalar_section_table
  /\ validate_all scalar_section_table
     = Raise (AttributeError (VInt 1) "get")
  /\ (forall cfg v,
         get cfg "rejilla" = Some v -> (forall d, v <> VDict d) ->
         mem "velocidad" cfg = true -> mem "controles" cfg = true ->
         validate_snake cfg = Raise (AttributeError v "get"))
  /\ (forall cfg v,
         get cfg "rejilla" = Some v -> (forall d, v <> VDict d) ->
         mem "velocidad" cfg = true -> mem "puntuacion" cfg = true ->
         validate_tetris cfg = Raise (AttributeError v "get")).
Proof.
  split; [vm_compute; reflexivity|split; [vm_compute; reflexivity|split]].
  - intros cfg v Hr Hv Hvel Hcon.
    apply mem_get in Hvel as [vel Hvel]. apply mem_get in Hcon as [con Hcon].
    rewrite (validate_snake_sections _ _ _ _ Hr Hvel Hcon).
    destruct v; try reflexivity. now destruct (Hv d).
  - intros cfg v Hr Hv Hvel Hpun.
    apply mem_get in Hvel as [vel Hvel]. apply mem_get in Hpun as [pun Hpun].
    rewrite (validate_tetris_sections _ _ _ _ Hr Hvel Hpun).
    destruct v; try reflexivity. now destruct (Hv d).
Qed.

(* ----------------------------------------------------------------- *)
(** C2, as stated, fails: with numerals as keys the parse raises, both for
    the whole declaration (where [por_linea] followed by a brace opens a
    section) and for the map read as a value. *)
Lemma scenario3_numeral_keys :
  parse (tokenize scenario3_text)
  = Raise (SyntaxError (ExpectedIdentInBlock (NUMBER (NInt 1))))
  /\ parse_value 40 (tokenize scenario3_map_text)
     = Raise (SyntaxError (InvalidMapKey (NUMBER (NInt 1)))).
Proof. split; vm_compute; reflexivity. Qed.

(** C2, amended: with the keys written as string literals and the map
    assigned with [=], Scenario 3 (both separators, commas optional) parses
    into the map from the strings 1 to 4 to 100, 300, 500 and 800, and a
    tetris entity with that map under [puntuacion] and valid [rejilla] and
    [velocidad] sections passes the validator.  A number is never accepted
    as a key, in a map or in a block. *)
Theorem scenario3_string_keys :
  tokenize scenario3_quoted_map_text = scenario3_map_tokens
  /\ (forall n rest,
         parse_value (12 + n) (scenario3_map_tokens ++ rest)
         = Ok (VDict por_linea, rest))
  /\ parse (tokenize scenario3_quoted_text) = Ok scenario3_table
  /\ (forall cfg rej vel pun,
         get cfg "rejilla" = Some (VDict rej) ->
         get cfg "velocidad" = Some (VDict vel) ->
         get cfg "puntuacion" = Some (VDict pun) ->
         get pun "por_linea" = Some (VDict por_linea) ->
         valid_rejilla rej -> valid_velocidad_tetris vel ->
         validate_tetris cfg = Ok (true, "Tetris OK"))
  /\ (forall n mp z rest,
         parse_map_loop (S n) mp (NUMBER z :: rest)
         = Raise (SyntaxError (InvalidMapKey (NUMBER z))))
  /\ (forall n blk z rest,
         parse_block_loop (S n) blk (NUMBER z :: rest)
         = Raise (SyntaxError (ExpectedIdentInBlock (NUMBER z)))).
Proof.
  split; [|split; [|split; [|split; [|split]]]].
  - vm_compute. reflexivity.
  - intros n rest. vm_compute. reflexivity.
  - vm_compute. reflexivity.
  - intros cfg rej vel pun Hr Hv Hp Hpl [Ha Hal] [Hg Ho].
    unfold validate_tetris.
    rewrite missing_nil by (eapply get_Some_mem; eassumption).
    unfold getitem. rewrite Hr, Hv, Hp. cbn [bind as_dict].
    rewrite Ha. cbn [bind negb]. rewrite Hal. cbn [bind negb].
    rewrite Hg. cbn [bind negb]. rewrite Hpl.
    change (first_bad_score por_linea ["1"; "2"; "3"; "4"]) with (@None string).
    cbn iota. now rewrite Ho.
  - intros n mp z rest. reflexivity.
  - intros n blk z rest. reflexivity.
Qed.

Lemma scenario3_string_keys_witness :
  validate_all scenario3_table
  = Ok [mk_record "tetris" true "Tetris OK"].
Proof.
  destruct scenario3_string_keys as (_ & _ & _ & H & _).
  unfold scenario3_table. cbn [validate_all validate_game String.eqb
                               Ascii.eqb Bool.eqb].
  rewrite (H _ [("ancho", VInt 10); ("alto", VInt 20)]
             [("gravedad_ms", VInt 500)]
             [("por_linea", VDict por_linea)]);
    try reflexivity; split; reflexivity.
Defined.

(* ----------------------------------------------------------------- *)
(** C3, as stated, fails: the text of an unterminated literal is still
    tokenized.  In [x = ] followed by a quote and [abc], only the quote is
    left out; [abc] comes out as an identifier. *)
Lemma unterminated_literal_leaks :
  tokenize ("x = " ++ String dquote "abc # 12")
  = [IDENTIFIER "x"; OPERATOR "="; IDENTIFIER "abc"; NUMBER (NInt 12)].
Proof. vm_compute. reflexivity. Qed.

(** C3, amended: on ASCII text the tokenizer fails in one case only, at
    the first integer literal of more than 4300 digits, which [int]
    refuses with [ValueError]; on every other text it returns, and what it
    returns is [tokenize].  The scan of a line never needs more steps than
    the line has characters.  The tokens of a text are the scans of its
    lines after comment stripping, and in such a scan a character at which
    no lexical unit starts gives no match, so no token: an unrecognised
    character such as [&], and a double quote that no later quote of the
    line closes.  Only that character is left out.  So the tokens of a line
    with a quote that nothing closes are those of the text before the quote
    followed by those of the text after it: the text of the unterminated
    literal is tokenized like any other. *)
Theorem tokenizer_skips_unmatched :
  (forall source,
      ascii_text source = true ->
      Tokenizer_tokenize source
      = match find too_long (integer_literals source) with
        | Some d => Raise (ValueError d)
        | None => Ok (tokenize source)
        end)
  /\ (forall n line,
         String.length line <= n -> findall_fuel n line = findall line)
  /\ (forall source,
         ascii_text source = true ->
         tokenize source
         = flat_map
             (fun l => scan (strip_loop false false (rstrip_newline l)))
             (splitlines source))
  /\ (forall c rest,
         ascii_text (String c rest) = true -> unrecognised c = true ->
         findall (String c rest) = findall rest
         /\ scan (String c rest) = scan rest)
  /\ (forall rest,
         ascii_text rest = true -> until_quote rest = None ->
         findall (String dquote rest) = findall rest
         /\ scan (String dquote rest) = scan rest)
  /\ (forall pre rest,
         ascii_text pre = true -> ascii_text rest = true ->
         all_chars code_char pre = true -> all_chars open_char rest = true ->
         tokenize (pre ++ String dquote rest) = (scan pre ++ scan rest)%list).
Proof.
  split; [|split; [|split; [|split; [|split]]]].
  - intros source _. apply Tokenizer_tokenize_outcome.
  - intros n line Hn. apply findall_fuel_enough; [exact Hn|apply Nat.le_refl].
  - intros source _. apply tokenize_lines_scan.
  - intros c rest _ H.
    assert (E : findall (String c rest) = findall rest).
    { rewrite findall_cons. unfold match_at. unfold unrecognised in H.
      apply andb_true_iff in H as [H Hw]. apply andb_true_iff in H as [H Ho].
      apply andb_true_iff in H as [Hq Hd].
      apply negb_true_iff in Hq, Hd, Ho, Hw.
      now rewrite Hq, Hd, Ho, Hw. }
    split; [exact E|]. unfold scan. now rewrite E.
  - intros rest _ H.
    assert (E : findall (String dquote rest) = findall rest).
    { rewrite findall_cons. unfold match_at.
      now rewrite Ascii.eqb_refl, H. }
    split; [exact E|]. unfold scan. now rewrite E.
  - intros pre rest _ _. apply tokenize_open_quote.
Qed.

Lemma tokenizer_skips_unmatched_witness :
  Tokenizer_tokenize ("x = " ++ String dquote "abc # 12")
  = Ok [IDENTIFIER "x"; OPERATOR "="; IDENTIFIER "abc"; NUMBER (NInt 12)]
  /\ findall_fuel 9 "a & b" = findall "a & b"
  /\ scan "&a" = scan "a"
  /\ scan (String dquote "abc") = scan "abc"
  /\ tokenize ("x = " ++ String dquote "abc # 12")
     = (scan "x = " ++ scan "abc # 12")%list.
Proof.
  destruct tokenizer_skips_unmatched as (H0 & H1 & _ & H3 & H4 & H5).
  split; [|split; [|split; [|split]]].
  - rewrite H0; reflexivity.
  - apply H1. simpl. lia.
  - apply (H3 "&"%char "a"); reflexivity.
  - apply (H4 "abc"); reflexivity.
  - apply (H5 "x = " "abc # 12"); reflexivity.
Defined.

(* ----------------------------------------------------------------- *)
(** C4, as stated, fails: [juego], [verdadero] and [falso] are bound as
    assignment keys, section names and map keys like any identifier. *)
Lemma keywords_accepted_as_keys :
  parse (tokenize keyword_keys_text)
  = Ok [("g",
         [("juego", VInt 1);
          ("verdadero", VDict [("falso", VInt 2)]);
          ("m", VDict [("falso", VInt 3); ("juego", VInt 4);
                       ("verdadero", VInt 5)])])].
Proof. vm_compute. reflexivity. Qed.

(** C4, amended: the keywords are recognised by position only.  Every
    declaration must start with the identifier [juego]: at the start of the
    tokens and after every declaration read so far, any other token,
    whatever its kind, is refused.  Where a value is expected, [verdadero]
    and [falso] are the Booleans, as the value of an assignment or of a map
    entry and as an element of a list: in whole declarations, and in every
    state of [parse_value] and of the list loop.  Where a key is expected (the key of
    an assignment, the name of a section, a map key) the parser goes the
    same way for every identifier [k], these three words included, and binds
    it. *)
Theorem keywords_by_position (k g : string) (z : Z) :
  parse [IDENTIFIER "juego"; STRING g; OPERATOR "{";
         IDENTIFIER k; OPERATOR "="; NUMBER (NInt z); OPERATOR "}"]
  = Ok [(g, [(k, VInt z)])]
  /\ parse [IDENTIFIER "juego"; STRING g; OPERATOR "{";
            IDENTIFIER k; OPERATOR "{"; OPERATOR "}"; OPERATOR "}"]
     = Ok [(g, [(k, VDict [])])]
  /\ parse [IDENTIFIER "juego"; STRING g; OPERATOR "{";
            IDENTIFIER "m"; OPERATOR "="; OPERATOR "{";
            IDENTIFIER k; OPERATOR ":"; NUMBER (NInt z); OPERATOR "}";
            OPERATOR "}"]
     = Ok [(g, [("m", VDict [(k, VInt z)])])]
  /\ parse [IDENTIFIER "juego"; STRING g; OPERATOR "{";
            IDENTIFIER k; OPERATOR "="; IDENTIFIER "verdadero"; OPERATOR "}"]
     = Ok [(g, [(k, VBool true)])]
  /\ parse [IDENTIFIER "juego"; STRING g; OPERATOR "{";
            IDENTIFIER k; OPERATOR "="; OPERATOR "[";
            IDENTIFIER "verdadero"; OPERATOR ","; IDENTIFIER "falso";
            OPERATOR "]"; OPERATOR "}"]
     = Ok [(g, [(k, VList [VBool true; VBool false])])]
  /\ parse [IDENTIFIER "juego"; STRING g; OPERATOR "{";
            IDENTIFIER k; OPERATOR "="; OPERATOR "{";
            STRING "a"; OPERATOR ":"; IDENTIFIER "falso"; OPERATOR "}";
            OPERATOR "}"]
     = Ok [(g, [(k, VDict [("a", VBool false)])])]
  /\ (forall ts table t rest,
         parse ts = Ok table -> t <> IDENTIFIER "juego" ->
         parse (ts ++ t :: rest) = Raise (SyntaxError (ExpectedJuego t)))
  /\ (forall n rest,
         parse_value (S n) (IDENTIFIER "verdadero" :: rest)
         = Ok (VBool true, rest)
         /\ parse_value (S n) (IDENTIFIER "falso" :: rest)
            = Ok (VBool false, rest))
  /\ (forall n lst rest,
         parse_list_loop (S (S n)) lst (IDENTIFIER "verdadero" :: rest)
         = parse_list_loop (S n) (lst ++ [VBool true]) (skip_comma rest)
         /\ parse_list_loop (S (S n)) lst (IDENTIFIER "falso" :: rest)
            = parse_list_loop (S n) (lst ++ [VBool false]) (skip_comma rest))
  /\ (forall n blk rest,
         parse_block_loop (S n) blk (IDENTIFIER k :: OPERATOR "=" :: rest)
         = ('(v, ts2) <- parse_value n rest ;;
            if mem k blk then Raise (SyntaxError (RedefinedKey k))
            else parse_block_loop n (set blk k v) ts2))
  /\ (forall n blk rest,
         parse_block_loop (S n) blk (IDENTIFIER k :: OPERATOR "{" :: rest)
         = ('(sub_block, ts2) <-
              parse_block_section n (OPERATOR "{" :: rest) ;;
            if mem k blk then Raise (SyntaxError (RedefinedSection k))
            else parse_block_loop n (set blk k (VDict sub_block)) ts2))
  /\ (forall n mp rest,
         parse_map_loop (S n) mp (IDENTIFIER k :: rest)
         = ('(_, ts1) <- expect_kv_sep rest ;;
            '(v, ts2) <- parse_value n ts1 ;;
            if mem k mp then Raise (SyntaxError (DuplicateMapKey k))
            else parse_map_loop n (set mp k v) ts2)).
Proof.
  split; [|split; [|split; [|split; [|split; [|split; [|split; [|split;
    [|split; [|split; [|split]]]]]]]]]].
  - vm_compute. reflexivity.
  - vm_compute. reflexivity.
  - vm_compute. reflexivity.
  - vm_compute. reflexivity.
  - vm_compute. reflexivity.
  - vm_compute. reflexivity.
  - intros ts table t rest. apply parse_expects_juego.
  - intros n rest. split; reflexivity.
  - intros n lst rest. split; reflexivity.
  - intros n blk rest. reflexivity.
  - intros n blk rest. reflexivity.
  - intros n mp rest. reflexivity.
Qed.

Lemma keywords_by_position_witness :
  parse ([] ++ IDENTIFIER "falso" :: [STRING "g"; OPERATOR "{"; OPERATOR "}"])
  = Raise (SyntaxError (ExpectedJuego (IDENTIFIER "falso")))
  /\ parse ([IDENTIFIER "juego"; STRING "g"; OPERATOR "{"; OPERATOR "}"]
              ++ STRING "h" :: [OPERATOR "{"; OPERATOR "}"])
     = Raise (SyntaxError (ExpectedJuego (STRING "h")))
  /\ parse [IDENTIFIER "juego"; STRING "g"; OPERATOR "{";
            IDENTIFIER "juego"; OPERATOR "{"; OPERATOR "}"; OPERATOR "}"]
     = Ok [("g", [("juego", VDict [])])].
Proof.
  destruct (keywords_by_position "juego" "g" 0)
    as (_ & H2 & _ & _ & _ & _ & H4 & _).
  split; [|split].
  - apply (H4 [] []); [reflexivity|discriminate].
  - apply (H4 _ [("g", [])]); [reflexivity|discriminate].
  - exact H2.
Defined.

(* ----------------------------------------------------------------- *)
(** C5: every block and every map of a successfully parsed symbol table
    (and the table itself) has each key once at its own level.  The parser
    returns a table exactly when the bindings of the token sequence exist
    and are distinct at every level: a sequence that binds a key twice at
    one level, by assignments or sections in any combination, makes it
    raise; and the block loop never accepts a key that its block already
    holds, whatever follows. *)
Theorem unique_keys_or_error :
  (forall ts table, parse ts = Ok table -> table_unique_keys table = true)
  /\ (forall ts table name root,
         parse ts = Ok table -> In (name, root) table ->
         NoDup (keys table) /\ NoDup (keys root))
  /\ (forall ts table,
         parse ts = Ok table
         <-> bindings ts = Ok table /\ table_unique_keys table = true)
  /\ (forall ts raw,
         bindings ts = Ok raw -> table_unique_keys raw = false ->
         exists e, parse ts = Raise e)
  /\ (forall n blk key rest r,
         mem key blk = true ->
         parse_block_loop n blk (IDENTIFIER key :: rest) <> Ok r).
Proof.
  split; [exact parse_unique_keys|split; [|split; [|split]]].
  - intros ts table name root H Hin.
    apply parse_unique_keys in H. unfold table_unique_keys in H.
    apply andb_true_iff in H as [Hn Hf].
    rewrite forallb_forall in Hf. specialize (Hf _ Hin).
    cbn [snd unique_keysb] in Hf. apply andb_true_iff in Hf as [Hr _].
    split; now apply nodupb_NoDup.
  - exact parse_iff_bindings.
  - intros ts raw Hraw Hdup.
    destruct (parse_returns ts) as [[table H]|H]; [|exact H].
    exfalso. apply parse_iff_bindings in H as [H Hu].
    rewrite Hraw in H. injection H as ->. congruence.
  - intros n blk key rest r Hk H. destruct n as [|n]; [discriminate|].
    cbn [parse_block_loop is_op] in H.
    destruct rest as [|next_tok rest']; [discriminate|].
    destruct (is_op next_tok "=").
    + apply bind_ok in H as ([v ts2] & _ & H). rewrite Hk in H. discriminate.
    + destruct (is_op next_tok "{"); [|discriminate].
      apply bind_ok in H as ([v ts2] & _ & H). rewrite Hk in H. discriminate.
Qed.

Lemma unique_keys_or_error_witness :
  table_unique_keys
    [("g", [("a", VInt 1); ("b", VDict [("a", VInt 2)])])] = true
  /\ (exists e,
         parse [IDENTIFIER "juego"; STRING "g"; OPERATOR "{";
                IDENTIFIER "a"; OPERATOR "="; NUMBER (NInt 1);
                IDENTIFIER "a"; OPERATOR "{"; OPERATOR "}";
                OPERATOR "}"] = Raise e)
  /\ (forall r,
         parse_block_loop 9 [("a", VDict [])]
           [IDENTIFIER "a"; OPERATOR "="; NUMBER (NInt 1); OPERATOR "}"]
         <> Ok r).
Proof.
  destruct unique_keys_or_error as (H1 & _ & _ & H2 & H3).
  split; [|split].
  - apply (H1 [IDENTIFIER "juego"; STRING "g"; OPERATOR "{";
               IDENTIFIER "a"; OPERATOR "="; NUMBER (NInt 1);
               IDENTIFIER "b"; OPERATOR "{";
               IDENTIFIER "a"; OPERATOR "="; NUMBER (NInt 2); OPERATOR "}";
               OPERATOR "}"]).
    vm_compute. reflexivity.
  - apply (H2 _ [("g", [("a", VInt 1); ("a", VDict [])])]);
      vm_compute; reflexivity.
  - intros r. apply H3. reflexivity.
Defined.

(** The four ways of binding a key twice in a block. *)
Example rebinding_combinations :
  parse (tokenize ("juego " ++ q "g" ++ " { a = 1 a = 2 }"))
  = Raise (SyntaxError (RedefinedKey "a"))
  /\ parse (tokenize ("juego " ++ q "g" ++ " { a = 1 a { } }"))
     = Raise (SyntaxError (RedefinedSection "a"))
  /\ parse (tokenize ("juego " ++ q "g" ++ " { a { } a = 2 }"))
     = Raise (SyntaxError (RedefinedKey "a"))
  /\ parse (tokenize ("juego " ++ q "g" ++ " { a { } a { } }"))
     = Raise (SyntaxError (RedefinedSection "a"))
  /\ parse (tokenize ("juego " ++ q "g" ++ " { a { b = 1 } b = 2 }"))
     = Ok [("g", [("a", VDict [("b", VInt 1)]); ("b", VInt 2)])].
Proof. repeat split; vm_compute; reflexivity. Qed.

(* ----------------------------------------------------------------- *)
(** C6: [velocidad.tick_ms] of a snake entity holds a Boolean and
    [rejilla] is bound to a number: the parse succeeds and the validator
    raises [AttributeError] on [rejilla] instead of returning a record with
    valid=false.  (With [rejilla] a block the same Boolean gives the record:
    see [boolean_is_not_integer].) *)
Theorem boolean_behind_scalar_section :
  parse (tokenize boolean_tick_text) = Ok [("snake", boolean_tick_cfg)]
  /\ holds boolean_tick_cfg "velocidad" "tick_ms" (VBool true)
  /\ validate_all [("snake", boolean_tick_cfg)]
     = Raise (AttributeError (VInt 1) "get").
Proof.
  split; [vm_compute; reflexivity|split; [|vm_compute; reflexivity]].
  exists [("tick_ms", VBool true)]. split; reflexivity.
Qed.



(** Scenario 5 of the specification: an identifier after an element. *)
Example scenario5 :
  parse (tokenize ("juego " ++ q "g" ++ " { lista = [ 1, foo, 3 ] }"))
  = Raise (NameError "foo").
Proof. vm_compute. reflexivity. Qed.

(* ----------------------------------------------------------------- *)
(** C8, as stated, fails: digits followed by a dot and no further digit are
    a numeric literal too, and a float; that shape is not one the claim
    lists. *)
Lemma trailing_dot_is_float :
  tokenize "12." = [NUMBER (NFloat "12.")]
  /\ spec_numeric_literal "12." = false.
Proof. split; vm_compute; reflexivity. Qed.

(** C8, amended: a lexical unit made of digits, optionally followed by a dot
    and then by digits or by nothing, gives exactly one NUMBER token: an
    integer when there is no dot, a float when there is one (also when no
    digit follows the dot).  The integer is converted by [int], which
    refuses more than 4300 digits: on such a unit the tokenizer raises
    [ValueError] and returns no token at all.  So it is for the unit alone
    and for the unit followed by any ASCII text that cannot prolong it.
    And every NUMBER token the tokenizer returns comes from a unit of one
    of these shapes, standing in a line of the text where the scan starts
    a match: the tokens of the line are those before the unit, the NUMBER
    token and those of the rest of the line. *)
Theorem number_tokens :
  (forall d,
      digits d -> String.length d <= int_max_str_digits ->
      Tokenizer_tokenize d = Ok [NUMBER (NInt (int_of_digits d))])
  /\ (forall d,
         digits d -> int_max_str_digits < String.length d ->
         Tokenizer_tokenize d = Raise (ValueError d))
  /\ (forall d1 d2,
         digits d1 -> all_chars is_digit d2 = true ->
         Tokenizer_tokenize (d1 ++ String dot d2)
         = Ok [NUMBER (NFloat (d1 ++ String dot d2))])
  /\ (forall d rest,
         digits d -> ascii_text rest = true ->
         starts_with is_digit rest = false ->
         starts_with is_dot rest = false ->
         Tokenizer_scan (d ++ rest)
         = (z <- int d ;;
            ts <- Tokenizer_scan rest ;; Ok (NUMBER (NInt z) :: ts)))
  /\ (forall d1 d2 rest,
         digits d1 -> all_chars is_digit d2 = true ->
         ascii_text rest = true -> starts_with is_digit rest = false ->
         Tokenizer_scan (d1 ++ String dot (d2 ++ rest))
         = (ts <- Tokenizer_scan rest ;;
            Ok (NUMBER (NFloat (d1 ++ String dot d2)) :: ts)))
  /\ (forall source ts n,
         ascii_text source = true ->
         Tokenizer_tokenize source = Ok ts -> In (NUMBER n) ts ->
         exists line pre unit rest before,
           In line (splitlines source)
           /\ strip_loop false false (rstrip_newline line)
              = pre ++ unit ++ rest
           /\ numeric_literal unit n
           /\ scan (unit ++ rest) = NUMBER n :: scan rest
           /\ scan (pre ++ unit ++ rest)
              = (before ++ NUMBER n :: scan rest)%list).
Proof.
  assert (Hplain : forall d, all_chars is_digit d = true ->
                             all_chars plain d = true).
  { intros d. apply all_chars_impl, digit_plain. }
  split; [|split; [|split; [|split; [|split]]]].
  - intros d Hd Hlen. pose proof Hd as [_ Hall].
    rewrite (Tokenizer_tokenize_plain d (Hplain d Hall)).
    rewrite <- (string_app_nil_r d) at 1.
    rewrite (Tokenizer_scan_int d EmptyString Hd) by reflexivity.
    now rewrite (int_within d Hlen).
  - intros d Hd Hlen. pose proof Hd as [_ Hall].
    rewrite (Tokenizer_tokenize_plain d (Hplain d Hall)).
    rewrite <- (string_app_nil_r d) at 1.
    rewrite (Tokenizer_scan_int d EmptyString Hd) by reflexivity.
    now rewrite (int_beyond d Hlen).
  - intros d1 d2 Hd1 Hd2. pose proof Hd1 as [_ Hall].
    rewrite Tokenizer_tokenize_plain.
    + rewrite <- (string_app_nil_r d2) at 1.
      now rewrite (Tokenizer_scan_float d1 d2 EmptyString Hd1 Hd2).
    + rewrite all_chars_app. cbn [all_chars]. rewrite dot_plain.
      now rewrite (Hplain d1 Hall), (Hplain d2 Hd2).
  - intros d rest Hd _ Hr Hdot. now apply Tokenizer_scan_int.
  - intros d1 d2 rest Hd1 Hd2 _ Hr. now apply Tokenizer_scan_float.
  - intros source ts n _ Hts Hin.
    apply Tokenizer_tokenize_ok in Hts. subst ts.
    now apply tokenize_numeric.
Qed.

Lemma number_tokens_witness :
  Tokenizer_tokenize "2025" = Ok [NUMBER (NInt 2025)]
  /\ Tokenizer_tokenize (repeat_char "9" 4301)
     = Raise (ValueError (repeat_char "9" 4301))
  /\ Tokenizer_tokenize "3.14" = Ok [NUMBER (NFloat "3.14")]
  /\ Tokenizer_scan ("7" ++ "}") = Ok [NUMBER (NInt 7); OPERATOR "}"]
  /\ Tokenizer_scan ("7" ++ String dot ("" ++ "}"))
     = Ok [NUMBER (NFloat "7."); OPERATOR "}"]
  /\ (exists line pre unit rest before,
         In line (splitlines "x = 12.")
         /\ strip_loop false false (rstrip_newline line) = pre ++ unit ++ rest
         /\ numeric_literal unit (NFloat "12.")
         /\ scan (unit ++ rest) = NUMBER (NFloat "12.") :: scan rest
         /\ scan (pre ++ unit ++ rest)
            = (before ++ NUMBER (NFloat "12.") :: scan rest)%list).
Proof.
  destruct number_tokens as (H1 & H1' & H2 & H3 & H4 & H5).
  split; [|split; [|split; [|split; [|split]]]].
  - apply (H1 "2025"); [split; [discriminate|reflexivity]|].
    unfold int_max_str_digits. simpl. lia.
  - apply (H1' (repeat_char "9" 4301)).
    + apply (repeat_char_digits "9" 4300). reflexivity.
    + rewrite repeat_char_length. unfold int_max_str_digits. lia.
  - apply (H2 "3" "14"); [split; [discriminate|reflexivity]|reflexivity].
  - rewrite (H3 "7" "}");
      [reflexivity|split; [discriminate|reflexivity]
      |reflexivity|reflexivity|reflexivity].
  - rewrite (H4 "7" "" "}");
      [reflexivity|split; [discriminate|reflexivity]
      |reflexivity|reflexivity|reflexivity].
  - apply (H5 "x = 12."
             [IDENTIFIER "x"; OPERATOR "="; NUMBER (NFloat "12.")]);
      [reflexivity|reflexivity|].
    right. right. left. reflexivity.
Defined.

(* ----------------------------------------------------------------- *)
(** C9, as stated, fails: after [k = ] and an empty literal the parser
    takes the next token as the value, and the parse succeeds. *)
Lemma empty_literal_then_value :
  parse (tokenize ("juego " ++ q "g" ++ " { k = " ++ q "" ++ " 5 }"))
  = Ok [("g", [("k", VInt 5)])].
Proof. vm_compute. reflexivity. Qed.

(** C9, amended: on ASCII text an empty literal gives no token: the scan
    goes over it as over nothing, its line has the tokens of the same line
    with a blank in place of the literal, and no STRING token ever has an
    empty text.  So the parser never sees the literal: a text with an
    assignment of the empty literal is parsed as the same text without the
    literal, with the outcome of that text, whatever it is.  In particular
    the parse raises whenever an [=] is followed by a token that cannot
    start a value ([}], another key, a comma, ...) or by nothing; it does
    not raise for the literal itself (the counterexample above); and no
    string bound in a parsed table is empty. *)
Theorem empty_literal_dropped :
  (forall rest,
      ascii_text rest = true ->
      Tokenizer_scan (q "" ++ rest) = Tokenizer_scan rest
      /\ scan (q "" ++ rest) = scan rest)
  /\ (forall pre rest,
         ascii_text pre = true -> ascii_text rest = true ->
         all_chars code_char pre = true ->
         all_chars not_linebreak rest = true ->
         tokenize (pre ++ q "" ++ rest)
         = (scan pre ++ scan (strip_loop false false rest))%list
         /\ tokenize (pre ++ q "" ++ rest) = tokenize (pre ++ String " " rest))
  /\ (forall before pre rest after,
         ascii_text (before ++ pre ++ rest ++ after) = true ->
         all_chars code_char pre = true ->
         all_chars not_linebreak rest = true ->
         parse (tokenize (before ++ String LF
                            ((pre ++ q "" ++ rest) ++ String LF after)))
         = parse (tokenize (before ++ String LF
                              ((pre ++ String " " rest) ++ String LF after))))
  /\ (forall source,
         ascii_text source = true -> ~ In (STRING "") (tokenize source))
  /\ (forall pre post,
         dangling post = true ->
         exists e, parse (pre ++ OPERATOR "=" :: post) = Raise e)
  /\ (forall source table,
         ascii_text source = true ->
         parse (tokenize source) = Ok table ->
         table_no_empty_str table = true).
Proof.
  split; [|split; [|split; [|split; [|split]]]].
  - intros rest _.
    split; [apply Tokenizer_scan_empty_literal|apply scan_empty_literal].
  - intros pre rest _ _ Hpre Hrest.
    split; [now apply tokenize_empty_literal|].
    now rewrite tokenize_empty_literal, tokenize_blank.
  - intros before pre rest after _ Hpre Hrest.
    rewrite !(tokenize_app_break before) by reflexivity.
    rewrite !(tokenize_app_break _ LF after) by reflexivity.
    now rewrite tokenize_empty_literal, tokenize_blank.
  - intros source _ Hin.
    pose proof (tokenize_forall _ match_at_string_nonempty source) as HF.
    rewrite Forall_forall in HF. now apply (HF _ Hin).
  - intros pre post Hd.
    destruct (parse_returns (pre ++ OPERATOR "=" :: post)) as [[t H]|H];
      [|exact H].
    exfalso. apply parse_loop_eq_ok in H.
    rewrite (eq_ok_dangling pre post Hd) in H. discriminate.
  - intros source table _ H.
    eapply parse_no_empty_str; [|exact H].
    apply (tokenize_forall _ match_at_string_nonempty).
Qed.

Lemma empty_literal_dropped_witness :
  scan (q "" ++ " }") = scan " }"
  /\ tokenize ("k = " ++ q "" ++ " 5 }") = tokenize ("k = " ++ String " " " 5 }")
  /\ parse (tokenize (("juego " ++ q "g" ++ " {")
                        ++ String LF (("  k = " ++ q "" ++ " 5")
                                        ++ String LF "}")))
     = Ok [("g", [("k", VInt 5)])]
  /\ (exists e,
         parse ([IDENTIFIER "juego"; STRING "g"; OPERATOR "{"; IDENTIFIER "k"]
                  ++ OPERATOR "=" :: [OPERATOR "}"]) = Raise e)
  /\ table_no_empty_str [("g", [("k", VInt 5)])] = true.
Proof.
  destruct empty_literal_dropped as (H1 & H2 & H2' & _ & H3 & H4).
  split; [|split; [|split; [|split]]].
  - apply H1. reflexivity.
  - apply (H2 "k = " " 5 }"); reflexivity.
  - rewrite (H2' ("juego " ++ q "g" ++ " {") "  k = " " 5" "}");
      [vm_compute; reflexivity|reflexivity|reflexivity|reflexivity].
  - apply H3. reflexivity.
  - apply (H4 ("juego " ++ q "g" ++ " { k = " ++ q "" ++ " 5 }")).
    + reflexivity.
    + vm_compute. reflexivity.
Defined.

(* ----------------------------------------------------------------- *)
(** C10: when the token sequence of the input is empty (as it is for the
    empty text and for a text of blank lines and comments only), the parser
    returns the empty symbol table, and the validator, run on that table,
    returns the empty list of records. *)
Theorem empty_input (source : string) :
  tokenize source = [] \/ Forall blank_or_comment (splitlines source) ->
  tokenize source = []
  /\ exists table,
      parse (tokenize source) = Ok table /\ table = []
      /\ validate_all table = Ok [].
Proof.
  intros H.
  assert (E : tokenize source = []).
  { destruct H as [H|H]; [exact H|now apply blank_lines_no_tokens]. }
  split; [exact E|]. rewrite E. exists []. repeat split.
Qed.

Lemma empty_input_witness :
  (tokenize EmptyString = []
   /\ exists table,
       parse (tokenize EmptyString) = Ok table /\ table = []
       /\ validate_all table = Ok [])
  /\ (tokenize (String LF ("  # nada" ++ String LF "   ")) = []
      /\ exists table,
          parse (tokenize (String LF ("  # nada" ++ String LF "   ")))
          = Ok table
          /\ table = [] /\ validate_all table = Ok []).
Proof.
  split.
  - apply (empty_input EmptyString). left. reflexivity.
  - apply (empty_input (String LF ("  # nada" ++ String LF "   "))).
    right. vm_compute. repeat constructor.
Defined.


(* ================================================================= *)
(** * Further properties of the program *)

(* ----------------------------------------------------------------- *)
(** ** The parser and the rule sets *)

(** The parser ends on every token sequence, in every stack.  With no
    bound on the depth of its calls it returns a table or raises
    [SyntaxError] or [NameError], nothing else.  In [frames] stack frames
    it does the same, or raises [RecursionError]; two frames for each token
    and two more are always enough, and so are the frames of the nesting of
    the table, where the unbounded parse returns one. *)
Theorem parse_total (frames : nat) (ts : list token) :
  ((exists table, parse ts = Ok table)
   \/ (exists e, parse ts = Raise (SyntaxError e))
   \/ (exists ref, parse ts = Raise (NameError ref)))
  /\ (Parser_parse frames ts = parse ts
      \/ Parser_parse frames ts = Raise RecursionError)
  /\ (2 * List.length ts + 2 <= frames -> Parser_parse frames ts = parse ts)
  /\ (forall table,
         parse ts = Ok table -> table_frames table <= frames ->
         Parser_parse frames ts = Ok table).
Proof.
  split; [|split; [|split]].
  - destruct (parse_returns ts) as [[table H]|[e H]]; [left; eauto|].
    right. pose proof (parse_caught ts e H) as Hc.
    destruct e as [e|ref| | | |]; try discriminate Hc; [left|right]; eauto.
  - destruct (Parser_parse_sim frames ts); auto.
  - apply Parser_parse_enough.
  - intros table. apply Parser_parse_frames.
Qed.

Lemma parse_total_witness :
  Parser_parse 5 [IDENTIFIER "juego"; STRING "g"; OPERATOR "{";
                  IDENTIFIER "x"; OPERATOR "="; OPERATOR "[";
                  NUMBER (NInt 1); OPERATOR "]"; OPERATOR "}"]
  = Ok [("g", [("x", VList [VInt 1])])]
  /\ Parser_parse 4 [IDENTIFIER "juego"; STRING "g"; OPERATOR "{";
                     IDENTIFIER "x"; OPERATOR "="; OPERATOR "[";
                     NUMBER (NInt 1); OPERATOR "]"; OPERATOR "}"]
     = Raise RecursionError.
Proof.
  split.
  - destruct (parse_total 5 [IDENTIFIER "juego"; STRING "g"; OPERATOR "{";
                             IDENTIFIER "x"; OPERATOR "="; OPERATOR "[";
                             NUMBER (NInt 1); OPERATOR "]"; OPERATOR "}"])
      as (_ & _ & _ & H).
    apply H; [reflexivity|]. vm_compute. lia.
  - destruct (parse_total 4 [IDENTIFIER "juego"; STRING "g"; OPERATOR "{";
                             IDENTIFIER "x"; OPERATOR "="; OPERATOR "[";
                             NUMBER (NInt 1); OPERATOR "]"; OPERATOR "}"])
      as (_ & [H|H] & _); [|exact H].
    vm_compute in H. discriminate H.
Defined.

(** When no entity binds a section of the rule sets to something other
    than a block, [validate_all] returns exactly one record for each
    entity, in the order of the table. *)
Theorem validate_all_one_record_each (table : symbol_table) :
  table_sections_are_blocks table = true ->
  exists results,
    validate_all table = Ok results /\ map juego results = keys table.
Proof.
  intros H.
  assert (E : exists results, validate_all table = Ok results).
  { induction table as [|[name cfg] table IH]; [now exists []|].
    cbn [table_sections_are_blocks forallb snd] in H.
    apply andb_true_iff in H as [Hc Ht].
    apply andb_true_iff in Hc as [Hs Htt].
    destruct (validate_game_returns name cfg Hs Htt) as [[ok msg] Hg].
    destruct (IH Ht) as [rs Hrs].
    cbn [validate_all]. rewrite Hg. cbn [bind]. rewrite Hrs. cbn [bind].
    eauto. }
  destruct E as [results E]. exists results. split; [exact E|].
  now apply validate_all_names.
Qed.

Lemma validate_all_one_record_each_witness :
  exists results,
    validate_all boolean_ancho_table = Ok results
    /\ map juego results = keys boolean_ancho_table.
Proof.
  apply (validate_all_one_record_each boolean_ancho_table). reflexivity.
Defined.

(** Scenarios 1, 2, 4 and 6 of the specification, and the order of the
    entities of a table: that of their declarations. *)
Theorem scenarios :
  (exists table,
      parse (tokenize scenario1_text) = Ok table
      /\ validate_all table = Ok [mk_record "snake" true "Snake OK"])
  /\ (exists table,
         parse (tokenize scenario2_text) = Ok table
         /\ validate_all table
            = Ok [mk_record "snake" false
                    "Snake: faltan secciones: controles"])
  /\ parse (tokenize scenario4_text)
     = Raise (SyntaxError (GameRedeclared "snake"))
  /\ (exists table,
         parse (tokenize scenario6_text) = Ok table
         /\ validate_all table
            = Ok [mk_record "pong" true
                    "Juego generico (sin validador especifico)"])
  /\ (exists table,
         parse (tokenize three_games_text) = Ok table
         /\ keys table = ["tetris"; "pong"; "snake"]).
Proof.
  split; [|split; [|split; [|split]]].
  - eexists. split; vm_compute; reflexivity.
  - eexists. split; vm_compute; reflexivity.
  - vm_compute. reflexivity.
  - eexists. split; vm_compute; reflexivity.
  - eexists. split; vm_compute; reflexivity.
Qed.

(** [is_int_strict] rejects both Booleans, although [isinstance] counts
    them as integers; so a table in which an integer field of a rule set
    holds a Boolean is never reported valid.  For a field of [rejilla], the
    section read first, the validator returns a record with valid=false
    whatever else the table holds; for a field read later it does so
    whenever no section of the rule set is bound to something other than a
    block (where one is, the validator raises before it reads the
    field). *)
Theorem boolean_is_not_integer (cfg : dict) (b : bool) :
  (isinstance_int (Some (VBool b)) = true
   /\ is_int_strict (Some (VBool b)) = false)
  /\ (forall sec fld,
         In (sec, fld) snake_int_fields -> holds cfg sec fld (VBool b) ->
         (forall m, validate_snake cfg <> Ok (true, m))
         /\ (sec = "rejilla" \/ sections_are_blocks snake_sections cfg = true ->
             exists m, validate_snake cfg = Ok (false, m)))
  /\ (forall sec fld,
         In (sec, fld) tetris_int_fields -> holds cfg sec fld (VBool b) ->
         (forall m, validate_tetris cfg <> Ok (true, m))
         /\ (sec = "rejilla" \/ sections_are_blocks tetris_sections cfg = true ->
             exists m, validate_tetris cfg = Ok (false, m)))
  /\ (forall pun pl k,
         In k score_keys ->
         get cfg "puntuacion" = Some (VDict pun) ->
         get pun "por_linea" = Some (VDict pl) ->
         get pl k = Some (VBool b) ->
         (forall m, validate_tetris cfg <> Ok (true, m))
         /\ (sections_are_blocks tetris_sections cfg = true ->
             exists m, validate_tetris cfg = Ok (false, m))).
Proof.
  split; [split; reflexivity|split; [|split]].
  - intros sec fld Hin Hh.
    destruct (validate_snake_bool cfg sec fld b Hin Hh)
      as [[m E] | (Hsec & Hblk & v & E)]; rewrite E.
    + split; [intros m'; discriminate|eauto].
    + split; [intros m'; discriminate|].
      intros [->|H]; [congruence|congruence].
  - intros sec fld Hin Hh.
    destruct (validate_tetris_bool cfg sec fld b Hin Hh)
      as [[m E] | (Hsec & Hblk & v & E)]; rewrite E.
    + split; [intros m'; discriminate|eauto].
    + split; [intros m'; discriminate|].
      intros [->|H]; [congruence|congruence].
  - intros pun pl k Hk Hp Hpl Hfld.
    destruct (validate_tetris_bool_score cfg pun pl k b Hk Hp Hpl Hfld)
      as [[m E] | (Hblk & v & E)]; rewrite E.
    + split; [intros m'; discriminate|eauto].
    + split; [intros m'; discriminate|congruence].
Qed.

Lemma boolean_is_not_integer_witness :
  exists m,
    validate_snake
      [("rejilla", VDict [("ancho", VBool true); ("alto", VInt 10)]);
       ("velocidad", VDict [("tick_ms", VInt 100)]);
       ("controles", VDict [])]
    = Ok (false, m).
Proof.
  destruct (boolean_is_not_integer
              [("rejilla", VDict [("ancho", VBool true); ("alto", VInt 10)]);
               ("velocidad", VDict [("tick_ms", VInt 100)]);
               ("controles", VDict [])] true) as (_ & H & _).
  apply (H "rejilla" "ancho").
  - left. reflexivity.
  - exists [("ancho", VBool true); ("alto", VInt 10)]. split; reflexivity.
  - left. reflexivity.
Defined.

(** The test the specification proposes: [ancho = verdadero]. *)
Example boolean_ancho :
  parse (tokenize boolean_ancho_text) = Ok boolean_ancho_table
  /\ validate_all boolean_ancho_table
     = Ok [mk_record "snake" false "Snake: rejilla.ancho debe ser entero > 0"].
Proof. split; vm_compute; reflexivity. Qed.

(* ----------------------------------------------------------------- *)
(** ** The tokenizer, line by line *)

(** A line boundary (any of the characters at which [splitlines] cuts)
    separates the tokens of the text before it from those of the text after
    it: no token, no string literal and no comment goes over it. *)
Theorem tokenize_line_by_line (a b : string) (c : ascii) :
  is_linebreak c = true ->
  tokenize (a ++ String c b) = (tokenize a ++ tokenize b)%list.
Proof. apply tokenize_app_break. Qed.

Lemma tokenize_line_by_line_witness :
  tokenize ("x = " ++ String dquote "a" ++ String LF ("b" ++ String dquote " 7"))
  = (tokenize ("x = " ++ String dquote "a")
       ++ tokenize ("b" ++ String dquote " 7"))%list.
Proof.
  apply (tokenize_line_by_line ("x = " ++ String dquote "a")
           ("b" ++ String dquote " 7") LF).
  reflexivity.
Defined.

(** Blanks and empty lines before and after a text change nothing in its
    tokens. *)
Theorem tokenize_ignores_blanks (w1 source w2 : string) :
  all_chars is_space w1 = true -> all_chars is_space w2 = true ->
  tokenize (w1 ++ source ++ w2) = tokenize source.
Proof.
  intros H1 H2. now rewrite tokenize_lead_spaces, tokenize_trail_spaces.
Qed.

Lemma tokenize_ignores_blanks_witness :
  tokenize (String LF "  " ++ "juego x" ++ String " " (String CR (String LF "")))
  = tokenize "juego x".
Proof.
  apply (tokenize_ignores_blanks (String LF "  ") "juego x"
           (String " " (String CR (String LF "")))); reflexivity.
Defined.

(** In ASCII text, a [#] that the comment loop meets outside a string
    literal ends the line: the text from it to the end of the line leaves
    no trace, neither in the stripped line nor in the tokens. *)
Theorem comment_ends_line (code comment : string) :
  ascii_text code = true -> ascii_text comment = true ->
  in_string code = false ->
  _strip_inline_comments (code ++ String hash comment)
  = _strip_inline_comments code
  /\ (all_chars not_linebreak code = true ->
      all_chars not_linebreak comment = true ->
      tokenize (code ++ String hash comment) = tokenize code).
Proof.
  intros _ _ H. split.
  - unfold _strip_inline_comments. now rewrite strip_loop_comment.
  - intros Hc Hm. now apply tokenize_comment.
Qed.

Lemma comment_ends_line_witness :
  _strip_inline_comments (("x = " ++ q "a#b" ++ " ") ++ String hash " y = 2")
  = _strip_inline_comments ("x = " ++ q "a#b" ++ " ")
  /\ tokenize (("x = " ++ q "a#b" ++ " ") ++ String hash " y = 2")
     = [IDENTIFIER "x"; OPERATOR "="; STRING "a#b"].
Proof.
  destruct (comment_ends_line ("x = " ++ q "a#b" ++ " ") " y = 2")
    as [H1 H2]; [reflexivity|reflexivity|reflexivity|].
  split; [exact H1|]. rewrite H2; reflexivity.
Defined.

(** A string literal on a line of ASCII text, with text before it that
    holds no quote and no [#]: it gives one STRING token, whose text is
    everything between the quotes, a [#] included, and what follows it on
    the line is tokenized as a line of its own. *)
Theorem string_literal_token (pre body rest : string) :
  ascii_text (pre ++ q body ++ rest) = true ->
  all_chars code_char pre = true ->
  all_chars literal_char body = true -> body <> EmptyString ->
  all_chars not_linebreak rest = true ->
  tokenize (pre ++ q body ++ rest)
  = (tokenize pre ++ STRING body :: tokenize rest)%list.
Proof.
  intros _ Hpre Hbody Hne Hrest.
  pose proof (literal_open body Hbody) as Hopen.
  rewrite (tokenize_code pre Hpre), (tokenize_line_scan rest Hrest).
  rewrite tokenize_line_scan.
  - rewrite (strip_loop_code pre _ Hpre), (strip_loop_literal body rest Hbody).
    rewrite scan_app; [|reflexivity|right; now apply code_not_quote].
    rewrite (scan_literal body _ (open_not_quote body Hopen)).
    destruct body; [congruence|reflexivity].
  - rewrite all_chars_app, q_app. cbn [all_chars].
    rewrite all_chars_app. cbn [all_chars].
    rewrite (code_not_linebreak pre Hpre), (open_not_linebreak body Hopen).
    now rewrite Hrest.
Qed.

Lemma string_literal_token_witness :
  tokenize ("arriba = " ++ q "W # {=}" ++ " abajo = 1 # fin")
  = (tokenize "arriba = " ++ STRING "W # {=}"
       :: tokenize " abajo = 1 # fin")%list.
Proof.
  apply (string_literal_token "arriba = " "W # {=}" " abajo = 1 # fin");
    [reflexivity|reflexivity|reflexivity|discriminate|reflexivity].
Defined.

(** A literal that ends in a backslash, on a line of ASCII text: the
    comment loop takes the closing quote as escaped and goes on as inside
    the literal, while the pattern ends the literal at that quote.  So the
    rest of the line is tokenized as it stands, and a comment on it is not
    removed but read as tokens. *)
Theorem escaped_quote_keeps_comment (pre body rest : string) :
  ascii_text (pre ++ q (body ++ String backslash "") ++ rest) = true ->
  all_chars code_char pre = true ->
  all_chars literal_char body = true ->
  all_chars open_char rest = true ->
  tokenize (pre ++ q (body ++ String backslash "") ++ rest)
  = (tokenize pre ++ STRING (body ++ String backslash "") :: scan rest)%list.
Proof.
  intros _ Hpre Hbody Hrest.
  pose proof (literal_open body Hbody) as Hopen.
  assert (Hb : all_chars open_char (body ++ String backslash "") = true).
  { rewrite all_chars_app, Hopen. reflexivity. }
  rewrite (tokenize_code pre Hpre).
  rewrite tokenize_line_scan.
  - rewrite (strip_loop_code pre _ Hpre).
    assert (E : strip_loop false false
                  (q (body ++ String backslash "") ++ rest)
                = q (body ++ String backslash "") ++ rest).
    { rewrite !q_app. cbn [strip_loop]. rewrite Ascii.eqb_refl. f_equal.
      rewrite string_app_assoc.
      rewrite (strip_loop_app true false true false body _
                 (strip_state_literal body Hbody)).
      rewrite (strip_loop_open false body (open_not_quote body Hopen)).
      f_equal.
      cbn [append strip_loop]. rewrite Ascii.eqb_refl.
      now rewrite (strip_loop_open false rest (open_not_quote rest Hrest)). }
    rewrite E.
    rewrite scan_app; [|reflexivity|right; now apply code_not_quote].
    rewrite (scan_literal _ _ (open_not_quote _ Hb)).
    destruct body; reflexivity.
  - rewrite all_chars_app, q_app. cbn [all_chars].
    rewrite all_chars_app. cbn [all_chars].
    rewrite (code_not_linebreak pre Hpre), (open_not_linebreak _ Hb).
    now rewrite (open_not_linebreak rest Hrest).
Qed.

Lemma escaped_quote_keeps_comment_witness :
  tokenize ("x = " ++ q ("a" ++ String backslash "") ++ " # y 2")
  = [IDENTIFIER "x"; OPERATOR "="; STRING ("a" ++ String backslash "");
     IDENTIFIER "y"; NUMBER (NInt 2)].
Proof.
  rewrite (escaped_quote_keeps_comment "x = " "a" " # y 2");
    reflexivity.
Defined.

(** On a line of ASCII text, after text without quote or [#], a character
    that is no part of any token (a blank, a sign, a semicolon, ...; the dot
    apart, which may go on a number) ends the token before it and leaves no
    trace, and an operator character ends it and is a token by itself:
    operators need no blanks around them. *)
Theorem token_separators (a b : string) (c : ascii) :
  ascii_text (a ++ String c b) = true ->
  all_chars code_char a = true -> all_chars not_linebreak b = true ->
  (separator_char c = true ->
   tokenize (a ++ String c b) = (tokenize a ++ tokenize b)%list)
  /\ (is_operator_char c = true ->
      tokenize (a ++ String c b)
      = (tokenize a ++ OPERATOR (String c "") :: tokenize b)%list).
Proof.
  intros _ Ha Hb.
  rewrite (tokenize_code a Ha), (tokenize_line_scan b Hb).
  split.
  - intros Hc. pose proof Hc as Hl. unfold separator_char in Hl.
    apply andb_true_iff in Hl as [_ Hl].
    destruct (separator_char_inv c Hc) as (Hu & Hq & Hh & Hi).
    rewrite tokenize_line_scan.
    + rewrite (strip_loop_code a _ Ha). cbn [strip_loop]. rewrite Hq, Hh.
      rewrite scan_app;
        [|exact Hi|right; now apply code_not_quote].
      now rewrite (scan_skip_unrecognised c _ Hu).
    + rewrite all_chars_app. cbn [all_chars].
      now rewrite (code_not_linebreak a Ha), Hl, Hb.
  - intros Hc.
    destruct (operator_char_inv c Hc) as (Hq & Hh & Hd & Hp & Hw).
    assert (Hl : not_linebreak c = true).
    { destruct c as [[] [] [] [] [] [] [] []];
        first [reflexivity | discriminate Hc]. }
    rewrite tokenize_line_scan.
    + rewrite (strip_loop_code a _ Ha). cbn [strip_loop]. rewrite Hq, Hh.
      rewrite scan_app; [|unfold inert_start; cbn [starts_with];
                           now rewrite Hd, Hp, Hw
                         |right; now apply code_not_quote].
      rewrite scan_cons. unfold match_at. now rewrite Hq, Hd, Hc.
    + rewrite all_chars_app. cbn [all_chars].
      now rewrite (code_not_linebreak a Ha), Hl, Hb.
Qed.

Lemma token_separators_witness :
  tokenize ("ancho" ++ String "=" "10")
  = [IDENTIFIER "ancho"; OPERATOR "="; NUMBER (NInt 10)]
  /\ tokenize ("x = " ++ String "-" "5")
     = [IDENTIFIER "x"; OPERATOR "="; NUMBER (NInt 5)].
Proof.
  split.
  - destruct (token_separators "ancho" "10" "=" eq_refl eq_refl eq_refl)
      as [_ H].
    rewrite H; reflexivity.
  - destruct (token_separators "x = " "5" "-" eq_refl eq_refl eq_refl)
      as [H _].
    rewrite H; reflexivity.
Defined.

(** The token sequences that the tokenizer returns on ASCII text are
    exactly the sequences of tokens of ASCII text: a string is not empty,
    holds no quote and no line boundary, and is ASCII; an integer is not
    negative and below ten to the 4300, what [int] converts; a float is
    digits with one dot that is not in front; an operator is one of the
    seven; an identifier is a non-empty word that does not start with a
    digit.  Every sequence of such tokens is returned on some ASCII
    text. *)
Theorem tokenize_range (ts : list token) :
  (exists source,
      ascii_text source = true /\ Tokenizer_tokenize source = Ok ts)
  <-> forallb token_of_text ts = true.
Proof.
  split.
  - intros (source & Ha & H). exact (Tokenizer_tokenize_of_text source ts Ha H).
  - apply tokens_ascii_text.
Qed.

(* ----------------------------------------------------------------- *)
(** ** What a text can bind *)

(** No text gives a negative number: a sign in front of digits is a
    character the tokenizer skips.  So in the table parsed from a text every
    integer field of every section is zero or more, and the test
    [pl[k] < 0] of [validate_tetris] never holds. *)
Theorem no_negative_numbers (source : string) (table : symbol_table) :
  parse (tokenize source) = Ok table ->
  (forall name cfg sec d k z,
      In (name, cfg) table -> get cfg sec = Some (VDict d) ->
      get d k = Some (VInt z) -> (0 <= z)%Z)
  /\ (forall name cfg pun pl k x,
         In (name, cfg) table ->
         get cfg "puntuacion" = Some (VDict pun) ->
         get pun "por_linea" = Some (VDict pl) ->
         get pl k = Some x -> lt0 x = false).
Proof.
  intros H.
  pose proof (parse_from_text _ _ (tokenize_well_formed source) H) as Ht.
  split.
  - intros name cfg sec d k z Hin Hs Hk.
    assert (Hz : from_text (VInt z) = true).
    { eapply from_text_get; [|exact Hk].
      eapply from_text_get; [|exact Hs].
      eapply table_from_text_In; eassumption. }
    cbn [from_text well_formed_token] in Hz. now apply Z.leb_le.
  - intros name cfg pun pl k x Hin Hp Hpl Hk.
    apply from_text_not_negative.
    eapply from_text_get; [|exact Hk].
    eapply from_text_get; [|exact Hpl].
    eapply from_text_get; [|exact Hp].
    eapply table_from_text_In; eassumption.
Qed.

Lemma no_negative_numbers_witness :
  parse (tokenize ("juego " ++ q "g" ++ " { s { x = -5 } }"))
  = Ok [("g", [("s", VDict [("x", VInt 5)])])]
  /\ (0 <= 5)%Z.
Proof.
  assert (H : parse (tokenize ("juego " ++ q "g" ++ " { s { x = -5 } }"))
              = Ok [("g", [("s", VDict [("x", VInt 5)])])])
    by (vm_compute; reflexivity).
  split; [exact H|].
  destruct (no_negative_numbers _ _ H) as [Hz _].
  apply (Hz "g" [("s", VDict [("x", VInt 5)])] "s" [("x", VInt 5)] "x" 5%Z).
  - left. reflexivity.
  - reflexivity.
  - reflexivity.
Defined.

(** The parser reads every table whose keys are distinct at every level
    back from the tokens [write_table] writes for it, in every stack that
    has the frames of the nesting of the table (two for each level of
    lists and maps, and three); with the keys of a parsed table always
    distinct, the tables the parser returns are exactly those. *)
Theorem parse_reads_back (table : symbol_table) (frames : nat) :
  table_unique_keys table = true -> table_frames table <= frames ->
  Parser_parse frames (write_table table) = Ok table.
Proof.
  intros Hu Hf. apply Parser_parse_frames; [|exact Hf].
  now apply write_table_parse.
Qed.

Lemma parse_reads_back_witness :
  Parser_parse 7
    (write_table
       [("g", [("a", VDict [("b", VList [VInt 1; VBool true])]);
               ("c", VStr "")])])
  = Ok [("g", [("a", VDict [("b", VList [VInt 1; VBool true])]);
               ("c", VStr "")])].
Proof.
  apply (parse_reads_back
           [("g", [("a", VDict [("b", VList [VInt 1; VBool true])]);
                   ("c", VStr "")])] 7).
  - reflexivity.
  - vm_compute. lia.
Defined.

(** The tables of ASCII text.  Where the tokenizer returns on an ASCII text
    and the parser, in whatever stack, returns a table on its tokens, the
    table is writable (each name and key once at its level; every string
    not empty and without quote or line boundary, every integer zero or
    more, every float of the shape of the pattern; the names of the
    entities and the keys of maps of the shape of a string, the keys of
    root blocks identifiers), its strings, names and keys are ASCII and its
    integers below ten to the 4300.  And every such table is the table of
    some ASCII text, in every stack that has the frames of its nesting. *)
Theorem expressible_tables (table : symbol_table) :
  (forall source ts frames,
      ascii_text source = true -> Tokenizer_tokenize source = Ok ts ->
      Parser_parse frames ts = Ok table -> table_of_text table = true)
  /\ (table_of_text table = true ->
      exists source ts,
        ascii_text source = true /\ Tokenizer_tokenize source = Ok ts
        /\ forall frames,
             table_frames table <= frames ->
             Parser_parse frames ts = Ok table).
Proof.
  split.
  - intros source ts frames Ha Ht H.
    apply (parsed_table_of_text source ts table Ha Ht).
    destruct (Parser_parse_sim frames ts) as [E|E]; [congruence|].
    now rewrite <- E.
  - intros H.
    destruct (tokens_ascii_text _ (write_table_of_text table H))
      as (source & Ha & Ht).
    exists source, (write_table table). split; [exact Ha|split; [exact Ht|]].
    intros frames Hf. apply Parser_parse_frames; [|exact Hf].
    apply write_table_parse. unfold table_of_text, writable in H.
    apply andb_true_iff in H as [H _]. apply andb_true_iff in H as [H _].
    now apply andb_true_iff in H as [H _].
Qed.

Lemma expressible_tables_witness :
  Tokenizer_tokenize ("juego " ++ q "g" ++ " { x = [ 1 ] }")
  = Ok [IDENTIFIER "juego"; STRING "g"; OPERATOR "{"; IDENTIFIER "x";
        OPERATOR "="; OPERATOR "["; NUMBER (NInt 1); OPERATOR "]";
        OPERATOR "}"]
  /\ Parser_parse 5
       [IDENTIFIER "juego"; STRING "g"; OPERATOR "{"; IDENTIFIER "x";
        OPERATOR "="; OPERATOR "["; NUMBER (NInt 1); OPERATOR "]";
        OPERATOR "}"]
     = Ok [("g", [("x", VList [VInt 1])])]
  /\ table_of_text [("g", [("x", VList [VInt 1])])] = true.
Proof.
  split; [reflexivity|split; [reflexivity|]].
  apply (proj1 (expressible_tables [("g", [("x", VList [VInt 1])])])
           ("juego " ++ q "g" ++ " { x = [ 1 ] }")
           [IDENTIFIER "juego"; STRING "g"; OPERATOR "{"; IDENTIFIER "x";
            OPERATOR "="; OPERATOR "["; NUMBER (NInt 1); OPERATOR "]";
            OPERATOR "}"] 5); reflexivity.
Defined.

(* ----------------------------------------------------------------- *)
(** ** One program after another *)

(** The tokens of a program that parses, followed by those of another:
    where the second parses too, the result is the entities of both, those
    of the first program first, unless the second declares a name of the
    first, and then the parse raises at the first such name; where the
    second raises, so does the whole, with the same exception or, earlier,
    at a name of the first.  The same holds of two texts put together with
    a line boundary between them. *)
Theorem programs_compose (ts1 ts2 : list token) (t1 : symbol_table) :
  parse ts1 = Ok t1 ->
  (forall t2,
      parse ts2 = Ok t2 ->
      parse (ts1 ++ ts2)
      = match first_declared t1 (keys t2) with
        | Some g => Raise (SyntaxError (GameRedeclared g))
        | None => Ok (t1 ++ t2)%list
        end)
  /\ (forall e,
         parse ts2 = Raise e ->
         parse (ts1 ++ ts2) = Raise e
         \/ exists g, mem g t1 = true
                      /\ parse (ts1 ++ ts2)
                         = Raise (SyntaxError (GameRedeclared g)))
  /\ (forall a b c,
         is_linebreak c = true -> tokenize a = ts1 -> tokenize b = ts2 ->
         parse (tokenize (a ++ String c b)) = parse (ts1 ++ ts2)).
Proof.
  intros H1. split; [|split].
  - intros t2 H2. now apply parse_app.
  - intros e H2. now apply parse_app_raise.
  - intros a b c Hc <- <-. now rewrite tokenize_app_break.
Qed.

Lemma programs_compose_witness :
  parse ([IDENTIFIER "juego"; STRING "a"; OPERATOR "{"; OPERATOR "}"]
           ++ [IDENTIFIER "juego"; STRING "b"; OPERATOR "{"; OPERATOR "}"])
  = Ok [("a", []); ("b", [])]
  /\ parse ([IDENTIFIER "juego"; STRING "a"; OPERATOR "{"; OPERATOR "}"]
              ++ [IDENTIFIER "juego"; STRING "a"; OPERATOR "{"; OPERATOR "}"])
     = Raise (SyntaxError (GameRedeclared "a")).
Proof.
  split.
  - destruct (programs_compose
                [IDENTIFIER "juego"; STRING "a"; OPERATOR "{"; OPERATOR "}"]
                [IDENTIFIER "juego"; STRING "b"; OPERATOR "{"; OPERATOR "}"]
                [("a", [])] eq_refl) as [H _].
    exact (H [("b", [])] eq_refl).
  - destruct (programs_compose
                [IDENTIFIER "juego"; STRING "a"; OPERATOR "{"; OPERATOR "}"]
                [IDENTIFIER "juego"; STRING "a"; OPERATOR "{"; OPERATOR "}"]
                [("a", [])] eq_refl) as [H _].
    exact (H [("a", [])] eq_refl).
Defined.

(** In a map the separators [:] and [=] mean the same, a key may be written
    bare or between quotes, and commas may be put or left out in front of
    any pair and before the closing brace: whatever the style of each pair,
    the map read is the same.  A section is the same binding as the
    assignment of a map.  In a list the comma after an element may be put
    or left out.  So it is in every stack that has the frames of the
    nesting of the value. *)
Theorem free_syntax_of_maps_and_lists (g k : string) (frames : nat) :
  (forall d sts c,
      unique_keysb (VDict d) = true -> List.length sts = List.length d ->
      table_frames [(g, [(k, VDict d)])] <= frames ->
      Parser_parse frames
        (one_binding g k
           (OPERATOR "=" :: OPERATOR "{"
              :: styled_pairs sts d ++ repeat (OPERATOR ",") c
              ++ [OPERATOR "}"]))
      = Ok [(g, [(k, VDict d)])])
  /\ (forall d,
         unique_keysb (VDict d) = true ->
         table_frames [(g, [(k, VDict d)])] <= frames ->
         Parser_parse frames (one_binding g k (write_block d))
         = Ok [(g, [(k, VDict d)])])
  /\ (forall l,
         forallb unique_keysb (map fst l) = true ->
         table_frames [(g, [(k, VList (map fst l))])] <= frames ->
         Parser_parse frames
           (one_binding g k
              (OPERATOR "=" :: OPERATOR "[" :: listed l ++ [OPERATOR "]"]))
         = Ok [(g, [(k, VList (map fst l))])]).
Proof.
  split; [|split].
  - intros d sts c Hu Hlen Hf. apply Parser_parse_frames; [|exact Hf].
    cbn [unique_keysb] in Hu. apply andb_true_iff in Hu as [Hn Hv].
    destruct (styled_map_parse d Hv sts c [] [OPERATOR "}"] Hlen Hn)
      as [n H].
    apply (one_binding_value g k (VDict d) _ (S (S n))).
    cbn [app]. rewrite <- !app_assoc. cbn [app].
    rewrite parse_value_map, H. reflexivity.
  - intros d Hu Hf. apply Parser_parse_frames; [|exact Hf].
    now apply one_binding_section.
  - intros l Hu Hf. apply Parser_parse_frames; [|exact Hf].
    destruct (listed_parse l Hu [] [OPERATOR "}"]) as [n H].
    apply (one_binding_value g k (VList (map fst l)) _ (S (S n))).
    cbn [app]. rewrite <- !app_assoc. cbn [app].
    rewrite parse_value_list, H. reflexivity.
Qed.

Lemma free_syntax_of_maps_and_lists_witness :
  Parser_parse 5
    (one_binding "g" "m"
       [OPERATOR "="; OPERATOR "{";
        STRING "a"; OPERATOR ":"; NUMBER (NInt 1);
        OPERATOR ","; OPERATOR ",";
        IDENTIFIER "b"; OPERATOR "="; NUMBER (NInt 2);
        OPERATOR ","; OPERATOR "}"])
  = Ok [("g", [("m", VDict [("a", VInt 1); ("b", VInt 2)])])]
  /\ Parser_parse 5
       (one_binding "g" "m"
          [OPERATOR "{";
           IDENTIFIER "a"; OPERATOR "="; NUMBER (NInt 1);
           IDENTIFIER "b"; OPERATOR "="; NUMBER (NInt 2);
           OPERATOR "}"])
     = Ok [("g", [("m", VDict [("a", VInt 1); ("b", VInt 2)])])]
  /\ Parser_parse 5
       (one_binding "g" "m"
          [OPERATOR "="; OPERATOR "[";
           NUMBER (NInt 1); OPERATOR ","; NUMBER (NInt 2);
           STRING "x"; OPERATOR ","; OPERATOR "]"])
     = Ok [("g", [("m", VList [VInt 1; VInt 2; VStr "x"])])].
Proof.
  destruct (free_syntax_of_maps_and_lists "g" "m" 5) as (H1 & H2 & H3).
  split; [|split].
  - apply (H1 [("a", VInt 1); ("b", VInt 2)]
              [mk_style false false 0; mk_style true true 2] 1);
      [reflexivity|reflexivity|vm_compute; lia].
  - apply (H2 [("a", VInt 1); ("b", VInt 2)]); [reflexivity|vm_compute; lia].
  - apply (H3 [(VInt 1, true); (VInt 2, false); (VStr "x", true)]);
      [reflexivity|vm_compute; lia].
Defined.

(** The brackets of a token sequence that parses match: every [{] and [[]
    is closed by the bracket of its kind, in order, and nothing else is
    closed. *)
Theorem parsed_brackets_match (ts : list token) (table : symbol_table) :
  parse ts = Ok table -> well_nested ts = true.
Proof.
  intros H. apply parse_loop_nesting in H.
  unfold well_nested. now rewrite (H []).
Qed.

Lemma parsed_brackets_match_witness :
  well_nested (tokenize ("juego " ++ q "g" ++ " { a { b = [ { c : 1 } ] } }"))
  = true.
Proof.
  apply (parsed_brackets_match _
           [("g", [("a", VDict [("b", VList [VDict [("c", VInt 1)]])])])]).
  vm_compute. reflexivity.
Defined.

(* ----------------------------------------------------------------- *)
(** ** What the validators accept and when they raise *)

(** [validate_snake] returns valid exactly for the blocks that meet the
    minimal requirements of its documentation, and then the message is
    always the same. *)
Theorem snake_accepted_iff_requirements (cfg : dict) (msg : string) :
  validate_snake cfg = Ok (true, msg)
  <-> snake_requirements cfg = true /\ msg = "Snake OK".
Proof.
  unfold snake_requirements.
  destruct (missing_cases "rejilla" "velocidad" "controles" cfg)
    as [(x & l & Hm) | (_ & rej & vel & con & Hr & Hv & Hc)].
  { unfold validate_snake. rewrite Hm. split; [discriminate|].
    intros [H _].
    assert (E : missing ["rejilla"; "velocidad"; "controles"] cfg = []).
    { apply missing_get.
      destruct (get cfg "rejilla") as [rej|]; [|discriminate].
      destruct (get cfg "velocidad") as [vel|];
        [|destruct rej; discriminate].
      destruct (get cfg "controles") as [con|];
        [|destruct rej; try discriminate; destruct vel; discriminate].
      eauto 10. }
    congruence. }
  rewrite (validate_snake_sections _ _ _ _ Hr Hv Hc), Hr, Hv, Hc.
  destruct rej as [s|z|x|b0|l|rd];
    try (cbn [as_dict bind]; split; [discriminate|intros [H _]; discriminate]).
  cbn [as_dict bind]. rewrite ?int_gt0_positive. cbn [bind].
  destruct (positive_int rd "ancho"); cbn [negb andb].
  2:{ split; [discriminate|].
      intros [H _]. destruct vel; try discriminate; destruct con; discriminate. }
  rewrite ?int_gt0_positive. cbn [bind].
  destruct (positive_int rd "alto"); cbn [negb andb].
  2:{ split; [discriminate|].
      intros [H _]. destruct vel; try discriminate; destruct con; discriminate. }
  destruct vel as [s|z|x|b0|l|vd];
    try (cbn [as_dict bind]; split; [discriminate|intros [H _]; discriminate]).
  cbn [as_dict bind]. rewrite ?int_gt0_positive. cbn [bind].
  destruct (positive_int vd "tick_ms"); cbn [negb andb].
  2:{ split; [discriminate|]. intros [H _]. destruct con; discriminate. }
  destruct con as [s|z|x|b0|l|cd];
    try (cbn [as_dict bind]; split; [discriminate|intros [H _]; discriminate]).
  cbn [as_dict bind].
  pose proof (first_not_str_none cd
                ["arriba"; "abajo"; "izquierda"; "derecha"]) as Hn.
  destruct (first_not_str cd _) as [k|].
  - split; [discriminate|]. intros [H _].
    apply Hn in H. discriminate.
  - split.
    + intros H. injection H as <-. split; [now apply Hn|reflexivity].
    + intros [_ ->]. reflexivity.
Qed.

(** [validate_tetris] returns valid exactly for the blocks that meet the
    minimal requirements of its documentation and whose optional fields
    [soft_drop_ms] and [lock_delay_ms], where present, are integers (which
    the documentation does not say). *)
Theorem tetris_accepted_iff_requirements (cfg : dict) (msg : string) :
  validate_tetris cfg = Ok (true, msg)
  <-> tetris_requirements cfg = true /\ tetris_optional_fields cfg = true
      /\ msg = "Tetris OK".
Proof.
  unfold tetris_requirements, tetris_optional_fields.
  destruct (missing_cases "rejilla" "velocidad" "puntuacion" cfg)
    as [(x & l & Hm) | (_ & rej & vel & pun & Hr & Hv & Hp)].
  { unfold validate_tetris. rewrite Hm. split; [discriminate|].
    intros [H _].
    assert (E : missing ["rejilla"; "velocidad"; "puntuacion"] cfg = []).
    { apply missing_get.
      destruct (get cfg "rejilla") as [rej|]; [|discriminate].
      destruct (get cfg "velocidad") as [vel|];
        [|destruct rej; discriminate].
      destruct (get cfg "puntuacion") as [pun|];
        [|destruct rej; try discriminate; destruct vel; discriminate].
      eauto 10. }
    congruence. }
  rewrite (validate_tetris_sections _ _ _ _ Hr Hv Hp), Hr, Hv, Hp.
  destruct rej as [s|z|x|b0|l|rd];
    try (cbn [as_dict bind]; split; [discriminate|intros [H _]; discriminate]).
  cbn [as_dict bind]. rewrite ?int_gt0_positive. cbn [bind].
  destruct (positive_int rd "ancho"); cbn [negb andb].
  2:{ split; [discriminate|].
      intros [H _]. destruct vel; try discriminate; destruct pun; discriminate. }
  rewrite ?int_gt0_positive. cbn [bind].
  destruct (positive_int rd "alto"); cbn [negb andb].
  2:{ split; [discriminate|].
      intros [H _]. destruct vel; try discriminate; destruct pun; discriminate. }
  destruct vel as [s|z|x|b0|l|vd];
    try (cbn [as_dict bind]; split; [discriminate|intros [H _]; discriminate]).
  cbn [as_dict bind]. rewrite ?int_gt0_positive. cbn [bind].
  destruct (positive_int vd "gravedad_ms"); cbn [negb andb].
  2:{ split; [discriminate|]. intros [H _]. destruct pun; discriminate. }
  destruct pun as [s|z|x|b0|l|pd];
    try (cbn [as_dict bind]; split; [discriminate|intros [H _]; discriminate]).
  cbn [as_dict bind].
  destruct (get pd "por_linea") as [[s|z|x|b0|l|pl]|];
    try (split; [discriminate|intros [H _]; discriminate]).
  pose proof (first_bad_score_none pl ["1"; "2"; "3"; "4"]) as Hs.
  pose proof (first_bad_opt_none vd ["soft_drop_ms"; "lock_delay_ms"]) as Ho.
  destruct (first_bad_score pl _) as [k|].
  { split; [discriminate|]. intros [H _]. apply Hs in H. discriminate. }
  destruct (first_bad_opt vd _) as [o|].
  { split; [discriminate|]. intros (_ & H & _). apply Ho in H. discriminate. }
  split.
  - intros H. injection H as <-.
    split; [now apply Hs|split; [now apply Ho|reflexivity]].
  - intros (_ & _ & ->). reflexivity.
Qed.

(** The validators raise for one reason only: a section of the rule set
    that is bound to a value other than a block, on which [.get] is called.
    The exception is then the [AttributeError] of that call; no key is ever
    looked up that is not there. *)
Theorem validators_raise_on_scalar_sections :
  (forall cfg e,
      validate_snake cfg = Raise e ->
      scalar_section_error snake_sections cfg e)
  /\ (forall cfg e,
         validate_tetris cfg = Raise e ->
         scalar_section_error tetris_sections cfg e)
  /\ (forall table e,
         validate_all table = Raise e -> scalar_section_in table e).
Proof.
  split; [exact validate_snake_raises|].
  split; [exact validate_tetris_raises|exact validate_all_raises].
Qed.

Lemma validators_raise_on_scalar_sections_witness :
  scalar_section_error snake_sections boolean_tick_cfg
    (AttributeError (VInt 1) "get").
Proof.
  destruct validators_raise_on_scalar_sections as [H _].
  apply (H boolean_tick_cfg). reflexivity.
Defined.
